(** * gorep: the pattern compiler and the backtracking matcher

    A shallow embedding of [pkg/patterns] (the capture-enabled version of
    [ParsePattern], [Pattern.Match], [matchHereWithState],
    [matchHereWithCaptures] and [matchElementOnce]) together with the
    properties of the specification that concern them.

    The three earlier versions of the package are embedded as the modules
    [V1] (single-rune elements), [V2] (the quantifier [+]) and [V3] (groups
    of alternatives, [?] and the wildcard), and compared with the current
    version; so are the helpers [ParseGroups], [ContainsDigit] and
    [ContainsAlphanumeric].

    Conventions.
    - A Go [rune] (int32) and a Go [int] are integers of [Z]; every position
      handled by the matcher lies between 0 and [len(input)], so no [int]
      operation of the program can wrap around.
    - A Go [string] is its sequence of bytes; [string(runes)] and
      [[]rune(s)] are the UTF-8 encoder and decoder of the Go language.
    - A [[]string] slice is a reference into a store of arrays: the capture
      slices are mutated in place and passed around by reference.
    - A run of the matcher ends in a value, in a run-time panic, or does not
      end within the given number of nested calls ([OutOfFuel]). *)

From Stdlib Require Import ZArith String Ascii List Bool Lia.
Import ListNotations.
Open Scope Z_scope.

(* ------------------------------------------------------------------ *)
(** ** Runes, strings and UTF-8 *)

Abbreviation rune := Z (only parsing).
Abbreviation gostring := (list Z) (only parsing).

Definition len {A : Type} (l : list A) : Z := Z.of_nat (List.length l).

(** [l[i]]: [None] stands for the index-out-of-range panic. *)
Definition elem_at {A : Type} (l : list A) (i : Z) : option A :=
  if i <? 0 then None else nth_error l (Z.to_nat i).

(** [l[lo:hi]]: [None] stands for the slice-bounds panic. *)
Definition subslice {A : Type} (l : list A) (lo hi : Z) : option (list A) :=
  if (0 <=? lo) && (lo <=? hi) && (hi <=? len l)
  then Some (firstn (Z.to_nat (hi - lo)) (skipn (Z.to_nat lo) l))
  else None.

Definition RuneError : rune := 65533.

(** utf8.EncodeRune, as used by the conversion [string(rs)]. *)
Definition encodeRune (r : rune) : gostring :=
  if r <? 0 then [239; 191; 189]
  else if r <=? 127 then [r]
  else if r <=? 2047 then
    [Z.lor 192 (Z.shiftr r 6); Z.lor 128 (Z.land r 63)]
  else if (r >? 1114111) || ((55296 <=? r) && (r <=? 57343)) then
    [239; 191; 189]
  else if r <=? 65535 then
    [Z.lor 224 (Z.shiftr r 12);
     Z.lor 128 (Z.land (Z.shiftr r 6) 63);
     Z.lor 128 (Z.land r 63)]
  else
    [Z.lor 240 (Z.shiftr r 18);
     Z.lor 128 (Z.land (Z.shiftr r 12) 63);
     Z.lor 128 (Z.land (Z.shiftr r 6) 63);
     Z.lor 128 (Z.land r 63)].

Definition string_of_runes (rs : list rune) : gostring :=
  flat_map encodeRune rs.

Definition between (lo x hi : Z) : bool := (lo <=? x) && (x <=? hi).

Definition cont (b : Z) : bool := between 128 b 191.

(** utf8.DecodeRuneInString: the rune at the head of [s] and its width. *)
Definition decodeRune (s : gostring) : rune * nat :=
  match s with
  | [] => (RuneError, 0%nat)
  | b0 :: s1 =>
    if b0 <? 128 then (b0, 1%nat)
    else if between 194 b0 223 then
      match s1 with
      | b1 :: _ =>
        if cont b1
        then (Z.lor (Z.shiftl (Z.land b0 31) 6) (Z.land b1 63), 2%nat)
        else (RuneError, 1%nat)
      | _ => (RuneError, 1%nat)
      end
    else if between 224 b0 239 then
      match s1 with
      | b1 :: b2 :: _ =>
        let lo := if b0 =? 224 then 160 else 128 in
        let hi := if b0 =? 237 then 159 else 191 in
        if between lo b1 hi && cont b2
        then (Z.lor (Z.shiftl (Z.land b0 15) 12)
                (Z.lor (Z.shiftl (Z.land b1 63) 6) (Z.land b2 63)), 3%nat)
        else (RuneError, 1%nat)
      | _ => (RuneError, 1%nat)
      end
    else if between 240 b0 244 then
      match s1 with
      | b1 :: b2 :: b3 :: _ =>
        let lo := if b0 =? 240 then 144 else 128 in
        let hi := if b0 =? 244 then 143 else 191 in
        if between lo b1 hi && cont b2 && cont b3
        then (Z.lor (Z.shiftl (Z.land b0 7) 18)
                (Z.lor (Z.shiftl (Z.land b1 63) 12)
                   (Z.lor (Z.shiftl (Z.land b2 63) 6) (Z.land b3 63))), 4%nat)
        else (RuneError, 1%nat)
      | _ => (RuneError, 1%nat)
      end
    else (RuneError, 1%nat)
  end.

(** [[]rune(s)]: one rune per decoded sequence, one [RuneError] per invalid
    byte.  [k] counts the bytes of the rune being skipped. *)
Fixpoint runes_from (k : nat) (s : gostring) : list rune :=
  match s with
  | [] => []
  | _ :: s' =>
    match k with
    | O => let (r, w) := decodeRune s in r :: runes_from (Nat.pred w) s'
    | S k' => runes_from k' s'
    end
  end.

Definition runes_of_string (s : gostring) : list rune := runes_from 0 s.

(** Unicode scalar values: the code points outside the surrogate range. *)
Definition scalar (r : rune) : Prop :=
  0 <= r <= 55295 \/ 57344 <= r <= 1114111.

Definition byte (b : Z) : Prop := 0 <= b <= 255.

(** A Go string literal, written as a Rocq string of its UTF-8 bytes. *)
Definition lit (s : string) : gostring :=
  map (fun c => Z.of_nat (nat_of_ascii c)) (list_ascii_of_string s).

Definition runes (s : string) : list rune := runes_of_string (lit s).

Fixpoint list_eqb (a b : list Z) : bool :=
  match a, b with
  | [], [] => true
  | x :: a', y :: b' => (x =? y) && list_eqb a' b'
  | _, _ => false
  end.

(* ------------------------------------------------------------------ *)
(** ** Outcomes of a run *)

Inductive outcome (A : Type) : Type :=
| Done (a : A)
| Panic
| OutOfFuel.
Arguments Done {A} a.
Arguments Panic {A}.
Arguments OutOfFuel {A}.

Definition bind {A B : Type} (m : outcome A) (k : A -> outcome B) : outcome B :=
  match m with
  | Done a => k a
  | Panic => Panic
  | OutOfFuel => OutOfFuel
  end.

Definition orPanic {A : Type} (o : option A) : outcome A :=
  match o with
  | Some a => Done a
  | None => Panic
  end.

Declare Scope outcome_scope.
Delimit Scope outcome_scope with outcome.
Notation "x <- m ;; k" := (bind m (fun x => k))
  (at level 61, m at next level, right associativity) : outcome_scope.
Notation "' p <- m ;; k" := (bind m (fun x => match x with p => k end))
  (at level 61, p pattern, m at next level, right associativity) : outcome_scope.
Open Scope outcome_scope.

(* ------------------------------------------------------------------ *)
(** ** The compiled pattern *)

Inductive PatternElement : Type :=
| LiteralMatcher (char : rune)
| DigitMatcher
| AlphanumericMatcher
| CharacterSetMatcher (chars : list rune) (negated : bool)
| OneOrMoreMatcher (matcher : PatternElement)
| ZeroOrOneMatcher (matcher : PatternElement)
| WildcardMatcher
| AlternationMatcher (alternatives : list Pattern)
| GroupMatcher (index : Z) (pattern : Pattern)
| BackReferenceMatcher (index : Z)
with Pattern : Type :=
| mkPattern (elements : list PatternElement)
            (startAnchor endAnchor : bool) (groupCount : Z).

Definition elements (p : Pattern) : list PatternElement :=
  match p with mkPattern els _ _ _ => els end.
Definition startAnchor (p : Pattern) : bool :=
  match p with mkPattern _ sa _ _ => sa end.
Definition endAnchor (p : Pattern) : bool :=
  match p with mkPattern _ _ ea _ => ea end.
Definition groupCount (p : Pattern) : Z :=
  match p with mkPattern _ _ _ gc => gc end.

(** [p.groupCount = n] *)
Definition set_groupCount (p : Pattern) (n : Z) : Pattern :=
  mkPattern (elements p) (startAnchor p) (endAnchor p) n.

(* ------------------------------------------------------------------ *)
(** ** The compiler: ParsePattern *)

Notation "'LPAREN'" := 40 (only parsing).
Notation "'RPAREN'" := 41 (only parsing).
Notation "'BAR'" := 124 (only parsing).
Notation "'CARET'" := 94 (only parsing).
Notation "'DOLLAR'" := 36 (only parsing).
Notation "'DOT'" := 46 (only parsing).
Notation "'BACKSLASH'" := 92 (only parsing).
Notation "'LBRACKET'" := 91 (only parsing).
Notation "'RBRACKET'" := 93 (only parsing).
Notation "'PLUS'" := 43 (only parsing).
Notation "'QUESTION'" := 63 (only parsing).

Inductive result (A : Type) : Type :=
| Ok (a : A)
| MissingClosingParenthesis
| Exhausted.
Arguments Ok {A} a.
Arguments MissingClosingParenthesis {A}.
Arguments Exhausted {A}.

Definition rbind {A B : Type} (m : result A) (k : A -> result B) : result B :=
  match m with
  | Ok a => k a
  | MissingClosingParenthesis => MissingClosingParenthesis
  | Exhausted => Exhausted
  end.

(** The check for a quantifier that follows every atom but a
    backreference: [rest] is [runes[i+1:]]; the result is the element to
    append and the runes left after it. *)
Definition quantifier (element : PatternElement) (rest : list rune)
  : PatternElement * list rune :=
  match rest with
  | r :: rest' =>
    if r =? PLUS then (OneOrMoreMatcher element, rest')
    else if r =? QUESTION then (ZeroOrOneMatcher element, rest')
    else (element, rest)
  | [] => (element, rest)
  end.

(** The scan for the closing parenthesis, entered after the opening one
    with [depth = 1]: the runes before the closing parenthesis and the runes
    after it, or [None] when the runes end with [depth > 0]. *)
Fixpoint findClose (depth : Z) (rs : list rune) : option (list rune * list rune) :=
  match rs with
  | [] => None
  | r :: rs' =>
    let depth' := if r =? LPAREN then depth + 1
                  else if r =? RPAREN then depth - 1 else depth in
    if depth' >? 0 then
      match findClose depth' rs' with
      | Some (inner, rest) => Some (r :: inner, rest)
      | None => None
      end
    else Some ([], rs')
  end.

(** The members of a character set: the runes up to the next [']'] and the
    runes from it on. *)
Fixpoint setChars (rs : list rune) : list rune * list rune :=
  match rs with
  | [] => ([], [])
  | r :: rs' =>
    if r =? RBRACKET then ([], rs)
    else let (chars, rest) := setChars rs' in (r :: chars, rest)
  end.

(** The loop of parseAlternatives: [rs] is [runes[i:]], [cur] is
    [runes[start:i]]; [parse] is parsePatternInternal and [cnt] the value
    of [*groupCounter]. *)
Fixpoint parseAlternatives_loop
    (parse : list rune -> Z -> result (Pattern * Z))
    (rs : list rune) (depth : Z) (cur : list rune)
    (alternatives : list Pattern) (cnt : Z) : result (list Pattern * Z) :=
  match rs with
  | [] =>
    match cur with
    | [] => Ok (alternatives, cnt)
    | _ :: _ =>
      rbind (parse cur cnt) (fun '(alt, cnt') =>
      Ok (alternatives ++ [alt], cnt'))
    end
  | r :: rs' =>
    if r =? LPAREN then
      parseAlternatives_loop parse rs' (depth + 1) (cur ++ [r]) alternatives cnt
    else if r =? RPAREN then
      parseAlternatives_loop parse rs' (depth - 1) (cur ++ [r]) alternatives cnt
    else if (r =? BAR) && (depth =? 0) then
      rbind (parse cur cnt) (fun '(alt, cnt') =>
      parseAlternatives_loop parse rs' depth [] (alternatives ++ [alt]) cnt')
    else
      parseAlternatives_loop parse rs' depth (cur ++ [r]) alternatives cnt
  end.

Definition parseAlternatives
    (parse : list rune -> Z -> result (Pattern * Z))
    (pattern : list rune) (cnt : Z) : result (list Pattern * Z) :=
  parseAlternatives_loop parse pattern 0 [] [] cnt.

(** The two anchor checks at the head of parsePatternInternal. *)
Definition stripStart (rs : list rune) : bool * list rune :=
  match rs with
  | r :: rs' => if r =? CARET then (true, rs') else (false, rs)
  | [] => (false, rs)
  end.

Definition stripEnd (rs : list rune) : bool * list rune :=
  match rs with
  | _ :: _ => if last rs 0 =? DOLLAR then (true, removelast rs) else (false, rs)
  | [] => (false, rs)
  end.

(** parsePatternInternal, given its main loop [parseElems]. *)
Definition parsePatternInternal_with
    (parseElems : list rune -> Z -> result (list PatternElement * Z))
    (pattern : list rune) (cnt : Z) : result (Pattern * Z) :=
  let (startAnchor, runes1) := stripStart pattern in
  let (endAnchor, runes2) := stripEnd runes1 in
  rbind (parseElems runes2 cnt) (fun '(elements, cnt') =>
  Ok (mkPattern elements startAnchor endAnchor cnt', cnt')).

(** The main loop of parsePatternInternal: [rs] is [runes[i:]], the result
    is the elements appended from [i] on and the final [*groupCounter].
    Every iteration, and every nested parse of a group body, takes one unit
    of [fuel]. *)
Fixpoint parseElements (fuel : nat) (rs : list rune) (cnt : Z)
  : result (list PatternElement * Z) :=
  match fuel with
  | O => Exhausted
  | S fuel' =>
    match rs with
    | [] => Ok ([], cnt)
    | r :: rest =>
      if r =? LPAREN then
        let groupIndex := cnt + 1 in
        match findClose 1 rest with
        | None => MissingClosingParenthesis
        | Some (innerPatternStr, after) =>
          rbind (parseAlternatives
                   (parsePatternInternal_with (parseElements fuel'))
                   innerPatternStr groupIndex) (fun '(alts, cnt') =>
          let inner :=
            match alts with
            | [alt] => alt
            | _ => mkPattern [AlternationMatcher alts] false false 0
            end in
          let inner := set_groupCount inner cnt' in
          let (element, after') :=
            quantifier (GroupMatcher groupIndex inner) after in
          rbind (parseElements fuel' after' cnt') (fun '(els, cnt'') =>
          Ok (element :: els, cnt'')))
        end
      else if r =? DOT then
        let (element, after) := quantifier WildcardMatcher rest in
        rbind (parseElements fuel' after cnt) (fun '(els, cnt') =>
        Ok (element :: els, cnt'))
      else if r =? BACKSLASH then
        match rest with
        | [] => parseElements fuel' [] cnt
        | c :: rest' =>
          if (49 <=? c) && (c <=? 57) then
            rbind (parseElements fuel' rest' cnt) (fun '(els, cnt') =>
            Ok (BackReferenceMatcher (c - 48) :: els, cnt'))
          else
            let atom := if c =? 100 then DigitMatcher
                        else if c =? 119 then AlphanumericMatcher
                        else LiteralMatcher c in
            let (element, after) := quantifier atom rest' in
            rbind (parseElements fuel' after cnt) (fun '(els, cnt') =>
            Ok (element :: els, cnt'))
        end
      else if r =? LBRACKET then
        let (negated, rest1) :=
          match rest with
          | c :: rest' => if c =? CARET then (true, rest') else (false, rest)
          | [] => (false, rest)
          end in
        let (chars, rest2) := setChars rest1 in
        let (element, after) :=
          quantifier (CharacterSetMatcher chars negated) (tl rest2) in
        rbind (parseElements fuel' after cnt) (fun '(els, cnt') =>
        Ok (element :: els, cnt'))
      else
        let (element, after) := quantifier (LiteralMatcher r) rest in
        rbind (parseElements fuel' after cnt) (fun '(els, cnt') =>
        Ok (element :: els, cnt'))
    end
  end.

Definition parsePatternInternal (fuel : nat) (pattern : list rune) (cnt : Z)
  : result (Pattern * Z) :=
  parsePatternInternal_with (parseElements fuel) pattern cnt.

(** ParsePattern, on the runes of the pattern.  A pattern of [n] runes needs
    no more than [n + 1] iterations and nested parses (lemma
    [parseElements_total] below). *)
Definition ParseRunes (rs : list rune) : result Pattern :=
  rbind (parsePatternInternal (S (List.length rs)) rs 0) (fun '(p, counter) =>
  Ok (set_groupCount p counter)).

Definition ParsePattern (pattern : gostring) : result Pattern :=
  ParseRunes (runes_of_string pattern).

Definition compile (s : string) : result Pattern := ParsePattern (lit s).

(* ------------------------------------------------------------------ *)
(** ** Capture slices

    A [[]string] value is [nil] or a reference to an array of the store.
    The matcher only ever makes whole arrays ([make([]string, n)]), so a
    slice is identified with its array. *)

Inductive slice : Type :=
| nilslice
| Slice (addr : nat).

Definition store := list (list gostring).

Definition contents (h : store) (s : slice) : list gostring :=
  match s with
  | nilslice => []
  | Slice a => nth a h []
  end.

Fixpoint list_set {A : Type} (l : list A) (n : nat) (v : A) : list A :=
  match l, n with
  | [], _ => []
  | _ :: t, O => v :: t
  | x :: t, S n' => x :: list_set t n' v
  end.

Definition update (h : store) (s : slice) (v : list gostring) : store :=
  match s with
  | nilslice => h
  | Slice a => list_set h a v
  end.

(** [make([]string, n)] *)
Definition make (n : Z) (h : store) : outcome (slice * store) :=
  if n <? 0 then Panic
  else Done (Slice (List.length h), h ++ [repeat [] (Z.to_nat n)]).

(** [copy(dst, src)] *)
Definition copy (dst src : slice) (h : store) : store :=
  let d := contents h dst in
  let s := contents h src in
  let n := Nat.min (List.length d) (List.length s) in
  update h dst (firstn n s ++ skipn n d).

(** [s[i]] *)
Definition load (h : store) (s : slice) (i : Z) : outcome gostring :=
  orPanic (elem_at (contents h s) i).

(** [s[i] = v] *)
Definition assign (h : store) (s : slice) (i : Z) (v : gostring) : outcome store :=
  if (0 <=? i) && (i <? len (contents h s))
  then Done (update h s (list_set (contents h s) (Z.to_nat i) v))
  else Panic.

(** [cp := make([]string, len(src)); copy(cp, src)] *)
Definition snapshot (src : slice) (h : store) : outcome (slice * store) :=
  '(cp, h) <- make (len (contents h src)) h ;;
  Done (cp, copy cp src h).

(* ------------------------------------------------------------------ *)
(** ** The matcher *)

Definition stateResult : Type := bool * Z * slice * store.
Definition capturesResult : Type := bool * Z * store.

Section Matcher.

(** The tables of the Go [unicode] package. *)
Variable IsDigit : rune -> bool.
Variable IsLetter : rune -> bool.

(** The method [Match(r rune) bool] of the ten element types. *)
Fixpoint ElementMatch (e : PatternElement) (r : rune) : bool :=
  match e with
  | LiteralMatcher char => char =? r
  | DigitMatcher => IsDigit r
  | AlphanumericMatcher => IsLetter r || IsDigit r || (r =? 95)
  | CharacterSetMatcher chars negated =>
    if existsb (Z.eqb r) chars then negb negated else negated
  | OneOrMoreMatcher matcher => ElementMatch matcher r
  | ZeroOrOneMatcher matcher => ElementMatch matcher r
  | WildcardMatcher => negb (r =? 10)
  | AlternationMatcher _ => false
  | GroupMatcher _ _ => false
  | BackReferenceMatcher _ => false
  end.

(** The comparison loop of matchElementOnce: [p] is [pos+i] and [capRunes]
    is [capRunes[i:]]. *)
Fixpoint compareRunes (input : list rune) (p : Z) (capRunes : list rune)
  : outcome bool :=
  match capRunes with
  | [] => Done true
  | c :: capRunes' =>
    r <- orPanic (elem_at input p) ;;
    if negb (r =? c) then Done false
    else compareRunes input (p + 1) capRunes'
  end.

Section Calls.

(** The calls of the three mutually recursive functions, and the next
    iteration of the [for] loop of matchHereWithCaptures. *)
Variable callState :
  Pattern -> list rune -> Z -> slice -> store -> outcome stateResult.
Variable callCaptures :
  Pattern -> list rune -> Z -> slice -> store -> outcome capturesResult.
Variable callOnce :
  PatternElement -> list rune -> Z -> slice -> store -> outcome stateResult.
Variable callRepeat :
  PatternElement -> Pattern -> list rune -> Z -> slice -> slice -> store ->
  outcome capturesResult.

Definition matchElementOnce_body (element : PatternElement)
    (input : list rune) (pos : Z) (captures : slice) (h : store)
  : outcome stateResult :=
  match element with
  | GroupMatcher index pattern =>
    '(cp, h) <- snapshot captures h ;;
    '(ok, newPos, h) <- callCaptures pattern input pos cp h ;;
    if ok then
      matched <- orPanic (subslice input pos newPos) ;;
      h <- assign h cp (index - 1) (string_of_runes matched) ;;
      Done (true, newPos, cp, h)
    else Done (false, 0, nilslice, h)
  | BackReferenceMatcher index =>
    if (index - 1 <? 0) || (index - 1 >=? len (contents h captures))
    then Done (false, 0, nilslice, h)
    else
      capStr <- load h captures (index - 1) ;;
      match capStr with
      | [] => Done (false, 0, nilslice, h)
      | _ :: _ =>
        let capRunes := runes_of_string capStr in
        if pos + len capRunes >? len input then Done (false, 0, nilslice, h)
        else
          matched <- compareRunes input pos capRunes ;;
          if matched then Done (true, pos + len capRunes, captures, h)
          else Done (false, 0, nilslice, h)
      end
  | _ =>
    if pos >=? len input then Done (false, 0, nilslice, h)
    else
      r <- orPanic (elem_at input pos) ;;
      if negb (ElementMatch element r) then Done (false, 0, nilslice, h)
      else Done (true, pos + 1, captures, h)
  end.

(** The [for currentPos := pos; currentPos <= len(input); currentPos++]
    loop of matchHereWithState; [k] bounds the iterations left. *)
Fixpoint oneOrMore_loop (remaining : Pattern) (matcher : PatternElement)
    (input : list rune) (k : nat) (currentPos pos : Z)
    (captures : slice) (h : store) : outcome stateResult :=
  match k with
  | O => Done (false, pos, captures, h)
  | S k' =>
    if currentPos <=? len input then
      '(ok, finalPos, finalCaptures, h) <-
         callState remaining input currentPos captures h ;;
      if ok then Done (true, finalPos, finalCaptures, h)
      else if currentPos <? len input then
        r <- orPanic (elem_at input currentPos) ;;
        if ElementMatch matcher r
        then oneOrMore_loop remaining matcher input k'
               (currentPos + 1) (currentPos + 1) captures h
        else Done (false, pos, captures, h)
      else Done (false, pos, captures, h)
    else Done (false, pos, captures, h)
  end.

(** The [for _, alt := range e.alternatives] loop of matchHereWithState. *)
Fixpoint alternatives_loop (remaining : Pattern) (alternatives : list Pattern)
    (input : list rune) (pos : Z) (captures : slice) (h : store)
  : outcome stateResult :=
  match alternatives with
  | [] => Done (false, pos, captures, h)
  | alt :: alternatives' =>
    '(ok, newPos, newCaptures, h) <- callState alt input pos captures h ;;
    if ok then callState remaining input newPos newCaptures h
    else alternatives_loop remaining alternatives' input pos captures h
  end.

Definition matchHereWithState_body (p : Pattern) (input : list rune)
    (pos : Z) (captures : slice) (h : store) : outcome stateResult :=
  match elements p with
  | [] =>
    if negb (endAnchor p) || (pos =? len input)
    then Done (true, pos, captures, h)
    else Done (false, pos, captures, h)
  | element :: rest =>
    let remaining := mkPattern rest false (endAnchor p) (groupCount p) in
    match element with
    | GroupMatcher index pattern =>
      '(ok, newPos, _, h) <- callState pattern input pos captures h ;;
      if ok then
        matched <- orPanic (subslice input pos newPos) ;;
        h <- assign h captures (index - 1) (string_of_runes matched) ;;
        '(ok2, finalPos, finalCaptures, h) <-
           callState remaining input newPos captures h ;;
        if ok2 then Done (true, finalPos, finalCaptures, h)
        else Done (false, pos, captures, h)
      else Done (false, pos, captures, h)
    | BackReferenceMatcher index =>
      if (index <? 1) || (index >? len (contents h captures))
      then Done (false, pos, captures, h)
      else
        captured <- load h captures (index - 1) ;;
        match captured with
        | [] => Done (false, pos, captures, h)
        | _ :: _ =>
          if pos + len captured >? len input
          then Done (false, pos, captures, h)
          else
            s <- orPanic (subslice input pos (pos + len captured)) ;;
            if negb (list_eqb (string_of_runes s) captured)
            then Done (false, pos, captures, h)
            else callState remaining input (pos + len captured) captures h
        end
    | OneOrMoreMatcher matcher =>
      '(ok, newPos, newCaptures, h) <- callOnce matcher input pos captures h ;;
      if negb ok then Done (false, pos, captures, h)
      else
        oneOrMore_loop remaining matcher input
          (Z.to_nat (len input + 1 - newPos)) newPos newPos newCaptures h
    | ZeroOrOneMatcher matcher =>
      '(ok, newPos, newCaptures, h) <-
         callState remaining input pos captures h ;;
      if ok then Done (true, newPos, newCaptures, h)
      else
        '(ok, newPos, newCaptures, h) <-
           callOnce matcher input pos captures h ;;
        if ok then callState remaining input newPos newCaptures h
        else Done (false, pos, captures, h)
    | AlternationMatcher alternatives =>
      alternatives_loop remaining alternatives input pos captures h
    | _ =>
      '(ok, newPos, newCaptures, h) <- callOnce element input pos captures h ;;
      if ok then callState remaining input newPos newCaptures h
      else Done (false, pos, captures, h)
    end
  end.

(** The [for _, alt := range q.alternatives] loop of
    matchHereWithCaptures. *)
Fixpoint alternatives_loop_captures (remainingPattern : Pattern)
    (alternatives : list Pattern) (input : list rune) (inputPos : Z)
    (captures : slice) (h : store) : outcome capturesResult :=
  match alternatives with
  | [] => Done (false, 0, h)
  | alt :: alternatives' =>
    '(cp, h) <- snapshot captures h ;;
    '(ok, altPos, h) <- callCaptures alt input inputPos cp h ;;
    if ok then
      '(ok2, finalPos, h) <- callCaptures remainingPattern input altPos cp h ;;
      if ok2 then Done (true, finalPos, copy captures cp h)
      else alternatives_loop_captures remainingPattern alternatives'
             input inputPos captures h
    else alternatives_loop_captures remainingPattern alternatives'
           input inputPos captures h
  end.

(** One iteration of the unbounded [for { ... }] loop of
    matchHereWithCaptures. *)
Definition repeat_body (matcher : PatternElement) (remainingPattern : Pattern)
    (input : list rune) (inputPos : Z) (cp captures : slice) (h : store)
  : outcome capturesResult :=
  '(tryCp, h) <- snapshot cp h ;;
  '(ok, newPosRem, h) <- callCaptures remainingPattern input inputPos tryCp h ;;
  if ok then Done (true, newPosRem, copy captures tryCp h)
  else
    '(ok2, nextPos, nextCp, h) <- callOnce matcher input inputPos cp h ;;
    if negb ok2 then Done (false, 0, h)
    else callRepeat matcher remainingPattern input nextPos cp captures
           (copy cp nextCp h).

(** The [for patternPos < len(p.elements)] loop of matchHereWithCaptures:
    [els] is [p.elements[patternPos:]]. *)
Fixpoint matchHereWithCaptures_loop (p : Pattern) (els : list PatternElement)
    (input : list rune) (inputPos : Z) (captures : slice) (h : store)
  : outcome capturesResult :=
  match els with
  | [] =>
    if endAnchor p then Done (inputPos =? len input, inputPos, h)
    else Done (true, inputPos, h)
  | element :: rest =>
    let remainingPattern :=
      mkPattern rest false (endAnchor p) (groupCount p) in
    match element with
    | AlternationMatcher alternatives =>
      alternatives_loop_captures remainingPattern alternatives
        input inputPos captures h
    | OneOrMoreMatcher matcher =>
      '(cp, h) <- snapshot captures h ;;
      '(ok, newPos, newCp, h) <- callOnce matcher input inputPos cp h ;;
      if negb ok then Done (false, 0, h)
      else callRepeat matcher remainingPattern input newPos cp captures
             (copy cp newCp h)
    | ZeroOrOneMatcher matcher =>
      '(cpZero, h) <- snapshot captures h ;;
      '(ok, newPos, h) <-
         callCaptures remainingPattern input inputPos cpZero h ;;
      if ok then Done (true, newPos, copy captures cpZero h)
      else
        '(cp, h) <- snapshot captures h ;;
        '(ok, newPos, newCp, h) <- callOnce matcher input inputPos cp h ;;
        if ok then
          '(ok2, newPos2, h) <-
             callCaptures remainingPattern input newPos newCp h ;;
          if ok2 then Done (true, newPos2, copy captures newCp h)
          else Done (false, 0, h)
        else Done (false, 0, h)
    | _ =>
      '(ok, newPos, newCp, h) <- callOnce element input inputPos captures h ;;
      if negb ok then Done (false, 0, h)
      else matchHereWithCaptures_loop p rest input newPos captures
             (copy captures newCp h)
    end
  end.

Definition matchHereWithCaptures_body (p : Pattern) (input : list rune)
    (pos : Z) (captures : slice) (h : store) : outcome capturesResult :=
  matchHereWithCaptures_loop p (elements p) input pos captures h.

End Calls.

(** The three functions; [fuel] bounds the depth of nested calls plus the
    iterations of the unbounded loop. *)
Fixpoint matchHereWithCaptures (fuel : nat) (p : Pattern) (input : list rune)
    (pos : Z) (captures : slice) (h : store) {struct fuel}
  : outcome capturesResult :=
  match fuel with
  | O => OutOfFuel
  | S fuel' =>
    matchHereWithCaptures_body (matchHereWithCaptures fuel')
      (matchElementOnce fuel') (repeat_loop fuel') p input pos captures h
  end
with matchElementOnce (fuel : nat) (element : PatternElement)
    (input : list rune) (pos : Z) (captures : slice) (h : store) {struct fuel}
  : outcome stateResult :=
  match fuel with
  | O => OutOfFuel
  | S fuel' =>
    matchElementOnce_body (matchHereWithCaptures fuel')
      element input pos captures h
  end
with repeat_loop (fuel : nat) (matcher : PatternElement)
    (remainingPattern : Pattern) (input : list rune) (inputPos : Z)
    (cp captures : slice) (h : store) {struct fuel}
  : outcome capturesResult :=
  match fuel with
  | O => OutOfFuel
  | S fuel' =>
    repeat_body (matchHereWithCaptures fuel') (matchElementOnce fuel')
      (repeat_loop fuel') matcher remainingPattern input inputPos cp captures h
  end.

Fixpoint matchHereWithState (fuel : nat) (p : Pattern) (input : list rune)
    (pos : Z) (captures : slice) (h : store) {struct fuel}
  : outcome stateResult :=
  match fuel with
  | O => OutOfFuel
  | S fuel' =>
    matchHereWithState_body (matchHereWithState fuel')
      (matchElementOnce fuel') p input pos captures h
  end.

(** The loop over the start positions of Pattern.Match; [k] bounds the
    iterations left. *)
Fixpoint Match_loop (fuel : nat) (p : Pattern) (input : list rune)
    (k : nat) (startPos : Z) (h : store) : outcome bool :=
  match k with
  | O => Done false
  | S k' =>
    if startPos <=? len input then
      '(captures, h) <- make (groupCount p) h ;;
      '(ok, _, _, h) <- matchHereWithState fuel p input startPos captures h ;;
      if ok then Done true
      else Match_loop fuel p input k' (startPos + 1) h
    else Done false
  end.

Definition Match (fuel : nat) (p : Pattern) (input : list rune) : outcome bool :=
  if startAnchor p then
    '(captures, h) <- make (groupCount p) [] ;;
    '(ok, _, _, _) <- matchHereWithState fuel p input 0 captures h ;;
    Done ok
  else Match_loop fuel p input (S (List.length input)) 0 [].

(** compile(pattern).find(input) *)
Definition find (fuel : nat) (pattern input : string) : option (outcome bool) :=
  match compile pattern with
  | Ok p => Some (Match fuel p (runes input))
  | _ => None
  end.

End Matcher.

(** The ASCII part of the Unicode tables, to run the matcher on examples. *)
Definition asciiIsDigit (r : rune) : bool := between 48 r 57.
Definition asciiIsLetter (r : rune) : bool :=
  between 65 r 90 || between 97 r 122.

(* ------------------------------------------------------------------ *)
(** ** Runs that end: refinement by fuel *)

(** [refines a b]: [b] is the outcome [a] of a run with less fuel, unless
    that run was cut short. *)
Definition refines {A : Type} (a b : outcome A) : Prop :=
  a = OutOfFuel \/ a = b.

(** ** Invariants of the store *)

(** [s] refers to an array of [h]. *)
Definition live (h : store) (s : slice) : Prop :=
  match s with
  | nilslice => False
  | Slice a => (a < List.length h)%nat
  end.

(** Every array of the store has [n] entries: all capture slices of one
    call of Match have the length [groupCount] of the outer pattern. *)
Definition well_sized (n : nat) (h : store) : Prop :=
  Forall (fun arr => List.length arr = n) h.

(** ** The pattern ((a?)+b)+ *)

Definition G2 : Pattern :=
  mkPattern [ZeroOrOneMatcher (LiteralMatcher 97)] false false 2.
Definition Rb : Pattern := mkPattern [LiteralMatcher 98] false false 2.
Definition G1 : Pattern :=
  mkPattern [OneOrMoreMatcher (GroupMatcher 2 G2); LiteralMatcher 98]
    false false 2.

(** ** Patterns without groups

    A pattern text without parentheses compiles to single-rune elements,
    quantified single-rune elements and backreferences.  For such a
    pattern, and while no group has captured anything, the search of
    matchHereWithState is the function [flat_here] of the position. *)

Definition is_atom (e : PatternElement) : bool :=
  match e with
  | LiteralMatcher _ | DigitMatcher | AlphanumericMatcher
  | CharacterSetMatcher _ _ | WildcardMatcher => true
  | _ => false
  end.

Definition is_flat (e : PatternElement) : bool :=
  match e with
  | OneOrMoreMatcher m | ZeroOrOneMatcher m => is_atom m
  | BackReferenceMatcher _ => true
  | _ => is_atom e
  end.

Definition is_plain (e : PatternElement) : bool :=
  match e with
  | OneOrMoreMatcher m | ZeroOrOneMatcher m => is_atom m
  | _ => is_atom e
  end.

(** No group has captured anything yet. *)
Definition unset (h : store) (s : slice) : Prop :=
  Forall (fun captured => captured = []) (contents h s).

Section Flat.

Variable IsDigit : rune -> bool.
Variable IsLetter : rune -> bool.

(** [m] accepts the rune at [pos]. *)
Definition accepts (m : PatternElement) (input : list rune) (pos : Z) : bool :=
  match elem_at input pos with
  | Some r => ElementMatch IsDigit IsLetter m r
  | None => false
  end.

Fixpoint flat_loop (try : Z -> option Z) (m : PatternElement)
    (input : list rune) (k : nat) (cur : Z) : option Z :=
  match k with
  | O => None
  | S k' =>
    if cur <=? len input then
      match try cur with
      | Some e => Some e
      | None =>
        if accepts m input cur then flat_loop try m input k' (cur + 1)
        else None
      end
    else None
  end.

Fixpoint flat_here (els : list PatternElement) (ea : bool)
    (input : list rune) (pos : Z) : option Z :=
  match els with
  | [] => if negb ea || (pos =? len input) then Some pos else None
  | e :: rest =>
    match e with
    | OneOrMoreMatcher m =>
      if accepts m input pos
      then flat_loop (flat_here rest ea input) m input
             (Z.to_nat (len input + 1 - (pos + 1))) (pos + 1)
      else None
    | ZeroOrOneMatcher m =>
      match flat_here rest ea input pos with
      | Some e => Some e
      | None =>
        if accepts m input pos then flat_here rest ea input (pos + 1)
        else None
      end
    | BackReferenceMatcher _ => None
    | _ => if accepts e input pos then flat_here rest ea input (pos + 1) else None
    end
  end.

(** The start positions [start, start+1, ...] up to [len(input)], [k] at
    most, at one of which [f] holds. *)
Fixpoint any_start (f : Z -> bool) (input : list rune) (k : nat) (start : Z)
  : bool :=
  match k with
  | O => false
  | S k' =>
    if start <=? len input then f start || any_start f input k' (start + 1)
    else false
  end.

End Flat.

Section Runs.

Variable IsDigit : rune -> bool.
Variable IsLetter : rune -> bool.

(** Every rune of [input[pos:q]] is accepted by [X]. *)
Definition run_of (X : PatternElement) (input : list rune) (pos q : Z) : Prop :=
  forall i, pos <= i < q -> accepts IsDigit IsLetter X input i = true.

(** The reading of C3 in the specification: when X+Y matches at [pos], the
    + has consumed the longest run of X followed by Y. *)
Definition plus_is_greedy (X : PatternElement) (y : rune) (input : list rune)
    (pos : Z) (fuel : nat) : Prop :=
  forall sa gc c h e c' h',
    matchHereWithState IsDigit IsLetter fuel
      (mkPattern [OneOrMoreMatcher X; LiteralMatcher y] sa false gc)
      input pos c h = Done (true, e, c', h') ->
    forall q, pos < q -> run_of X input pos q -> elem_at input q = Some y ->
    q + 1 <= e.

End Runs.

(* ------------------------------------------------------------------ *)
(** ** The text of a pattern *)

(** The effect of one rune on the nesting depth counted by the scans for
    parentheses; the scans look at no escape and at no character set. *)
Definition delta (r : rune) : Z :=
  if r =? LPAREN then 1 else if r =? RPAREN then -1 else 0.

Fixpoint depth_of (t : list rune) : Z :=
  match t with
  | [] => 0
  | r :: t' => delta r + depth_of t'
  end.

(** From depth [d] on, the depth never falls below zero along [t]. *)
Fixpoint nonneg (d : Z) (t : list rune) : Prop :=
  match t with
  | [] => True
  | r :: t' => 0 <= d + delta r /\ nonneg (d + delta r) t'
  end.

(** No suffix of [t] opens more parentheses than it closes. *)
Fixpoint closable (t : list rune) : Prop :=
  match t with
  | [] => True
  | _ :: t' => depth_of t <= 0 /\ closable t'
  end.

(** The element appended for the atom that begins with [r], a rune other
    than the opening parenthesis, and the runes left after it.  No element
    is appended for a lone backslash at the end. *)
Definition scanAtom (r : rune) (rest : list rune)
  : option PatternElement * list rune :=
  if r =? DOT then
    let (element, after) := quantifier WildcardMatcher rest in
    (Some element, after)
  else if r =? BACKSLASH then
    match rest with
    | [] => (None, [])
    | c :: rest' =>
      if (49 <=? c) && (c <=? 57) then (Some (BackReferenceMatcher (c - 48)), rest')
      else
        let atom := if c =? 100 then DigitMatcher
                    else if c =? 119 then AlphanumericMatcher
                    else LiteralMatcher c in
        let (element, after) := quantifier atom rest' in
        (Some element, after)
    end
  else if r =? LBRACKET then
    let (negated, rest1) :=
      match rest with
      | c :: rest' => if c =? CARET then (true, rest') else (false, rest)
      | [] => (false, rest)
      end in
    let (chars, rest2) := setChars rest1 in
    let (element, after) :=
      quantifier (CharacterSetMatcher chars negated) (tl rest2) in
    (Some element, after)
  else
    let (element, after) := quantifier (LiteralMatcher r) rest in
    (Some element, after).

(** [elements = append(elements, element)], then the rest of the loop. *)
Definition emit (element : option PatternElement)
    (r : result (list PatternElement * Z)) : result (list PatternElement * Z) :=
  match element with
  | Some e => rbind r (fun '(els, cnt') => Ok (e :: els, cnt'))
  | None => r
  end.

(** The inner pattern of a group, from its alternatives. *)
Definition groupInner (alts : list Pattern) (cnt : Z) : Pattern :=
  set_groupCount
    match alts with
    | [alt] => alt
    | _ => mkPattern [AlternationMatcher alts] false false 0
    end cnt.

(** The runes after an optional quantifier. *)
Definition skip_quantifier (rest : list rune) : list rune :=
  snd (quantifier WildcardMatcher rest).

(** [scanned t u]: the main loop of parsePatternInternal, started on the
    runes [t], begins an iteration at the runes [u]. *)
Inductive scanned : list rune -> list rune -> Prop :=
| scanned_here t : scanned t t
| scanned_atom r rest u :
    (r =? LPAREN) = false ->
    scanned (snd (scanAtom r rest)) u -> scanned (r :: rest) u
| scanned_group rest inner after u :
    findClose 1 rest = Some (inner, after) ->
    scanned (skip_quantifier after) u -> scanned (LPAREN :: rest) u.

(** The runes [rest] that follow an opening parenthesis hold a closing one
    at its nesting level: as many parentheses open as close between the
    two. *)
Definition has_close (rest : list rune) : Prop :=
  exists inner after, rest = inner ++ RPAREN :: after /\ depth_of inner = 0.

(** The pattern holds a parenthesis scanned as the opening of a group that
    has no closing parenthesis at its nesting level. *)
Definition unclosed_group (body : list rune) : Prop :=
  exists rest, scanned body (LPAREN :: rest) /\ ~ has_close rest.

(** The runes of the pattern between the anchors. *)
Definition body_of (rs : list rune) : list rune :=
  snd (stripEnd (snd (stripStart rs))).

(** The alternatives of a group body: the runs of runes between the bars at
    depth zero, as the loop of parseAlternatives cuts them; [cur] is the run
    being read. *)
Fixpoint pieces (depth : Z) (cur rs : list rune) : list (list rune) :=
  match rs with
  | [] => match cur with [] => [] | _ :: _ => [cur] end
  | r :: rs' =>
    if r =? LPAREN then pieces (depth + 1) (cur ++ [r]) rs'
    else if r =? RPAREN then pieces (depth - 1) (cur ++ [r]) rs'
    else if (r =? BAR) && (depth =? 0) then cur :: pieces depth [] rs'
    else pieces depth (cur ++ [r]) rs'
  end.

(** The alternatives parsed one after the other, the counter of groups
    passing from each to the next. *)
Fixpoint parse_each (parse : list rune -> Z -> result (Pattern * Z))
    (ps : list (list rune)) (alternatives : list Pattern) (cnt : Z)
  : result (list Pattern * Z) :=
  match ps with
  | [] => Ok (alternatives, cnt)
  | piece :: ps' =>
    rbind (parse piece cnt) (fun '(alt, cnt') =>
    parse_each parse ps' (alternatives ++ [alt]) cnt')
  end.

(* ------------------------------------------------------------------ *)
(** ** Anchors of sub-patterns *)

(** The sub-patterns of groups and alternations, at any depth, have both
    anchor flags unset. *)
Fixpoint elem_unanchored (e : PatternElement) : Prop :=
  match e with
  | OneOrMoreMatcher m | ZeroOrOneMatcher m => elem_unanchored m
  | AlternationMatcher alts =>
    (fix all (l : list Pattern) : Prop :=
       match l with
       | [] => True
       | p :: l' => pat_unanchored p /\ all l'
       end) alts
  | GroupMatcher _ p => pat_unanchored p
  | _ => True
  end
with pat_unanchored (p : Pattern) : Prop :=
  match p with
  | mkPattern els sa ea _ =>
    sa = false /\ ea = false /\
    (fix all (l : list PatternElement) : Prop :=
       match l with
       | [] => True
       | e :: l' => elem_unanchored e /\ all l'
       end) els
  end.

(** A caret right after an opening parenthesis or a bar, or a dollar right
    before a closing parenthesis or a bar. *)
Definition bad_pair (a b : rune) : bool :=
  (((a =? LPAREN) || (a =? BAR)) && (b =? CARET)) ||
  ((a =? DOLLAR) && ((b =? RPAREN) || (b =? BAR))).

Fixpoint adj_free (s : list rune) : bool :=
  match s with
  | a :: t =>
    match t with
    | b :: _ => negb (bad_pair a b) && adj_free t
    | [] => true
    end
  | [] => true
  end.

Definition no_inner_anchor (s : list rune) : Prop :=
  forall pre a b post, s = pre ++ a :: b :: post -> bad_pair a b = false.

(** The reading of C7 in the specification. *)
Definition subpatterns_never_anchored : Prop :=
  forall pattern p, ParsePattern pattern = Ok p ->
  Forall elem_unanchored (elements p).

(* ------------------------------------------------------------------ *)
(** ** Alternation *)

(** A pattern text without parentheses, bars and outer anchors. *)
Definition plain_text (s : list rune) : bool :=
  forallb (fun r => negb ((r =? LPAREN) || (r =? RPAREN) || (r =? BAR))) s &&
  negb (match s with r :: _ => r =? CARET | [] => false end) &&
  negb (last s 0 =? DOLLAR).

Definition is_some {A : Type} (o : option A) : bool :=
  match o with Some _ => true | None => false end.

Section AlternationClaim.

Variable IsDigit : rune -> bool.
Variable IsLetter : rune -> bool.

(** The reading of C1 in the specification, for the branches [a] and [b]
    and the input [input]. *)
Definition top_level_alternation (a b : gostring) (input : list rune) : Prop :=
  exists pab pa pb,
    ParsePattern (a ++ lit "|" ++ b) = Ok pab /\
    ParsePattern a = Ok pa /\ ParsePattern b = Ok pb /\
    forall fuel rab ra rb,
      Match IsDigit IsLetter fuel pab input = Done rab ->
      Match IsDigit IsLetter fuel pa input = Done ra ->
      Match IsDigit IsLetter fuel pb input = Done rb ->
      rab = ra || rb.

End AlternationClaim.

(* ------------------------------------------------------------------ *)
(** ** The language of a pattern without groups *)

Section Language.

Variable IsDigit : rune -> bool.
Variable IsLetter : rune -> bool.

(** The runes [mid] are an occurrence of the elements [els]: one accepted
    rune for a single-rune element, one or more under [+], at most one
    under [?].  An element that accepts no rune (a backreference to a
    group that captured nothing) has no occurrence. *)
Fixpoint occurrence (els : list PatternElement) (mid : list rune) : Prop :=
  match els with
  | [] => mid = []
  | e :: rest =>
    match e with
    | OneOrMoreMatcher m =>
      exists run tail, mid = run ++ tail /\ run <> [] /\
        Forall (fun r => ElementMatch IsDigit IsLetter m r = true) run /\
        occurrence rest tail
    | ZeroOrOneMatcher m =>
      occurrence rest mid \/
      exists r tail, mid = r :: tail /\
        ElementMatch IsDigit IsLetter m r = true /\ occurrence rest tail
    | _ =>
      exists r tail, mid = r :: tail /\
        ElementMatch IsDigit IsLetter e r = true /\ occurrence rest tail
    end
  end.

(** [input] holds an occurrence of [els], at its start when [sa] is set
    and up to its end when [ea] is set. *)
Definition found (els : list PatternElement) (sa ea : bool)
    (input : list rune) : Prop :=
  exists pre mid post,
    input = pre ++ mid ++ post /\ occurrence els mid /\
    (sa = true -> pre = []) /\ (ea = true -> post = []).

End Language.

(** The runes that begin a construct of the pattern language or quantify
    the element before them; every other rune stands for itself. *)
Definition is_meta (r : rune) : bool :=
  (r =? LPAREN) || (r =? DOT) || (r =? BACKSLASH) || (r =? LBRACKET) ||
  (r =? PLUS) || (r =? QUESTION).

Definition literal_text (w : list rune) : bool :=
  forallb (fun r => negb (is_meta r)) w.

(** The text [w] between the anchors asked for. *)
Definition anchored (sa : bool) (w : list rune) (ea : bool) : list rune :=
  (if sa then [CARET] else []) ++ w ++ (if ea then [DOLLAR] else []).

(** The text of a character set with the members [s]. *)
Definition set_text (negated : bool) (s : list rune) : list rune :=
  [LBRACKET] ++ (if negated then [CARET] else []) ++ s ++ [RBRACKET].

(* ------------------------------------------------------------------ *)
(** ** The first version of the package

    Four element types, no quantifier and no group: ParsePattern, Match
    and matchHere as they were before the quantifiers were added. *)

Module V1.

Inductive PatternElement : Type :=
| LiteralMatcher (char : rune)
| DigitMatcher
| AlphanumericMatcher
| CharacterSetMatcher (chars : list rune) (negated : bool).

Record Pattern : Type := mkPattern {
  elements : list PatternElement;
  startAnchor : bool;
  endAnchor : bool
}.

(** The main loop of ParsePattern: [rs] is [runes[i:]], the result is the
    elements appended from [i] on; every iteration takes one unit of
    [fuel]. *)
Fixpoint parseElements (fuel : nat) (rs : list rune)
  : result (list PatternElement) :=
  match fuel with
  | O => Exhausted
  | S fuel' =>
    match rs with
    | [] => Ok []
    | r :: rest =>
      if r =? BACKSLASH then
        match rest with
        | [] => parseElements fuel' []
        | c :: rest' =>
          let element := if c =? 100 then DigitMatcher
                         else if c =? 119 then AlphanumericMatcher
                         else LiteralMatcher c in
          rbind (parseElements fuel' rest') (fun els => Ok (element :: els))
        end
      else if r =? LBRACKET then
        let (negated, rest1) :=
          match rest with
          | c :: rest' => if c =? CARET then (true, rest') else (false, rest)
          | [] => (false, rest)
          end in
        let (chars, rest2) := setChars rest1 in
        rbind (parseElements fuel' (tl rest2)) (fun els =>
        Ok (CharacterSetMatcher chars negated :: els))
      else
        rbind (parseElements fuel' rest) (fun els =>
        Ok (LiteralMatcher r :: els))
    end
  end.

Definition ParsePattern (pattern : gostring) : result Pattern :=
  let (startAnchor, runes1) := stripStart (runes_of_string pattern) in
  let (endAnchor, runes2) := stripEnd runes1 in
  rbind (parseElements (S (List.length runes2)) runes2) (fun elements =>
  Ok (mkPattern elements startAnchor endAnchor)).

Section Matcher.

Variable IsDigit : rune -> bool.
Variable IsLetter : rune -> bool.

Definition ElementMatch (e : PatternElement) (r : rune) : bool :=
  match e with
  | LiteralMatcher char => char =? r
  | DigitMatcher => IsDigit r
  | AlphanumericMatcher => IsLetter r || IsDigit r || (r =? 95)
  | CharacterSetMatcher chars negated =>
    if existsb (Z.eqb r) chars then negb negated else negated
  end.

(** The loop of matchHere: [els] is [p.elements[patternPos:]]. *)
Fixpoint matchHere_loop (p : Pattern) (els : list PatternElement)
    (input : list rune) (inputPos : Z) : outcome bool :=
  match els with
  | [] =>
    if endAnchor p then Done (inputPos =? len input) else Done true
  | element :: rest =>
    if inputPos >=? len input then Done false
    else
      r <- orPanic (elem_at input inputPos) ;;
      if negb (ElementMatch element r) then Done false
      else matchHere_loop p rest input (inputPos + 1)
  end.

Definition matchHere (p : Pattern) (input : list rune) (pos : Z)
  : outcome bool :=
  matchHere_loop p (elements p) input pos.

(** The loop over the start positions of Match; [k] bounds the iterations
    left. *)
Fixpoint Match_loop (p : Pattern) (input : list rune) (k : nat)
    (startPos : Z) : outcome bool :=
  match k with
  | O => Done false
  | S k' =>
    if startPos <=? len input then
      ok <- matchHere p input startPos ;;
      if ok then Done true else Match_loop p input k' (startPos + 1)
    else Done false
  end.

Definition Match (p : Pattern) (input : list rune) : outcome bool :=
  if startAnchor p then matchHere p input 0
  else Match_loop p input (S (List.length input)) 0.

End Matcher.

End V1.

(** The elements of the first version among those of the current one. *)
Definition of_V1 (e : V1.PatternElement) : PatternElement :=
  match e with
  | V1.LiteralMatcher c => LiteralMatcher c
  | V1.DigitMatcher => DigitMatcher
  | V1.AlphanumericMatcher => AlphanumericMatcher
  | V1.CharacterSetMatcher chars negated => CharacterSetMatcher chars negated
  end.

(** A pattern text in the syntax of the first version: none of the runes
    the later versions gave a meaning to, that is no parenthesis that
    opens, no dot, no plus, no question mark, and no backslash before a
    digit from 1 to 9. *)
Fixpoint v1_syntax (rs : list rune) : bool :=
  match rs with
  | [] => true
  | r :: rest =>
    negb ((r =? LPAREN) || (r =? DOT) || (r =? PLUS) || (r =? QUESTION)) &&
    negb ((r =? BACKSLASH) &&
          match rest with
          | c :: _ => (49 <=? c) && (c <=? 57)
          | [] => false
          end) &&
    v1_syntax rest
  end.

(** [input] holds runes accepted one by one by the elements [els], at its
    start when [sa] is set and up to its end when [ea] is set. *)
Definition found_V1 (IsDigit IsLetter : rune -> bool)
    (els : list V1.PatternElement) (sa ea : bool) (input : list rune) : Prop :=
  exists pre mid post,
    input = pre ++ mid ++ post /\
    Forall2 (fun e r => V1.ElementMatch IsDigit IsLetter e r = true) els mid /\
    (sa = true -> pre = []) /\ (ea = true -> post = []).

(* ------------------------------------------------------------------ *)
(** ** The helpers of the package: ParseGroups, ContainsDigit,
       ContainsAlphanumeric *)

(** The loop [for _, r := range pattern] of ParseGroups, on the runes the
    range yields. *)
Fixpoint ParseGroups_loop (rs : list rune) (positive negative : list rune)
    (add neg : bool) : list rune * list rune :=
  match rs with
  | [] => (positive, negative)
  | r :: rs' =>
    if r =? LBRACKET then ParseGroups_loop rs' positive negative true neg
    else if r =? RBRACKET then ParseGroups_loop rs' positive negative false false
    else if r =? CARET then ParseGroups_loop rs' positive negative add true
    else if add then
      if neg then ParseGroups_loop rs' positive (negative ++ [r]) add neg
      else ParseGroups_loop rs' (positive ++ [r]) negative add neg
    else ParseGroups_loop rs' positive negative add neg
  end.

Definition ParseGroups (pattern : gostring) : list rune * list rune :=
  ParseGroups_loop (runes_of_string pattern) [] [] false false.

Definition DigitClass : gostring := lit "\d".
Definition AlphanumericClass : gostring := lit "\w".

Section Helpers.

Variable IsDigit : rune -> bool.
Variable IsLetter : rune -> bool.

(** The loop [for _, r := range string(input)] of ContainsDigit, on the
    runes the range yields. *)
Fixpoint ContainsDigit_loop (rs : list rune) : bool :=
  match rs with
  | [] => false
  | r :: rs' => if IsDigit r then true else ContainsDigit_loop rs'
  end.

Definition ContainsDigit (input : list rune) : bool :=
  ContainsDigit_loop (runes_of_string (string_of_runes input)).

Fixpoint ContainsAlphanumeric_loop (rs : list rune) : bool :=
  match rs with
  | [] => false
  | r :: rs' =>
    if IsLetter r || IsDigit r || (r =? 95) then true
    else ContainsAlphanumeric_loop rs'
  end.

Definition ContainsAlphanumeric (input : list rune) : bool :=
  ContainsAlphanumeric_loop (runes_of_string (string_of_runes input)).

End Helpers.

(** The runes ParseGroups never records. *)
Definition is_bracket_or_caret (r : rune) : bool :=
  (r =? LBRACKET) || (r =? RBRACKET) || (r =? CARET).

(** What the conversion [string(rs)] keeps of a rune: the rune, or U+FFFD
    for a surrogate half and for a value out of range. *)
Definition scalarb (r : rune) : bool :=
  ((0 <=? r) && (r <=? 55295)) || ((57344 <=? r) && (r <=? 1114111)).

Definition valid_rune (r : rune) : rune := if scalarb r then r else RuneError.

(* ------------------------------------------------------------------ *)
(** ** The groups of a compiled pattern *)

(** The indices of the groups of a pattern, in the order of the elements:
    a group comes before the groups of its body. *)
Fixpoint groups_of_element (e : PatternElement) : list Z :=
  match e with
  | OneOrMoreMatcher m | ZeroOrOneMatcher m => groups_of_element m
  | AlternationMatcher alts =>
    (fix all (l : list Pattern) : list Z :=
       match l with
       | [] => []
       | p :: l' => groups_of p ++ all l'
       end) alts
  | GroupMatcher index p => index :: groups_of p
  | _ => []
  end
with groups_of (p : Pattern) : list Z :=
  match p with
  | mkPattern els _ _ _ =>
    (fix all (l : list PatternElement) : list Z :=
       match l with
       | [] => []
       | e :: l' => groups_of_element e ++ all l'
       end) els
  end.

(** [c+1, c+2, ..., c+n] *)
Fixpoint count_from (c : Z) (n : nat) : list Z :=
  match n with
  | O => []
  | S n' => (c + 1) :: count_from (c + 1) n'
  end.

(** [cnt+1, ..., cnt'] *)
Definition count_up (cnt cnt' : Z) : list Z :=
  count_from cnt (Z.to_nat (cnt' - cnt)).

(** The pattern of an empty group, [()]: parseAlternatives returns no
    alternative for the empty text, and the group is given an alternation
    without alternatives. *)
Definition empty_group (index cnt : Z) : PatternElement :=
  GroupMatcher index (mkPattern [AlternationMatcher []] false false cnt).

(* ------------------------------------------------------------------ *)
(** ** What a run of the matcher keeps *)

(** Every group of the element, or of the pattern, has an index from 1 to
    [n], the number of entries of the capture slices. *)
Definition groups_within_element (n : nat) (e : PatternElement) : Prop :=
  Forall (fun i => 1 <= i <= Z.of_nat n) (groups_of_element e).

Definition groups_within (n : nat) (p : Pattern) : Prop :=
  Forall (fun i => 1 <= i <= Z.of_nat n) (groups_of p).

(** The run did not panic; if it ended, its result satisfies [Q]. *)
Definition safe {A : Type} (Q : A -> Prop) (r : outcome A) : Prop :=
  match r with
  | Done a => Q a
  | Panic => False
  | OutOfFuel => True
  end.

(** After matchHereWithState, called at [pos] with the store [h]: every
    array still has [n] entries, none was dropped, the slice returned
    refers to one of them, and a match ends between [pos] and the end of
    the input. *)
Definition state_post (n : nat) (input : list rune) (pos : Z) (h : store)
    (r : stateResult) : Prop :=
  let '(ok, pos', c', h') := r in
  well_sized n h' /\ (List.length h <= List.length h')%nat /\ live h' c' /\
  (ok = true -> pos <= pos' <= len input).

(** After matchElementOnce, called at [pos] with the captures [c] and the
    store [h]: moreover every array of [h] is as it was, and the slice
    returned with a match is [c] or a new one. *)
Definition once_post (n : nat) (input : list rune) (pos : Z) (c : slice)
    (h : store) (r : stateResult) : Prop :=
  let '(ok, pos', c', h') := r in
  well_sized n h' /\ (List.length h <= List.length h')%nat /\
  (forall s, live h s -> contents h' s = contents h s) /\
  (ok = true ->
   live h' c' /\ (c' = c \/ ~ live h c') /\ pos <= pos' <= len input).

(** After matchHereWithCaptures, called at [pos] with the captures [c] and
    the store [h]: every array of [h] other than [c] is as it was. *)
Definition captures_post (n : nat) (input : list rune) (pos : Z) (c : slice)
    (h : store) (r : capturesResult) : Prop :=
  let '(ok, pos', h') := r in
  well_sized n h' /\ (List.length h <= List.length h')%nat /\
  (forall s, live h s -> s <> c -> contents h' s = contents h s) /\
  (ok = true -> pos <= pos' <= len input).

(** After the unbounded loop of matchHereWithCaptures, which works on the
    copy [cp] and writes the captures [c] on a match. *)
Definition repeat_post (n : nat) (input : list rune) (pos : Z) (cp c : slice)
    (h : store) (r : capturesResult) : Prop :=
  let '(ok, pos', h') := r in
  well_sized n h' /\ (List.length h <= List.length h')%nat /\
  (forall s, live h s -> s <> cp -> s <> c -> contents h' s = contents h s) /\
  (ok = true -> pos <= pos' <= len input).

(* ------------------------------------------------------------------ *)
(** ** Runs that end *)

(** The run [f], a function of the fuel it is given, ends: from some fuel
    on its outcome is one and the same value or panic. *)
Definition settled {A : Type} (f : nat -> outcome A) : Prop :=
  exists F r, r <> OutOfFuel /\ forall fuel, (F <= fuel)%nat -> f fuel = r.

(** Every [+] of the element, or of the pattern, is applied to a
    single-rune element, none to a group. *)
Fixpoint plus_on_runes_element (e : PatternElement) : Prop :=
  match e with
  | OneOrMoreMatcher m => is_atom m = true
  | ZeroOrOneMatcher m => plus_on_runes_element m
  | AlternationMatcher alts =>
    (fix all (l : list Pattern) : Prop :=
       match l with
       | [] => True
       | p :: l' => plus_on_runes p /\ all l'
       end) alts
  | GroupMatcher _ p => plus_on_runes p
  | _ => True
  end
with plus_on_runes (p : Pattern) : Prop :=
  match p with
  | mkPattern els _ _ _ =>
    (fix all (l : list PatternElement) : Prop :=
       match l with
       | [] => True
       | e :: l' => plus_on_runes_element e /\ all l'
       end) els
  end.

(** The number of elements and patterns of an element, of a pattern. *)
Fixpoint size_of_element (e : PatternElement) : nat :=
  match e with
  | OneOrMoreMatcher m | ZeroOrOneMatcher m => S (size_of_element m)
  | AlternationMatcher alts =>
    S ((fix sum (l : list Pattern) : nat :=
          match l with
          | [] => O
          | p :: l' => (size_of p + sum l')%nat
          end) alts)
  | GroupMatcher _ p => S (size_of p)
  | _ => 1%nat
  end
with size_of (p : Pattern) : nat :=
  match p with
  | mkPattern els _ _ _ =>
    S ((fix sum (l : list PatternElement) : nat :=
          match l with
          | [] => O
          | e :: l' => (size_of_element e + sum l')%nat
          end) els)
  end.

(** No closing parenthesis of the text is followed by a plus. *)
Fixpoint no_plus_after_paren (s : list rune) : bool :=
  match s with
  | a :: t =>
    match t with
    | b :: _ => negb ((a =? RPAREN) && (b =? PLUS)) && no_plus_after_paren t
    | [] => true
    end
  | [] => true
  end.

(** The run [f] yields [a]: from some fuel on it returns [a]. *)
Definition yields {A : Type} (f : nat -> outcome A) (a : A) : Prop :=
  exists F, forall fuel, (F <= fuel)%nat -> f fuel = Done a.

(** The result [r] of matchHereWithCaptures tells what the search [o]
    found. *)
Definition tells (r : capturesResult) (o : option Z) : Prop :=
  match o with
  | Some e => fst (fst r) = true /\ snd (fst r) = e
  | None => fst (fst r) = false
  end.

(* ------------------------------------------------------------------ *)
(** ** The second version of the package

    The first quantifier: an element followed by [+] is repeated.
    matchHere lets a repeated element take every rune it accepts and goes
    on from there. *)

Module V2.

Inductive PatternElement : Type :=
| LiteralMatcher (char : rune)
| DigitMatcher
| AlphanumericMatcher
| CharacterSetMatcher (chars : list rune) (negated : bool)
| OneOrMoreMatcher (matcher : PatternElement).

Record Pattern : Type := mkPattern {
  elements : list PatternElement;
  startAnchor : bool;
  endAnchor : bool
}.

(** The check for a quantifier after an element: [rest] is [runes[i+1:]]. *)
Definition quantifier (element : PatternElement) (rest : list rune)
  : PatternElement * list rune :=
  match rest with
  | r :: rest' =>
    if r =? PLUS then (OneOrMoreMatcher element, rest') else (element, rest)
  | [] => (element, rest)
  end.

(** The main loop of ParsePattern: [rs] is [runes[i:]]; every iteration
    takes one unit of [fuel]. *)
Fixpoint parseElements (fuel : nat) (rs : list rune)
  : result (list PatternElement) :=
  match fuel with
  | O => Exhausted
  | S fuel' =>
    match rs with
    | [] => Ok []
    | r :: rest =>
      if r =? BACKSLASH then
        match rest with
        | [] => parseElements fuel' []
        | c :: rest' =>
          let atom := if c =? 100 then DigitMatcher
                      else if c =? 119 then AlphanumericMatcher
                      else LiteralMatcher c in
          let (element, after) := quantifier atom rest' in
          rbind (parseElements fuel' after) (fun els => Ok (element :: els))
        end
      else if r =? LBRACKET then
        let (negated, rest1) :=
          match rest with
          | c :: rest' => if c =? CARET then (true, rest') else (false, rest)
          | [] => (false, rest)
          end in
        let (chars, rest2) := setChars rest1 in
        let (element, after) :=
          quantifier (CharacterSetMatcher chars negated) (tl rest2) in
        rbind (parseElements fuel' after) (fun els => Ok (element :: els))
      else
        let (element, after) := quantifier (LiteralMatcher r) rest in
        rbind (parseElements fuel' after) (fun els => Ok (element :: els))
    end
  end.

Definition ParsePattern (pattern : gostring) : result Pattern :=
  let (startAnchor, runes1) := stripStart (runes_of_string pattern) in
  let (endAnchor, runes2) := stripEnd runes1 in
  rbind (parseElements (S (List.length runes2)) runes2) (fun elements =>
  Ok (mkPattern elements startAnchor endAnchor)).

Section Matcher.

Variable IsDigit : rune -> bool.
Variable IsLetter : rune -> bool.

Fixpoint ElementMatch (e : PatternElement) (r : rune) : bool :=
  match e with
  | LiteralMatcher char => char =? r
  | DigitMatcher => IsDigit r
  | AlphanumericMatcher => IsLetter r || IsDigit r || (r =? 95)
  | CharacterSetMatcher chars negated =>
    if existsb (Z.eqb r) chars then negb negated else negated
  | OneOrMoreMatcher matcher => ElementMatch matcher r
  end.

(** The loop [for inputPos < len(input) && oneOrMore.Match(input[inputPos])]:
    the position it ends at; [k] bounds the iterations left. *)
Fixpoint run_loop (oneOrMore : PatternElement) (input : list rune) (k : nat)
    (inputPos : Z) : outcome Z :=
  match k with
  | O => OutOfFuel
  | S k' =>
    if inputPos <? len input then
      r <- orPanic (elem_at input inputPos) ;;
      if ElementMatch oneOrMore r
      then run_loop oneOrMore input k' (inputPos + 1)
      else Done inputPos
    else Done inputPos
  end.

(** The loop of matchHere: [els] is [p.elements[patternPos:]]. *)
Fixpoint matchHere_loop (p : Pattern) (els : list PatternElement)
    (input : list rune) (inputPos : Z) : outcome bool :=
  match els with
  | [] =>
    if endAnchor p then Done (inputPos =? len input) else Done true
  | element :: rest =>
    if inputPos >=? len input then Done false
    else
      match element with
      | OneOrMoreMatcher _ =>
        r <- orPanic (elem_at input inputPos) ;;
        if negb (ElementMatch element r) then Done false
        else
          inputPos' <- run_loop element input (S (List.length input))
                         (inputPos + 1) ;;
          matchHere_loop p rest input inputPos'
      | _ =>
        r <- orPanic (elem_at input inputPos) ;;
        if negb (ElementMatch element r) then Done false
        else matchHere_loop p rest input (inputPos + 1)
      end
  end.

Definition matchHere (p : Pattern) (input : list rune) (pos : Z)
  : outcome bool :=
  matchHere_loop p (elements p) input pos.

(** The loop over the start positions of Match; [k] bounds the iterations
    left. *)
Fixpoint Match_loop (p : Pattern) (input : list rune) (k : nat)
    (startPos : Z) : outcome bool :=
  match k with
  | O => Done false
  | S k' =>
    if startPos <=? len input then
      ok <- matchHere p input startPos ;;
      if ok then Done true else Match_loop p input k' (startPos + 1)
    else Done false
  end.

Definition Match (p : Pattern) (input : list rune) : outcome bool :=
  if startAnchor p then matchHere p input 0
  else Match_loop p input (S (List.length input)) 0.

End Matcher.

End V2.

Fixpoint of_V2 (e : V2.PatternElement) : PatternElement :=
  match e with
  | V2.LiteralMatcher c => LiteralMatcher c
  | V2.DigitMatcher => DigitMatcher
  | V2.AlphanumericMatcher => AlphanumericMatcher
  | V2.CharacterSetMatcher chars negated => CharacterSetMatcher chars negated
  | V2.OneOrMoreMatcher m => OneOrMoreMatcher (of_V2 m)
  end.

(** A pattern text in the syntax of the second version: no parenthesis
    that opens, no dot, no question mark, and no backslash before a digit
    from 1 to 9. *)
Fixpoint v2_syntax (rs : list rune) : bool :=
  match rs with
  | [] => true
  | r :: rest =>
    negb ((r =? LPAREN) || (r =? DOT) || (r =? QUESTION)) &&
    negb ((r =? BACKSLASH) &&
          match rest with
          | c :: _ => (49 <=? c) && (c <=? 57)
          | [] => false
          end) &&
    v2_syntax rest
  end.

(** Every repeated element of [els] is followed by nothing or by an element
    that accepts none of the runes the repeated element accepts. *)
Fixpoint separated (IsDigit IsLetter : rune -> bool)
    (els : list V2.PatternElement) : Prop :=
  match els with
  | [] => True
  | e :: rest =>
    match e, rest with
    | V2.OneOrMoreMatcher _, next :: _ =>
      forall r, V2.ElementMatch IsDigit IsLetter e r = true ->
                V2.ElementMatch IsDigit IsLetter next r = false
    | _, _ => True
    end /\ separated IsDigit IsLetter rest
  end.

(* ------------------------------------------------------------------ *)
(** ** The third version of the package

    Groups of alternatives, the quantifier [?] and the wildcard; no
    capture yet.  matchHere tries the rest of the pattern after a repeated
    element from the end of its run downwards. *)

Module V3.

Inductive PatternElement : Type :=
| LiteralMatcher (char : rune)
| DigitMatcher
| AlphanumericMatcher
| CharacterSetMatcher (chars : list rune) (negated : bool)
| OneOrMoreMatcher (matcher : PatternElement)
| ZeroOrOneMatcher (matcher : PatternElement)
| WildcardMatcher
| AlternationMatcher (alternatives : list Pattern)
with Pattern : Type :=
| mkPattern (elements : list PatternElement) (startAnchor endAnchor : bool).

Definition elements (p : Pattern) : list PatternElement :=
  match p with mkPattern els _ _ => els end.
Definition startAnchor (p : Pattern) : bool :=
  match p with mkPattern _ sa _ => sa end.
Definition endAnchor (p : Pattern) : bool :=
  match p with mkPattern _ _ ea => ea end.

(** The check for a quantifier after an element: [rest] is [runes[i+1:]]. *)
Definition quantifier (element : PatternElement) (rest : list rune)
  : PatternElement * list rune :=
  match rest with
  | r :: rest' =>
    if r =? PLUS then (OneOrMoreMatcher element, rest')
    else if r =? QUESTION then (ZeroOrOneMatcher element, rest')
    else (element, rest)
  | [] => (element, rest)
  end.

(** The loop of parseAlternatives: [rs] is [runes[i:]], [cur] is
    [runes[start:i]]; [parse] is ParsePattern. *)
Fixpoint parseAlternatives_loop (parse : list rune -> result Pattern)
    (rs : list rune) (depth : Z) (cur : list rune)
    (alternatives : list Pattern) : result (list Pattern) :=
  match rs with
  | [] =>
    match cur with
    | [] => Ok alternatives
    | _ :: _ => rbind (parse cur) (fun alt => Ok (alternatives ++ [alt]))
    end
  | r :: rs' =>
    if r =? LPAREN then
      parseAlternatives_loop parse rs' (depth + 1) (cur ++ [r]) alternatives
    else if r =? RPAREN then
      parseAlternatives_loop parse rs' (depth - 1) (cur ++ [r]) alternatives
    else if (r =? BAR) && (depth =? 0) then
      rbind (parse cur) (fun alt =>
      parseAlternatives_loop parse rs' depth [] (alternatives ++ [alt]))
    else
      parseAlternatives_loop parse rs' depth (cur ++ [r]) alternatives
  end.

Definition parseAlternatives (parse : list rune -> result Pattern)
    (pattern : list rune) : result (list Pattern) :=
  parseAlternatives_loop parse pattern 0 [] [].

(** ParsePattern, given its main loop [parseElems]. *)
Definition ParsePattern_with
    (parseElems : list rune -> result (list PatternElement))
    (pattern : list rune) : result Pattern :=
  let (startAnchor, runes1) := stripStart pattern in
  let (endAnchor, runes2) := stripEnd runes1 in
  rbind (parseElems runes2) (fun elements =>
  Ok (mkPattern elements startAnchor endAnchor)).

(** The main loop of ParsePattern: [rs] is [runes[i:]]; every iteration,
    and every nested parse of an alternative, takes one unit of [fuel]. *)
Fixpoint parseElements (fuel : nat) (rs : list rune)
  : result (list PatternElement) :=
  match fuel with
  | O => Exhausted
  | S fuel' =>
    match rs with
    | [] => Ok []
    | r :: rest =>
      if r =? LPAREN then
        match findClose 1 rest with
        | None => MissingClosingParenthesis
        | Some (innerPattern, after) =>
          rbind (parseAlternatives (ParsePattern_with (parseElements fuel'))
                   innerPattern) (fun alternatives =>
          let (element, after') :=
            quantifier (AlternationMatcher alternatives) after in
          rbind (parseElements fuel' after') (fun els => Ok (element :: els)))
        end
      else if r =? DOT then
        let (element, after) := quantifier WildcardMatcher rest in
        rbind (parseElements fuel' after) (fun els => Ok (element :: els))
      else if r =? BACKSLASH then
        match rest with
        | [] => parseElements fuel' []
        | c :: rest' =>
          let atom := if c =? 100 then DigitMatcher
                      else if c =? 119 then AlphanumericMatcher
                      else LiteralMatcher c in
          let (element, after) := quantifier atom rest' in
          rbind (parseElements fuel' after) (fun els => Ok (element :: els))
        end
      else if r =? LBRACKET then
        let (negated, rest1) :=
          match rest with
          | c :: rest' => if c =? CARET then (true, rest') else (false, rest)
          | [] => (false, rest)
          end in
        let (chars, rest2) := setChars rest1 in
        let (element, after) :=
          quantifier (CharacterSetMatcher chars negated) (tl rest2) in
        rbind (parseElements fuel' after) (fun els => Ok (element :: els))
      else
        let (element, after) := quantifier (LiteralMatcher r) rest in
        rbind (parseElements fuel' after) (fun els => Ok (element :: els))
    end
  end.

Definition ParsePattern (pattern : gostring) : result Pattern :=
  ParsePattern_with
    (parseElements (S (List.length (runes_of_string pattern))))
    (runes_of_string pattern).

Section Matcher.

Variable IsDigit : rune -> bool.
Variable IsLetter : rune -> bool.

Fixpoint ElementMatch (e : PatternElement) (r : rune) : bool :=
  match e with
  | LiteralMatcher char => char =? r
  | DigitMatcher => IsDigit r
  | AlphanumericMatcher => IsLetter r || IsDigit r || (r =? 95)
  | CharacterSetMatcher chars negated =>
    if existsb (Z.eqb r) chars then negb negated else negated
  | OneOrMoreMatcher matcher => ElementMatch matcher r
  | ZeroOrOneMatcher matcher => ElementMatch matcher r
  | WildcardMatcher => negb (r =? 10)
  | AlternationMatcher _ => false
  end.

Section Calls.

(** [callMatchHere p input pos] is a nested call [p.matchHere(input, pos)]. *)
Variable callMatchHere : Pattern -> list rune -> Z -> outcome bool.

(** The loop [for _, alt := range q.alternatives]; [remaining] is
    [remainingPattern.elements].  The elements of [altPattern] are read
    during its own call only, and no other pattern is built on the array
    of [alt.elements] meanwhile, so that they are the list
    [alt.elements ++ remaining]. *)
Fixpoint alternatives_loop (p : Pattern) (remaining : list PatternElement)
    (alts : list Pattern) (input : list rune) (inputPos : Z) : outcome bool :=
  match alts with
  | [] => Done false
  | alt :: alts' =>
    ok <- callMatchHere (mkPattern (elements alt ++ remaining) false (endAnchor p))
            input inputPos ;;
    if ok then Done true
    else alternatives_loop p remaining alts' input inputPos
  end.

(** The loop [for inputPos < len(input) && q.Match(input[inputPos])]: the
    position it ends at; [k] bounds the iterations left. *)
Fixpoint run_loop (q : PatternElement) (input : list rune) (k : nat)
    (inputPos : Z) : outcome Z :=
  match k with
  | O => OutOfFuel
  | S k' =>
    if inputPos <? len input then
      r <- orPanic (elem_at input inputPos) ;;
      if ElementMatch q r then run_loop q input k' (inputPos + 1)
      else Done inputPos
    else Done inputPos
  end.

(** The loop [for tryPos := inputPos; tryPos >= pos+1; tryPos--]; [k]
    bounds the iterations left. *)
Fixpoint try_loop (remainingPattern : Pattern) (input : list rune) (pos : Z)
    (k : nat) (tryPos : Z) : outcome bool :=
  match k with
  | O => OutOfFuel
  | S k' =>
    if tryPos >=? pos + 1 then
      ok <- callMatchHere remainingPattern input tryPos ;;
      if ok then Done true
      else try_loop remainingPattern input pos k' (tryPos - 1)
    else Done false
  end.

(** The loop of matchHere: [els] is [p.elements[patternPos:]], [pos] the
    position matchHere was called at. *)
Fixpoint matchHere_loop (p : Pattern) (els : list PatternElement)
    (input : list rune) (pos inputPos : Z) : outcome bool :=
  match els with
  | [] =>
    if endAnchor p then Done (inputPos =? len input) else Done true
  | element :: rest =>
    match element with
    | AlternationMatcher alternatives =>
      alternatives_loop p rest alternatives input inputPos
    | OneOrMoreMatcher _ =>
      if inputPos >=? len input then Done false
      else
        r <- orPanic (elem_at input inputPos) ;;
        if negb (ElementMatch element r) then Done false
        else
          inputPos' <- run_loop element input (S (List.length input))
                         (inputPos + 1) ;;
          try_loop (mkPattern rest false (endAnchor p)) input pos
            (S (List.length input)) inputPos'
    | ZeroOrOneMatcher _ =>
      ok <- callMatchHere (mkPattern rest false (endAnchor p)) input inputPos ;;
      if ok then Done true
      else if inputPos <? len input then
        r <- orPanic (elem_at input inputPos) ;;
        if ElementMatch element r then
          ok' <- callMatchHere (mkPattern rest false (endAnchor p)) input
                   (inputPos + 1) ;;
          if ok' then Done true else Done false
        else Done false
      else Done false
    | _ =>
      if inputPos >=? len input then Done false
      else
        r <- orPanic (elem_at input inputPos) ;;
        if negb (ElementMatch element r) then Done false
        else matchHere_loop p rest input pos (inputPos + 1)
    end
  end.

End Calls.

(** matchHere; every nested call takes one unit of [fuel]. *)
Fixpoint matchHere (fuel : nat) (p : Pattern) (input : list rune) (pos : Z)
  : outcome bool :=
  match fuel with
  | O => OutOfFuel
  | S fuel' => matchHere_loop (matchHere fuel') p (elements p) input pos pos
  end.

(** The loop over the start positions of Match; [k] bounds the iterations
    left. *)
Fixpoint Match_loop (fuel : nat) (p : Pattern) (input : list rune) (k : nat)
    (startPos : Z) : outcome bool :=
  match k with
  | O => Done false
  | S k' =>
    if startPos <=? len input then
      ok <- matchHere fuel p input startPos ;;
      if ok then Done true else Match_loop fuel p input k' (startPos + 1)
    else Done false
  end.

Definition Match (fuel : nat) (p : Pattern) (input : list rune)
  : outcome bool :=
  if startAnchor p then matchHere fuel p input 0
  else Match_loop fuel p input (S (List.length input)) 0.

End Matcher.

End V3.

(** The elements of the third version among those of the current one; a
    group of alternatives has no counterpart there, it is mapped to the
    bare alternation. *)
Fixpoint of_V3 (e : V3.PatternElement) : PatternElement :=
  match e with
  | V3.LiteralMatcher c => LiteralMatcher c
  | V3.DigitMatcher => DigitMatcher
  | V3.AlphanumericMatcher => AlphanumericMatcher
  | V3.CharacterSetMatcher chars negated => CharacterSetMatcher chars negated
  | V3.OneOrMoreMatcher m => OneOrMoreMatcher (of_V3 m)
  | V3.ZeroOrOneMatcher m => ZeroOrOneMatcher (of_V3 m)
  | V3.WildcardMatcher => WildcardMatcher
  | V3.AlternationMatcher alts =>
    AlternationMatcher
      ((fix each (l : list V3.Pattern) : list Pattern :=
          match l with
          | [] => []
          | V3.mkPattern els sa ea :: l' =>
            mkPattern
              ((fix all (l : list V3.PatternElement) : list PatternElement :=
                  match l with
                  | [] => []
                  | e :: l' => of_V3 e :: all l'
                  end) els) sa ea 0 :: each l'
          end) alts)
  end.

(** A pattern text without groups and backreferences: no parenthesis that
    opens, and no backslash before a digit from 1 to 9. *)
Fixpoint no_group_syntax (rs : list rune) : bool :=
  match rs with
  | [] => true
  | r :: rest =>
    negb (r =? LPAREN) &&
    negb ((r =? BACKSLASH) &&
          match rest with
          | c :: _ => (49 <=? c) && (c <=? 57)
          | [] => false
          end) &&
    no_group_syntax rest
  end.

(** No repeated element of [els] comes directly after a single-rune
    element. *)
Fixpoint no_plus_after_atom (els : list V3.PatternElement) : bool :=
  match els with
  | [] => true
  | e :: rest =>
    match e, rest with
    | (V3.OneOrMoreMatcher _ | V3.ZeroOrOneMatcher _ | V3.AlternationMatcher _), _ =>
      true
    | _, V3.OneOrMoreMatcher _ :: _ => false
    | _, _ => true
    end && no_plus_after_atom rest
  end.

(** A single-rune element of the third version, or one under a
    quantifier. *)
Definition plain_V3 (e : V3.PatternElement) : bool := is_plain (of_V3 e).

(* ------------------------------------------------------------------ *)
(** ** The reading of the compile error and of lenient parsing in the
       specification *)

(** The scan for the closing parenthesis as the specification has it: a
    parenthesis counts when it is neither escaped nor inside a character
    set.  [inSet] and [escaped] tell where the scan stands, [depth] how many
    groups are open. *)
Fixpoint aware_close (inSet escaped : bool) (depth : Z) (rs : list rune)
  : bool :=
  match rs with
  | [] => false
  | r :: rest =>
    if escaped then aware_close inSet false depth rest
    else if inSet then aware_close (negb (r =? RBRACKET)) false depth rest
    else if r =? BACKSLASH then aware_close false true depth rest
    else if r =? LBRACKET then aware_close true false depth rest
    else if r =? LPAREN then aware_close false false (depth + 1) rest
    else if r =? RPAREN then
      (depth =? 1) || aware_close false false (depth - 1) rest
    else aware_close false false depth rest
  end.

(** Some parenthesis that opens a group, neither escaped nor inside a
    character set, has no closing parenthesis in that sense. *)
Fixpoint aware_unclosed (inSet escaped : bool) (rs : list rune) : bool :=
  match rs with
  | [] => false
  | r :: rest =>
    if escaped then aware_unclosed inSet false rest
    else if inSet then aware_unclosed (negb (r =? RBRACKET)) false rest
    else if r =? BACKSLASH then aware_unclosed false true rest
    else if r =? LBRACKET then aware_unclosed true false rest
    else if r =? LPAREN then
      negb (aware_close false false 1 rest) || aware_unclosed false false rest
    else aware_unclosed false false rest
  end.

(** The runes of the literal elements of a pattern, at any depth. *)
Fixpoint literals_of_element (e : PatternElement) : list rune :=
  match e with
  | LiteralMatcher c => [c]
  | OneOrMoreMatcher m | ZeroOrOneMatcher m => literals_of_element m
  | AlternationMatcher alts =>
    (fix each (l : list Pattern) : list rune :=
       match l with
       | [] => []
       | p :: l' => literals_of p ++ each l'
       end) alts
  | GroupMatcher _ p => literals_of p
  | _ => []
  end
with literals_of (p : Pattern) : list rune :=
  match p with
  | mkPattern els _ _ _ =>
    (fix all (l : list PatternElement) : list rune :=
       match l with
       | [] => []
       | e :: l' => literals_of_element e ++ all l'
       end) els
  end.

(** A text without a backslash and without an opening bracket: what follows
    it is neither escaped nor inside a character set. *)
Definition no_escape_no_set (x : list rune) : bool :=
  forallb (fun r => negb ((r =? BACKSLASH) || (r =? LBRACKET))) x.

(** The reading of C8 in the specification: the error is returned exactly
    when a group is not closed, escapes and sets being skipped; a caret after
    position 0 and a dollar before the final position are literals; the rune
    after a backslash, other than d, w and the digits, is a literal. *)
Definition error_iff_unclosed_as_specified : Prop :=
  forall pattern,
    ParsePattern pattern = MissingClosingParenthesis <->
    aware_unclosed false false (runes_of_string pattern) = true.

Definition inner_anchors_are_literals_as_specified : Prop :=
  forall pattern x y p,
    no_escape_no_set x = true -> ParsePattern pattern = Ok p ->
    (runes_of_string pattern = x ++ CARET :: y -> x <> [] ->
     In CARET (literals_of p)) /\
    (runes_of_string pattern = x ++ DOLLAR :: y -> y <> [] ->
     In DOLLAR (literals_of p)).

Definition unknown_escapes_are_literals_as_specified : Prop :=
  forall pattern x c p,
    runes_of_string pattern = x ++ [BACKSLASH; c] ->
    no_escape_no_set x = true ->
    c <> 100 -> c <> 119 -> ~ 49 <= c <= 57 ->
    ParsePattern pattern = Ok p -> In c (literals_of p).

Definition lenient_parsing_as_specified : Prop :=
  error_iff_unclosed_as_specified /\
  inner_anchors_are_literals_as_specified /\
  unknown_escapes_are_literals_as_specified.

(** The runes [input[pos:e]] are an occurrence of [els], up to the end of
    the input when [ea] is set. *)
Definition occurs_at (IsDigit IsLetter : rune -> bool)
    (els : list PatternElement) (ea : bool) (input : list rune) (pos e : Z)
  : Prop :=
  exists mid post,
    skipn (Z.to_nat pos) input = mid ++ post /\
    occurrence IsDigit IsLetter els mid /\
    e = pos + len mid /\ (ea = true -> post = []).

(* ================================================================== *)
(** * Properties *)

(* ------------------------------------------------------------------ *)
(** ** Strings and their runes

    The compiler works on [[]rune(pattern)] and hands [string(runes[i:j])]
    to the nested parse, which converts it back.  The two conversions
    cancel on the runes of any string, so the nested parse of the model
    takes the runes themselves. *)

Lemma between_ascii lo c hi : c < 128 -> 128 <= lo -> between lo c hi = false.
Proof.
  intros Hc Hlo. unfold between. apply andb_false_iff. left.
  apply Z.leb_gt. lia.
Qed.

Lemma cont_ascii c : c < 128 -> cont c = false.
Proof. intros Hc. apply between_ascii; [assumption|lia]. Qed.

Lemma decodeRune_ascii c rest : c < 128 -> decodeRune (c :: rest) = (c, 1%nat).
Proof.
  intros Hc. simpl. apply Z.ltb_lt in Hc. rewrite Hc. reflexivity.
Qed.

Lemma lor_disjoint x y n :
  0 <= n -> 0 <= y < 2 ^ n -> Z.lor (x * 2 ^ n) y = x * 2 ^ n + y.
Proof.
  intros Hn Hy. rewrite <- Z.add_lor_land.
  assert (E : Z.land (x * 2 ^ n) y = 0).
  { apply Z.bits_inj'. intros m Hm. rewrite Z.land_spec, Z.bits_0.
    destruct (Z_lt_le_dec m n) as [Hlt|Hge].
    - rewrite Z.mul_pow2_bits_low by assumption. reflexivity.
    - rewrite <- (Z.mod_small y (2 ^ n)) by assumption.
      rewrite Z.mod_pow2_bits_high by lia. apply andb_false_r. }
  rewrite E. lia.
Qed.

Lemma land_low a n : 0 <= n -> Z.land a (2 ^ n - 1) = a mod 2 ^ n.
Proof.
  intros Hn. rewrite <- Z.land_ones by assumption.
  rewrite Z.ones_equiv. reflexivity.
Qed.

Lemma land63 a : Z.land a 63 = a mod 64.
Proof. exact (land_low a 6 ltac:(lia)). Qed.
Lemma land31 a : Z.land a 31 = a mod 32.
Proof. exact (land_low a 5 ltac:(lia)). Qed.
Lemma land15 a : Z.land a 15 = a mod 16.
Proof. exact (land_low a 4 ltac:(lia)). Qed.
Lemma land7 a : Z.land a 7 = a mod 8.
Proof. exact (land_low a 3 ltac:(lia)). Qed.

Lemma shiftr6 a : Z.shiftr a 6 = a / 64.
Proof. exact (Z.shiftr_div_pow2 a 6 ltac:(lia)). Qed.
Lemma shiftr12 a : Z.shiftr a 12 = a / 4096.
Proof. exact (Z.shiftr_div_pow2 a 12 ltac:(lia)). Qed.
Lemma shiftr18 a : Z.shiftr a 18 = a / 262144.
Proof. exact (Z.shiftr_div_pow2 a 18 ltac:(lia)). Qed.

Lemma shiftl6 a : Z.shiftl a 6 = a * 64.
Proof. exact (Z.shiftl_mul_pow2 a 6 ltac:(lia)). Qed.
Lemma shiftl12 a : Z.shiftl a 12 = a * 4096.
Proof. exact (Z.shiftl_mul_pow2 a 12 ltac:(lia)). Qed.
Lemma shiftl18 a : Z.shiftl a 18 = a * 262144.
Proof. exact (Z.shiftl_mul_pow2 a 18 ltac:(lia)). Qed.

Lemma lor_head c k n x :
  c = k * 2 ^ n -> 0 <= n -> 0 <= x < 2 ^ n -> Z.lor c x = c + x.
Proof. intros -> Hn Hx. apply lor_disjoint; assumption. Qed.

Lemma lor192 x : 0 <= x < 64 -> Z.lor 192 x = 192 + x.
Proof. intros H. exact (lor_head 192 3 6 x eq_refl ltac:(lia) H). Qed.
Lemma lor128 x : 0 <= x < 64 -> Z.lor 128 x = 128 + x.
Proof. intros H. exact (lor_head 128 2 6 x eq_refl ltac:(lia) H). Qed.
Lemma lor224 x : 0 <= x < 16 -> Z.lor 224 x = 224 + x.
Proof. intros H. exact (lor_head 224 14 4 x eq_refl ltac:(lia) H). Qed.
Lemma lor240 x : 0 <= x < 8 -> Z.lor 240 x = 240 + x.
Proof. intros H. exact (lor_head 240 30 3 x eq_refl ltac:(lia) H). Qed.

Lemma lor64 a y : 0 <= y < 64 -> Z.lor (a * 64) y = a * 64 + y.
Proof. intros Hy. exact (lor_disjoint a y 6 ltac:(lia) Hy). Qed.
Lemma lor4096 a y : 0 <= y < 4096 -> Z.lor (a * 4096) y = a * 4096 + y.
Proof. intros Hy. exact (lor_disjoint a y 12 ltac:(lia) Hy). Qed.
Lemma lor262144 a y : 0 <= y < 262144 -> Z.lor (a * 262144) y = a * 262144 + y.
Proof. intros Hy. exact (lor_disjoint a y 18 ltac:(lia) Hy). Qed.

Lemma between_true lo x hi : lo <= x <= hi -> between lo x hi = true.
Proof.
  intros H. unfold between. apply andb_true_iff. split; apply Z.leb_le; lia.
Qed.

Lemma between_false lo x hi : x < lo \/ hi < x -> between lo x hi = false.
Proof.
  intros H. unfold between. apply andb_false_iff.
  destruct H; [left|right]; apply Z.leb_gt; lia.
Qed.

Lemma between_iff lo x hi : between lo x hi = true <-> lo <= x <= hi.
Proof.
  unfold between. rewrite andb_true_iff, !Z.leb_le. tauto.
Qed.


Lemma div64_bounds r : 64 * (r / 64) <= r < 64 * (r / 64) + 64.
Proof. Z.div_mod_to_equations; lia. Qed.
Lemma div4096_bounds r : 4096 * (r / 4096) <= r < 4096 * (r / 4096) + 4096.
Proof. Z.div_mod_to_equations; lia. Qed.
Lemma div262144_bounds r :
  262144 * (r / 262144) <= r < 262144 * (r / 262144) + 262144.
Proof. Z.div_mod_to_equations; lia. Qed.
Lemma mod64_eq r : r mod 64 = r - 64 * (r / 64).
Proof. Z.div_mod_to_equations; lia. Qed.
Lemma mid6_eq r : (r / 64) mod 64 = r / 64 - 64 * (r / 4096).
Proof.
  rewrite mod64_eq. rewrite Z.div_div by lia. reflexivity.
Qed.
Lemma mid12_eq r : (r / 4096) mod 64 = r / 4096 - 64 * (r / 262144).
Proof.
  rewrite mod64_eq. rewrite Z.div_div by lia. reflexivity.
Qed.

Ltac div_mod_lia :=
  rewrite ?mid6_eq, ?mid12_eq;
  repeat match goal with
  | |- context [?r / 64] =>
      lazymatch goal with
      | _ : 64 * (r / 64) <= r < _ |- _ => fail
      | _ => pose proof (div64_bounds r)
      end
  | |- context [?r / 4096] =>
      lazymatch goal with
      | _ : 4096 * (r / 4096) <= r < _ |- _ => fail
      | _ => pose proof (div4096_bounds r)
      end
  | |- context [?r / 262144] =>
      lazymatch goal with
      | _ : 262144 * (r / 262144) <= r < _ |- _ => fail
      | _ => pose proof (div262144_bounds r)
      end
  end;
  Z.div_mod_to_equations; lia.

Lemma encodeRune_scalar r :
  scalar r ->
  encodeRune r =
  if r <=? 127 then [r]
  else if r <=? 2047 then [192 + r / 64; 128 + r mod 64]
  else if r <=? 65535 then
    [224 + r / 4096; 128 + (r / 64) mod 64; 128 + r mod 64]
  else
    [240 + r / 262144; 128 + (r / 4096) mod 64; 128 + (r / 64) mod 64;
     128 + r mod 64].
Proof.
  intros Hr. unfold encodeRune.
  assert (E0 : (r <? 0) = false) by (apply Z.ltb_ge; destruct Hr; lia).
  rewrite E0.
  destruct (r <=? 127) eqn:E1; [reflexivity|]. apply Z.leb_gt in E1.
  rewrite !shiftr6, !shiftr12, !shiftr18, !land63.
  destruct (r <=? 2047) eqn:E2.
  { apply Z.leb_le in E2.
    rewrite lor192 by div_mod_lia. rewrite lor128 by div_mod_lia.
    reflexivity. }
  apply Z.leb_gt in E2.
  assert (E3 : (r >? 1114111) || (55296 <=? r) && (r <=? 57343) = false).
  { apply orb_false_iff. split.
    - rewrite Z.gtb_ltb. apply Z.ltb_ge. destruct Hr; lia.
    - apply andb_false_iff. destruct Hr; [left; apply Z.leb_gt|right; apply Z.leb_gt]; lia. }
  rewrite E3.
  destruct (r <=? 65535) eqn:E4.
  { apply Z.leb_le in E4.
    rewrite lor224 by div_mod_lia. rewrite !lor128 by div_mod_lia.
    reflexivity. }
  apply Z.leb_gt in E4.
  assert (Hmax : r <= 1114111) by (destruct Hr; lia).
  rewrite lor240 by div_mod_lia. rewrite !lor128 by div_mod_lia.
  reflexivity.
Qed.


(** Decoding what was encoded gives the rune back, whatever follows. *)
Lemma decodeRune_encodeRune r rest :
  scalar r ->
  decodeRune (encodeRune r ++ rest) = (r, List.length (encodeRune r)).
Proof.
  intros Hr. rewrite (encodeRune_scalar r Hr).
  destruct (r <=? 127) eqn:E1.
  { apply Z.leb_le in E1. cbn [app List.length]. apply decodeRune_ascii. lia. }
  apply Z.leb_gt in E1.
  destruct (r <=? 2047) eqn:E2.
  { apply Z.leb_le in E2. cbn [app List.length decodeRune].
    assert (H0 : 194 <= 192 + r / 64 <= 223) by div_mod_lia.
    assert (H1 : 128 <= 128 + r mod 64 <= 191) by div_mod_lia.
    assert (F0 : (192 + r / 64 <? 128) = false) by (apply Z.ltb_ge; lia).
    rewrite F0, (between_true _ _ _ H0). unfold cont.
    rewrite (between_true _ _ _ H1).
    rewrite land31, land63, shiftl6.
    rewrite lor64 by (apply Z.mod_pos_bound; lia).
    f_equal. div_mod_lia. }
  apply Z.leb_gt in E2.
  destruct (r <=? 65535) eqn:E3.
  { apply Z.leb_le in E3. cbn [app List.length decodeRune].
    assert (H0 : 224 <= 224 + r / 4096 <= 239) by div_mod_lia.
    assert (H1 : 128 <= 128 + (r / 64) mod 64 <= 191) by div_mod_lia.
    assert (H2 : 128 <= 128 + r mod 64 <= 191) by div_mod_lia.
    assert (F0 : (224 + r / 4096 <? 128) = false) by (apply Z.ltb_ge; lia).
    assert (F1 : between 194 (224 + r / 4096) 223 = false)
      by (apply between_false; lia).
    rewrite F0, F1, (between_true _ _ _ H0).
    assert (F2 : between (if 224 + r / 4096 =? 224 then 160 else 128)
                   (128 + (r / 64) mod 64)
                   (if 224 + r / 4096 =? 237 then 159 else 191) = true).
    { apply between_true.
      destruct (Z.eqb_spec (224 + r / 4096) 224);
        destruct (Z.eqb_spec (224 + r / 4096) 237);
        destruct Hr; div_mod_lia. }
    rewrite F2. unfold cont. rewrite (between_true _ _ _ H2). cbn [andb].
    rewrite land15, !land63, shiftl12, shiftl6.
    rewrite lor64 by (apply Z.mod_pos_bound; lia).
    rewrite lor4096 by div_mod_lia.
    f_equal. div_mod_lia. }
  apply Z.leb_gt in E3.
  assert (Hmax : r <= 1114111) by (destruct Hr; lia).
  cbn [app List.length decodeRune].
  assert (H0 : 240 <= 240 + r / 262144 <= 244) by div_mod_lia.
  assert (H1 : 128 <= 128 + (r / 4096) mod 64 <= 191) by div_mod_lia.
  assert (H2 : 128 <= 128 + (r / 64) mod 64 <= 191) by div_mod_lia.
  assert (H3 : 128 <= 128 + r mod 64 <= 191) by div_mod_lia.
  assert (F0 : (240 + r / 262144 <? 128) = false) by (apply Z.ltb_ge; lia).
  assert (F1 : between 194 (240 + r / 262144) 223 = false)
    by (apply between_false; lia).
  assert (F1' : between 224 (240 + r / 262144) 239 = false)
    by (apply between_false; lia).
  rewrite F0, F1, F1', (between_true _ _ _ H0).
  assert (F2 : between (if 240 + r / 262144 =? 240 then 144 else 128)
                 (128 + (r / 4096) mod 64)
                 (if 240 + r / 262144 =? 244 then 143 else 191) = true).
  { apply between_true.
    destruct (Z.eqb_spec (240 + r / 262144) 240);
      destruct (Z.eqb_spec (240 + r / 262144) 244);
      div_mod_lia. }
  rewrite F2. unfold cont.
  rewrite (between_true _ _ _ H2), (between_true _ _ _ H3). cbn [andb].
  rewrite land7, !land63, shiftl18, shiftl12, shiftl6.
  rewrite lor64 by (apply Z.mod_pos_bound; lia).
  rewrite lor4096 by div_mod_lia.
  rewrite lor262144 by div_mod_lia.
  f_equal. div_mod_lia.
Qed.

Lemma encodeRune_nonempty r : encodeRune r <> [].
Proof.
  unfold encodeRune.
  repeat match goal with |- context [if ?c then _ else _] => destruct c end;
    discriminate.
Qed.

Lemma runes_from_skip y : forall rest,
  runes_from (List.length y) (y ++ rest) = runes_from 0 rest.
Proof.
  induction y as [|b y IH]; intros rest.
  - reflexivity.
  - exact (IH rest).
Qed.

Lemma runes_from_encodeRune r rest :
  scalar r ->
  runes_from 0 (encodeRune r ++ rest) = r :: runes_from 0 rest.
Proof.
  intros Hr. pose proof (decodeRune_encodeRune r rest Hr) as D.
  destruct (encodeRune r) as [|b y] eqn:E.
  - exfalso. exact (encodeRune_nonempty r E).
  - change (runes_from 0 ((b :: y) ++ rest))
      with (let (r0, w) := decodeRune ((b :: y) ++ rest) in
            r0 :: runes_from (Nat.pred w) (y ++ rest)).
    rewrite D. cbn [List.length Nat.pred]. f_equal. apply runes_from_skip.
Qed.

(** [[]rune(string(rs))] is [rs] when every rune of [rs] is a scalar value. *)
Lemma runes_of_string_of_runes rs :
  Forall scalar rs -> runes_of_string (string_of_runes rs) = rs.
Proof.
  unfold runes_of_string, string_of_runes.
  induction 1 as [|r rs Hr _ IH]; [reflexivity|].
  cbn [flat_map]. rewrite (runes_from_encodeRune r _ Hr). f_equal. exact IH.
Qed.

Lemma RuneError_scalar : scalar RuneError.
Proof. unfold scalar, RuneError. lia. Qed.

Lemma between_inv lo x hi : between lo x hi = true -> lo <= x <= hi.
Proof.
  unfold between. intros H. apply andb_true_iff in H. destruct H as [A B].
  apply Z.leb_le in A. apply Z.leb_le in B. lia.
Qed.

(** Every rune decoded from a string of bytes is a scalar value. *)
Lemma decodeRune_scalar s : Forall byte s -> scalar (fst (decodeRune s)).
Proof.
  intros Hs. destruct s as [|b0 s1]; [exact RuneError_scalar|].
  inversion Hs as [|? ? H0 Hs1]; subst. unfold byte in H0.
  unfold decodeRune.
  destruct (b0 <? 128) eqn:E0.
  { apply Z.ltb_lt in E0. cbn [fst]. unfold scalar. lia. }
  destruct (between 194 b0 223) eqn:E1.
  { apply between_inv in E1.
    destruct s1 as [|b1 s2]; [exact RuneError_scalar|].
    unfold cont. destruct (between 128 b1 191) eqn:C1; [|exact RuneError_scalar].
    apply between_inv in C1. cbn [fst].
    rewrite land31, land63, shiftl6.
    rewrite lor64 by (apply Z.mod_pos_bound; lia).
    unfold scalar. left. Z.div_mod_to_equations; lia. }
  destruct (between 224 b0 239) eqn:E2.
  { apply between_inv in E2.
    destruct s1 as [|b1 [|b2 s3]]; try exact RuneError_scalar.
    cbv zeta. unfold cont.
    destruct (between _ b1 _) eqn:C1; [|exact RuneError_scalar].
    destruct (between 128 b2 191) eqn:C2; [|exact RuneError_scalar].
    apply between_inv in C1. apply between_inv in C2. cbn [andb fst].
    rewrite land15, !land63, shiftl12, shiftl6.
    rewrite lor64 by (apply Z.mod_pos_bound; lia).
    rewrite lor4096 by (Z.div_mod_to_equations; lia).
    unfold scalar.
    destruct (Z.eqb_spec b0 224); destruct (Z.eqb_spec b0 237);
      Z.div_mod_to_equations; lia. }
  destruct (between 240 b0 244) eqn:E3; [|exact RuneError_scalar].
  apply between_inv in E3.
  destruct s1 as [|b1 [|b2 [|b3 s4]]]; try exact RuneError_scalar.
  cbv zeta. unfold cont.
  destruct (between _ b1 _) eqn:C1; [|exact RuneError_scalar].
  destruct (between 128 b2 191) eqn:C2; [|exact RuneError_scalar].
  destruct (between 128 b3 191) eqn:C3; [|exact RuneError_scalar].
  apply between_inv in C1. apply between_inv in C2. apply between_inv in C3.
  cbn [andb fst].
  rewrite land7, !land63, shiftl18, shiftl12, shiftl6.
  rewrite lor64 by (apply Z.mod_pos_bound; lia).
  rewrite lor4096 by (Z.div_mod_to_equations; lia).
  rewrite lor262144 by (Z.div_mod_to_equations; lia).
  unfold scalar.
  destruct (Z.eqb_spec b0 240); destruct (Z.eqb_spec b0 244);
    Z.div_mod_to_equations; lia.
Qed.

Lemma runes_from_scalar s : forall k,
  Forall byte s -> Forall scalar (runes_from k s).
Proof.
  induction s as [|b s IH]; intros k Hs; [constructor|].
  pose proof (decodeRune_scalar (b :: s) Hs) as D.
  inversion Hs as [|? ? _ Hs']; subst.
  destruct k as [|k].
  - change (runes_from 0 (b :: s))
      with (let (r0, w) := decodeRune (b :: s) in
            r0 :: runes_from (Nat.pred w) s).
    destruct (decodeRune (b :: s)) as [r0 w]. constructor; [exact D|].
    apply IH; exact Hs'.
  - exact (IH k Hs').
Qed.

Lemma runes_of_string_scalar s :
  Forall byte s -> Forall scalar (runes_of_string s).
Proof. apply runes_from_scalar. Qed.

(** X21.  The compiler converts a slice of the pattern's runes to a string
    and the nested parse converts it back: the runes are unchanged, so the
    nested parse can be given the runes themselves. *)
Lemma nested_pattern_text_roundtrip pattern inner :
  Forall byte pattern ->
  incl inner (runes_of_string pattern) ->
  runes_of_string (string_of_runes inner) = inner.
Proof.
  intros Hb Hin. apply runes_of_string_of_runes.
  apply Forall_forall. intros r Hr.
  exact (proj1 (Forall_forall scalar (runes_of_string pattern))
           (runes_of_string_scalar pattern Hb) r (Hin r Hr)).
Qed.


(* ------------------------------------------------------------------ *)
(** ** Runs that end: more fuel, same outcome *)

Lemma refines_refl {A : Type} (a : outcome A) : refines a a.
Proof. right; reflexivity. Qed.

Lemma refines_trans {A : Type} (a b c : outcome A) :
  refines a b -> refines b c -> refines a c.
Proof.
  intros [Ha | Ha] [Hb | Hb]; subst; unfold refines; auto.
Qed.

Lemma refines_bind {A B : Type} (a a' : outcome A) (k k' : A -> outcome B) :
  refines a a' -> (forall x, refines (k x) (k' x)) ->
  refines (bind a k) (bind a' k').
Proof.
  intros [Ha | Ha] Hk; subst.
  - left; reflexivity.
  - destruct a'; simpl; auto using refines_refl.
Qed.

Lemma refines_done {A : Type} (a b : outcome A) (x : A) :
  refines a b -> a = Done x -> b = Done x.
Proof. intros [H | H] E; congruence. Qed.

Lemma refines_panic {A : Type} (a b : outcome A) :
  refines a b -> a = Panic -> b = Panic.
Proof. intros [H | H] E; congruence. Qed.

Ltac refine_step :=
  match goal with
  | |- refines ?a ?a => apply refines_refl
  | |- refines OutOfFuel _ => left; reflexivity
  | |- refines (bind _ _) (bind _ _) => apply refines_bind; [ | intros ]
  | |- refines (match ?x with _ => _ end) (match ?x with _ => _ end) =>
    destruct x
  | H : forall a b c d e, refines (?f a b c d e) (?g a b c d e)
    |- refines (?f _ _ _ _ _) (?g _ _ _ _ _) => apply H
  | H : forall a b c d e f' g', refines (?f a b c d e f' g') (?g a b c d e f' g')
    |- refines (?f _ _ _ _ _ _ _) (?g _ _ _ _ _ _ _) => apply H
  end.

Ltac refine_all := repeat refine_step.

Section Monotone.

Variable IsDigit : rune -> bool.
Variable IsLetter : rune -> bool.

Section Bodies.

Variables callState callState' :
  Pattern -> list rune -> Z -> slice -> store -> outcome stateResult.
Variables callCaptures callCaptures' :
  Pattern -> list rune -> Z -> slice -> store -> outcome capturesResult.
Variables callOnce callOnce' :
  PatternElement -> list rune -> Z -> slice -> store -> outcome stateResult.
Variables callRepeat callRepeat' :
  PatternElement -> Pattern -> list rune -> Z -> slice -> slice -> store ->
  outcome capturesResult.

Hypothesis HState : forall a b c d e,
  refines (callState a b c d e) (callState' a b c d e).
Hypothesis HCaptures : forall a b c d e,
  refines (callCaptures a b c d e) (callCaptures' a b c d e).
Hypothesis HOnce : forall a b c d e,
  refines (callOnce a b c d e) (callOnce' a b c d e).
Hypothesis HRepeat : forall a b c d e f g,
  refines (callRepeat a b c d e f g) (callRepeat' a b c d e f g).

Lemma matchElementOnce_body_mono element input pos captures h :
  refines (matchElementOnce_body IsDigit IsLetter callCaptures element input pos captures h)
          (matchElementOnce_body IsDigit IsLetter callCaptures' element input pos captures h).
Proof.
  unfold matchElementOnce_body.
  destruct element; refine_all.
Qed.

Lemma oneOrMore_loop_mono remaining matcher input k :
  forall currentPos pos captures h,
  refines (oneOrMore_loop IsDigit IsLetter callState remaining matcher input k currentPos pos captures h)
          (oneOrMore_loop IsDigit IsLetter callState' remaining matcher input k currentPos pos captures h).
Proof.
  induction k as [|k IH]; intros; simpl; refine_all.
  apply IH.
Qed.

Lemma alternatives_loop_mono remaining alternatives input pos captures :
  forall h,
  refines (alternatives_loop callState remaining alternatives input pos captures h)
          (alternatives_loop callState' remaining alternatives input pos captures h).
Proof.
  induction alternatives as [|alt alts IH]; intros; simpl; refine_all.
  apply IH.
Qed.

Lemma matchHereWithState_body_mono p input pos captures h :
  refines (matchHereWithState_body IsDigit IsLetter callState callOnce p input pos captures h)
          (matchHereWithState_body IsDigit IsLetter callState' callOnce' p input pos captures h).
Proof.
  unfold matchHereWithState_body.
  destruct (elements p) as [|element rest]; [apply refines_refl|].
  destruct element; refine_all;
    auto using oneOrMore_loop_mono, alternatives_loop_mono.
Qed.

Lemma alternatives_loop_captures_mono remainingPattern alternatives input inputPos captures :
  forall h,
  refines (alternatives_loop_captures callCaptures remainingPattern alternatives input inputPos captures h)
          (alternatives_loop_captures callCaptures' remainingPattern alternatives input inputPos captures h).
Proof.
  induction alternatives as [|alt alts IH]; intros; simpl; refine_all;
    apply IH.
Qed.

Lemma repeat_body_mono matcher remainingPattern input inputPos cp captures h :
  refines (repeat_body callCaptures callOnce callRepeat matcher remainingPattern input inputPos cp captures h)
          (repeat_body callCaptures' callOnce' callRepeat' matcher remainingPattern input inputPos cp captures h).
Proof.
  unfold repeat_body; refine_all.
Qed.

Lemma matchHereWithCaptures_loop_mono p els input :
  forall inputPos captures h,
  refines (matchHereWithCaptures_loop callCaptures callOnce callRepeat p els input inputPos captures h)
          (matchHereWithCaptures_loop callCaptures' callOnce' callRepeat' p els input inputPos captures h).
Proof.
  induction els as [|element rest IH]; intros; simpl; [apply refines_refl|].
  destruct element; refine_all;
    auto using alternatives_loop_captures_mono.
Qed.

End Bodies.

Lemma captures_step fuel :
  (forall a b c d e,
     refines (matchHereWithCaptures IsDigit IsLetter fuel a b c d e)
             (matchHereWithCaptures IsDigit IsLetter (S fuel) a b c d e)) /\
  (forall a b c d e,
     refines (matchElementOnce IsDigit IsLetter fuel a b c d e)
             (matchElementOnce IsDigit IsLetter (S fuel) a b c d e)) /\
  (forall a b c d e f g,
     refines (repeat_loop IsDigit IsLetter fuel a b c d e f g)
             (repeat_loop IsDigit IsLetter (S fuel) a b c d e f g)).
Proof.
  induction fuel as [|fuel (IHc & IHo & IHr)].
  - repeat split; intros; left; reflexivity.
  - repeat split; intros.
    + change (refines
        (matchHereWithCaptures_body (matchHereWithCaptures IsDigit IsLetter fuel)
           (matchElementOnce IsDigit IsLetter fuel) (repeat_loop IsDigit IsLetter fuel) a b c d e)
        (matchHereWithCaptures_body (matchHereWithCaptures IsDigit IsLetter (S fuel))
           (matchElementOnce IsDigit IsLetter (S fuel)) (repeat_loop IsDigit IsLetter (S fuel)) a b c d e)).
      apply matchHereWithCaptures_loop_mono; assumption.
    + change (refines
        (matchElementOnce_body IsDigit IsLetter (matchHereWithCaptures IsDigit IsLetter fuel) a b c d e)
        (matchElementOnce_body IsDigit IsLetter (matchHereWithCaptures IsDigit IsLetter (S fuel)) a b c d e)).
      apply matchElementOnce_body_mono; assumption.
    + change (refines
        (repeat_body (matchHereWithCaptures IsDigit IsLetter fuel)
           (matchElementOnce IsDigit IsLetter fuel) (repeat_loop IsDigit IsLetter fuel) a b c d e f g)
        (repeat_body (matchHereWithCaptures IsDigit IsLetter (S fuel))
           (matchElementOnce IsDigit IsLetter (S fuel)) (repeat_loop IsDigit IsLetter (S fuel)) a b c d e f g)).
      apply repeat_body_mono; assumption.
Qed.

Lemma state_step fuel : forall a b c d e,
  refines (matchHereWithState IsDigit IsLetter fuel a b c d e)
          (matchHereWithState IsDigit IsLetter (S fuel) a b c d e).
Proof.
  induction fuel as [|fuel IH]; intros.
  - left; reflexivity.
  - change (refines
      (matchHereWithState_body IsDigit IsLetter (matchHereWithState IsDigit IsLetter fuel)
         (matchElementOnce IsDigit IsLetter fuel) a b c d e)
      (matchHereWithState_body IsDigit IsLetter (matchHereWithState IsDigit IsLetter (S fuel))
         (matchElementOnce IsDigit IsLetter (S fuel)) a b c d e)).
    apply matchHereWithState_body_mono; [assumption|].
    apply (captures_step fuel).
Qed.

End Monotone.

(* ------------------------------------------------------------------ *)
(** ** The store *)

Lemma list_set_length {A : Type} (l : list A) n v :
  List.length (list_set l n v) = List.length l.
Proof.
  revert n; induction l as [|x l IH]; intros [|n]; simpl; auto.
Qed.

Lemma list_set_Forall {A : Type} (P : A -> Prop) (l : list A) n v :
  Forall P l -> P v -> Forall P (list_set l n v).
Proof.
  intros H Hv; revert n; induction H as [|x l Hx Hl IH]; intros [|n]; simpl;
    try constructor; auto.
Qed.

Lemma nth_list_set_same {A : Type} (l : list A) n v d :
  (n < List.length l)%nat -> nth n (list_set l n v) d = v.
Proof.
  revert n; induction l as [|x l IH]; intros [|n]; simpl; intros; try lia; auto.
  apply IH; lia.
Qed.

Lemma nth_list_set_other {A : Type} (l : list A) n m v d :
  n <> m -> nth m (list_set l n v) d = nth m l d.
Proof.
  revert n m; induction l as [|x l IH]; intros [|n] [|m]; simpl; intros;
    try congruence; auto.
Qed.

Lemma well_sized_contents n h s :
  well_sized n h -> live h s -> List.length (contents h s) = n.
Proof.
  intros Hws Hl; destruct s as [|a]; [contradiction|].
  simpl in *. unfold well_sized in Hws. rewrite Forall_forall in Hws.
  apply Hws, nth_In; exact Hl.
Qed.

Lemma update_length h s v : List.length (update h s v) = List.length h.
Proof. destruct s; simpl; auto using list_set_length. Qed.

Lemma update_well_sized n h s v :
  well_sized n h -> List.length v = n -> well_sized n (update h s v).
Proof.
  intros; destruct s; simpl; auto. apply list_set_Forall; auto.
Qed.

Lemma live_mono h h' s :
  live h s -> (List.length h <= List.length h')%nat -> live h' s.
Proof. destruct s; simpl; auto; lia. Qed.

Lemma copy_length dst src h : List.length (copy dst src h) = List.length h.
Proof. apply update_length. Qed.

Lemma copy_well_sized n h dst src :
  well_sized n h -> live h dst -> live h src -> well_sized n (copy dst src h).
Proof.
  intros Hws Hd Hs; unfold copy.
  rewrite (well_sized_contents _ _ _ Hws Hd), (well_sized_contents _ _ _ Hws Hs).
  rewrite Nat.min_id.
  apply update_well_sized; auto.
  rewrite length_app, length_firstn, length_skipn.
  rewrite (well_sized_contents _ _ _ Hws Hd), (well_sized_contents _ _ _ Hws Hs). lia.
Qed.

Section Results.

Variable IsDigit : rune -> bool.
Variable IsLetter : rune -> bool.

Lemma matchHereWithState_mono fuel fuel' p input pos captures h :
  (fuel <= fuel')%nat ->
  refines (matchHereWithState IsDigit IsLetter fuel p input pos captures h)
          (matchHereWithState IsDigit IsLetter fuel' p input pos captures h).
Proof.
  induction 1 as [|m _ IH].
  - apply refines_refl.
  - eapply refines_trans; [exact IH | apply state_step].
Qed.

Lemma matchHereWithCaptures_mono fuel fuel' p input pos captures h :
  (fuel <= fuel')%nat ->
  refines (matchHereWithCaptures IsDigit IsLetter fuel p input pos captures h)
          (matchHereWithCaptures IsDigit IsLetter fuel' p input pos captures h).
Proof.
  induction 1 as [|m _ IH].
  - apply refines_refl.
  - eapply refines_trans; [exact IH | apply (captures_step IsDigit IsLetter m)].
Qed.

Lemma matchElementOnce_mono fuel fuel' e input pos captures h :
  (fuel <= fuel')%nat ->
  refines (matchElementOnce IsDigit IsLetter fuel e input pos captures h)
          (matchElementOnce IsDigit IsLetter fuel' e input pos captures h).
Proof.
  induction 1 as [|m _ IH].
  - apply refines_refl.
  - eapply refines_trans; [exact IH | apply (captures_step IsDigit IsLetter m)].
Qed.

Lemma Match_loop_mono fuel fuel' p input k :
  (fuel <= fuel')%nat -> forall startPos h,
  refines (Match_loop IsDigit IsLetter fuel p input k startPos h)
          (Match_loop IsDigit IsLetter fuel' p input k startPos h).
Proof.
  intros Hle; induction k as [|k IH]; intros; simpl.
  - apply refines_refl.
  - destruct (startPos <=? len input); [|apply refines_refl].
    apply refines_bind; [apply refines_refl|intros [captures h1]].
    apply refines_bind; [apply matchHereWithState_mono; assumption|].
    intros [[[ok newPos] c] h2]; destruct ok; [apply refines_refl|apply IH].
Qed.

(** A run of Match that ends gives the same outcome with any larger bound
    on the depth of calls. *)
Lemma Match_mono fuel fuel' p input :
  (fuel <= fuel')%nat ->
  refines (Match IsDigit IsLetter fuel p input)
          (Match IsDigit IsLetter fuel' p input).
Proof.
  intros Hle; unfold Match.
  destruct (startAnchor p); [|apply Match_loop_mono; assumption].
  apply refines_bind; [apply refines_refl|intros [captures h1]].
  apply refines_bind; [apply matchHereWithState_mono; assumption|].
  intros [[[ok newPos] c] h2]; apply refines_refl.
Qed.

Lemma Match_done fuel fuel' p input b :
  (fuel <= fuel')%nat ->
  Match IsDigit IsLetter fuel p input = Done b ->
  Match IsDigit IsLetter fuel' p input = Done b.
Proof.
  intros Hle E; exact (refines_done _ _ _ (Match_mono _ _ p input Hle) E).
Qed.

Lemma Match_deterministic fuel fuel' p input b b' :
  Match IsDigit IsLetter fuel p input = Done b ->
  Match IsDigit IsLetter fuel' p input = Done b' -> b = b'.
Proof.
  intros E E'.
  destruct (Nat.le_ge_cases fuel fuel') as [Hle | Hle].
  - pose proof (Match_done _ _ p input _ Hle E) as E2; congruence.
  - pose proof (Match_done _ _ p input _ Hle E') as E2; congruence.
Qed.

End Results.

(* ------------------------------------------------------------------ *)
(** ** Snapshots and assignments *)

Lemma list_set_last (l : store) x y :
  list_set (l ++ [x]) (List.length l) y = l ++ [y].
Proof.
  induction l as [|z l IH]; simpl; [reflexivity|]. rewrite IH; reflexivity.
Qed.

Lemma contents_app h l s : live h s -> contents (h ++ l) s = contents h s.
Proof.
  destruct s as [|a]; simpl; [contradiction|]. intros; apply app_nth1; assumption.
Qed.

Lemma contents_new h x : contents (h ++ [x]) (Slice (List.length h)) = x.
Proof.
  simpl. rewrite app_nth2 by lia. rewrite Nat.sub_diag. reflexivity.
Qed.

Lemma snapshot_eq h src :
  live h src ->
  snapshot src h = Done (Slice (List.length h), h ++ [contents h src]).
Proof.
  intros Hl. unfold snapshot, make, len.
  destruct (Z.of_nat (List.length (contents h src)) <? 0) eqn:E;
    [apply Z.ltb_lt in E; lia|].
  rewrite Nat2Z.id. cbn [bind]. f_equal. f_equal.
  unfold copy. rewrite contents_new, contents_app, repeat_length by assumption.
  rewrite Nat.min_id, firstn_all.
  rewrite skipn_all2 by (rewrite repeat_length; lia).
  rewrite app_nil_r. unfold update. apply list_set_last.
Qed.

Lemma snapshot_spec n h src :
  well_sized n h -> live h src ->
  exists h', snapshot src h = Done (Slice (List.length h), h') /\
             well_sized n h' /\ List.length h' = S (List.length h) /\
             contents h' (Slice (List.length h)) = contents h src.
Proof.
  intros Hws Hl. exists (h ++ [contents h src]).
  split; [apply snapshot_eq; assumption|]. repeat split.
  - apply Forall_app; split; [exact Hws|].
    constructor; [apply well_sized_contents; assumption|constructor].
  - rewrite length_app; simpl; lia.
  - apply contents_new.
Qed.

Lemma assign_spec n h s i v :
  well_sized n h -> live h s -> 0 <= i < Z.of_nat n ->
  exists h', assign h s i v = Done h' /\ well_sized n h' /\
             List.length h' = List.length h.
Proof.
  intros Hws Hl Hi. unfold assign, len.
  rewrite (well_sized_contents _ _ _ Hws Hl).
  destruct ((0 <=? i) && (i <? Z.of_nat n)) eqn:E.
  - eexists; split; [reflexivity|]. split.
    + apply update_well_sized; auto.
      rewrite list_set_length. apply well_sized_contents; auto.
    + apply update_length.
  - apply andb_false_iff in E. destruct E as [E|E];
      [apply Z.leb_gt in E | apply Z.ltb_ge in E]; lia.
Qed.

Lemma live_copy h dst src s : live h s -> live (copy dst src h) s.
Proof.
  intros H; apply (live_mono h); [assumption|]. rewrite copy_length; lia.
Qed.

(* ------------------------------------------------------------------ *)
(** ** One step of each function *)

Section Unfold.
Variable IsDigit : rune -> bool.
Variable IsLetter : rune -> bool.

Lemma matchHereWithState_S fuel p input pos captures h :
  matchHereWithState IsDigit IsLetter (S fuel) p input pos captures h =
  matchHereWithState_body IsDigit IsLetter
    (matchHereWithState IsDigit IsLetter fuel)
    (matchElementOnce IsDigit IsLetter fuel) p input pos captures h.
Proof. reflexivity. Qed.

Lemma matchHereWithCaptures_S fuel p input pos captures h :
  matchHereWithCaptures IsDigit IsLetter (S fuel) p input pos captures h =
  matchHereWithCaptures_loop
    (matchHereWithCaptures IsDigit IsLetter fuel)
    (matchElementOnce IsDigit IsLetter fuel)
    (repeat_loop IsDigit IsLetter fuel) p (elements p) input pos captures h.
Proof. reflexivity. Qed.

Lemma matchElementOnce_S fuel element input pos captures h :
  matchElementOnce IsDigit IsLetter (S fuel) element input pos captures h =
  matchElementOnce_body IsDigit IsLetter
    (matchHereWithCaptures IsDigit IsLetter fuel) element input pos captures h.
Proof. reflexivity. Qed.

Lemma repeat_loop_S fuel matcher remainingPattern input inputPos cp captures h :
  repeat_loop IsDigit IsLetter (S fuel) matcher remainingPattern input inputPos
    cp captures h =
  repeat_body (matchHereWithCaptures IsDigit IsLetter fuel)
    (matchElementOnce IsDigit IsLetter fuel) (repeat_loop IsDigit IsLetter fuel)
    matcher remainingPattern input inputPos cp captures h.
Proof. reflexivity. Qed.

End Unfold.

(* ------------------------------------------------------------------ *)
(** ** A run of Match that does not end *)

Section Divergence.
Variable IsDigit : rune -> bool.
Variable IsLetter : rune -> bool.

Abbreviation mHWC := (matchHereWithCaptures IsDigit IsLetter).
Abbreviation mEO := (matchElementOnce IsDigit IsLetter).
Abbreviation mHWS := (matchHereWithState IsDigit IsLetter).
Abbreviation rloop := (repeat_loop IsDigit IsLetter).


Lemma once_empty_group f c h :
  well_sized 2 h -> live h c ->
  mEO f (GroupMatcher 2 G2) [] 0 c h = OutOfFuel \/
  exists c' h', mEO f (GroupMatcher 2 G2) [] 0 c h = Done (true, 0, c', h') /\
     well_sized 2 h' /\ live h' c' /\ (List.length h <= List.length h')%nat.
Proof.
  intros Hws Hl.
  destruct f as [|f]; [left; reflexivity|].
  rewrite matchElementOnce_S. unfold matchElementOnce_body.
  destruct (snapshot_spec 2 h c Hws Hl) as (h1 & E1 & Hws1 & Hlen1 & Hc1).
  rewrite E1; cbn [bind].
  destruct f as [|f]; [left; reflexivity|].
  rewrite matchHereWithCaptures_S.
  cbn [elements G2 matchHereWithCaptures_loop].
  assert (Hl1 : live h1 (Slice (List.length h))) by (simpl; lia).
  destruct (snapshot_spec 2 h1 _ Hws1 Hl1) as (h2 & E2 & Hws2 & Hlen2 & Hc2).
  rewrite E2; cbn [bind].
  destruct f as [|f]; [left; reflexivity|].
  rewrite matchHereWithCaptures_S.
  cbn [elements matchHereWithCaptures_loop endAnchor bind G2].
  right.
  change (orPanic (subslice (@nil rune) 0 0)) with (Done (@nil rune)); cbn [bind].
  assert (Hl2a : live h2 (Slice (List.length h))) by (simpl; lia).
  assert (Hl2b : live h2 (Slice (List.length h1))) by (simpl; lia).
  pose proof (copy_well_sized 2 h2 _ _ Hws2 Hl2a Hl2b) as Hws3.
  assert (Hl3 : live (copy (Slice (List.length h)) (Slice (List.length h1)) h2)
                  (Slice (List.length h)))
    by (apply live_copy; assumption).
  destruct (assign_spec 2 _ _ (2 - 1) (string_of_runes []) Hws3 Hl3)
    as (h4 & E4 & Hws4 & Hlen4); [lia|].
  rewrite E4; cbn [bind].
  exists (Slice (List.length h)), h4. repeat split; auto.
  - unfold live. rewrite Hlen4, copy_length. lia.
  - rewrite Hlen4, copy_length. lia.
Qed.

Lemma literal_fails_at_end f c h :
  mHWC f Rb [] 0 c h = OutOfFuel \/ mHWC f Rb [] 0 c h = Done (false, 0, h).
Proof.
  destruct f as [|[|f]]; [left; reflexivity|left; reflexivity|right; reflexivity].
Qed.

Lemma repeat_never_ends f : forall cp captures h,
  well_sized 2 h -> live h cp ->
  rloop f (GroupMatcher 2 G2) Rb [] 0 cp captures h = OutOfFuel.
Proof.
  induction f as [|f IH]; intros cp captures h Hws Hl; [reflexivity|].
  rewrite repeat_loop_S. unfold repeat_body.
  destruct (snapshot_spec 2 h cp Hws Hl) as (h1 & E1 & Hws1 & Hlen1 & Hc1).
  rewrite E1; cbn [bind].
  destruct (literal_fails_at_end f (Slice (List.length h)) h1) as [E2|E2];
    rewrite E2; cbn [bind]; [reflexivity|].
  assert (Hl1 : live h1 cp) by (apply (live_mono h); [assumption|lia]).
  destruct (once_empty_group f cp h1 Hws1 Hl1) as [E3|(c' & h3 & E3 & Hws3 & Hl3 & Hlen3)];
    rewrite E3; cbn [bind negb]; [reflexivity|].
  apply IH.
  - apply copy_well_sized; auto. apply (live_mono h1); [assumption|lia].
  - apply live_copy. apply (live_mono h1); [assumption|lia].
Qed.

Lemma group1_never_ends f c h :
  well_sized 2 h -> live h c -> mHWC f G1 [] 0 c h = OutOfFuel.
Proof.
  intros Hws Hl. destruct f as [|f]; [reflexivity|].
  rewrite matchHereWithCaptures_S.
  cbn [elements G1 matchHereWithCaptures_loop endAnchor groupCount].
  destruct (snapshot_spec 2 h c Hws Hl) as (h1 & E1 & Hws1 & Hlen1 & Hc1).
  rewrite E1; cbn [bind].
  assert (Hl1 : live h1 (Slice (List.length h))) by (simpl; lia).
  destruct (once_empty_group f _ h1 Hws1 Hl1) as [E3|(c' & h3 & E3 & Hws3 & Hl3 & Hlen3)];
    rewrite E3; cbn [bind negb]; [reflexivity|].
  apply repeat_never_ends.
  - apply copy_well_sized; auto. apply (live_mono h1); [assumption|lia].
  - apply live_copy. apply (live_mono h1); [assumption|lia].
Qed.

Lemma plus_group1_never_ends f c h :
  well_sized 2 h -> live h c ->
  mHWS f (mkPattern [OneOrMoreMatcher (GroupMatcher 1 G1)] false false 2) [] 0 c h
  = OutOfFuel.
Proof.
  intros Hws Hl. destruct f as [|f]; [reflexivity|].
  rewrite matchHereWithState_S. unfold matchHereWithState_body.
  cbn [elements].
  destruct f as [|f]; [reflexivity|].
  rewrite matchElementOnce_S. unfold matchElementOnce_body.
  destruct (snapshot_spec 2 h c Hws Hl) as (h1 & E1 & Hws1 & Hlen1 & Hc1).
  rewrite E1; cbn [bind].
  rewrite group1_never_ends; [reflexivity|assumption|simpl; lia].
Qed.

(** C6.  Match does not end on the pattern ((a?)+b)+ and the empty input:
    no bound on the depth of calls lets the run return.  The body of the
    inner group matches zero runes, so the unbounded loop of
    matchHereWithCaptures repeats the same position for ever while the rest
    of the pattern keeps failing. *)
Theorem match_loops_on_empty_group_body :
  exists p, compile "((a?)+b)+" = Ok p /\
  forall fuel, Match IsDigit IsLetter fuel p [] = OutOfFuel.
Proof.
  eexists; split; [vm_compute; reflexivity|].
  intros fuel. unfold Match. cbn [startAnchor Match_loop List.length].
  change (0 <=? len (@nil rune)) with true. cbn [groupCount].
  change (make 2 []) with (Done (Slice 0, [[ @nil Z; @nil Z ]])).
  cbn [bind].
  assert (E : well_sized 2 [[ []; [] ]] -> live [[ []; [] ]] (Slice 0) -> _)
    by exact (plus_group1_never_ends fuel (Slice 0) [[ []; [] ]]).
  unfold G1, G2 in E. rewrite E; [reflexivity| |].
  - repeat constructor.
  - simpl; lia.
Qed.

End Divergence.


(* ------------------------------------------------------------------ *)
(** ** Patterns without groups *)

Section FlatLemmas.

Variable IsDigit : rune -> bool.
Variable IsLetter : rune -> bool.

Abbreviation once := (matchElementOnce IsDigit IsLetter).
Abbreviation state := (matchHereWithState IsDigit IsLetter).

Lemma elem_at_Some {A : Type} (l : list A) i :
  0 <= i < len l -> exists x, elem_at l i = Some x.
Proof.
  intros Hi. unfold elem_at, len in *.
  destruct (i <? 0) eqn:E; [apply Z.ltb_lt in E; lia|].
  destruct (nth_error l (Z.to_nat i)) eqn:N; [eauto|].
  apply nth_error_None in N. lia.
Qed.

Lemma elem_at_None {A : Type} (l : list A) i :
  len l <= i -> elem_at l i = None.
Proof.
  intros Hi. unfold elem_at, len in *.
  destruct (i <? 0) eqn:E; [reflexivity|].
  apply nth_error_None. apply Z.ltb_ge in E. lia.
Qed.

Lemma elem_at_lt {A : Type} (l : list A) i x :
  elem_at l i = Some x -> 0 <= i < len l.
Proof.
  unfold elem_at, len. destruct (i <? 0) eqn:E; [discriminate|].
  intros N. apply Z.ltb_ge in E.
  assert (Z.to_nat i < List.length l)%nat
    by (apply nth_error_Some; congruence).
  lia.
Qed.

(** A single occurrence of an atom. *)
Lemma once_atom fuel m input pos c h :
  is_atom m = true -> 0 <= pos ->
  once (S fuel) m input pos c h =
  if accepts IsDigit IsLetter m input pos
  then Done (true, pos + 1, c, h) else Done (false, 0, nilslice, h).
Proof.
  intros Ha Hpos. rewrite matchElementOnce_S. unfold accepts.
  destruct (pos >=? len input) eqn:E.
  - rewrite elem_at_None by (apply Z.geb_le in E; lia).
    destruct m; try discriminate; simpl; rewrite E; reflexivity.
  - assert (Hlt : 0 <= pos < len input).
    { split; [assumption|]. rewrite Z.geb_leb in E. apply Z.leb_gt in E. lia. }
    destruct (elem_at_Some input pos Hlt) as (r & Hr). rewrite Hr.
    destruct m; try discriminate; simpl; rewrite E, Hr; simpl;
      match goal with |- context [negb ?b] => destruct b end; reflexivity.
Qed.


Lemma oneOrMore_loop_flat fuel remaining m input (try : Z -> option Z) c h :
  (forall cur, 0 <= cur ->
     match try cur with
     | Some e => state fuel remaining input cur c h = Done (true, e, c, h)
     | None => exists pos',
         state fuel remaining input cur c h = Done (false, pos', c, h)
     end) ->
  forall k cur pos, 0 <= cur ->
  match flat_loop IsDigit IsLetter try m input k cur with
  | Some e =>
    oneOrMore_loop IsDigit IsLetter (state fuel) remaining m input k cur pos c h
    = Done (true, e, c, h)
  | None => exists pos',
    oneOrMore_loop IsDigit IsLetter (state fuel) remaining m input k cur pos c h
    = Done (false, pos', c, h)
  end.
Proof.
  intros Htry. induction k as [|k IH]; intros cur pos Hcur; simpl.
  - eauto.
  - destruct (cur <=? len input) eqn:Ele; [|eauto].
    specialize (Htry cur Hcur). destruct (try cur) as [e|].
    + rewrite Htry; reflexivity.
    + destruct Htry as (pos' & Htry). rewrite Htry; cbn [bind].
      unfold accepts. destruct (cur <? len input) eqn:Elt.
      * destruct (elem_at_Some input cur) as (r & Hr);
          [apply Z.ltb_lt in Elt; lia|].
        rewrite Hr; cbn [orPanic bind].
        destruct (ElementMatch IsDigit IsLetter m r); [|eauto].
        apply IH; lia.
      * rewrite elem_at_None by (apply Z.ltb_ge in Elt; lia). eauto.
Qed.

Lemma state_flat els :
  forallb is_flat els = true ->
  forall fuel sa ea gc input pos c h,
  (List.length els < fuel)%nat -> 0 <= pos ->
  unset h c \/ forallb is_plain els = true ->
  match flat_here IsDigit IsLetter els ea input pos with
  | Some e =>
    state fuel (mkPattern els sa ea gc) input pos c h = Done (true, e, c, h)
  | None => exists pos',
    state fuel (mkPattern els sa ea gc) input pos c h = Done (false, pos', c, h)
  end.
Proof.
  induction els as [|e rest IH]; intros Hflat fuel sa ea gc input pos c h Hfuel Hpos Hun;
    (destruct fuel as [|fuel]; [simpl in Hfuel; lia|]);
    rewrite matchHereWithState_S; unfold matchHereWithState_body;
    cbn [elements endAnchor groupCount flat_here].
  - destruct (negb ea || (pos =? len input)); eauto.
  - simpl in Hflat. apply andb_true_iff in Hflat. destruct Hflat as [He Hrest].
    simpl in Hfuel.
    assert (Hrem : forall cur, 0 <= cur ->
      match flat_here IsDigit IsLetter rest ea input cur with
      | Some e0 => state fuel (mkPattern rest false ea gc) input cur c h
                   = Done (true, e0, c, h)
      | None => exists pos', state fuel (mkPattern rest false ea gc) input cur c h
                   = Done (false, pos', c, h)
      end).
    { intros cur Hcur. apply IH; auto; [lia|].
      destruct Hun as [Hun|Hun]; [left; assumption|right].
      simpl in Hun. apply andb_true_iff in Hun. apply Hun. }
    destruct fuel as [|fuel']; [lia|].
    destruct e; try discriminate He;
      try (rewrite once_atom by (auto; lia);
           match goal with
           | |- context [accepts _ _ ?m _ _] =>
             destruct (accepts IsDigit IsLetter m input pos)
           end; cbn [bind negb]; [apply Hrem; lia | eauto]).
    + (* OneOrMore *)
      rewrite once_atom by (auto; lia).
      destruct (accepts IsDigit IsLetter e input pos); cbn [bind negb]; [|eauto].
      apply oneOrMore_loop_flat; [exact Hrem | lia].
    + (* ZeroOrOne *)
      pose proof (Hrem pos Hpos) as H0.
      destruct (flat_here IsDigit IsLetter rest ea input pos) as [e0|].
      * rewrite H0; reflexivity.
      * destruct H0 as (pos' & H0). rewrite H0; cbn [bind].
        rewrite once_atom by (auto; lia).
        destruct (accepts IsDigit IsLetter e input pos); cbn [bind]; [|eauto].
        apply Hrem; lia.
    + (* BackReference *)
      destruct Hun as [Hun|Hun]; [|discriminate Hun].
      destruct ((index <? 1) || (index >? len (contents h c))) eqn:E; [eauto|].
      apply orb_false_iff in E. destruct E as [E1 E2].
      apply Z.ltb_ge in E1. rewrite Z.gtb_ltb in E2. apply Z.ltb_ge in E2.
      unfold load.
      destruct (elem_at_Some (contents h c) (index - 1)) as (captured & Hc);
        [lia|].
      rewrite Hc; cbn [orPanic bind].
      assert (captured = []).
      { unfold unset in Hun. rewrite Forall_forall in Hun. apply Hun.
        unfold elem_at in Hc. destruct (index - 1 <? 0); [discriminate|].
        eapply nth_error_In; eauto. }
      subst captured. eauto.
Qed.

Lemma flat_loop_bounds (try : Z -> option Z) m input :
  (forall cur e, 0 <= cur <= len input -> try cur = Some e -> cur <= e <= len input) ->
  forall k cur e, 0 <= cur ->
  flat_loop IsDigit IsLetter try m input k cur = Some e -> cur <= e <= len input.
Proof.
  intros Htry. induction k as [|k IH]; intros cur e Hcur; simpl; [discriminate|].
  destruct (cur <=? len input) eqn:Ele; [|discriminate].
  apply Z.leb_le in Ele.
  destruct (try cur) as [e0|] eqn:T.
  - intros E; inversion E; subst. apply Htry; auto.
  - destruct (accepts IsDigit IsLetter m input cur); [|discriminate].
    intros E. apply IH in E; lia.
Qed.

Lemma accepts_lt m input pos :
  accepts IsDigit IsLetter m input pos = true -> 0 <= pos < len input.
Proof.
  unfold accepts. destruct (elem_at input pos) eqn:E; [|discriminate].
  intros _. eapply elem_at_lt; eauto.
Qed.

Lemma flat_here_bounds els ea input :
  forall pos e, 0 <= pos <= len input ->
  flat_here IsDigit IsLetter els ea input pos = Some e -> pos <= e <= len input.
Proof.
  induction els as [|x rest IH]; intros pos e Hpos; simpl.
  - destruct (negb ea || (pos =? len input)); [|discriminate].
    intros E; inversion E; subst; lia.
  - destruct x; try discriminate;
      try (destruct (accepts IsDigit IsLetter _ input pos) eqn:Ha;
           [|discriminate]; intros E; apply accepts_lt in Ha; apply IH in E; lia).
    + destruct (accepts IsDigit IsLetter x input pos) eqn:Ha; [|discriminate].
      apply accepts_lt in Ha. intros E.
      apply flat_loop_bounds in E; [lia| |lia].
      intros cur e0 Hc. apply IH; assumption.
    + destruct (flat_here IsDigit IsLetter rest ea input pos) eqn:E0.
      * intros E; inversion E; subst. apply IH; assumption.
      * destruct (accepts IsDigit IsLetter x input pos) eqn:Ha; [|discriminate].
        apply accepts_lt in Ha. intros E. apply IH in E; lia.
Qed.

End FlatLemmas.


(* ------------------------------------------------------------------ *)
(** ** The quantifier + *)

Section Plus.

Variable IsDigit : rune -> bool.
Variable IsLetter : rune -> bool.

Lemma accepts_literal y input pos :
  accepts IsDigit IsLetter (LiteralMatcher y) input pos = true <->
  elem_at input pos = Some y.
Proof.
  unfold accepts. destruct (elem_at input pos) as [r|]; simpl.
  - rewrite Z.eqb_eq. split; intros; congruence.
  - split; discriminate.
Qed.

Lemma flat_here_literal y input cur :
  flat_here IsDigit IsLetter [LiteralMatcher y] false input cur =
  if accepts IsDigit IsLetter (LiteralMatcher y) input cur
  then Some (cur + 1) else None.
Proof. reflexivity. Qed.

Lemma flat_loop_first X y input : forall k cur e,
  flat_loop IsDigit IsLetter
    (flat_here IsDigit IsLetter [LiteralMatcher y] false input) X input k cur
  = Some e ->
  exists q, e = q + 1 /\ cur <= q /\ elem_at input q = Some y /\
    forall i, cur <= i < q ->
      accepts IsDigit IsLetter X input i = true /\ elem_at input i <> Some y.
Proof.
  induction k as [|k IH]; intros cur e; simpl; [discriminate|].
  destruct (cur <=? len input); [|discriminate].
  destruct (accepts IsDigit IsLetter (LiteralMatcher y) input cur) eqn:Ey.
  - intros E; inversion E; subst. exists cur. repeat split; try lia.
    apply accepts_literal; assumption.
  - destruct (accepts IsDigit IsLetter X input cur) eqn:Ex; [|discriminate].
    intros E. destruct (IH _ _ E) as (q & -> & Hq & Hy & Hrun).
    exists q. repeat split; auto; try lia;
      destruct (Z.eq_dec i cur) as [->|Hne];
      try (apply Hrun; lia); auto.
    intros C. apply accepts_literal in C. congruence.
Qed.

Lemma flat_loop_none X y input : forall k cur,
  len input + 1 - cur <= Z.of_nat k ->
  flat_loop IsDigit IsLetter
    (flat_here IsDigit IsLetter [LiteralMatcher y] false input) X input k cur
  = None ->
  forall q, cur <= q -> run_of IsDigit IsLetter X input cur q ->
  elem_at input q <> Some y.
Proof.
  induction k as [|k IH]; intros cur Hk; simpl.
  - intros _ q Hq _. rewrite elem_at_None by lia. discriminate.
  - destruct (cur <=? len input) eqn:Ele.
    + destruct (accepts IsDigit IsLetter (LiteralMatcher y) input cur) eqn:Ey;
        [discriminate|].
      assert (Hcur : elem_at input cur <> Some y).
      { intros C. apply accepts_literal in C. congruence. }
      destruct (accepts IsDigit IsLetter X input cur) eqn:Ex.
      * intros E q Hq Hrun. destruct (Z.eq_dec q cur) as [->|Hne]; [assumption|].
        apply (IH (cur + 1)); auto; try lia.
        intros i Hi; apply Hrun; lia.
      * intros _ q Hq Hrun. destruct (Z.eq_dec q cur) as [->|Hne]; [assumption|].
        assert (accepts IsDigit IsLetter X input cur = true)
          by (apply Hrun; lia).
        congruence.
    + intros _ q Hq _. apply Z.leb_gt in Ele.
      rewrite elem_at_None by lia. discriminate.
Qed.

(** C3, as the code has it.  For a pattern X+Y with X a single-rune element
    and Y a literal, matchHereWithState succeeds at [pos] exactly when some
    run of one or more runes accepted by X is followed by Y, and then the +
    has consumed the SHORTEST such run: the rest of the pattern is tried
    first after one repetition, and one more repetition is taken each time
    it fails. *)
Theorem plus_takes_the_shortest_run X y input pos fuel sa gc c h :
  is_atom X = true -> 0 <= pos -> (3 <= fuel)%nat ->
  let p := mkPattern [OneOrMoreMatcher X; LiteralMatcher y] sa false gc in
  (exists q, pos < q /\ run_of IsDigit IsLetter X input pos q /\
     elem_at input q = Some y /\
     (forall i, pos < i < q -> elem_at input i <> Some y) /\
     matchHereWithState IsDigit IsLetter fuel p input pos c h
     = Done (true, q + 1, c, h))
  \/
  ((forall q, pos < q -> run_of IsDigit IsLetter X input pos q ->
      elem_at input q <> Some y) /\
   exists pos',
     matchHereWithState IsDigit IsLetter fuel p input pos c h
     = Done (false, pos', c, h)).
Proof.
  intros HX Hpos Hfuel p.
  assert (Hflat : forallb is_flat [OneOrMoreMatcher X; LiteralMatcher y] = true)
    by (simpl; rewrite HX; reflexivity).
  assert (Hplain : forallb is_plain [OneOrMoreMatcher X; LiteralMatcher y] = true)
    by (simpl; rewrite HX; reflexivity).
  pose proof (state_flat IsDigit IsLetter _ Hflat fuel sa false gc input pos c h) as H.
  simpl List.length in H. specialize (H ltac:(lia) Hpos (or_intror Hplain)).
  change (flat_here IsDigit IsLetter [OneOrMoreMatcher X; LiteralMatcher y]
            false input pos)
    with (if accepts IsDigit IsLetter X input pos
          then flat_loop IsDigit IsLetter
                 (flat_here IsDigit IsLetter [LiteralMatcher y] false input)
                 X input (Z.to_nat (len input + 1 - (pos + 1))) (pos + 1)
          else None) in H.
  fold p in H.
  destruct (accepts IsDigit IsLetter X input pos) eqn:Ex.
  - destruct (flat_loop IsDigit IsLetter
                (flat_here IsDigit IsLetter [LiteralMatcher y] false input)
                X input (Z.to_nat (len input + 1 - (pos + 1))) (pos + 1))
      as [e|] eqn:El.
    + left. destruct (flat_loop_first _ _ _ _ _ _ El) as (q & -> & Hq & Hy & Hrun).
      exists q. split; [lia|]. split; [|split; [assumption|split; [|exact H]]].
      * intros i Hi. destruct (Z.eq_dec i pos) as [->|Hne]; [assumption|].
        apply Hrun; lia.
      * intros i Hi. apply Hrun; lia.
    + right. split; [|exact H].
      intros q Hq Hrun.
      eapply flat_loop_none; [|exact El|lia|].
      * lia.
      * intros i Hi; apply Hrun; lia.
  - right. split; [|exact H].
    intros q Hq Hrun.
    assert (accepts IsDigit IsLetter X input pos = true) by (apply Hrun; lia).
    congruence.
Qed.

End Plus.

Lemma plus_takes_the_shortest_run_witness :
  is_atom (LiteralMatcher 97) = true /\ 0 <= 0 /\ (3 <= 3)%nat /\
  ((exists q, 0 < q /\
      run_of asciiIsDigit asciiIsLetter (LiteralMatcher 97) [97; 97; 98] 0 q /\
      elem_at [97; 97; 98] q = Some 98 /\
      (forall i, 0 < i < q -> elem_at [97; 97; 98] i <> Some 98) /\
      matchHereWithState asciiIsDigit asciiIsLetter 3
        (mkPattern [OneOrMoreMatcher (LiteralMatcher 97); LiteralMatcher 98]
           false false 0) [97; 97; 98] 0 (Slice 0) [[]]
      = Done (true, q + 1, Slice 0, [[]]))
   \/
   ((forall q, 0 < q ->
       run_of asciiIsDigit asciiIsLetter (LiteralMatcher 97) [97; 97; 98] 0 q ->
       elem_at [97; 97; 98] q <> Some 98) /\
    exists pos',
      matchHereWithState asciiIsDigit asciiIsLetter 3
        (mkPattern [OneOrMoreMatcher (LiteralMatcher 97); LiteralMatcher 98]
           false false 0) [97; 97; 98] 0 (Slice 0) [[]]
      = Done (false, pos', Slice 0, [[]]))).
Proof.
  split; [reflexivity|]. split; [lia|]. split; [lia|].
  apply (plus_takes_the_shortest_run asciiIsDigit asciiIsLetter
           (LiteralMatcher 97) 98 [97; 97; 98] 0 3 false 0 (Slice 0) [[]]);
    [reflexivity|lia|lia].
Defined.

(** C3, as the specification has it, fails: on a+a and the input aaa the
    match ends at position 2, the + having consumed one rune, although the
    run of two runes is followed by Y as well. *)
Lemma plus_is_not_greedy :
  compile "a+a"
  = Ok (mkPattern [OneOrMoreMatcher (LiteralMatcher 97); LiteralMatcher 97]
          false false 0) /\
  runes "aaa" = [97; 97; 97] /\
  ~ plus_is_greedy asciiIsDigit asciiIsLetter (LiteralMatcher 97) 97
      [97; 97; 97] 0 3.
Proof.
  split; [vm_compute; reflexivity|]. split; [vm_compute; reflexivity|].
  intros H.
  assert (E : matchHereWithState asciiIsDigit asciiIsLetter 3
                (mkPattern [OneOrMoreMatcher (LiteralMatcher 97); LiteralMatcher 97]
                   false false 0) [97; 97; 97] 0 (Slice 0) [[]]
              = Done (true, 2, Slice 0, [[]])) by (vm_compute; reflexivity).
  specialize (H false 0 (Slice 0) [[]] 2 (Slice 0) [[]] E 2).
  assert (2 + 1 <= 2); [|lia].
  apply H; [lia| |reflexivity].
  intros i Hi. assert (Hi' : i = 0 \/ i = 1) by lia.
  destruct Hi' as [->| ->]; reflexivity.
Qed.


(* ------------------------------------------------------------------ *)
(** ** Backreferences *)

Section BackReference.

Variable IsDigit : rune -> bool.
Variable IsLetter : rune -> bool.

Lemma make_eq n h :
  0 <= n ->
  make n h = Done (Slice (List.length h), h ++ [repeat [] (Z.to_nat n)]).
Proof.
  intros Hn. unfold make. destruct (n <? 0) eqn:E; [|reflexivity].
  apply Z.ltb_lt in E; lia.
Qed.

Lemma Match_loop_S fuel p input k startPos h :
  Match_loop IsDigit IsLetter fuel p input (S k) startPos h =
  if startPos <=? len input then
    '(captures, h) <- make (groupCount p) h ;;
    '(ok, _, _, h) <-
       matchHereWithState IsDigit IsLetter fuel p input startPos captures h ;;
    if ok then Done true
    else Match_loop IsDigit IsLetter fuel p input k (startPos + 1) h
  else Done false.
Proof. reflexivity. Qed.

Lemma backreference_state_out_of_range fuel n rest sa ea gc input pos captures h :
  len (contents h captures) < n ->
  matchHereWithState IsDigit IsLetter (S fuel)
    (mkPattern (BackReferenceMatcher n :: rest) sa ea gc) input pos captures h
  = Done (false, pos, captures, h).
Proof.
  intros Hn. rewrite matchHereWithState_S. unfold matchHereWithState_body.
  cbn [elements].
  assert (E : (n >? len (contents h captures)) = true)
    by (rewrite Z.gtb_ltb; apply Z.ltb_lt; assumption).
  rewrite E, orb_true_r. reflexivity.
Qed.

Lemma Match_loop_backreference fuel n rest sa ea gc input :
  0 <= gc < n ->
  forall k start h,
  Match_loop IsDigit IsLetter (S fuel)
    (mkPattern (BackReferenceMatcher n :: rest) sa ea gc) input k start h
  = Done false.
Proof.
  intros Hgc. induction k as [|k IH]; intros start h; [reflexivity|].
  rewrite Match_loop_S. cbn [groupCount].
  destruct (start <=? len input); [|reflexivity].
  rewrite make_eq by lia. cbn [bind].
  rewrite backreference_state_out_of_range.
  - cbn [bind]. apply IH.
  - rewrite contents_new. unfold len. rewrite repeat_length. lia.
Qed.

(** C10.  A backreference whose index exceeds the number of capture slots
    is a plain failure: in matchHereWithState and in matchElementOnce the
    bounds test comes before the lookup, so the run neither panics nor
    touches the captures; and a pattern that begins with a backreference
    beyond its group count (as the compiled text of \1 ... \9 alone does)
    answers false on every input. *)
Theorem backreference_out_of_range_fails :
  (forall fuel n rest sa ea gc input pos captures h,
     len (contents h captures) < n ->
     matchHereWithState IsDigit IsLetter (S fuel)
       (mkPattern (BackReferenceMatcher n :: rest) sa ea gc)
       input pos captures h
     = Done (false, pos, captures, h)) /\
  (forall fuel n input pos captures h,
     len (contents h captures) < n ->
     matchElementOnce IsDigit IsLetter (S fuel) (BackReferenceMatcher n)
       input pos captures h
     = Done (false, 0, nilslice, h)) /\
  (forall fuel n rest sa ea gc input,
     0 <= gc < n ->
     Match IsDigit IsLetter (S fuel)
       (mkPattern (BackReferenceMatcher n :: rest) sa ea gc) input
     = Done false) /\
  (forall d, 49 <= d <= 57 ->
     ParseRunes [BACKSLASH; d]
     = Ok (mkPattern [BackReferenceMatcher (d - 48)] false false 0)).
Proof.
  split; [|split; [|split]].
  - intros; apply backreference_state_out_of_range; assumption.
  - intros fuel n input pos captures h Hn.
    rewrite matchElementOnce_S. unfold matchElementOnce_body.
    assert (E : (n - 1 >=? len (contents h captures)) = true)
      by (rewrite Z.geb_leb; apply Z.leb_le; lia).
    rewrite E, orb_true_r. reflexivity.
  - intros fuel n rest sa ea gc input Hgc. unfold Match. cbn [startAnchor groupCount].
    destruct sa.
    + rewrite make_eq by lia. cbn [bind].
      rewrite backreference_state_out_of_range; [reflexivity|].
      rewrite contents_new. unfold len. rewrite repeat_length. lia.
    + apply Match_loop_backreference; assumption.
  - intros d Hd.
    assert (H : d = 49 \/ d = 50 \/ d = 51 \/ d = 52 \/ d = 53 \/ d = 54 \/
                d = 55 \/ d = 56 \/ d = 57) by lia.
    repeat (destruct H as [->|H]; [vm_compute; reflexivity|]).
    subst d; vm_compute; reflexivity.
Qed.

End BackReference.

Lemma backreference_out_of_range_fails_witness :
  0 <= 0 < 1 /\ 49 <= 49 <= 57 /\
  ParseRunes [BACKSLASH; 49]
  = Ok (mkPattern [BackReferenceMatcher (49 - 48)] false false 0) /\
  Match asciiIsDigit asciiIsLetter 1
    (mkPattern [BackReferenceMatcher 1] false false 0) [97; 98; 99]
  = Done false.
Proof.
  split; [lia|]. split; [lia|]. split.
  - apply (proj2 (proj2 (proj2
             (backreference_out_of_range_fails asciiIsDigit asciiIsLetter)))).
    lia.
  - apply (proj1 (proj2 (proj2
             (backreference_out_of_range_fails asciiIsDigit asciiIsLetter)))).
    lia.
Defined.

(* ------------------------------------------------------------------ *)
(** ** Runs of Match on given patterns *)

Section Scenarios.

Variable IsDigit : rune -> bool.
Variable IsLetter : rune -> bool.

(** C2.  End-to-end scenario 5: the pattern a(b|c)+d compiles, but Match
    answers false on abcbd, whatever bound on the depth of calls lets the
    run end.  matchHereWithState matches a group under + once, through
    matchElementOnce; for a further repetition its loop asks the method
    Match(rune) of the group, which always answers false, so the rest of
    the pattern is tried after one repetition only. *)
Theorem scenario5_group_under_plus_matches_once :
  exists p, compile "a(b|c)+d" = Ok p /\
  forall fuel, (6 <= fuel)%nat ->
    Match IsDigit IsLetter fuel p (runes "abcbd") = Done false.
Proof.
  eexists; split; [vm_compute; reflexivity|].
  intros fuel Hle.
  apply (Match_done IsDigit IsLetter 6 fuel _ _ _ Hle); vm_compute; reflexivity.
Qed.

(** C4.  matchHereWithState measures the captured string in bytes: after
    the group of (é)\1 has captured the one rune é (two bytes of UTF-8),
    the backreference asks for two more runes of input, and Match answers
    false on éé and on éééé.  matchElementOnce, reached under a quantified
    group, compares rune by rune: ((é)\2)+ matches éé. *)
Theorem backreference_of_state_counts_bytes :
  (exists p, compile "(é)\1" = Ok p /\
     forall fuel, (3 <= fuel)%nat ->
       Match IsDigit IsLetter fuel p (runes "éé") = Done false /\
       Match IsDigit IsLetter fuel p (runes "éééé") = Done false) /\
  (exists p, compile "((é)\2)+" = Ok p /\
     forall fuel, (6 <= fuel)%nat ->
       Match IsDigit IsLetter fuel p (runes "éé") = Done true).
Proof.
  split.
  - eexists; split; [vm_compute; reflexivity|].
    intros fuel Hle; split;
      apply (Match_done IsDigit IsLetter 3 fuel _ _ _ Hle); vm_compute; reflexivity.
  - eexists; split; [vm_compute; reflexivity|].
    intros fuel Hle.
    apply (Match_done IsDigit IsLetter 6 fuel _ _ _ Hle); vm_compute; reflexivity.
Qed.

(** C5.  matchHereWithState takes no snapshot of the captures: the first
    branch (a)b of ((a)b|\2c) fails on the input ac after group 2 has
    captured a, the capture stays in the array, the second branch \2c reads
    it, and Match answers true.  Under a quantifier the same alternation is
    run by matchHereWithCaptures, on a copy of the captures for each branch,
    and ((a)b|\2c)+ does not match ac. *)
Theorem capture_of_failed_branch_is_observed :
  (exists p, compile "((a)b|\2c)" = Ok p /\
     forall fuel, (5 <= fuel)%nat ->
       Match IsDigit IsLetter fuel p (runes "ac") = Done true) /\
  matchHereWithState IsDigit IsLetter 3
    (mkPattern [GroupMatcher 2 (mkPattern [LiteralMatcher 97] false false 2);
                LiteralMatcher 98] false false 2)
    (runes "ac") 0 (Slice 0) [[ []; [] ]]
  = Done (false, 0, Slice 0, [[ []; [97] ]]) /\
  (exists p, compile "((a)b|\2c)+" = Ok p /\
     forall fuel, (7 <= fuel)%nat ->
       Match IsDigit IsLetter fuel p (runes "ac") = Done false).
Proof.
  split; [|split].
  - eexists; split; [vm_compute; reflexivity|].
    intros fuel Hle.
    apply (Match_done IsDigit IsLetter 5 fuel _ _ _ Hle); vm_compute; reflexivity.
  - vm_compute; reflexivity.
  - eexists; split; [vm_compute; reflexivity|].
    intros fuel Hle.
    apply (Match_done IsDigit IsLetter 7 fuel _ _ _ Hle); vm_compute; reflexivity.
Qed.

End Scenarios.


(* ------------------------------------------------------------------ *)
(** ** The main loop of the compiler, one iteration at a time *)

Lemma parseElements_nil fuel cnt :
  parseElements (S fuel) [] cnt = Ok ([], cnt).
Proof. reflexivity. Qed.

Lemma parseElements_group fuel rest cnt :
  parseElements (S fuel) (LPAREN :: rest) cnt =
  match findClose 1 rest with
  | None => MissingClosingParenthesis
  | Some (innerPatternStr, after) =>
    rbind (parseAlternatives (parsePatternInternal_with (parseElements fuel))
             innerPatternStr (cnt + 1)) (fun '(alts, cnt') =>
    let (element, after') :=
      quantifier (GroupMatcher (cnt + 1) (groupInner alts cnt')) after in
    emit (Some element) (parseElements fuel after' cnt'))
  end.
Proof.
  cbn [parseElements]. change (LPAREN =? LPAREN) with true. cbv iota.
  destruct (findClose 1 rest) as [[inner after]|]; [|reflexivity].
  f_equal.
Qed.

Lemma parseElements_atom fuel r rest cnt :
  (r =? LPAREN) = false ->
  parseElements (S fuel) (r :: rest) cnt =
  emit (fst (scanAtom r rest)) (parseElements fuel (snd (scanAtom r rest)) cnt).
Proof.
  intros Hr. cbn [parseElements]. rewrite Hr. unfold scanAtom.
  destruct (r =? DOT).
  { destruct (quantifier WildcardMatcher rest); reflexivity. }
  destruct (r =? BACKSLASH).
  { destruct rest as [|c rest']; [reflexivity|].
    destruct ((49 <=? c) && (c <=? 57)); [reflexivity|].
    destruct (quantifier _ rest'); reflexivity. }
  destruct (r =? LBRACKET).
  { destruct rest as [|c rest']; [reflexivity|].
    destruct (c =? CARET).
    - destruct (setChars rest') as [chars rest2].
      destruct (quantifier _ (tl rest2)); reflexivity.
    - destruct (setChars (c :: rest')) as [chars rest2].
      destruct (quantifier _ (tl rest2)); reflexivity. }
  destruct (quantifier _ rest); reflexivity.
Qed.

Lemma parseAlternatives_loop_pieces parse rs : forall depth cur alts cnt,
  parseAlternatives_loop parse rs depth cur alts cnt =
  parse_each parse (pieces depth cur rs) alts cnt.
Proof.
  induction rs as [|r rs IH]; intros depth cur alts cnt; simpl.
  - destruct cur as [|x cur]; [reflexivity|]. simpl.
    destruct (parse (x :: cur) cnt) as [[alt cnt']| |]; reflexivity.
  - destruct (r =? LPAREN); [apply IH|].
    destruct (r =? RPAREN); [apply IH|].
    destruct ((r =? BAR) && (depth =? 0)); [|apply IH].
    simpl. destruct (parse cur cnt) as [[alt cnt']| |]; simpl; auto.
Qed.

Lemma parsePatternInternal_with_eq pe t cnt :
  parsePatternInternal_with pe t cnt =
  rbind (pe (body_of t) cnt) (fun '(els, cnt') =>
  Ok (mkPattern els (fst (stripStart t))
        (fst (stripEnd (snd (stripStart t)))) cnt', cnt')).
Proof.
  unfold parsePatternInternal_with, body_of.
  destruct (stripStart t) as [sa runes1]. simpl.
  destruct (stripEnd runes1) as [ea runes2]. reflexivity.
Qed.

(* ------------------------------------------------------------------ *)
(** ** Suffixes *)

Lemma quantifier_snd e rest :
  snd (quantifier e rest) = skip_quantifier rest.
Proof.
  unfold skip_quantifier, quantifier. destruct rest as [|r rest']; [reflexivity|].
  destruct (r =? PLUS); [reflexivity|]. destruct (r =? QUESTION); reflexivity.
Qed.

Lemma quantifier_fst e rest :
  fst (quantifier e rest) = e \/
  fst (quantifier e rest) = OneOrMoreMatcher e \/
  fst (quantifier e rest) = ZeroOrOneMatcher e.
Proof.
  unfold quantifier. destruct rest as [|r rest']; [auto|].
  destruct (r =? PLUS); [auto|]. destruct (r =? QUESTION); auto.
Qed.

Lemma skip_quantifier_suffix rest :
  exists pre, rest = pre ++ skip_quantifier rest.
Proof.
  unfold skip_quantifier, quantifier. destruct rest as [|r rest']; [exists []; reflexivity|].
  destruct (r =? PLUS); [exists [r]; reflexivity|].
  destruct (r =? QUESTION); [exists [r]; reflexivity|exists []; reflexivity].
Qed.

Lemma setChars_app rs :
  rs = fst (setChars rs) ++ snd (setChars rs).
Proof.
  induction rs as [|r rs IH]; simpl; [reflexivity|].
  destruct (r =? RBRACKET); [reflexivity|].
  destruct (setChars rs) as [chars rest]. simpl in *. congruence.
Qed.

Lemma tl_suffix {A : Type} (l : list A) : exists pre, l = pre ++ tl l.
Proof. destruct l as [|x l]; [exists []|exists [x]]; reflexivity. Qed.

Lemma scanAtom_suffix r rest :
  exists pre, r :: rest = pre ++ snd (scanAtom r rest) /\ pre <> [].
Proof.
  assert (Hq : forall e l, exists pre, r :: l = pre ++ snd (quantifier e l) /\ pre <> []).
  { intros e l. rewrite quantifier_snd.
    destruct (skip_quantifier_suffix l) as (pre & Hpre).
    exists (r :: pre). split; [simpl; congruence|discriminate]. }
  assert (Hq2 : forall e pre0 l, exists pre,
             r :: pre0 ++ l = pre ++ snd (quantifier e l) /\ pre <> []).
  { intros e pre0 l. rewrite quantifier_snd.
    destruct (skip_quantifier_suffix l) as (pre & Hpre).
    exists (r :: pre0 ++ pre). split; [|discriminate].
    simpl. rewrite <- app_assoc. congruence. }
  unfold scanAtom.
  destruct (r =? DOT).
  { specialize (Hq WildcardMatcher rest).
    destruct (quantifier WildcardMatcher rest); exact Hq. }
  destruct (r =? BACKSLASH).
  { destruct rest as [|c rest']; [exists [r]; split; [reflexivity|discriminate]|].
    destruct ((49 <=? c) && (c <=? 57)).
    - exists [r; c]; split; [reflexivity|discriminate].
    - match goal with |- context [quantifier ?a rest'] =>
        specialize (Hq2 a [c] rest'); destruct (quantifier a rest') end.
      exact Hq2. }
  destruct (r =? LBRACKET).
  { assert (Hset : forall pre0 l neg, exists pre,
      r :: pre0 ++ l = pre ++
        snd (let (chars, rest2) := setChars l in
             let (element, after) :=
               quantifier (CharacterSetMatcher chars neg) (tl rest2) in
             (Some element, after)) /\ pre <> []).
    { intros pre0 l neg. pose proof (setChars_app l) as Hl.
      destruct (setChars l) as [chars rest2]. simpl in Hl.
      destruct (tl_suffix rest2) as (pre1 & Hpre1).
      specialize (Hq2 (CharacterSetMatcher chars neg) (pre0 ++ chars ++ pre1) (tl rest2)).
      destruct (quantifier (CharacterSetMatcher chars neg) (tl rest2)).
      simpl in *. destruct Hq2 as (pre & Hpre & Hne). exists pre. split; [|assumption].
      rewrite <- Hpre. f_equal. rewrite Hl at 1. rewrite Hpre1 at 1.
      rewrite <- !app_assoc. reflexivity. }
    destruct rest as [|c rest'].
    - exact (Hset [] [] false).
    - destruct (c =? CARET).
      + exact (Hset [c] rest' true).
      + exact (Hset [] (c :: rest') false). }
  specialize (Hq (LiteralMatcher r) rest).
  destruct (quantifier (LiteralMatcher r) rest); exact Hq.
Qed.

Lemma scanAtom_length r rest :
  (List.length (snd (scanAtom r rest)) <= List.length rest)%nat.
Proof.
  destruct (scanAtom_suffix r rest) as (pre & Hpre & Hne).
  apply (f_equal (@List.length rune)) in Hpre. rewrite length_app in Hpre.
  simpl in Hpre. destruct pre; [congruence|]. simpl in Hpre. lia.
Qed.

Lemma scanAtom_flat r rest e :
  fst (scanAtom r rest) = Some e -> is_flat e = true.
Proof.
  assert (Hq : forall a l, is_atom a = true -> is_flat (fst (quantifier a l)) = true).
  { intros a l Ha. destruct (quantifier_fst a l) as [-> | [-> | ->]]; simpl; auto.
    destruct a; try discriminate; reflexivity. }
  unfold scanAtom.
  destruct (r =? DOT).
  { specialize (Hq WildcardMatcher rest eq_refl).
    destruct (quantifier WildcardMatcher rest); simpl in *. congruence. }
  destruct (r =? BACKSLASH).
  { destruct rest as [|c rest']; [discriminate|].
    destruct ((49 <=? c) && (c <=? 57)); [intros E; inversion E; reflexivity|].
    match goal with |- context [quantifier ?a rest'] =>
      assert (Ha : is_atom a = true)
        by (destruct (c =? 100); [reflexivity|]; destruct (c =? 119); reflexivity);
      specialize (Hq a rest' Ha); destruct (quantifier a rest') end.
    simpl in *. congruence. }
  destruct (r =? LBRACKET).
  { destruct rest as [|c rest']; [|destruct (c =? CARET)];
      match goal with |- context [setChars ?l] => destruct (setChars l) as [chars rest2] end;
      match goal with |- context [quantifier ?a ?l] =>
        specialize (Hq a l eq_refl); destruct (quantifier a l) end;
      simpl in *; congruence. }
  specialize (Hq (LiteralMatcher r) rest eq_refl).
  destruct (quantifier (LiteralMatcher r) rest); simpl in *. congruence.
Qed.


(* ------------------------------------------------------------------ *)
(** ** Nesting depth *)

#[local] Arguments Z.add : simpl never.
#[local] Arguments Z.sub : simpl never.
#[local] Arguments Z.opp : simpl never.

Lemma depth_of_app a b : depth_of (a ++ b) = depth_of a + depth_of b.
Proof. induction a as [|r a IH]; simpl; lia. Qed.

Lemma delta_range r : -1 <= delta r <= 1.
Proof.
  unfold delta. destruct (r =? LPAREN); [lia|]. destruct (r =? RPAREN); lia.
Qed.

Lemma delta_neg r : delta r = -1 -> r = RPAREN.
Proof.
  unfold delta. destruct (r =? LPAREN) eqn:E1; [lia|].
  destruct (r =? RPAREN) eqn:E2; [|lia]. intros _. apply Z.eqb_eq; assumption.
Qed.

Lemma findClose_step depth r rs :
  findClose depth (r :: rs) =
  if depth + delta r >? 0 then
    match findClose (depth + delta r) rs with
    | Some (inner, rest) => Some (r :: inner, rest)
    | None => None
    end
  else Some ([], rs).
Proof.
  simpl. unfold delta.
  destruct (r =? LPAREN); [reflexivity|].
  destruct (r =? RPAREN); [reflexivity|].
  replace (depth + 0) with depth by lia. reflexivity.
Qed.

Lemma findClose_inv rs : forall depth inner after,
  1 <= depth -> findClose depth rs = Some (inner, after) ->
  rs = inner ++ RPAREN :: after /\ nonneg (depth - 1) inner /\
  depth_of inner = 1 - depth.
Proof.
  induction rs as [|r rs IH]; intros depth inner after Hd; [discriminate|].
  rewrite findClose_step.
  destruct (depth + delta r >? 0) eqn:E.
  - apply Z.gtb_lt in E.
    destruct (findClose (depth + delta r) rs) as [[inner' rest]|] eqn:F;
      [|discriminate].
    intros H; inversion H; subst.
    assert (Hd' : 1 <= depth + delta r) by lia.
    destruct (IH _ _ _ Hd' F) as (-> & Hnn & Hdep).
    cbn [app nonneg depth_of]. repeat split; try lia.
    replace (depth - 1 + delta r) with (depth + delta r - 1) by lia. assumption.
  - intros H; inversion H; subst.
    rewrite Z.gtb_ltb in E. apply Z.ltb_ge in E.
    pose proof (delta_range r).
    assert (delta r = -1) by lia.
    rewrite (delta_neg r) by assumption.
    cbn [app nonneg depth_of]. repeat split; lia.
Qed.

Lemma findClose_some rs : forall depth,
  1 <= depth ->
  (exists inner after, rs = inner ++ RPAREN :: after /\ depth_of inner = 1 - depth) ->
  findClose depth rs <> None.
Proof.
  induction rs as [|r rs IH]; intros depth Hd (inner & after & Hrs & Hdep).
  - destruct inner; discriminate.
  - rewrite findClose_step.
    destruct (depth + delta r >? 0) eqn:E; [|discriminate].
    apply Z.gtb_lt in E.
    destruct inner as [|x inner'].
    + simpl in *. inversion Hrs; subst. change (delta RPAREN) with (-1) in E. lia.
    + simpl in *. inversion Hrs; subst.
      assert (F : findClose (depth + delta x) (inner' ++ RPAREN :: after) <> None).
      { apply IH; [lia|]. exists inner', after. split; [reflexivity|lia]. }
      destruct (findClose (depth + delta x) (inner' ++ RPAREN :: after)) as [[i a]|];
        [discriminate|congruence].
Qed.

Lemma findClose_has_close rest :
  findClose 1 rest <> None <-> has_close rest.
Proof.
  split.
  - destruct (findClose 1 rest) as [[inner after]|] eqn:F; [|congruence].
    intros _. destruct (findClose_inv rest 1 inner after (Z.le_refl 1) F) as (-> & _ & Hdep).
    exists inner, after. split; [reflexivity|lia].
  - intros (inner & after & -> & Hdep). apply findClose_some; [lia|].
    exists inner, after. split; [reflexivity|lia].
Qed.

(** A suffix that closes more than it opens holds the closing parenthesis. *)
Lemma findClose_closable rs : forall depth,
  1 <= depth -> depth_of rs <= - depth -> findClose depth rs <> None.
Proof.
  induction rs as [|r rs IH]; intros depth Hd Hdep.
  - simpl in Hdep. lia.
  - rewrite findClose_step.
    destruct (depth + delta r >? 0) eqn:E; [|discriminate].
    apply Z.gtb_lt in E. simpl in Hdep.
    assert (F : findClose (depth + delta r) rs <> None) by (apply IH; lia).
    destruct (findClose (depth + delta r) rs) as [[i a]|]; [discriminate|congruence].
Qed.

Lemma closable_suffix pre t : closable (pre ++ t) -> closable t.
Proof.
  induction pre as [|r pre IH]; simpl; [auto|]. intros [_ H]; auto.
Qed.

Lemma balanced_closable t : forall d,
  0 <= d -> nonneg d t -> d + depth_of t <= 0 -> closable t.
Proof.
  induction t as [|r t IH]; intros d Hd Hnn Hdep; simpl; [exact I|].
  simpl in Hnn, Hdep. destruct Hnn as [H0 Hnn]. split; [lia|].
  apply (IH (d + delta r)); auto; lia.
Qed.

Lemma nonneg_app d a b :
  nonneg d (a ++ b) <-> nonneg d a /\ nonneg (d + depth_of a) b.
Proof.
  revert d; induction a as [|r a IH]; intros d; simpl.
  - replace (d + 0) with d by lia. tauto.
  - rewrite IH. replace (d + delta r + depth_of a) with (d + (delta r + depth_of a)) by lia.
    tauto.
Qed.

(** Every alternative of a balanced group body is balanced. *)
Lemma pieces_balanced rs : forall depth cur,
  nonneg 0 cur -> depth = depth_of cur ->
  nonneg depth rs -> depth + depth_of rs = 0 ->
  Forall (fun piece => nonneg 0 piece /\ depth_of piece = 0) (pieces depth cur rs).
Proof.
  induction rs as [|r rs IH]; intros depth cur Hcur Hd Hnn Hdep; simpl.
  - simpl in Hdep. destruct cur; constructor; [|constructor]. split; [assumption|lia].
  - simpl in Hnn, Hdep. destruct Hnn as [H0 Hnn].
    assert (Hsnoc : nonneg 0 (cur ++ [r])).
    { apply nonneg_app. split; [assumption|]. simpl. split; [lia|exact I]. }
    assert (Hdsnoc : depth_of (cur ++ [r]) = depth + delta r).
    { rewrite depth_of_app. simpl. lia. }
    unfold delta in *.
    destruct (r =? LPAREN); [apply IH; auto; lia|].
    destruct (r =? RPAREN); [apply IH; auto; lia|].
    replace (depth + 0) with depth in * by lia.
    destruct ((r =? BAR) && (depth =? 0)) eqn:E.
    + apply andb_true_iff in E. destruct E as [_ E]. apply Z.eqb_eq in E.
      constructor; [split; [assumption|lia]|].
      apply IH; simpl; auto; lia.
    + apply IH; auto; lia.
Qed.

Lemma pieces_length rs : forall depth cur,
  Forall (fun piece => (List.length piece <= List.length cur + List.length rs)%nat)
    (pieces depth cur rs).
Proof.
  induction rs as [|r rs IH]; intros depth cur; simpl.
  - destruct cur; constructor; [simpl; lia|constructor].
  - assert (Hs : forall d, Forall (fun piece =>
        (List.length piece <= List.length cur + S (List.length rs))%nat)
        (pieces d (cur ++ [r]) rs)).
    { intros d. eapply Forall_impl; [|apply IH].
      intros piece. rewrite length_app. simpl. lia. }
    destruct (r =? LPAREN); [apply Hs|].
    destruct (r =? RPAREN); [apply Hs|].
    destruct ((r =? BAR) && (depth =? 0)); [|apply Hs].
    constructor; [lia|].
    eapply Forall_impl; [|apply IH]. intros piece. simpl. lia.
Qed.

Lemma stripStart_suffix t : exists pre, t = pre ++ snd (stripStart t).
Proof.
  destruct t as [|r t]; [exists []; reflexivity|]. simpl.
  destruct (r =? CARET); [exists [r]|exists []]; reflexivity.
Qed.

Lemma stripEnd_prefix t : exists post, t = snd (stripEnd t) ++ post.
Proof.
  destruct t as [|r t]; [exists []; reflexivity|].
  unfold stripEnd. destruct (last (r :: t) 0 =? DOLLAR).
  - exists [last (r :: t) 0]. apply app_removelast_last. discriminate.
  - exists []. rewrite app_nil_r. reflexivity.
Qed.

Lemma stripStart_depth t : depth_of (snd (stripStart t)) = depth_of t.
Proof.
  destruct t as [|r t]; [reflexivity|]. simpl.
  destruct (r =? CARET) eqn:E; [|reflexivity].
  apply Z.eqb_eq in E; subst. reflexivity.
Qed.

Lemma stripEnd_depth t : depth_of (snd (stripEnd t)) = depth_of t.
Proof.
  destruct t as [|r t]; [reflexivity|].
  unfold stripEnd. destruct (last (r :: t) 0 =? DOLLAR) eqn:E; [|reflexivity].
  apply Z.eqb_eq in E.
  rewrite (app_removelast_last 0 (l := r :: t)) at 2 by discriminate.
  rewrite depth_of_app, E. cbn [snd]. change (depth_of [DOLLAR]) with 0. lia.
Qed.

Lemma body_of_balanced t :
  nonneg 0 t -> depth_of t = 0 ->
  nonneg 0 (body_of t) /\ depth_of (body_of t) = 0.
Proof.
  intros Hnn Hdep. unfold body_of. split.
  - destruct (stripStart_suffix t) as (pre & Hpre).
    assert (Hpre0 : depth_of pre = 0).
    { pose proof (stripStart_depth t) as Hs. rewrite Hpre in Hs at 2.
      rewrite depth_of_app in Hs. lia. }
    rewrite Hpre in Hnn. apply nonneg_app in Hnn. destruct Hnn as [_ Hnn].
    rewrite Hpre0 in Hnn.
    destruct (stripEnd_prefix (snd (stripStart t))) as (post & Hpost).
    rewrite Hpost in Hnn. apply nonneg_app in Hnn. apply Hnn.
  - rewrite stripEnd_depth, stripStart_depth. assumption.
Qed.

Lemma body_of_length t : (List.length (body_of t) <= List.length t)%nat.
Proof.
  unfold body_of.
  destruct (stripStart_suffix t) as (pre & Hpre).
  destruct (stripEnd_prefix (snd (stripStart t))) as (post & Hpost).
  apply (f_equal (@List.length rune)) in Hpre, Hpost.
  rewrite length_app in Hpre, Hpost. lia.
Qed.


(* ------------------------------------------------------------------ *)
(** ** The compiler fails on an unclosed group only *)

Lemma parse_each_ok parse ps :
  Forall (fun piece => forall cnt, exists r, parse piece cnt = Ok r) ps ->
  forall alts cnt, exists r, parse_each parse ps alts cnt = Ok r.
Proof.
  induction 1 as [|piece ps Hp _ IH]; intros alts cnt; simpl; [eauto|].
  destruct (Hp cnt) as ([alt cnt'] & ->). simpl. apply IH.
Qed.

Lemma emit_ok element r :
  (exists x, r = Ok x) -> exists x, emit element r = Ok x.
Proof.
  intros ([els cnt] & ->). destruct element; simpl; eauto.
Qed.

Lemma emit_missing element :
  emit element MissingClosingParenthesis = MissingClosingParenthesis.
Proof. destruct element; reflexivity. Qed.

Lemma app_length_lt {A : Type} (pre l : list A) x post :
  l = pre ++ x :: post ->
  (List.length pre < List.length l)%nat /\ (List.length post < List.length l)%nat.
Proof.
  intros ->. rewrite length_app. simpl. lia.
Qed.

Lemma suffix_length {A : Type} (pre l u : list A) :
  l = pre ++ u -> (List.length u <= List.length l)%nat.
Proof. intros ->. rewrite length_app. lia. Qed.

(** The alternatives of a balanced group body compile. *)
Lemma alternatives_ok fuel inner cnt :
  (forall rs cnt, (List.length rs < fuel)%nat -> closable rs ->
     exists r, parseElements fuel rs cnt = Ok r) ->
  (List.length inner < fuel)%nat ->
  nonneg 0 inner -> depth_of inner = 0 ->
  exists r, parseAlternatives (parsePatternInternal_with (parseElements fuel))
              inner cnt = Ok r.
Proof.
  intros IH Hlen Hnn Hdep. unfold parseAlternatives.
  rewrite parseAlternatives_loop_pieces. apply parse_each_ok.
  pose proof (pieces_balanced inner 0 [] I eq_refl Hnn) as Hb.
  specialize (Hb ltac:(lia)).
  pose proof (pieces_length inner 0 []) as Hl.
  rewrite Forall_forall in *. intros piece Hin cnt0.
  destruct (Hb piece Hin) as [Hpn Hpd]. specialize (Hl piece Hin). simpl in Hl.
  rewrite parsePatternInternal_with_eq.
  destruct (body_of_balanced piece Hpn Hpd) as [Hbn Hbd].
  pose proof (body_of_length piece) as Hbl.
  destruct (IH (body_of piece) cnt0) as ([els cnt'] & ->); [lia| |simpl; eauto].
  apply (balanced_closable _ 0); [lia|assumption|lia].
Qed.

Lemma parse_closable : forall fuel rs cnt,
  (List.length rs < fuel)%nat -> closable rs ->
  exists r, parseElements fuel rs cnt = Ok r.
Proof.
  induction fuel as [|fuel IH]; intros rs cnt Hlen Hcl; [lia|].
  destruct rs as [|r rest]; [simpl; eauto|].
  simpl in Hlen.
  destruct (r =? LPAREN) eqn:E.
  - apply Z.eqb_eq in E; subst r. rewrite parseElements_group.
    destruct Hcl as [Hdep Hcl]. cbn [depth_of] in Hdep.
    change (delta LPAREN) with 1 in Hdep.
    assert (F : findClose 1 rest <> None)
      by (apply findClose_closable; lia).
    destruct (findClose 1 rest) as [[inner after]|] eqn:F'; [|congruence].
    destruct (findClose_inv rest 1 inner after (Z.le_refl 1) F') as (Hrest & Hnn & Hd0).
    destruct (app_length_lt _ _ _ _ Hrest) as [Hli Hla].
    destruct (alternatives_ok fuel inner (cnt + 1)) as ([alts cnt'] & ->);
      [exact IH|lia|exact Hnn|lia|].
    simpl.
    destruct (quantifier (GroupMatcher (cnt + 1) (groupInner alts cnt')) after)
      as [element after'] eqn:Q.
    assert (Ha : after' = skip_quantifier after)
      by (rewrite <- (quantifier_snd (GroupMatcher (cnt + 1) (groupInner alts cnt')) after), Q;
          reflexivity).
    destruct (skip_quantifier_suffix after) as (pre & Hpre). rewrite <- Ha in Hpre.
    apply (emit_ok (Some element)). apply IH.
    + pose proof (suffix_length _ _ _ Hpre). lia.
    + apply (closable_suffix pre). rewrite <- Hpre.
      apply (closable_suffix (inner ++ [RPAREN])). rewrite <- app_assoc.
      simpl. rewrite <- Hrest. assumption.
  - rewrite parseElements_atom by assumption.
    destruct (scanAtom_suffix r rest) as (pre & Hpre & Hne).
    apply emit_ok. apply IH.
    + pose proof (scanAtom_length r rest). lia.
    + apply (closable_suffix pre). rewrite <- Hpre. assumption.
Qed.

Lemma scanned_suffix t u : scanned t u -> exists pre, t = pre ++ u.
Proof.
  induction 1 as [t|r rest u Hr _ (pre & IH)|rest inner after u F _ (pre & IH)].
  - exists []; reflexivity.
  - destruct (scanAtom_suffix r rest) as (pre0 & Hpre0 & _).
    exists (pre0 ++ pre). rewrite Hpre0, IH, app_assoc. reflexivity.
  - destruct (findClose_inv rest 1 inner after (Z.le_refl 1) F) as (Hrest & _ & _).
    destruct (skip_quantifier_suffix after) as (pre1 & Hpre1).
    exists (LPAREN :: inner ++ RPAREN :: pre1 ++ pre).
    rewrite Hrest. rewrite Hpre1 at 1. rewrite IH.
    simpl. rewrite <- !app_assoc. simpl. rewrite <- !app_assoc. reflexivity.
Qed.

Lemma unclosed_nil : ~ unclosed_group [].
Proof.
  intros (rest & Hs & _). inversion Hs.
Qed.

Lemma unclosed_atom r rest :
  (r =? LPAREN) = false ->
  (unclosed_group (r :: rest) <-> unclosed_group (snd (scanAtom r rest))).
Proof.
  intros Hr. split.
  - intros (rest0 & Hs & Hc). inversion Hs; subst.
    + rewrite Z.eqb_refl in Hr. discriminate.
    + exists rest0. split; assumption.
    + rewrite Z.eqb_refl in Hr. discriminate.
  - intros (rest0 & Hs & Hc). exists rest0. split; [|assumption].
    apply scanned_atom; assumption.
Qed.

Lemma unclosed_group_closed rest inner after :
  findClose 1 rest = Some (inner, after) ->
  (unclosed_group (LPAREN :: rest) <-> unclosed_group (skip_quantifier after)).
Proof.
  intros F. split.
  - intros (rest0 & Hs & Hc). inversion Hs; subst.
    + exfalso. apply Hc. apply findClose_has_close. congruence.
    + discriminate.
    + exists rest0. split; [|assumption]. congruence.
  - intros (rest0 & Hs & Hc). exists rest0. split; [|assumption].
    eapply scanned_group; eauto.
Qed.

Lemma unclosed_group_open rest :
  findClose 1 rest = None -> unclosed_group (LPAREN :: rest).
Proof.
  intros F. exists rest. split; [apply scanned_here|].
  intros H. apply findClose_has_close in H. congruence.
Qed.

Lemma parseElements_result : forall fuel rs cnt,
  (List.length rs < fuel)%nat ->
  (unclosed_group rs /\ parseElements fuel rs cnt = MissingClosingParenthesis) \/
  (~ unclosed_group rs /\ exists r, parseElements fuel rs cnt = Ok r).
Proof.
  induction fuel as [|fuel IH]; intros rs cnt Hlen; [lia|].
  destruct rs as [|r rest]; [right; split; [apply unclosed_nil|simpl; eauto]|].
  simpl in Hlen.
  destruct (r =? LPAREN) eqn:E.
  - apply Z.eqb_eq in E; subst r. rewrite parseElements_group.
    destruct (findClose 1 rest) as [[inner after]|] eqn:F;
      [|left; split; [apply unclosed_group_open; assumption|reflexivity]].
    destruct (findClose_inv rest 1 inner after (Z.le_refl 1) F) as (Hrest & Hnn & Hd0).
    destruct (app_length_lt _ _ _ _ Hrest) as [Hli Hla].
    destruct (alternatives_ok fuel inner (cnt + 1)) as ([alts cnt'] & ->);
      [intros; apply parse_closable; assumption|lia|exact Hnn|lia|].
    simpl.
    destruct (quantifier (GroupMatcher (cnt + 1) (groupInner alts cnt')) after)
      as [element after'] eqn:Q.
    assert (Ha : after' = skip_quantifier after)
      by (rewrite <- (quantifier_snd (GroupMatcher (cnt + 1) (groupInner alts cnt')) after), Q;
          reflexivity).
    destruct (skip_quantifier_suffix after) as (pre & Hpre). rewrite <- Ha in Hpre.
    pose proof (suffix_length _ _ _ Hpre) as Hl'.
    rewrite (unclosed_group_closed rest inner after F), <- Ha.
    destruct (IH after' cnt') as [[Hu Hp]|[Hu Hp]]; [lia| |].
    + left. split; [assumption|]. rewrite Hp. reflexivity.
    + right. split; [assumption|]. apply (emit_ok (Some element)); assumption.
  - rewrite parseElements_atom by assumption.
    rewrite (unclosed_atom r rest E).
    pose proof (scanAtom_length r rest) as Hl'.
    destruct (IH (snd (scanAtom r rest)) cnt) as [[Hu Hp]|[Hu Hp]]; [lia| |].
    + left. split; [assumption|]. rewrite Hp. apply emit_missing.
    + right. split; [assumption|]. apply emit_ok; assumption.
Qed.

Lemma ParseRunes_result rs :
  (unclosed_group (body_of rs) /\ ParseRunes rs = MissingClosingParenthesis) \/
  (~ unclosed_group (body_of rs) /\ exists p, ParseRunes rs = Ok p).
Proof.
  unfold ParseRunes, parsePatternInternal. rewrite parsePatternInternal_with_eq.
  pose proof (body_of_length rs) as Hl.
  destruct (parseElements_result (S (List.length rs)) (body_of rs) 0) as [[Hu Hp]|[Hu ([els cnt] & Hp)]];
    [lia| |]; rewrite Hp; simpl.
  - left; auto.
  - right; eauto.
Qed.


Lemma setChars_unterminated chars :
  ~ In RBRACKET chars -> setChars chars = (chars, []).
Proof.
  induction chars as [|c chars IH]; intros Hin; simpl; [reflexivity|].
  destruct (c =? RBRACKET) eqn:E.
  - apply Z.eqb_eq in E. exfalso. apply Hin. left; auto.
  - rewrite IH; [reflexivity|]. intros H; apply Hin; right; assumption.
Qed.

Lemma unclosed_has_paren body : unclosed_group body -> In LPAREN body.
Proof.
  intros (rest & Hs & _). destruct (scanned_suffix _ _ Hs) as (pre & ->).
  apply in_or_app. right. left. reflexivity.
Qed.

Lemma body_of_In r rs : In r (body_of rs) -> In r rs.
Proof.
  unfold body_of. intros Hin.
  destruct (stripStart_suffix rs) as (pre & Hpre).
  destruct (stripEnd_prefix (snd (stripStart rs))) as (post & Hpost).
  rewrite Hpre. apply in_or_app. right. rewrite Hpost. apply in_or_app. left.
  assumption.
Qed.

(* ------------------------------------------------------------------ *)
(** ** Anchors of sub-patterns *)

Lemma pat_unanchored_eq els sa ea gc :
  pat_unanchored (mkPattern els sa ea gc) <->
  sa = false /\ ea = false /\ Forall elem_unanchored els.
Proof.
  simpl. assert (H : (fix all (l : list PatternElement) : Prop :=
                        match l with
                        | [] => True
                        | e :: l' => elem_unanchored e /\ all l'
                        end) els <-> Forall elem_unanchored els).
  { induction els as [|e els IH]; [split; auto|].
    split; [intros [He Hl]; constructor; tauto|].
    intros H; inversion H; subst; tauto. }
  tauto.
Qed.

Lemma alternation_unanchored alts :
  elem_unanchored (AlternationMatcher alts) <-> Forall pat_unanchored alts.
Proof.
  simpl. induction alts as [|p alts IH]; [split; auto|].
  split; [intros [Hp Hl]; constructor; tauto|].
  intros H; inversion H; subst; tauto.
Qed.

Lemma flat_unanchored e : is_flat e = true -> elem_unanchored e.
Proof.
  destruct e; try discriminate; simpl; auto;
    destruct e; try discriminate; simpl; auto.
Qed.

Lemma quantifier_unanchored e rest :
  elem_unanchored e -> elem_unanchored (fst (quantifier e rest)).
Proof.
  intros He. destruct (quantifier_fst e rest) as [-> | [-> | ->]]; assumption.
Qed.

Lemma groupInner_unanchored alts cnt :
  Forall pat_unanchored alts -> pat_unanchored (groupInner alts cnt).
Proof.
  intros H. unfold groupInner, set_groupCount.
  assert (Hw : pat_unanchored (mkPattern [AlternationMatcher alts] false false cnt)).
  { apply (pat_unanchored_eq [AlternationMatcher alts] false false cnt).
    repeat split. constructor; [|constructor].
    apply alternation_unanchored. assumption. }
  destruct alts as [|alt [|alt2 alts']]; try exact Hw.
  inversion H; subst. destruct alt as [els sa ea gc]. simpl.
  apply (pat_unanchored_eq els sa ea cnt).
  apply (pat_unanchored_eq els sa ea gc) in H2. assumption.
Qed.

Lemma adj_free_spec s : adj_free s = true <-> no_inner_anchor s.
Proof.
  induction s as [|a t IH].
  - split; [|reflexivity]. intros _ pre a b post H. destruct pre; discriminate.
  - destruct t as [|b t'].
    + split; [|reflexivity]. intros _ pre x y post H.
      destruct pre as [|p [|q pre']]; discriminate.
    + change (adj_free (a :: b :: t')) with (negb (bad_pair a b) && adj_free (b :: t')).
      rewrite andb_true_iff, IH, negb_true_iff. split.
      * intros [Hab Ht] pre x y post H. destruct pre as [|p pre'].
        -- simpl in H. inversion H; subst. assumption.
        -- simpl in H. inversion H; subst. eapply Ht; eauto.
      * intros H. split.
        -- apply (H [] a b t'). reflexivity.
        -- intros pre x y post Hs. apply (H (a :: pre) x y post).
           simpl. rewrite Hs. reflexivity.
Qed.

Lemma no_inner_anchor_infix x y z :
  no_inner_anchor (x ++ y ++ z) -> no_inner_anchor y.
Proof.
  intros H pre a b post Hy. apply (H (x ++ pre) a b (post ++ z)).
  rewrite Hy. rewrite <- !app_assoc. simpl. reflexivity.
Qed.

Lemma no_inner_anchor_suffix x y :
  no_inner_anchor (x ++ y) -> no_inner_anchor y.
Proof.
  intros H. apply (no_inner_anchor_infix x y []). rewrite app_nil_r. assumption.
Qed.

Lemma no_inner_anchor_prefix x y :
  no_inner_anchor (x ++ y) -> no_inner_anchor x.
Proof.
  intros H. apply (no_inner_anchor_infix [] x y). assumption.
Qed.

Lemma last_app_cons {A : Type} (l : list A) x t d :
  last (l ++ x :: t) d = last (x :: t) d.
Proof.
  induction l as [|y l IH]; [reflexivity|].
  change ((y :: l) ++ x :: t) with (y :: (l ++ x :: t)).
  destruct (l ++ x :: t) eqn:E; [destruct l; discriminate|].
  simpl. simpl in IH. exact IH.
Qed.

Lemma snoc_cases {A : Type} (l : list A) :
  l = [] \/ exists l' x, l = l' ++ [x].
Proof.
  destruct l as [|a l]; [left; reflexivity|right].
  exists (removelast (a :: l)), (last (a :: l) a).
  apply app_removelast_last. discriminate.
Qed.

(** The text of an alternative begins with no caret and ends with no dollar
    when the group body has no such rune next to a parenthesis or a bar. *)
Lemma pieces_no_anchor rs : forall depth cur,
  no_inner_anchor (cur ++ rs) ->
  hd_error (cur ++ rs) <> Some CARET ->
  last (cur ++ rs) 0 <> DOLLAR ->
  Forall (fun piece => no_inner_anchor piece /\
                       hd_error piece <> Some CARET /\ last piece 0 <> DOLLAR)
    (pieces depth cur rs).
Proof.
  induction rs as [|r rs IH]; intros depth cur Hn Hh Hl.
  - rewrite app_nil_r in *. simpl. destruct cur; constructor; auto.
  - assert (Hstep : forall d,
      Forall (fun piece => no_inner_anchor piece /\
                hd_error piece <> Some CARET /\ last piece 0 <> DOLLAR)
        (pieces d (cur ++ [r]) rs)).
    { intros d. apply IH; rewrite <- app_assoc; assumption. }
    simpl.
    destruct (r =? LPAREN); [apply Hstep|].
    destruct (r =? RPAREN); [apply Hstep|].
    destruct ((r =? BAR) && (depth =? 0)) eqn:E; [|apply Hstep].
    apply andb_true_iff in E. destruct E as [E _]. apply Z.eqb_eq in E. subst r.
    constructor.
    + split; [apply (no_inner_anchor_prefix _ _ Hn)|]. split.
      * destruct cur; [discriminate|exact Hh].
      * destruct (snoc_cases cur) as [->|(cur' & x & ->)]; [discriminate|].
        rewrite last_last. intros ->.
        rewrite <- app_assoc in Hn.
        specialize (Hn cur' DOLLAR BAR rs eq_refl). discriminate.
    + apply IH.
      * simpl. apply (no_inner_anchor_suffix (cur ++ [BAR])).
        rewrite <- app_assoc. exact Hn.
      * simpl. destruct rs as [|b rs']; [discriminate|].
        simpl. intros H; inversion H; subst.
        specialize (Hn cur BAR CARET rs' eq_refl). discriminate.
      * simpl. destruct rs as [|b rs']; [discriminate|].
        rewrite last_app_cons in Hl.
        change (last (BAR :: b :: rs') 0) with (last (b :: rs') 0) in Hl.
        exact Hl.
Qed.

Lemma parse_each_Forall (R : Pattern -> Prop) parse ps :
  Forall (fun piece => forall cnt p cnt',
            parse piece cnt = Ok (p, cnt') -> R p) ps ->
  forall alts0 cnt alts cnt',
  Forall R alts0 ->
  parse_each parse ps alts0 cnt = Ok (alts, cnt') -> Forall R alts.
Proof.
  induction 1 as [|piece ps Hp _ IH]; intros alts0 cnt alts cnt' H0; simpl.
  - intros E; inversion E; subst; assumption.
  - destruct (parse piece cnt) as [[alt cnt1]| |] eqn:P; try discriminate.
    simpl. apply IH. apply Forall_app. split; [assumption|].
    constructor; [|constructor]. eapply Hp; eauto.
Qed.

Lemma stripStart_no_caret t :
  hd_error t <> Some CARET -> stripStart t = (false, t).
Proof.
  destruct t as [|r t]; [reflexivity|]. simpl. intros H.
  destruct (r =? CARET) eqn:E; [|reflexivity].
  apply Z.eqb_eq in E. subst. exfalso. apply H. reflexivity.
Qed.

Lemma stripEnd_no_dollar t :
  last t 0 <> DOLLAR -> stripEnd t = (false, t).
Proof.
  destruct t as [|r t]; [reflexivity|]. unfold stripEnd. intros H.
  destruct (last (r :: t) 0 =? DOLLAR) eqn:E; [|reflexivity].
  apply Z.eqb_eq in E. contradiction.
Qed.

Lemma emit_inv element r els cnt :
  emit element r = Ok (els, cnt) ->
  exists els', r = Ok (els', cnt) /\
    els = match element with Some e => e :: els' | None => els' end.
Proof.
  destruct element as [e|]; simpl.
  - destruct r as [[els' cnt']| |]; simpl; try discriminate.
    intros E; inversion E; subst. eauto.
  - intros ->. eauto.
Qed.

Lemma parseElements_unanchored : forall fuel rs cnt els cnt',
  no_inner_anchor rs ->
  parseElements fuel rs cnt = Ok (els, cnt') -> Forall elem_unanchored els.
Proof.
  induction fuel as [|fuel IH]; intros rs cnt els cnt' Hn; [discriminate|].
  destruct rs as [|r rest]; [intros E; inversion E; constructor|].
  destruct (r =? LPAREN) eqn:E.
  - apply Z.eqb_eq in E; subst r. rewrite parseElements_group.
    destruct (findClose 1 rest) as [[inner after]|] eqn:F; [|discriminate].
    destruct (findClose_inv rest 1 inner after (Z.le_refl 1) F) as (Hrest & _ & _).
    subst rest.
    destruct (parseAlternatives (parsePatternInternal_with (parseElements fuel))
                inner (cnt + 1)) as [[alts cnt1]| |] eqn:A; try discriminate.
    simpl.
    destruct (quantifier (GroupMatcher (cnt + 1) (groupInner alts cnt1)) after)
      as [element after'] eqn:Q.
    intros Em. apply (emit_inv (Some element)) in Em.
    destruct Em as (els' & Hp & ->).
    assert (Ha : after' = skip_quantifier after)
      by (rewrite <- (quantifier_snd (GroupMatcher (cnt + 1) (groupInner alts cnt1)) after), Q;
          reflexivity).
    destruct (skip_quantifier_suffix after) as (pre & Hpre). rewrite <- Ha in Hpre.
    constructor.
    + assert (He : element = fst (quantifier (GroupMatcher (cnt + 1) (groupInner alts cnt1)) after))
        by (rewrite Q; reflexivity).
      rewrite He. apply quantifier_unanchored. simpl.
      apply (groupInner_unanchored alts cnt1).
      unfold parseAlternatives in A. rewrite parseAlternatives_loop_pieces in A.
      apply (parse_each_Forall pat_unanchored
               (parsePatternInternal_with (parseElements fuel))
               (pieces 0 [] inner)) with (alts0 := []) (cnt := cnt + 1) (cnt' := cnt1);
        [|constructor|exact A].
      assert (Hin : no_inner_anchor inner).
      { apply (no_inner_anchor_infix [LPAREN] inner (RPAREN :: after)). exact Hn. }
      assert (Hhd : hd_error inner <> Some CARET).
      { destruct inner as [|b inner']; [discriminate|]. simpl.
        intros H; inversion H; subst.
        specialize (Hn [] LPAREN CARET (inner' ++ RPAREN :: after) eq_refl).
        discriminate. }
      assert (Hla : last inner 0 <> DOLLAR).
      { destruct (snoc_cases inner) as [->|(inner' & x & ->)]; [discriminate|].
        rewrite last_last. intros ->.
        specialize (Hn (LPAREN :: inner') DOLLAR RPAREN after).
        rewrite <- app_assoc in Hn. specialize (Hn eq_refl). discriminate. }
      pose proof (pieces_no_anchor inner 0 [] Hin Hhd Hla) as Hps.
      eapply Forall_impl; [|exact Hps].
      intros piece (Hpn & Hph & Hpl) cnt0 p cnt0'.
      rewrite parsePatternInternal_with_eq. unfold body_of.
      rewrite (stripStart_no_caret piece Hph). simpl.
      rewrite (stripEnd_no_dollar piece Hpl). simpl.
      destruct (parseElements fuel piece cnt0) as [[pels pcnt]| |] eqn:P;
        try discriminate.
      simpl. intros Ep; inversion Ep; subst.
      apply (pat_unanchored_eq pels false false cnt0'). repeat split.
      eapply IH; eauto.
    + eapply IH; [|exact Hp].
      apply (no_inner_anchor_suffix (LPAREN :: inner ++ RPAREN :: pre)).
      simpl. rewrite <- app_assoc. simpl. rewrite <- Hpre. exact Hn.
  - rewrite parseElements_atom by assumption.
    intros Em. apply emit_inv in Em. destruct Em as (els' & Hp & ->).
    destruct (scanAtom_suffix r rest) as (pre & Hpre & _).
    assert (Hels' : Forall elem_unanchored els').
    { eapply IH; [|exact Hp]. apply (no_inner_anchor_suffix pre).
      rewrite <- Hpre. exact Hn. }
    destruct (fst (scanAtom r rest)) as [e|] eqn:Fe; [|assumption].
    constructor; [|assumption].
    apply flat_unanchored. eapply scanAtom_flat; eauto.
Qed.

(** C7, as the specification has it, fails: the body of the group of
    (^a$) compiles to a sub-pattern with both anchor flags set, and to no
    literal caret or dollar. *)
Lemma group_body_anchors_are_set :
  compile "(^a$)"
  = Ok (mkPattern
          [GroupMatcher 1 (mkPattern [LiteralMatcher 97] true true 1)]
          false false 1) /\
  ~ subpatterns_never_anchored.
Proof.
  split; [vm_compute; reflexivity|].
  intros H.
  specialize (H (lit "(^a$)")
                (mkPattern
                   [GroupMatcher 1 (mkPattern [LiteralMatcher 97] true true 1)]
                   false false 1)).
  assert (E : ParsePattern (lit "(^a$)")
              = Ok (mkPattern
                      [GroupMatcher 1 (mkPattern [LiteralMatcher 97] true true 1)]
                      false false 1)) by (vm_compute; reflexivity).
  specialize (H E). inversion H as [|e l He Hl]; subst.
  simpl in He. destruct He as [He _]. discriminate.
Qed.


(* ------------------------------------------------------------------ *)
(** ** Match on patterns without groups *)

Section FlatMatch.

Variable IsDigit : rune -> bool.
Variable IsLetter : rune -> bool.

Lemma unset_fresh h n : unset (h ++ [repeat [] n]) (Slice (List.length h)).
Proof.
  unfold unset. rewrite contents_new. apply Forall_forall.
  intros x Hx. apply repeat_spec in Hx. assumption.
Qed.

Lemma Match_loop_flat els ea gc fuel input :
  forallb is_flat els = true -> (List.length els < fuel)%nat -> 0 <= gc ->
  forall k start h, 0 <= start ->
  Match_loop IsDigit IsLetter fuel (mkPattern els false ea gc) input k start h
  = Done (any_start (fun pos => is_some (flat_here IsDigit IsLetter els ea input pos))
            input k start).
Proof.
  intros Hflat Hfuel Hgc. induction k as [|k IH]; intros start h Hstart;
    [reflexivity|].
  rewrite Match_loop_S. cbn [any_start groupCount].
  destruct (start <=? len input); [|reflexivity].
  rewrite make_eq by assumption. cbn [bind].
  pose proof (state_flat IsDigit IsLetter els Hflat fuel false ea gc input start
                (Slice (List.length h)) (h ++ [repeat [] (Z.to_nat gc)])
                Hfuel Hstart (or_introl (unset_fresh h _))) as H.
  destruct (flat_here IsDigit IsLetter els ea input start) as [e|].
  - rewrite H. reflexivity.
  - destruct H as (pos' & H). rewrite H. cbn [bind is_some orb].
    apply IH. lia.
Qed.

Lemma Match_flat els ea gc fuel input :
  forallb is_flat els = true -> (List.length els < fuel)%nat -> 0 <= gc ->
  Match IsDigit IsLetter fuel (mkPattern els false ea gc) input
  = Done (any_start (fun pos => is_some (flat_here IsDigit IsLetter els ea input pos))
            input (S (List.length input)) 0).
Proof.
  intros. unfold Match. cbn [startAnchor].
  apply Match_loop_flat; auto. lia.
Qed.

Lemma state_nil fuel sa gc input pos c h :
  matchHereWithState IsDigit IsLetter (S fuel) (mkPattern [] sa false gc)
    input pos c h = Done (true, pos, c, h).
Proof. reflexivity. Qed.

Lemma subslice_Some {A : Type} (l : list A) lo hi :
  0 <= lo <= hi -> hi <= len l -> exists s, subslice l lo hi = Some s.
Proof.
  intros H1 H2. unfold subslice.
  assert (E : (0 <=? lo) && (lo <=? hi) && (hi <=? len l) = true).
  { rewrite !andb_true_iff. repeat split; apply Z.leb_le; lia. }
  rewrite E. eauto.
Qed.

Lemma contents_update_same h a v :
  (a < List.length h)%nat -> contents (update h (Slice a) v) (Slice a) = v.
Proof. intros H. simpl. apply nth_list_set_same. assumption. Qed.

(** The two alternatives of a group, both without groups: the first that
    matches decides. *)
Lemma state_group_alternation ea eb g1 g2 g3 fuel input start h :
  forallb is_flat ea = true -> forallb is_flat eb = true ->
  (List.length ea + 2 < fuel)%nat -> (List.length eb + 2 < fuel)%nat ->
  0 <= start <= len input ->
  exists pos' c' h',
    matchHereWithState IsDigit IsLetter fuel
      (mkPattern
         [GroupMatcher 1
            (mkPattern
               [AlternationMatcher
                  [mkPattern ea false false g1; mkPattern eb false false g2]]
               false false g3)] false false 1)
      input start (Slice (List.length h)) (h ++ [repeat [] (Z.to_nat 1)])
    = Done (is_some (flat_here IsDigit IsLetter ea false input start) ||
            is_some (flat_here IsDigit IsLetter eb false input start),
            pos', c', h').
Proof.
  intros Ha Hb Hfa Hfb Hstart.
  destruct fuel as [|[|fuel]]; try lia.
  set (c := Slice (List.length h)). set (h1 := h ++ [repeat [] (Z.to_nat 1)]).
  assert (Hun : unset h1 c) by apply unset_fresh.
  pose proof (state_flat IsDigit IsLetter ea Ha fuel false false g1 input start c h1
                ltac:(lia) (proj1 Hstart) (or_introl Hun)) as HA.
  pose proof (state_flat IsDigit IsLetter eb Hb fuel false false g2 input start c h1
                ltac:(lia) (proj1 Hstart) (or_introl Hun)) as HB.
  assert (Hfuel : exists f, fuel = S f) by (destruct fuel; [lia|eauto]).
  destruct Hfuel as (f & ->).
  (* the group, once its inner pattern has matched up to [e] *)
  assert (Hgroup : forall e, start <= e <= len input ->
    matchHereWithState IsDigit IsLetter (S (S f))
      (mkPattern
         [AlternationMatcher
            [mkPattern ea false false g1; mkPattern eb false false g2]]
         false false g3) input start c h1 = Done (true, e, c, h1) ->
    exists pos' c' h',
      matchHereWithState IsDigit IsLetter (S (S (S f)))
        (mkPattern
           [GroupMatcher 1
              (mkPattern
                 [AlternationMatcher
                    [mkPattern ea false false g1; mkPattern eb false false g2]]
                 false false g3)] false false 1) input start c h1
      = Done (true, pos', c', h')).
  { intros e He Hin. rewrite matchHereWithState_S.
    unfold matchHereWithState_body. cbn [elements endAnchor groupCount].
    rewrite Hin. cbn [bind].
    destruct (subslice_Some input start e) as (s & Hs); [lia|lia|].
    rewrite Hs. cbn [orPanic bind].
    unfold assign. unfold h1 at 1 2, c at 1 2. rewrite contents_new.
    change ((0 <=? 1 - 1) && (1 - 1 <? len (repeat (@nil Z) (Z.to_nat 1)))) with true.
    cbv iota. cbn [bind]. rewrite state_nil. cbn [bind]. eauto. }
  assert (Hwrap : matchHereWithState IsDigit IsLetter (S (S f))
      (mkPattern
         [AlternationMatcher
            [mkPattern ea false false g1; mkPattern eb false false g2]]
         false false g3) input start c h1 =
    match flat_here IsDigit IsLetter ea false input start with
    | Some e => Done (true, e, c, h1)
    | None =>
      match flat_here IsDigit IsLetter eb false input start with
      | Some e => Done (true, e, c, h1)
      | None => Done (false, start, c, h1)
      end
    end).
  { rewrite matchHereWithState_S. unfold matchHereWithState_body.
    cbn [elements endAnchor groupCount alternatives_loop].
    destruct (flat_here IsDigit IsLetter ea false input start) as [e|].
    - rewrite HA. cbn [bind]. apply state_nil.
    - destruct HA as (pa' & HA). rewrite HA. cbn [bind].
      destruct (flat_here IsDigit IsLetter eb false input start) as [e|].
      + rewrite HB. cbn [bind]. apply state_nil.
      + destruct HB as (pb' & HB). rewrite HB. reflexivity. }
  destruct (flat_here IsDigit IsLetter ea false input start) as [e|] eqn:Fa.
  - apply (Hgroup e); [|exact Hwrap].
    eapply flat_here_bounds; eauto.
  - destruct (flat_here IsDigit IsLetter eb false input start) as [e|] eqn:Fb.
    + apply (Hgroup e); [|exact Hwrap].
      eapply flat_here_bounds; eauto.
    + exists start, c, h1. rewrite matchHereWithState_S.
      unfold matchHereWithState_body. cbn [elements endAnchor groupCount].
      rewrite Hwrap. reflexivity.
Qed.

Lemma any_start_orb f g input : forall k start,
  any_start (fun pos => f pos || g pos) input k start
  = any_start f input k start || any_start g input k start.
Proof.
  induction k as [|k IH]; intros start; simpl; [reflexivity|].
  destruct (start <=? len input); [|reflexivity].
  rewrite IH. destruct (f start), (g start); simpl; auto with bool.
Qed.

Lemma Match_group_alternation ea eb g1 g2 g3 fuel input :
  forallb is_flat ea = true -> forallb is_flat eb = true ->
  (List.length ea + 2 < fuel)%nat -> (List.length eb + 2 < fuel)%nat ->
  Match IsDigit IsLetter fuel
    (mkPattern
       [GroupMatcher 1
          (mkPattern
             [AlternationMatcher
                [mkPattern ea false false g1; mkPattern eb false false g2]]
             false false g3)] false false 1) input
  = Done (any_start (fun pos =>
            is_some (flat_here IsDigit IsLetter ea false input pos) ||
            is_some (flat_here IsDigit IsLetter eb false input pos))
            input (S (List.length input)) 0).
Proof.
  intros Ha Hb Hfa Hfb. unfold Match. cbn [startAnchor].
  assert (H : forall k start h, 0 <= start ->
    Match_loop IsDigit IsLetter fuel
      (mkPattern
         [GroupMatcher 1
            (mkPattern
               [AlternationMatcher
                  [mkPattern ea false false g1; mkPattern eb false false g2]]
               false false g3)] false false 1) input k start h
    = Done (any_start (fun pos =>
              is_some (flat_here IsDigit IsLetter ea false input pos) ||
              is_some (flat_here IsDigit IsLetter eb false input pos))
              input k start)).
  { induction k as [|k IH]; intros start h Hstart; [reflexivity|].
    rewrite Match_loop_S. cbn [any_start groupCount].
    destruct (start <=? len input) eqn:Ele; [|reflexivity].
    apply Z.leb_le in Ele.
    rewrite make_eq by lia. cbn [bind].
    destruct (state_group_alternation ea eb g1 g2 g3 fuel input start h
                Ha Hb Hfa Hfb (conj Hstart Ele)) as (pos' & c' & h' & E).
    rewrite E. cbn [bind].
    destruct (is_some (flat_here IsDigit IsLetter ea false input start) ||
              is_some (flat_here IsDigit IsLetter eb false input start));
      [reflexivity|].
    cbn [orb]. apply IH. lia. }
  apply H. lia.
Qed.

End FlatMatch.


(* ------------------------------------------------------------------ *)
(** ** The compiled form of a text without parentheses *)

Lemma parseElements_flat : forall n rs,
  (List.length rs < n)%nat -> ~ In LPAREN rs ->
  exists els, forallb is_flat els = true /\
    (List.length els <= List.length rs)%nat /\
    forall fuel cnt, (List.length rs < fuel)%nat ->
      parseElements fuel rs cnt = Ok (els, cnt).
Proof.
  induction n as [|n IH]; intros rs Hlen Hin; [lia|].
  destruct rs as [|r rest].
  - exists []. repeat split; auto.
    intros fuel cnt Hf. destruct fuel; [simpl in Hf; lia|reflexivity].
  - assert (Hr : (r =? LPAREN) = false).
    { apply Z.eqb_neq. intros ->. apply Hin. left; reflexivity. }
    destruct (scanAtom_suffix r rest) as (pre & Hpre & Hne).
    pose proof (scanAtom_length r rest) as Hl. simpl in Hlen.
    destruct (IH (snd (scanAtom r rest))) as (els' & Hflat & Hlen' & Hparse); [lia| |].
    { intros H. apply Hin. rewrite Hpre. apply in_or_app. right. assumption. }
    destruct (fst (scanAtom r rest)) as [e|] eqn:Fe.
    + exists (e :: els'). repeat split.
      * simpl. rewrite (scanAtom_flat r rest e Fe). assumption.
      * simpl. lia.
      * intros fuel cnt Hf. destruct fuel as [|fuel]; [simpl in Hf; lia|].
        rewrite parseElements_atom by assumption. rewrite Fe.
        rewrite Hparse by (simpl in Hf; lia). reflexivity.
    + exists els'. repeat split; auto.
      * simpl. lia.
      * intros fuel cnt Hf. destruct fuel as [|fuel]; [simpl in Hf; lia|].
        rewrite parseElements_atom by assumption. rewrite Fe.
        rewrite Hparse by (simpl in Hf; lia). reflexivity.
Qed.

Lemma plain_text_spec s :
  plain_text s = true ->
  (forall r, In r s -> r <> LPAREN /\ r <> RPAREN /\ r <> BAR) /\
  hd_error s <> Some CARET /\ last s 0 <> DOLLAR.
Proof.
  unfold plain_text. rewrite !andb_true_iff, !negb_true_iff.
  intros [[Hall Hhd] Hlast]. repeat split.
  - rewrite forallb_forall in Hall. specialize (Hall r H).
    apply negb_true_iff in Hall. apply orb_false_iff in Hall.
    destruct Hall as [Hall _]. apply orb_false_iff in Hall.
    destruct Hall as [Hall _]. apply Z.eqb_neq in Hall. assumption.
  - rewrite forallb_forall in Hall. specialize (Hall r H).
    apply negb_true_iff in Hall. apply orb_false_iff in Hall.
    destruct Hall as [Hall _]. apply orb_false_iff in Hall.
    destruct Hall as [_ Hall]. apply Z.eqb_neq in Hall. assumption.
  - rewrite forallb_forall in Hall. specialize (Hall r H).
    apply negb_true_iff in Hall. apply orb_false_iff in Hall.
    destruct Hall as [_ Hall]. apply Z.eqb_neq in Hall. assumption.
  - destruct s as [|r s']; [discriminate|]. simpl.
    intros E; inversion E; subst. discriminate.
  - apply Z.eqb_neq. assumption.
Qed.

Lemma findClose_plain x after :
  (forall r, In r x -> r <> LPAREN /\ r <> RPAREN /\ r <> BAR) ->
  findClose 1 (x ++ RPAREN :: after) = Some (x, after).
Proof.
  induction x as [|r x IH]; intros Hx.
  - reflexivity.
  - change ((r :: x) ++ RPAREN :: after) with (r :: (x ++ RPAREN :: after)).
    rewrite findClose_step.
    destruct (Hx r (or_introl eq_refl)) as (H1 & H2 & _).
    assert (Hd : delta r = 0).
    { unfold delta. apply Z.eqb_neq in H1. apply Z.eqb_neq in H2.
      rewrite H1, H2. reflexivity. }
    rewrite Hd. change (1 + 0 >? 0) with true. cbv iota.
    change (1 + 0) with 1.
    rewrite IH; [reflexivity|]. intros r' Hr'. apply Hx. right. assumption.
Qed.

Lemma pieces_plain x : forall cur rs,
  (forall r, In r x -> r <> LPAREN /\ r <> RPAREN /\ r <> BAR) ->
  pieces 0 cur (x ++ rs) = pieces 0 (cur ++ x) rs.
Proof.
  induction x as [|r x IH]; intros cur rs Hx.
  - rewrite app_nil_r. reflexivity.
  - change ((r :: x) ++ rs) with (r :: (x ++ rs)). simpl.
    destruct (Hx r (or_introl eq_refl)) as (H1 & H2 & H3).
    apply Z.eqb_neq in H1. apply Z.eqb_neq in H2. apply Z.eqb_neq in H3.
    rewrite H1, H2, H3. simpl.
    rewrite IH by (intros r' Hr'; apply Hx; right; assumption).
    rewrite <- app_assoc. reflexivity.
Qed.

Lemma body_of_plain s :
  hd_error s <> Some CARET -> last s 0 <> DOLLAR -> body_of s = s.
Proof.
  intros Hh Hl. unfold body_of.
  rewrite (stripStart_no_caret s Hh). simpl.
  rewrite (stripEnd_no_dollar s Hl). reflexivity.
Qed.

Lemma ParseRunes_plain a ea :
  hd_error a <> Some CARET -> last a 0 <> DOLLAR ->
  (forall fuel cnt, (List.length a < fuel)%nat ->
     parseElements fuel a cnt = Ok (ea, cnt)) ->
  ParseRunes a = Ok (mkPattern ea false false 0).
Proof.
  intros Hh Hl Hp. unfold ParseRunes, parsePatternInternal.
  rewrite parsePatternInternal_with_eq, (body_of_plain a Hh Hl).
  rewrite Hp by lia. simpl.
  rewrite (stripStart_no_caret a Hh). simpl.
  rewrite (stripEnd_no_dollar a Hl). reflexivity.
Qed.

Lemma ParseRunes_group_alternation a b ea eb :
  (forall r, In r a -> r <> LPAREN /\ r <> RPAREN /\ r <> BAR) ->
  (forall r, In r b -> r <> LPAREN /\ r <> RPAREN /\ r <> BAR) ->
  hd_error a <> Some CARET -> last a 0 <> DOLLAR ->
  hd_error b <> Some CARET -> last b 0 <> DOLLAR -> b <> [] ->
  (forall fuel cnt, (List.length a < fuel)%nat ->
     parseElements fuel a cnt = Ok (ea, cnt)) ->
  (forall fuel cnt, (List.length b < fuel)%nat ->
     parseElements fuel b cnt = Ok (eb, cnt)) ->
  ParseRunes (LPAREN :: a ++ BAR :: b ++ [RPAREN])
  = Ok (mkPattern
          [GroupMatcher 1
             (mkPattern
                [AlternationMatcher
                   [mkPattern ea false false 1; mkPattern eb false false 1]]
                false false 1)] false false 1).
Proof.
  intros Ha Hb Hha Hla Hhb Hlb Hne Hpa Hpb.
  unfold ParseRunes, parsePatternInternal.
  rewrite parsePatternInternal_with_eq.
  assert (Hlast : last (LPAREN :: a ++ BAR :: b ++ [RPAREN]) 0 <> DOLLAR).
  { change (LPAREN :: a ++ BAR :: b ++ [RPAREN])
      with ((LPAREN :: a) ++ BAR :: b ++ [RPAREN]).
    rewrite last_app_cons.
    change (BAR :: b ++ [RPAREN]) with ((BAR :: b) ++ [RPAREN]).
    rewrite last_last. discriminate. }
  rewrite body_of_plain by (try discriminate; assumption).
  change (stripStart (LPAREN :: a ++ BAR :: b ++ [RPAREN]))
    with (false, LPAREN :: a ++ BAR :: b ++ [RPAREN]).
  cbn [fst snd]. rewrite (stripEnd_no_dollar _ Hlast). cbn [fst snd].
  rewrite parseElements_group.
  assert (Hab : forall r, In r (a ++ BAR :: b) -> r <> LPAREN /\ r <> RPAREN).
  { intros r Hr. apply in_app_or in Hr. destruct Hr as [Hr|[<-|Hr]].
    - destruct (Ha r Hr) as (? & ? & ?); auto.
    - split; discriminate.
    - destruct (Hb r Hr) as (? & ? & ?); auto. }
  assert (F : findClose 1 ((a ++ BAR :: b) ++ RPAREN :: []) = Some (a ++ BAR :: b, [])).
  { clear - Hab. generalize dependent (a ++ BAR :: b). intros x Hx.
    induction x as [|r x IH]; [reflexivity|].
    change ((r :: x) ++ [RPAREN]) with (r :: (x ++ [RPAREN])).
    rewrite findClose_step.
    destruct (Hx r (or_introl eq_refl)) as (H1 & H2).
    assert (Hd : delta r = 0).
    { unfold delta. apply Z.eqb_neq in H1. apply Z.eqb_neq in H2.
      rewrite H1, H2. reflexivity. }
    rewrite Hd. change (1 + 0 >? 0) with true. cbv iota. change (1 + 0) with 1.
    rewrite IH; [reflexivity|]. intros r' Hr'. apply Hx. right. assumption. }
  rewrite <- app_assoc in F. simpl in F. rewrite F.
  unfold parseAlternatives. rewrite parseAlternatives_loop_pieces.
  rewrite (pieces_plain a [] (BAR :: b) Ha).
  change ([] ++ a) with a. change (0 + 1) with 1.
  assert (Hp : pieces 0 a (BAR :: b) = [a; b]).
  { simpl. f_equal.
    rewrite <- (app_nil_r b) at 1. rewrite (pieces_plain b [] [] Hb).
    simpl. destruct b; [contradiction|reflexivity]. }
  rewrite Hp. cbn [parse_each].
  rewrite !parsePatternInternal_with_eq.
  rewrite (body_of_plain a Hha Hla).
  rewrite (stripStart_no_caret a Hha). cbn [fst snd].
  rewrite (stripEnd_no_dollar a Hla). cbn [fst snd].
  assert (Hlen : (List.length (LPAREN :: a ++ BAR :: b ++ [RPAREN])
                  = List.length a + List.length b + 3)%nat).
  { simpl. rewrite length_app. simpl. rewrite length_app. simpl. lia. }
  rewrite Hlen.
  rewrite Hpa by lia. cbn [rbind].
  rewrite !parsePatternInternal_with_eq.
  rewrite (body_of_plain b Hhb Hlb).
  rewrite (stripStart_no_caret b Hhb). cbn [fst snd].
  rewrite (stripEnd_no_dollar b Hlb). cbn [fst snd].
  rewrite Hpb by lia. cbn [rbind app].
  cbn [quantifier emit].
  replace (List.length a + List.length b + 3)%nat
    with (S (List.length a + List.length b + 2)) by lia.
  rewrite parseElements_nil. reflexivity.
Qed.


(* ------------------------------------------------------------------ *)
(** ** Decoding a string around an ASCII byte *)

(** An ASCII byte ends the sequence before it: decoding does not look
    beyond it. *)
Lemma decodeRune_app_ascii b s c rest :
  c < 128 ->
  decodeRune ((b :: s) ++ c :: rest) = decodeRune (b :: s) /\
  (1 <= snd (decodeRune (b :: s)) <= S (List.length s))%nat.
Proof.
  intros Hc.
  assert (Hlo1 : forall hi, between 128 c hi = false)
    by (intros; apply between_ascii; [assumption|lia]).
  assert (Hlo2 : forall hi, between 160 c hi = false)
    by (intros; apply between_ascii; [assumption|lia]).
  assert (Hlo3 : forall hi, between 144 c hi = false)
    by (intros; apply between_ascii; [assumption|lia]).
  pose proof (cont_ascii c Hc) as Hcont.
  unfold decodeRune. cbn [app].
  destruct (b <? 128); [split; [reflexivity|simpl; lia]|].
  destruct (between 194 b 223).
  { destruct s as [|b1 s]; cbn [app].
    - rewrite Hcont. split; [reflexivity|simpl; lia].
    - destruct (cont b1); split; try reflexivity; simpl; lia. }
  destruct (between 224 b 239).
  { destruct s as [|b1 [|b2 s]]; cbn [app].
    - destruct rest; split; try reflexivity; try (simpl; lia);
        destruct (b =? 224); rewrite ?Hlo1, ?Hlo2; reflexivity.
    - rewrite Hcont, andb_false_r. split; [reflexivity|simpl; lia].
    - destruct (between (if b =? 224 then 160 else 128) b1
                  (if b =? 237 then 159 else 191) && cont b2);
        split; try reflexivity; simpl; lia. }
  destruct (between 240 b 244).
  { destruct s as [|b1 [|b2 [|b3 s]]]; cbn [app].
    - destruct rest as [|x [|y rest]]; split; try reflexivity; try (simpl; lia);
        destruct (b =? 240); rewrite ?Hlo1, ?Hlo3; reflexivity.
    - destruct rest as [|x rest]; split; try reflexivity; try (simpl; lia).
      rewrite Hcont, andb_false_r. reflexivity.
    - rewrite Hcont, andb_false_r. split; [reflexivity|simpl; lia].
    - destruct (between (if b =? 240 then 144 else 128) b1
                  (if b =? 244 then 143 else 191) && cont b2 && cont b3);
        split; try reflexivity; simpl; lia. }
  split; [reflexivity|simpl; lia].
Qed.

Lemma runes_from_app_ascii s : forall k c rest,
  c < 128 -> (k <= List.length s)%nat ->
  runes_from k (s ++ c :: rest) = runes_from k s ++ runes_from 0 (c :: rest).
Proof.
  induction s as [|b s IH]; intros k c rest Hc Hk.
  - simpl in Hk. assert (k = 0%nat) by lia. subst. reflexivity.
  - destruct k as [|k].
    + change (runes_from 0 ((b :: s) ++ c :: rest))
        with (let (r, w) := decodeRune ((b :: s) ++ c :: rest) in
              r :: runes_from (Nat.pred w) (s ++ c :: rest)).
      change (runes_from 0 (b :: s))
        with (let (r, w) := decodeRune (b :: s) in
              r :: runes_from (Nat.pred w) s).
      destruct (decodeRune_app_ascii b s c rest Hc) as [E W]. rewrite E.
      destruct (decodeRune (b :: s)) as [r w]. simpl in W.
      rewrite IH by (auto; lia). reflexivity.
    + change (runes_from (S k) ((b :: s) ++ c :: rest))
        with (runes_from k (s ++ c :: rest)).
      change (runes_from (S k) (b :: s)) with (runes_from k s).
      apply IH; [assumption|simpl in Hk; lia].
Qed.

Lemma runes_of_string_app_ascii s c rest :
  c < 128 ->
  runes_of_string (s ++ c :: rest) = runes_of_string s ++ c :: runes_of_string rest.
Proof.
  intros Hc. unfold runes_of_string.
  rewrite runes_from_app_ascii by (auto; lia). f_equal.
  change (runes_from 0 (c :: rest))
    with (let (r, w) := decodeRune (c :: rest) in
          r :: runes_from (Nat.pred w) rest).
  rewrite decodeRune_ascii by assumption. reflexivity.
Qed.

Lemma runes_of_string_group_bar a b :
  runes_of_string (lit "(" ++ a ++ lit "|" ++ b ++ lit ")")
  = LPAREN :: runes_of_string a ++ BAR :: runes_of_string b ++ [RPAREN].
Proof.
  change (lit "(" ++ a ++ lit "|" ++ b ++ lit ")")
    with ([] ++ LPAREN :: (a ++ BAR :: (b ++ RPAREN :: []))).
  rewrite runes_of_string_app_ascii by lia.
  rewrite runes_of_string_app_ascii by lia.
  rewrite runes_of_string_app_ascii by lia.
  reflexivity.
Qed.

Lemma runes_of_string_bar a b :
  runes_of_string (a ++ lit "|" ++ b)
  = runes_of_string a ++ BAR :: runes_of_string b.
Proof.
  change (a ++ lit "|" ++ b) with (a ++ BAR :: b).
  apply runes_of_string_app_ascii. lia.
Qed.

Lemma runes_of_string_nonempty s : s <> [] -> runes_of_string s <> [].
Proof.
  destruct s as [|b s]; [congruence|]. intros _.
  unfold runes_of_string.
  change (runes_from 0 (b :: s))
    with (let (r, w) := decodeRune (b :: s) in r :: runes_from (Nat.pred w) s).
  destruct (decodeRune (b :: s)). discriminate.
Qed.


(* ------------------------------------------------------------------ *)
(** ** Alternation *)

Section Alternation.

Variable IsDigit : rune -> bool.
Variable IsLetter : rune -> bool.

(** C1, as the code has it.  The compiler splits on bars inside a group
    only; at the top level a bar is a literal rune.  For pattern strings
    [a] and [b] without parentheses, bars and outer anchors, [b] not empty,
    the pattern (a|b) compiles, and Match on it answers what Match answers
    on [a] or on [b]. *)
Theorem alternation_inside_a_group (a b : gostring) (input : list rune) :
  plain_text (runes_of_string a) = true ->
  plain_text (runes_of_string b) = true ->
  b <> [] ->
  exists pa pb pab,
    ParsePattern a = Ok pa /\ ParsePattern b = Ok pb /\
    ParsePattern (lit "(" ++ a ++ lit "|" ++ b ++ lit ")") = Ok pab /\
    forall fuel,
      (List.length (runes_of_string a) + List.length (runes_of_string b) + 3
       <= fuel)%nat ->
      exists ra rb,
        Match IsDigit IsLetter fuel pa input = Done ra /\
        Match IsDigit IsLetter fuel pb input = Done rb /\
        Match IsDigit IsLetter fuel pab input = Done (ra || rb).
Proof.
  intros Ha Hb Hne.
  apply plain_text_spec in Ha. destruct Ha as (Ha & Hha & Hla).
  apply plain_text_spec in Hb. destruct Hb as (Hb & Hhb & Hlb).
  apply runes_of_string_nonempty in Hne.
  set (ra := runes_of_string a) in *. set (rb := runes_of_string b) in *.
  destruct (parseElements_flat (S (List.length ra)) ra) as (ea & Hfa & Hlena & Hpa);
    [lia|intros H; destruct (Ha _ H) as (? & _); congruence|].
  destruct (parseElements_flat (S (List.length rb)) rb) as (eb & Hfb & Hlenb & Hpb);
    [lia|intros H; destruct (Hb _ H) as (? & _); congruence|].
  exists (mkPattern ea false false 0), (mkPattern eb false false 0).
  eexists. split; [|split; [|split]].
  - apply ParseRunes_plain; assumption.
  - apply ParseRunes_plain; assumption.
  - unfold ParsePattern. rewrite runes_of_string_group_bar.
    apply (ParseRunes_group_alternation ra rb ea eb); assumption.
  - intros fuel Hfuel.
    exists (any_start (fun pos => is_some (flat_here IsDigit IsLetter ea false input pos))
              input (S (List.length input)) 0),
           (any_start (fun pos => is_some (flat_here IsDigit IsLetter eb false input pos))
              input (S (List.length input)) 0).
    split; [apply Match_flat; auto; lia|].
    split; [apply Match_flat; auto; lia|].
    rewrite Match_group_alternation by (auto; lia).
    rewrite any_start_orb. reflexivity.
Qed.

End Alternation.

Lemma alternation_inside_a_group_witness :
  plain_text (runes "ab+") = true /\ plain_text (runes "\d") = true /\
  lit "\d" <> [] /\
  exists pa pb pab,
    compile "ab+" = Ok pa /\ compile "\d" = Ok pb /\
    compile "(ab+|\d)" = Ok pab /\
    forall fuel,
      (List.length (runes "ab+") + List.length (runes "\d") + 3 <= fuel)%nat ->
      exists ra rb,
        Match asciiIsDigit asciiIsLetter fuel pa (runes "x7") = Done ra /\
        Match asciiIsDigit asciiIsLetter fuel pb (runes "x7") = Done rb /\
        Match asciiIsDigit asciiIsLetter fuel pab (runes "x7") = Done (ra || rb).
Proof.
  split; [vm_compute; reflexivity|]. split; [vm_compute; reflexivity|].
  split; [discriminate|].
  apply (alternation_inside_a_group asciiIsDigit asciiIsLetter
           (lit "ab+") (lit "\d") (runes "x7")).
  - vm_compute; reflexivity.
  - vm_compute; reflexivity.
  - discriminate.
Defined.

(** C1, as the specification has it, fails: x|y compiles to the three
    literals x, | and y, and does not match the input x, which the pattern
    x matches. *)
Lemma top_level_bar_is_a_literal :
  compile "x|y"
  = Ok (mkPattern [LiteralMatcher 120; LiteralMatcher 124; LiteralMatcher 121]
          false false 0) /\
  ~ top_level_alternation asciiIsDigit asciiIsLetter (lit "x") (lit "y") (runes "x").
Proof.
  split; [vm_compute; reflexivity|].
  intros (pab & pa & pb & Eab & Ea & Eb & H).
  assert (Eab' : ParsePattern (lit "x" ++ lit "|" ++ lit "y")
                 = Ok (mkPattern [LiteralMatcher 120; LiteralMatcher 124; LiteralMatcher 121]
                         false false 0)) by (vm_compute; reflexivity).
  assert (Ea' : ParsePattern (lit "x") = Ok (mkPattern [LiteralMatcher 120] false false 0))
    by (vm_compute; reflexivity).
  assert (Eb' : ParsePattern (lit "y") = Ok (mkPattern [LiteralMatcher 121] false false 0))
    by (vm_compute; reflexivity).
  rewrite Eab' in Eab. rewrite Ea' in Ea. rewrite Eb' in Eb.
  inversion Eab; inversion Ea; inversion Eb; subst.
  specialize (H 4%nat false true false).
  assert (false = true || false); [|discriminate].
  apply H; vm_compute; reflexivity.
Qed.


(* ------------------------------------------------------------------ *)
(** ** Match decides the language of a pattern without groups *)

Section LanguageLemmas.

Variable IsDigit : rune -> bool.
Variable IsLetter : rune -> bool.

Abbreviation occ := (occurrence IsDigit IsLetter).
Abbreviation acc := (accepts IsDigit IsLetter).
Abbreviation here := (flat_here IsDigit IsLetter).
Abbreviation EM := (ElementMatch IsDigit IsLetter).

(** The runes from position [pos] on. *)
Abbreviation from pos input := (skipn (Z.to_nat pos) input).

Lemma from_succ (input : list rune) pos r tail :
  0 <= pos -> from pos input = r :: tail -> from (pos + 1) input = tail.
Proof.
  intros Hpos H. replace (Z.to_nat (pos + 1)) with (1 + Z.to_nat pos)%nat by lia.
  rewrite <- skipn_skipn. rewrite H. reflexivity.
Qed.

Lemma from_len (input : list rune) pos x rest :
  0 <= pos -> from pos input = x :: rest -> pos < len input.
Proof.
  intros Hpos H. unfold len.
  destruct (Z_lt_le_dec pos (Z.of_nat (List.length input))) as [|Hge]; [assumption|].
  rewrite skipn_all2 in H by lia. discriminate.
Qed.

Lemma elem_at_from (input : list rune) pos :
  0 <= pos -> elem_at input pos = hd_error (from pos input).
Proof.
  intros Hpos. unfold elem_at.
  destruct (pos <? 0) eqn:E; [apply Z.ltb_lt in E; lia|].
  symmetry. apply hd_error_skipn.
Qed.

Lemma accepts_from m input pos :
  0 <= pos ->
  (acc m input pos = true <->
   exists r tail, from pos input = r :: tail /\ EM m r = true).
Proof.
  intros Hpos. unfold accepts. rewrite elem_at_from by assumption.
  destruct (from pos input) as [|r tail]; simpl.
  - split; [discriminate|]. intros (r & tail & H & _). discriminate.
  - split.
    + intros H. exists r, tail. auto.
    + intros (r' & tail' & H & Hm). inversion H; subst. assumption.
Qed.

(** A run of accepted runes, as positions and as a list. *)
Lemma run_of_list m input : forall n pos,
  0 <= pos ->
  run_of IsDigit IsLetter m input pos (pos + Z.of_nat n) ->
  exists run, from pos input = run ++ from (pos + Z.of_nat n) input /\
    List.length run = n /\ Forall (fun r => EM m r = true) run.
Proof.
  induction n as [|n IH]; intros pos Hpos Hrun.
  - exists []. rewrite Z.add_0_r. auto.
  - assert (Ha : acc m input pos = true) by (apply Hrun; lia).
    apply accepts_from in Ha; [|assumption].
    destruct Ha as (r & tail & Hfrom & Hm).
    destruct (IH (pos + 1)) as (run & Hrun' & Hlen & Hall); [lia| |].
    { intros i Hi. apply Hrun. lia. }
    exists (r :: run). repeat split.
    + rewrite Hfrom. simpl. f_equal.
      rewrite <- (from_succ input pos r tail Hpos Hfrom), Hrun'.
      do 2 f_equal. lia.
    + simpl. congruence.
    + constructor; assumption.
Qed.

Lemma list_run_of m input : forall run pos rest,
  0 <= pos -> from pos input = run ++ rest ->
  Forall (fun r => EM m r = true) run ->
  run_of IsDigit IsLetter m input pos (pos + len run) /\
  from (pos + len run) input = rest.
Proof.
  induction run as [|r run IH]; intros pos rest Hpos Hfrom Hall.
  - unfold len. simpl. rewrite Z.add_0_r. split; [|assumption].
    intros i Hi. lia.
  - inversion Hall as [|? ? Hr Hall']; subst. simpl in Hfrom.
    pose proof (from_succ input pos _ _ Hpos Hfrom) as Hnext.
    destruct (IH (pos + 1) rest) as [Hrun Hrest]; [lia|assumption|assumption|].
    assert (E : pos + len (r :: run) = pos + 1 + len run)
      by (unfold len; simpl List.length; lia).
    rewrite E. split; [|assumption].
    intros i Hi. destruct (Z.eq_dec i pos) as [->|Hne].
    + apply accepts_from; [assumption|]. eauto.
    + apply Hrun. lia.
Qed.

Lemma flat_loop_Some (try : Z -> option Z) m input : forall k cur e,
  flat_loop IsDigit IsLetter try m input k cur = Some e ->
  exists q, cur <= q <= len input /\
    run_of IsDigit IsLetter m input cur q /\ try q = Some e.
Proof.
  induction k as [|k IH]; intros cur e; simpl; [discriminate|].
  destruct (cur <=? len input) eqn:Ele; [|discriminate].
  apply Z.leb_le in Ele.
  destruct (try cur) as [e0|] eqn:T.
  - intros E. inversion E; subst. exists cur. repeat split; try lia; auto.
    intros i Hi. lia.
  - destruct (acc m input cur) eqn:Ha; [|discriminate].
    intros E. apply IH in E. destruct E as (q & Hq & Hrun & Hq').
    exists q. repeat split; try lia; auto.
    intros i Hi. destruct (Z.eq_dec i cur) as [->|Hne]; [assumption|].
    apply Hrun. lia.
Qed.

Lemma flat_loop_reaches (try : Z -> option Z) m input q e :
  try q = Some e -> q <= len input ->
  forall k cur, cur <= q -> (Z.to_nat (q - cur) < k)%nat ->
  run_of IsDigit IsLetter m input cur q ->
  exists e', flat_loop IsDigit IsLetter try m input k cur = Some e'.
Proof.
  intros Hq Hlen. induction k as [|k IH]; intros cur Hcur Hk Hrun; [lia|].
  simpl. destruct (cur <=? len input) eqn:Ele;
    [|apply Z.leb_gt in Ele; lia].
  destruct (try cur) as [e0|] eqn:T; [eauto|].
  assert (Hlt : cur < q).
  { destruct (Z.eq_dec cur q) as [->|]; [congruence|lia]. }
  rewrite (Hrun cur) by lia.
  apply IH; [lia|lia|].
  intros i Hi. apply Hrun. lia.
Qed.

(** What [flat_here] finds is an occurrence. *)
Lemma flat_here_sound els ea input : forall pos e,
  0 <= pos -> here els ea input pos = Some e ->
  exists mid post, from pos input = mid ++ post /\ occ els mid /\
    e = pos + len mid /\ (ea = true -> post = []).
Proof.
  induction els as [|x rest IH]; intros pos e Hpos; cbn [flat_here].
  - destruct (negb ea || (pos =? len input)) eqn:C; [|discriminate].
    intros E; inversion E; subst e.
    exists [], (from pos input). repeat split.
    + unfold len; simpl; lia.
    + intros ->. simpl in C. apply Z.eqb_eq in C.
      apply skipn_all2. unfold len in C. lia.
  - assert (Atom : (if acc x input pos then here rest ea input (pos + 1) else None)
                   = Some e ->
                   exists mid post, from pos input = mid ++ post /\
                     (exists r tail, mid = r :: tail /\ EM x r = true /\ occ rest tail) /\
                     e = pos + len mid /\ (ea = true -> post = [])).
    { destruct (acc x input pos) eqn:Ha; [|discriminate].
      apply accepts_from in Ha; [|assumption].
      destruct Ha as (r & tail & Hfrom & Hm). intros E.
      apply IH in E; [|lia]. destruct E as (mid & post & Hf & Ho & He & Hea).
      exists (r :: mid), post. repeat split; auto.
      - rewrite Hfrom. simpl. f_equal.
        rewrite <- (from_succ input pos r tail Hpos Hfrom). assumption.
      - exists r, mid. auto.
      - unfold len in *. simpl List.length. lia. }
    destruct x; try exact Atom; cbn [occurrence].
    + (* OneOrMore *)
      destruct (acc x input pos) eqn:Ha; [|discriminate].
      intros E. apply flat_loop_Some in E.
      destruct E as (q & Hq & Hrun & E).
      apply IH in E; [|lia]. destruct E as (mid & post & Hf & Ho & He & Hea).
      assert (Hrun' : run_of IsDigit IsLetter x input pos (pos + Z.of_nat (Z.to_nat (q - pos)))).
      { replace (pos + Z.of_nat (Z.to_nat (q - pos))) with q by lia.
        intros i Hi. destruct (Z.eq_dec i pos) as [->|]; [assumption|].
        apply Hrun. lia. }
      destruct (run_of_list x input _ pos Hpos Hrun') as (run & Hfr & Hlen & Hall).
      replace (pos + Z.of_nat (Z.to_nat (q - pos))) with q in Hfr by lia.
      exists (run ++ mid), post. repeat split; auto.
      * rewrite Hfr, Hf. apply app_assoc.
      * exists run, mid. repeat split; auto.
        intros ->. simpl in Hlen. lia.
      * unfold len in *. rewrite length_app. lia.
    + (* ZeroOrOne *)
      destruct (here rest ea input pos) as [e0|] eqn:E0.
      * intros E; inversion E; subst e0.
        apply IH in E0; [|assumption].
        destruct E0 as (mid & post & Hf & Ho & He & Hea).
        exists mid, post. auto.
      * intros E.
        assert (Atom' : exists mid post, from pos input = mid ++ post /\
                     (exists r tail, mid = r :: tail /\ EM x r = true /\ occ rest tail) /\
                     e = pos + len mid /\ (ea = true -> post = [])).
        { destruct (acc x input pos) eqn:Ha; [|discriminate].
          apply accepts_from in Ha; [|assumption].
          destruct Ha as (r & tail & Hfrom & Hm).
          apply IH in E; [|lia]. destruct E as (mid & post & Hf & Ho & He & Hea).
          exists (r :: mid), post. repeat split; auto.
          - rewrite Hfrom. simpl. f_equal.
            rewrite <- (from_succ input pos r tail Hpos Hfrom). assumption.
          - exists r, mid. auto.
          - unfold len in *. simpl List.length. lia. }
        destruct Atom' as (mid & post & Hf & Ho & He & Hea).
        exists mid, post. auto.
    + discriminate.
Qed.

(** Every occurrence is found. *)
Lemma flat_here_complete els ea input : forall pos mid post,
  0 <= pos <= len input ->
  from pos input = mid ++ post -> occ els mid -> (ea = true -> post = []) ->
  exists e, here els ea input pos = Some e.
Proof.
  induction els as [|x rest IH]; intros pos mid post Hpos Hfrom Ho Hea;
    cbn [flat_here].
  - simpl in Ho. subst mid. simpl in Hfrom.
    destruct ea; simpl; [|eauto].
    rewrite Hea in Hfrom by reflexivity.
    apply skipn_all_iff in Hfrom. unfold len in *.
    replace (pos =? Z.of_nat (List.length input)) with true
      by (symmetry; apply Z.eqb_eq; lia).
    eauto.
  - assert (Atom : (exists r tail, mid = r :: tail /\ EM x r = true /\ occ rest tail) ->
                   exists e, (if acc x input pos then here rest ea input (pos + 1)
                              else None) = Some e).
    { intros (r & tail & -> & Hm & Ht). simpl in Hfrom.
      assert (Ha : acc x input pos = true)
        by (apply accepts_from; [lia|eauto]).
      rewrite Ha.
      apply (IH (pos + 1) tail post); auto.
      - pose proof (from_len input pos _ _ (proj1 Hpos) Hfrom). lia.
      - apply (from_succ input pos r (tail ++ post)); [lia|assumption]. }
    destruct x; try exact (Atom Ho); cbn [occurrence] in Ho.
    + (* OneOrMore *)
      destruct Ho as (run & tail & -> & Hne & Hall & Ht).
      rewrite <- app_assoc in Hfrom.
      destruct (list_run_of x input run pos (tail ++ post)) as [Hrun Hrest];
        [lia|assumption|assumption|].
      assert (Hl : 0 < len run).
      { unfold len. destruct run; [congruence|simpl; lia]. }
      assert (Hq : pos + len run <= len input).
      { destruct (Z_le_gt_dec (pos + len run) (len input)) as [|Hgt]; [assumption|].
        exfalso. assert (Ha : acc x input (pos + len run - 1) = true)
          by (apply Hrun; lia).
        apply accepts_lt in Ha. lia. }
      rewrite (Hrun pos) by lia.
      destruct (IH (pos + len run) tail post) as (e & He); auto; [lia|].
      apply (flat_loop_reaches _ x input (pos + len run) e He Hq); [lia|lia|].
      intros i Hi. apply Hrun. lia.
    + (* ZeroOrOne *)
      destruct (here rest ea input pos) as [e0|] eqn:E0; [eauto|].
      destruct Ho as [Ho|Ho].
      * destruct (IH pos mid post) as (e & He); auto. congruence.
      * exact (Atom Ho).
    + destruct Ho as (r & tail & _ & Hm & _). discriminate.
Qed.

Lemma any_start_true (f : Z -> bool) input : forall k start,
  any_start f input k start = true <->
  exists pos, start <= pos <= len input /\ pos < start + Z.of_nat k /\
    f pos = true.
Proof.
  induction k as [|k IH]; intros start; simpl.
  - split; [discriminate|]. intros (pos & H1 & H2 & _). lia.
  - destruct (start <=? len input) eqn:E.
    + apply Z.leb_le in E. rewrite orb_true_iff, IH. split.
      * intros [H|(pos & H1 & H2 & H3)].
        -- exists start. repeat split; try lia; auto.
        -- exists pos. repeat split; try lia; auto.
      * intros (pos & H1 & H2 & H3).
        destruct (Z.eq_dec pos start) as [->|Hne]; [left; assumption|].
        right. exists pos. repeat split; try lia; auto.
    + apply Z.leb_gt in E. split; [discriminate|].
      intros (pos & H1 & H2 & _). lia.
Qed.

Lemma found_at els sa ea input :
  found IsDigit IsLetter els sa ea input <->
  exists pos, 0 <= pos <= len input /\ (sa = true -> pos = 0) /\
    is_some (here els ea input pos) = true.
Proof.
  unfold found. split.
  - intros (pre & mid & post & -> & Ho & Hsa & Hea).
    exists (len pre). unfold len. rewrite length_app. repeat split; try lia.
    + intros H. rewrite (Hsa H). reflexivity.
    + destruct (flat_here_complete els ea (pre ++ mid ++ post) (len pre) mid post)
        as (e & He); auto.
      * unfold len. rewrite length_app. lia.
      * unfold len. rewrite Nat2Z.id.
        rewrite skipn_app, skipn_all, Nat.sub_diag. reflexivity.
      * unfold len in He. rewrite He. reflexivity.
  - intros (pos & Hpos & Hsa & Hs).
    destruct (here els ea input pos) as [e|] eqn:He; [|discriminate].
    apply flat_here_sound in He; [|lia].
    destruct He as (mid & post & Hf & Ho & _ & Hea).
    exists (firstn (Z.to_nat pos) input), mid, post. repeat split; auto.
    + rewrite <- Hf. symmetry. apply firstn_skipn.
    + intros H. rewrite (Hsa H). reflexivity.
Qed.

(** Match on the elements of a pattern without groups. *)
Lemma Match_flat_found els sa ea gc fuel input :
  forallb is_flat els = true -> (List.length els < fuel)%nat -> 0 <= gc ->
  exists b, Match IsDigit IsLetter fuel (mkPattern els sa ea gc) input = Done b /\
    (b = true <-> found IsDigit IsLetter els sa ea input).
Proof.
  intros Hflat Hfuel Hgc. destruct sa.
  - unfold Match. cbn [startAnchor groupCount].
    rewrite make_eq by assumption. cbn [bind].
    pose proof (state_flat IsDigit IsLetter els Hflat fuel true ea gc input 0
                  (Slice 0) ([] ++ [repeat [] (Z.to_nat gc)])
                  Hfuel (Z.le_refl 0) (or_introl (unset_fresh [] _))) as H.
    change (List.length (@nil (list (list Z)))) with 0%nat.
    destruct (flat_here IsDigit IsLetter els ea input 0) as [e|] eqn:He.
    + rewrite H. cbn [bind]. exists true. split; [reflexivity|].
      split; [intros _|reflexivity].
      apply found_at. exists 0. repeat split; try lia.
      * unfold len; lia.
      * rewrite He. reflexivity.
    + destruct H as (pos' & H). rewrite H. cbn [bind]. exists false.
      split; [reflexivity|]. split; [discriminate|].
      intros F. apply found_at in F. destruct F as (pos & _ & Hsa & Hs).
      rewrite (Hsa eq_refl), He in Hs. discriminate.
  - rewrite Match_flat by assumption. eexists. split; [reflexivity|].
    rewrite any_start_true, found_at. split.
    + intros (pos & H1 & _ & H3). exists pos. repeat split; try lia; auto.
    + intros (pos & H1 & _ & H3). exists pos. repeat split; try lia; auto.
      unfold len in *. lia.
Qed.

End LanguageLemmas.


(* ------------------------------------------------------------------ *)
(** ** Patterns without parentheses; literal texts; character sets *)

Lemma ParseRunes_flat rs :
  ~ In LPAREN rs ->
  exists els, forallb is_flat els = true /\
    (List.length els <= List.length rs)%nat /\
    ParseRunes rs =
    Ok (mkPattern els (fst (stripStart rs))
          (fst (stripEnd (snd (stripStart rs)))) 0).
Proof.
  intros Hin.
  destruct (parseElements_flat (S (List.length (body_of rs))) (body_of rs))
    as (els & Hflat & Hlen & Hparse); [lia| |].
  { intros H. apply Hin. apply body_of_In. assumption. }
  pose proof (body_of_length rs) as Hb.
  exists els. repeat split; [assumption|lia|].
  unfold ParseRunes, parsePatternInternal.
  rewrite parsePatternInternal_with_eq, Hparse by lia. reflexivity.
Qed.

Lemma stripEnd_dollar w : stripEnd (w ++ [DOLLAR]) = (true, w).
Proof.
  unfold stripEnd. destruct (w ++ [DOLLAR]) as [|x t] eqn:E.
  - destruct w; discriminate.
  - rewrite <- E. rewrite last_last, removelast_last. reflexivity.
Qed.

Lemma strip_anchored sa w ea :
  (sa = false -> hd_error w <> Some CARET) ->
  (ea = false -> last w 0 <> DOLLAR) ->
  stripStart (anchored sa w ea) = (sa, w ++ (if ea then [DOLLAR] else [])) /\
  stripEnd (w ++ (if ea then [DOLLAR] else [])) = (ea, w).
Proof.
  intros Hsa Hea. split.
  - unfold anchored. destruct sa; [reflexivity|]. cbn [app].
    apply stripStart_no_caret.
    destruct w as [|x w]; [destruct ea; discriminate|].
    exact (Hsa eq_refl).
  - destruct ea; [apply stripEnd_dollar|].
    rewrite app_nil_r. apply stripEnd_no_dollar. exact (Hea eq_refl).
Qed.

Lemma is_meta_false r :
  is_meta r = false ->
  (r =? LPAREN) = false /\ (r =? DOT) = false /\ (r =? BACKSLASH) = false /\
  (r =? LBRACKET) = false /\ (r =? PLUS) = false /\ (r =? QUESTION) = false.
Proof.
  unfold is_meta. rewrite !orb_false_iff. tauto.
Qed.

Lemma parseElements_literal : forall w fuel cnt,
  literal_text w = true -> (List.length w < fuel)%nat ->
  parseElements fuel w cnt = Ok (map LiteralMatcher w, cnt).
Proof.
  induction w as [|r w IH]; intros fuel cnt Hlit Hfuel;
    (destruct fuel as [|fuel]; [simpl in Hfuel; lia|]).
  - reflexivity.
  - simpl in Hlit. apply andb_true_iff in Hlit. destruct Hlit as [Hr Hw].
    apply negb_true_iff, is_meta_false in Hr.
    destruct Hr as (H1 & H2 & H3 & H4 & _).
    rewrite parseElements_atom by assumption.
    unfold scanAtom. rewrite H2, H3, H4.
    assert (Q : quantifier (LiteralMatcher r) w = (LiteralMatcher r, w)).
    { destruct w as [|r' w']; [reflexivity|]. simpl in Hw.
      apply andb_true_iff in Hw. destruct Hw as [Hr' _].
      apply negb_true_iff, is_meta_false in Hr'.
      destruct Hr' as (_ & _ & _ & _ & H5 & H6).
      unfold quantifier. rewrite H5, H6. reflexivity. }
    rewrite Q. cbn [fst snd emit].
    rewrite (IH fuel cnt Hw) by (simpl in Hfuel; lia). reflexivity.
Qed.

Lemma ParseRunes_literal sa w ea :
  literal_text w = true ->
  (sa = false -> hd_error w <> Some CARET) ->
  (ea = false -> last w 0 <> DOLLAR) ->
  ParseRunes (anchored sa w ea) = Ok (mkPattern (map LiteralMatcher w) sa ea 0).
Proof.
  intros Hlit Hsa Hea.
  destruct (strip_anchored sa w ea Hsa Hea) as [S1 S2].
  unfold ParseRunes, parsePatternInternal.
  rewrite parsePatternInternal_with_eq. unfold body_of.
  rewrite S1. cbn [fst snd]. rewrite S2. cbn [fst snd].
  rewrite parseElements_literal; [reflexivity|assumption|].
  unfold anchored. rewrite !length_app. lia.
Qed.

Lemma setChars_members s rest :
  ~ In RBRACKET s -> setChars (s ++ RBRACKET :: rest) = (s, RBRACKET :: rest).
Proof.
  induction s as [|r s IH]; intros Hin.
  - reflexivity.
  - cbn [app setChars].
    destruct (r =? RBRACKET) eqn:E.
    + apply Z.eqb_eq in E. subst. exfalso. apply Hin. left; reflexivity.
    + rewrite IH; [reflexivity|]. intros H. apply Hin. right; assumption.
Qed.

Lemma ParseRunes_set negated s :
  ~ In RBRACKET s ->
  (negated = false -> hd_error s <> Some CARET) ->
  ParseRunes (set_text negated s) =
  Ok (mkPattern [CharacterSetMatcher s negated] false false 0).
Proof.
  intros Hin Hneg.
  assert (Hs : stripStart (set_text negated s) = (false, set_text negated s))
    by reflexivity.
  assert (He : stripEnd (set_text negated s) = (false, set_text negated s)).
  { apply stripEnd_no_dollar. unfold set_text.
    rewrite !app_assoc. rewrite last_last. discriminate. }
  unfold ParseRunes, parsePatternInternal.
  rewrite parsePatternInternal_with_eq. unfold body_of.
  rewrite Hs. cbn [fst snd]. rewrite He. cbn [fst snd].
  assert (Hlen : exists n, List.length (set_text negated s) = S (S n)).
  { unfold set_text. rewrite !length_app. cbn [List.length].
    exists (List.length (if negated then [CARET] else []) + List.length s)%nat.
    lia. }
  destruct Hlen as (n & Hlen). rewrite Hlen.
  unfold set_text. cbn [app].
  rewrite parseElements_atom by reflexivity.
  assert (Sc : scanAtom LBRACKET ((if negated then [CARET] else []) ++ s ++ [RBRACKET])
               = (Some (CharacterSetMatcher s negated), [])).
  { unfold scanAtom. change (LBRACKET =? DOT) with false.
    change (LBRACKET =? BACKSLASH) with false.
    change (LBRACKET =? LBRACKET) with true. cbv iota.
    destruct negated; cbn [app].
    - change (CARET =? CARET) with true. cbv iota.
      rewrite (setChars_members s [] Hin). reflexivity.
    - assert (M : match s ++ [RBRACKET] with
                  | [] => (false, s ++ [RBRACKET])
                  | c :: rest' =>
                    if c =? CARET then (true, rest') else (false, s ++ [RBRACKET])
                  end = (false, s ++ [RBRACKET])).
      { destruct s as [|c s']; [reflexivity|]. cbn [app].
        destruct (c =? CARET) eqn:E; [|reflexivity].
        apply Z.eqb_eq in E. subst. exfalso.
        apply (Hneg eq_refl). reflexivity. }
      rewrite M, (setChars_members s [] Hin). reflexivity. }
  rewrite Sc. reflexivity.
Qed.

Section Searches.

Variable IsDigit : rune -> bool.
Variable IsLetter : rune -> bool.

Lemma occurrence_literals w mid :
  occurrence IsDigit IsLetter (map LiteralMatcher w) mid <-> mid = w.
Proof.
  revert mid. induction w as [|r w IH]; intros mid; cbn [map occurrence].
  - tauto.
  - split.
    + intros (r' & tail & -> & Hm & Ht). simpl in Hm. apply Z.eqb_eq in Hm.
      apply IH in Ht. congruence.
    + intros ->. exists r, w. repeat split.
      * simpl. apply Z.eqb_refl.
      * apply IH. reflexivity.
Qed.

Lemma existsb_eqb_In r s : existsb (Z.eqb r) s = true <-> In r s.
Proof.
  rewrite existsb_exists. split.
  - intros (x & Hx & E). apply Z.eqb_eq in E. subst. assumption.
  - intros H. exists r. split; [assumption|apply Z.eqb_refl].
Qed.

Lemma forallb_flat_literals w : forallb is_flat (map LiteralMatcher w) = true.
Proof. induction w; simpl; auto. Qed.

(** X1.  A pattern text without parentheses compiles, and Match decides
    whether the input holds an occurrence of the compiled elements, between
    the anchors of the pattern: it returns, with no more nested calls than
    the pattern has runes, and it returns true exactly when there is one. *)
Theorem match_decides_patterns_without_groups
    (pattern : gostring) (input : list rune) (fuel : nat) :
  ~ In LPAREN (runes_of_string pattern) ->
  (List.length (runes_of_string pattern) < fuel)%nat ->
  exists p, ParsePattern pattern = Ok p /\
  exists b, Match IsDigit IsLetter fuel p input = Done b /\
    (b = true <->
     found IsDigit IsLetter (elements p) (startAnchor p) (endAnchor p) input).
Proof.
  intros Hin Hfuel.
  destruct (ParseRunes_flat _ Hin) as (els & Hflat & Hlen & Hp).
  unfold ParsePattern. rewrite Hp. eexists. split; [reflexivity|].
  cbn [elements startAnchor endAnchor].
  apply Match_flat_found; [assumption|lia|lia].
Qed.

(** X2.  A text of runes that stand for themselves is searched for as such:
    the pattern matches the inputs that hold the text, at their start under
    [^] and at their end under [$]. *)
Theorem literal_pattern_searches_for_its_text
    (pattern : gostring) (sa ea : bool) (w input : list rune) (fuel : nat) :
  runes_of_string pattern = anchored sa w ea ->
  literal_text w = true ->
  (sa = false -> hd_error w <> Some CARET) ->
  (ea = false -> last w 0 <> DOLLAR) ->
  (List.length w < fuel)%nat ->
  exists p, ParsePattern pattern = Ok p /\
  exists b, Match IsDigit IsLetter fuel p input = Done b /\
    (b = true <->
     exists pre post, input = pre ++ w ++ post /\
       (sa = true -> pre = []) /\ (ea = true -> post = [])).
Proof.
  intros Htext Hlit Hsa Hea Hfuel.
  unfold ParsePattern. rewrite Htext, (ParseRunes_literal sa w ea Hlit Hsa Hea).
  eexists. split; [reflexivity|].
  destruct (Match_flat_found IsDigit IsLetter (map LiteralMatcher w) sa ea 0
              fuel input (forallb_flat_literals w))
    as (b & Hb & Hiff); [rewrite length_map; assumption|lia|].
  exists b. split; [assumption|]. rewrite Hiff. unfold found. split.
  - intros (pre & mid & post & Hi & Ho & H1 & H2).
    apply occurrence_literals in Ho. subst mid. eauto.
  - intros (pre & post & Hi & H1 & H2).
    exists pre, w, post. repeat split; auto.
    apply occurrence_literals. reflexivity.
Qed.

(** X3.  A character set matches the inputs that hold one of its members, a
    negated set those that hold a rune that is none of its members. *)
Theorem character_set_finds_a_member
    (pattern : gostring) (negated : bool) (s input : list rune) (fuel : nat) :
  runes_of_string pattern = set_text negated s ->
  ~ In RBRACKET s ->
  (negated = false -> hd_error s <> Some CARET) ->
  (1 < fuel)%nat ->
  exists p, ParsePattern pattern = Ok p /\
  exists b, Match IsDigit IsLetter fuel p input = Done b /\
    (b = true <-> exists r, In r input /\ (In r s <-> negated = false)).
Proof.
  intros Htext Hin Hneg Hfuel.
  unfold ParsePattern. rewrite Htext, (ParseRunes_set negated s Hin Hneg).
  eexists. split; [reflexivity|].
  destruct (Match_flat_found IsDigit IsLetter [CharacterSetMatcher s negated]
              false false 0 fuel input eq_refl)
    as (b & Hb & Hiff); [simpl; lia|lia|].
  exists b. split; [assumption|]. rewrite Hiff. unfold found.
  cbn [occurrence ElementMatch]. split.
  - intros (pre & mid & post & Hi & (r & tail & -> & Hm & ->) & _).
    exists r. split.
    + subst input. apply in_or_app. right. left. reflexivity.
    + rewrite <- existsb_eqb_In.
      destruct (existsb (Z.eqb r) s), negated; simpl in Hm;
        split; congruence.
  - intros (r & Hr & Hs). apply in_split in Hr.
    destruct Hr as (pre & post & ->).
    exists pre, [r], post. repeat split; try discriminate.
    exists r, []. repeat split.
    rewrite <- existsb_eqb_In in Hs.
    destruct (existsb (Z.eqb r) s), negated; simpl; try reflexivity;
      destruct Hs as [H1 H2]; try (symmetry; apply H1; reflexivity);
      try (apply H2; reflexivity).
Qed.

End Searches.

Lemma match_decides_patterns_without_groups_witness :
  ~ In LPAREN (runes_of_string (lit "^ab+c?$")) /\
  (List.length (runes_of_string (lit "^ab+c?$")) < 8)%nat /\
  exists p, ParsePattern (lit "^ab+c?$") = Ok p /\
  exists b, Match asciiIsDigit asciiIsLetter 8 p (runes "abbc") = Done b /\
    (b = true <->
     found asciiIsDigit asciiIsLetter (elements p) (startAnchor p)
       (endAnchor p) (runes "abbc")).
Proof.
  assert (H : ~ In LPAREN (runes_of_string (lit "^ab+c?$"))).
  { vm_compute. intuition discriminate. }
  split; [exact H|]. split; [vm_compute; lia|].
  apply (match_decides_patterns_without_groups asciiIsDigit asciiIsLetter
           (lit "^ab+c?$") (runes "abbc") 8 H).
  vm_compute; lia.
Defined.

Lemma literal_pattern_searches_for_its_text_witness :
  runes_of_string (lit "^abc") = anchored true (runes "abc") false /\
  literal_text (runes "abc") = true /\
  (false = false -> last (runes "abc") 0 <> DOLLAR) /\
  (List.length (runes "abc") < 4)%nat /\
  exists p, ParsePattern (lit "^abc") = Ok p /\
  exists b, Match asciiIsDigit asciiIsLetter 4 p (runes "abcd") = Done b /\
    (b = true <->
     exists pre post, runes "abcd" = pre ++ runes "abc" ++ post /\
       (true = true -> pre = []) /\ (false = true -> post = [])).
Proof.
  assert (H : false = false -> last (runes "abc") 0 <> DOLLAR).
  { intros _. vm_compute. discriminate. }
  split; [reflexivity|]. split; [reflexivity|]. split; [exact H|].
  split; [vm_compute; lia|].
  apply (literal_pattern_searches_for_its_text asciiIsDigit asciiIsLetter
           (lit "^abc") true false (runes "abc") (runes "abcd") 4).
  - reflexivity.
  - reflexivity.
  - discriminate.
  - exact H.
  - vm_compute; lia.
Defined.

Lemma character_set_finds_a_member_witness :
  runes_of_string (lit "[^abc]") = set_text true (runes "abc") /\
  ~ In RBRACKET (runes "abc") /\
  (2 <= 2)%nat /\
  exists p, ParsePattern (lit "[^abc]") = Ok p /\
  exists b, Match asciiIsDigit asciiIsLetter 2 p (runes "cab") = Done b /\
    (b = true <->
     exists r, In r (runes "cab") /\ (In r (runes "abc") <-> true = false)).
Proof.
  assert (H : ~ In RBRACKET (runes "abc")).
  { vm_compute. intuition discriminate. }
  split; [reflexivity|]. split; [exact H|]. split; [lia|].
  apply (character_set_finds_a_member asciiIsDigit asciiIsLetter
           (lit "[^abc]") true (runes "abc") (runes "cab") 2).
  - reflexivity.
  - exact H.
  - discriminate.
  - lia.
Defined.


(* ------------------------------------------------------------------ *)
(** ** The first version of the package *)

Lemma V1_parseElements_total : forall n rs,
  (List.length rs < n)%nat ->
  exists els, forall fuel, (List.length rs < fuel)%nat ->
    V1.parseElements fuel rs = Ok els.
Proof.
  induction n as [|n IH]; intros rs Hlen; [lia|].
  destruct rs as [|r rest].
  - exists []. intros fuel Hf. destruct fuel; [simpl in Hf; lia|reflexivity].
  - simpl in Hlen.
    assert (Step : forall e (rest' : list rune),
              (List.length rest' <= List.length rest)%nat ->
              exists els, forall fuel, (List.length rest' < fuel)%nat ->
                rbind (V1.parseElements fuel rest') (fun els => Ok (e :: els))
                = Ok els).
    { intros e rest' Hl. destruct (IH rest') as (els & Hels); [lia|].
      exists (e :: els). intros fuel Hf. rewrite Hels by assumption.
      reflexivity. }
    destruct (r =? BACKSLASH) eqn:E1.
    { destruct rest as [|c rest'].
      - exists []. intros fuel Hf.
        destruct fuel as [|[|fuel]]; simpl in Hf; try lia.
        cbn [V1.parseElements]. rewrite E1. reflexivity.
      - destruct (Step (if c =? 100 then V1.DigitMatcher
                        else if c =? 119 then V1.AlphanumericMatcher
                        else V1.LiteralMatcher c) rest') as (els & Hels);
          [simpl; lia|].
        exists els. intros fuel Hf.
        destruct fuel as [|fuel]; [simpl in Hf; lia|].
        cbn [V1.parseElements]. rewrite E1. apply Hels. simpl in Hf. lia. }
    destruct (r =? LBRACKET) eqn:E2.
    { set (nr := match rest with
                 | c :: rest' => if c =? CARET then (true, rest') else (false, rest)
                 | [] => (false, rest)
                 end).
      assert (Hnr : (List.length (snd nr) <= List.length rest)%nat).
      { subst nr. destruct rest as [|c rest']; [simpl; lia|].
        destruct (c =? CARET); simpl; lia. }
      pose proof (setChars_app (snd nr)) as Happ.
      apply (f_equal (@List.length rune)) in Happ. rewrite length_app in Happ.
      assert (Htl : (List.length (tl (snd (setChars (snd nr)))) <= List.length rest)%nat).
      { destruct (snd (setChars (snd nr))); simpl in *; lia. }
      destruct (Step (V1.CharacterSetMatcher (fst (setChars (snd nr))) (fst nr))
                  _ Htl) as (els & Hels).
      exists els. intros fuel Hf.
      destruct fuel as [|fuel]; [simpl in Hf; lia|].
      cbn [V1.parseElements]. rewrite E1, E2. fold nr.
      destruct nr as [negated rest1]. cbn [fst snd] in *.
      destruct (setChars rest1) as [chars rest2]. cbn [fst snd] in *.
      apply Hels. simpl in Hf. lia. }
    destruct (Step (V1.LiteralMatcher r) rest) as (els & Hels); [lia|].
    exists els. intros fuel Hf.
    destruct fuel as [|fuel]; [simpl in Hf; lia|].
    cbn [V1.parseElements]. rewrite E1, E2. apply Hels. simpl in Hf. lia.
Qed.

Lemma V1_ParsePattern_eq pattern :
  V1.ParsePattern pattern =
  rbind (V1.parseElements (S (List.length (body_of (runes_of_string pattern))))
           (body_of (runes_of_string pattern))) (fun els =>
  Ok (V1.mkPattern els (fst (stripStart (runes_of_string pattern)))
        (fst (stripEnd (snd (stripStart (runes_of_string pattern))))))).
Proof.
  unfold V1.ParsePattern, body_of.
  destruct (stripStart (runes_of_string pattern)) as [sa runes1]. cbn [fst snd].
  destruct (stripEnd runes1) as [ea runes2]. reflexivity.
Qed.

Section FirstVersion.

Variable IsDigit : rune -> bool.
Variable IsLetter : rune -> bool.

Lemma of_V1_match e r :
  ElementMatch IsDigit IsLetter (of_V1 e) r = V1.ElementMatch IsDigit IsLetter e r.
Proof. destruct e; reflexivity. Qed.

Lemma of_V1_flat els : forallb is_flat (map of_V1 els) = true.
Proof.
  induction els as [|e els IH]; [reflexivity|].
  simpl. rewrite IH. destruct e; reflexivity.
Qed.

Lemma occurrence_of_V1 els : forall mid,
  occurrence IsDigit IsLetter (map of_V1 els) mid <->
  Forall2 (fun e r => V1.ElementMatch IsDigit IsLetter e r = true) els mid.
Proof.
  induction els as [|e els IH]; intros mid; cbn [map occurrence].
  - split; [intros ->; constructor|intros H; inversion H; reflexivity].
  - assert (A : (exists r tail, mid = r :: tail /\
                   ElementMatch IsDigit IsLetter (of_V1 e) r = true /\
                   occurrence IsDigit IsLetter (map of_V1 els) tail) <->
                Forall2 (fun e r => V1.ElementMatch IsDigit IsLetter e r = true)
                  (e :: els) mid).
    { split.
      - intros (r & tail & -> & Hm & Ht). constructor.
        + rewrite <- of_V1_match. assumption.
        + apply IH. assumption.
      - intros H. inversion H as [|? r ? tail Hm Ht]; subst.
        exists r, tail. repeat split.
        + rewrite of_V1_match. assumption.
        + apply IH. assumption. }
    destruct e; exact A.
Qed.

Lemma found_of_V1 els sa ea input :
  found IsDigit IsLetter (map of_V1 els) sa ea input <->
  found_V1 IsDigit IsLetter els sa ea input.
Proof.
  unfold found, found_V1. split;
    intros (pre & mid & post & Hi & Ho & H1 & H2);
    exists pre, mid, post; repeat split; auto; apply occurrence_of_V1; assumption.
Qed.

(** matchHere of the first version is the search of the current version on
    the same elements. *)
Lemma V1_matchHere_loop p els input : forall pos,
  0 <= pos ->
  V1.matchHere_loop IsDigit IsLetter p els input pos =
  Done (is_some (flat_here IsDigit IsLetter (map of_V1 els)
                   (V1.endAnchor p) input pos)).
Proof.
  induction els as [|e els IH]; intros pos Hpos; cbn [V1.matchHere_loop map flat_here].
  - destruct (V1.endAnchor p); simpl; [|reflexivity].
    destruct (pos =? len input); reflexivity.
  - assert (A : (if pos >=? len input then Done false
                 else r <- orPanic (elem_at input pos) ;;
                      if negb (V1.ElementMatch IsDigit IsLetter e r) then Done false
                      else V1.matchHere_loop IsDigit IsLetter p els input (pos + 1))
                = Done (is_some (if accepts IsDigit IsLetter (of_V1 e) input pos
                                 then flat_here IsDigit IsLetter (map of_V1 els)
                                        (V1.endAnchor p) input (pos + 1)
                                 else None))).
    { unfold accepts. destruct (pos >=? len input) eqn:E.
      - rewrite elem_at_None by (apply Z.geb_le in E; lia). reflexivity.
      - assert (Hlt : 0 <= pos < len input).
        { rewrite Z.geb_leb in E. apply Z.leb_gt in E. lia. }
        destruct (elem_at_Some input pos Hlt) as (r & Hr). rewrite Hr.
        cbn [orPanic bind]. rewrite of_V1_match.
        destruct (V1.ElementMatch IsDigit IsLetter e r); cbn [negb];
          [apply IH; lia|reflexivity]. }
    destruct e; exact A.
Qed.

Lemma V1_Match_loop p input : forall k start,
  0 <= start ->
  V1.Match_loop IsDigit IsLetter p input k start =
  Done (any_start (fun pos => is_some (flat_here IsDigit IsLetter
                                         (map of_V1 (V1.elements p))
                                         (V1.endAnchor p) input pos))
          input k start).
Proof.
  induction k as [|k IH]; intros start Hstart; [reflexivity|].
  cbn [V1.Match_loop any_start].
  destruct (start <=? len input); [|reflexivity].
  unfold V1.matchHere. rewrite V1_matchHere_loop by assumption. cbn [bind].
  destruct (is_some _); [reflexivity|]. cbn [orb]. apply IH. lia.
Qed.

Lemma V1_Match_found p input :
  exists b, V1.Match IsDigit IsLetter p input = Done b /\
    (b = true <->
     found_V1 IsDigit IsLetter (V1.elements p) (V1.startAnchor p)
       (V1.endAnchor p) input).
Proof.
  assert (F : forall b : bool,
            (b = true <-> exists pos, 0 <= pos <= len input /\
               (V1.startAnchor p = true -> pos = 0) /\
               is_some (flat_here IsDigit IsLetter (map of_V1 (V1.elements p))
                          (V1.endAnchor p) input pos) = true) ->
            (b = true <->
             found_V1 IsDigit IsLetter (V1.elements p) (V1.startAnchor p)
               (V1.endAnchor p) input)).
  { intros b Hb. rewrite <- found_of_V1, found_at. exact Hb. }
  unfold V1.Match. destruct (V1.startAnchor p).
  - unfold V1.matchHere. rewrite V1_matchHere_loop by lia.
    eexists. split; [reflexivity|]. apply F. split.
    + intros H. exists 0. repeat split; try lia; [unfold len; lia|assumption].
    + intros (pos & _ & Hp & H). rewrite (Hp eq_refl) in H. assumption.
  - rewrite V1_Match_loop by lia. eexists. split; [reflexivity|]. apply F.
    rewrite any_start_true. split.
    + intros (pos & H1 & _ & H3). exists pos. repeat split; try lia; auto.
    + intros (pos & H1 & _ & H3). exists pos. repeat split; try lia; auto.
      unfold len in *. lia.
Qed.

(** X4.  The first version compiles every pattern, and its Match never
    panics: it returns true exactly when the input holds as many runes as
    the pattern has elements, each accepted by its element, between the
    anchors of the pattern. *)
Theorem first_version_matches_one_rune_per_element
    (pattern : gostring) (input : list rune) :
  exists p, V1.ParsePattern pattern = Ok p /\
  exists b, V1.Match IsDigit IsLetter p input = Done b /\
    (b = true <->
     found_V1 IsDigit IsLetter (V1.elements p) (V1.startAnchor p)
       (V1.endAnchor p) input).
Proof.
  rewrite V1_ParsePattern_eq.
  destruct (V1_parseElements_total
              (S (List.length (body_of (runes_of_string pattern))))
              (body_of (runes_of_string pattern))) as (els & Hels); [lia|].
  rewrite Hels by lia. eexists. split; [reflexivity|].
  apply V1_Match_found.
Qed.

End FirstVersion.


(* ------------------------------------------------------------------ *)
(** ** The current version on the patterns of the first *)

Lemma v1_syntax_suffix pre : forall s,
  v1_syntax (pre ++ s) = true -> v1_syntax s = true.
Proof.
  induction pre as [|r pre IH]; intros s H; [assumption|].
  cbn [app v1_syntax] in H. apply andb_true_iff in H. destruct H as [_ H].
  apply IH. assumption.
Qed.

Lemma v1_syntax_prefix s : forall post,
  v1_syntax (s ++ post) = true -> v1_syntax s = true.
Proof.
  induction s as [|r s IH]; intros post H; [reflexivity|].
  cbn [app v1_syntax] in *.
  apply andb_true_iff in H. destruct H as [H H3].
  apply andb_true_iff in H. destruct H as [H1 H2].
  rewrite H1, (IH post H3). rewrite andb_true_r. cbn [andb].
  destruct s as [|c s']; [|exact H2].
  destruct (r =? BACKSLASH); reflexivity.
Qed.

Lemma v1_syntax_body rs : v1_syntax rs = true -> v1_syntax (body_of rs) = true.
Proof.
  intros H. unfold body_of.
  destruct (stripStart_suffix rs) as (pre & Hpre).
  destruct (stripEnd_prefix (snd (stripStart rs))) as (post & Hpost).
  rewrite Hpre in H. apply v1_syntax_suffix in H.
  rewrite Hpost in H. apply v1_syntax_prefix in H. assumption.
Qed.

Lemma v1_syntax_head r rest :
  v1_syntax (r :: rest) = true ->
  (r =? LPAREN) = false /\ (r =? DOT) = false /\
  (r =? PLUS) = false /\ (r =? QUESTION) = false /\ v1_syntax rest = true.
Proof.
  cbn [v1_syntax]. rewrite !andb_true_iff, negb_true_iff, !orb_false_iff.
  tauto.
Qed.

Lemma quantifier_v1 e s : v1_syntax s = true -> quantifier e s = (e, s).
Proof.
  intros H. destruct s as [|r s]; [reflexivity|].
  apply v1_syntax_head in H. destruct H as (_ & _ & H1 & H2 & _).
  unfold quantifier. rewrite H1, H2. reflexivity.
Qed.

Lemma parseElements_of_V1 : forall n rs,
  (List.length rs < n)%nat -> v1_syntax rs = true ->
  exists els,
    (forall fuel, (List.length rs < fuel)%nat ->
       V1.parseElements fuel rs = Ok els) /\
    (forall fuel cnt, (List.length rs < fuel)%nat ->
       parseElements fuel rs cnt = Ok (map of_V1 els, cnt)).
Proof.
  induction n as [|n IH]; intros rs Hlen Hsyn; [lia|].
  destruct rs as [|r rest].
  - exists []. split; intros fuel; intros;
      (destruct fuel; [simpl in *; lia|reflexivity]).
  - simpl in Hlen.
    destruct (v1_syntax_head r rest Hsyn) as (Hp & Hd & _ & _ & Hrest).
    assert (Step : forall (e : V1.PatternElement) rest',
              (exists pre, rest = pre ++ rest') ->
              exists els,
                (forall fuel, (List.length rest' < fuel)%nat ->
                   rbind (V1.parseElements fuel rest') (fun els => Ok (e :: els))
                   = Ok els) /\
                (forall fuel cnt, (List.length rest' < fuel)%nat ->
                   emit (Some (of_V1 e)) (parseElements fuel rest' cnt)
                   = Ok (map of_V1 els, cnt))).
    { intros e rest' (pre & Hpre).
      assert (Hl : (List.length rest' <= List.length rest)%nat)
        by (rewrite Hpre, length_app; lia).
      destruct (IH rest') as (els & H1 & H2); [lia| |].
      { rewrite Hpre in Hrest. apply v1_syntax_suffix in Hrest. assumption. }
      exists (e :: els). split.
      - intros fuel Hf. rewrite H1 by assumption. reflexivity.
      - intros fuel cnt Hf. cbn [emit]. rewrite H2 by assumption. reflexivity. }
    destruct (r =? BACKSLASH) eqn:E1.
    { destruct rest as [|c rest'].
      - exists []. split.
        + intros fuel Hf. destruct fuel as [|[|fuel]]; simpl in Hf; try lia.
          cbn [V1.parseElements]. rewrite E1. reflexivity.
        + intros fuel cnt Hf. destruct fuel as [|[|fuel]]; simpl in Hf; try lia.
          rewrite parseElements_atom by assumption.
          unfold scanAtom. rewrite Hd, E1. reflexivity.
      - assert (Hc : (49 <=? c) && (c <=? 57) = false).
        { cbn [v1_syntax] in Hsyn. rewrite E1 in Hsyn.
          rewrite !andb_true_iff, !negb_true_iff in Hsyn.
          destruct Hsyn as [[_ Hc] _]. exact Hc. }
        assert (Hrest' : v1_syntax rest' = true).
        { apply (v1_syntax_suffix [c]). assumption. }
        destruct (Step (if c =? 100 then V1.DigitMatcher
                        else if c =? 119 then V1.AlphanumericMatcher
                        else V1.LiteralMatcher c) rest') as (els & H1 & H2).
        { exists [c]. reflexivity. }
        exists els. split.
        + intros fuel Hf. destruct fuel as [|fuel]; [simpl in Hf; lia|].
          cbn [V1.parseElements]. rewrite E1. apply H1. simpl in Hf. lia.
        + intros fuel cnt Hf. destruct fuel as [|fuel]; [simpl in Hf; lia|].
          rewrite parseElements_atom by assumption.
          unfold scanAtom. rewrite Hd, E1, Hc.
          rewrite (quantifier_v1 _ rest' Hrest'). cbn [fst snd].
          rewrite <- (H2 fuel cnt) by (simpl in Hf; lia).
          destruct (c =? 100); [reflexivity|].
          destruct (c =? 119); reflexivity. }
    destruct (r =? LBRACKET) eqn:E2.
    { set (nr := match rest with
                 | c :: rest' => if c =? CARET then (true, rest') else (false, rest)
                 | [] => (false, rest)
                 end).
      assert (Hnr : exists pre, rest = pre ++ snd nr).
      { subst nr. destruct rest as [|c rest']; [exists []; reflexivity|].
        destruct (c =? CARET); [exists [c]|exists []]; reflexivity. }
      destruct Hnr as (pre1 & Hpre1).
      pose proof (setChars_app (snd nr)) as Happ.
      destruct (tl_suffix (snd (setChars (snd nr)))) as (pre3 & Hpre3).
      assert (Hsuf : exists pre, rest = pre ++ tl (snd (setChars (snd nr)))).
      { exists (pre1 ++ fst (setChars (snd nr)) ++ pre3).
        rewrite <- !app_assoc, <- Hpre3, <- Happ. assumption. }
      assert (Htl : v1_syntax (tl (snd (setChars (snd nr)))) = true).
      { destruct Hsuf as (pre & Hpre). rewrite Hpre in Hrest.
        apply v1_syntax_suffix in Hrest. assumption. }
      destruct (Step (V1.CharacterSetMatcher (fst (setChars (snd nr))) (fst nr))
                  _ Hsuf) as (els & H1 & H2).
      assert (Hl : (List.length (tl (snd (setChars (snd nr)))) <= List.length rest)%nat).
      { destruct Hsuf as (pre & Hpre).
        apply (f_equal (@List.length rune)) in Hpre.
        rewrite length_app in Hpre. lia. }
      exists els. split.
      + intros fuel Hf. destruct fuel as [|fuel]; [simpl in Hf; lia|].
        cbn [V1.parseElements]. rewrite E1, E2. fold nr.
        destruct nr as [negated rest1]. cbn [fst snd] in *.
        destruct (setChars rest1) as [chars rest2]. cbn [fst snd] in *.
        apply H1. simpl in Hf. lia.
      + intros fuel cnt Hf. destruct fuel as [|fuel]; [simpl in Hf; lia|].
        rewrite parseElements_atom by assumption.
        unfold scanAtom. rewrite Hd, E1, E2. fold nr.
        destruct nr as [negated rest1]. cbn [fst snd] in *.
        destruct (setChars rest1) as [chars rest2]. cbn [fst snd] in *.
        rewrite (quantifier_v1 _ _ Htl). cbn [fst snd].
        apply H2. simpl in Hf. lia. }
    destruct (Step (V1.LiteralMatcher r) rest) as (els & H1 & H2);
      [exists []; reflexivity|].
    exists els. split.
    + intros fuel Hf. destruct fuel as [|fuel]; [simpl in Hf; lia|].
      cbn [V1.parseElements]. rewrite E1, E2. apply H1. simpl in Hf. lia.
    + intros fuel cnt Hf. destruct fuel as [|fuel]; [simpl in Hf; lia|].
      rewrite parseElements_atom by assumption.
      unfold scanAtom. rewrite Hd, E1, E2.
      rewrite (quantifier_v1 _ rest Hrest). cbn [fst snd].
      apply H2. simpl in Hf. lia.
Qed.

Section Compatibility.

Variable IsDigit : rune -> bool.
Variable IsLetter : rune -> bool.

(** X5.  On a pattern text in the syntax of the first version, the current
    ParsePattern returns the elements and anchors the first version
    returned, and the current Match returns what the first Match returned. *)
Theorem current_version_agrees_with_the_first
    (pattern : gostring) (input : list rune) (fuel : nat) :
  v1_syntax (runes_of_string pattern) = true ->
  (List.length (runes_of_string pattern) < fuel)%nat ->
  exists p1 p,
    V1.ParsePattern pattern = Ok p1 /\ ParsePattern pattern = Ok p /\
    elements p = map of_V1 (V1.elements p1) /\
    startAnchor p = V1.startAnchor p1 /\ endAnchor p = V1.endAnchor p1 /\
    Match IsDigit IsLetter fuel p input = V1.Match IsDigit IsLetter p1 input.
Proof.
  intros Hsyn Hfuel.
  pose proof (body_of_length (runes_of_string pattern)) as Hb.
  destruct (parseElements_of_V1
              (S (List.length (body_of (runes_of_string pattern))))
              (body_of (runes_of_string pattern)))
    as (els & H1 & H2); [lia|apply v1_syntax_body; assumption|].
  rewrite V1_ParsePattern_eq, H1 by lia.
  unfold ParsePattern, ParseRunes, parsePatternInternal.
  rewrite parsePatternInternal_with_eq, H2 by lia.
  cbn [rbind set_groupCount elements startAnchor endAnchor].
  do 2 eexists. split; [reflexivity|]. split; [reflexivity|].
  cbn [elements startAnchor endAnchor V1.elements V1.startAnchor V1.endAnchor].
  repeat split.
  set (sa := fst (stripStart (runes_of_string pattern))).
  set (ea := fst (stripEnd (snd (stripStart (runes_of_string pattern))))).
  destruct (Match_flat_found IsDigit IsLetter (map of_V1 els) sa ea 0 fuel input
              (of_V1_flat els)) as (b & Hb1 & Hb2).
  { rewrite length_map.
    destruct (V1_parseElements_total (S (List.length (body_of (runes_of_string pattern))))
                (body_of (runes_of_string pattern))) as (els' & _); [lia|].
    assert (Hl : (List.length els <= List.length (body_of (runes_of_string pattern)))%nat).
    { specialize (H2 (S (List.length (body_of (runes_of_string pattern)))) 0
                    ltac:(lia)).
      destruct (parseElements_flat
                  (S (List.length (body_of (runes_of_string pattern))))
                  (body_of (runes_of_string pattern))) as (e2 & _ & Hl2 & He2);
        [lia| |].
      - intros Hin. apply (v1_syntax_body _) in Hsyn.
        apply in_split in Hin. destruct Hin as (l1 & l2 & Hin).
        rewrite Hin in Hsyn. apply v1_syntax_suffix in Hsyn.
        apply v1_syntax_head in Hsyn. destruct Hsyn as (Hp & _). discriminate.
      - rewrite He2 in H2 by lia. inversion H2 as [E].
        rewrite <- (length_map of_V1 els), <- E. assumption. }
    lia. }
  { lia. }
  destruct (V1_Match_found IsDigit IsLetter (V1.mkPattern els sa ea) input)
    as (b' & Hb1' & Hb2').
  cbn [V1.elements V1.startAnchor V1.endAnchor] in Hb2'.
  rewrite <- found_of_V1 in Hb2'.
  change (set_groupCount (mkPattern (map of_V1 els) sa ea 0) 0)
    with (mkPattern (map of_V1 els) sa ea 0).
  rewrite Hb1, Hb1'. f_equal.
  destruct b, b'; try reflexivity.
  - symmetry. apply Hb2', Hb2. reflexivity.
  - apply Hb2, Hb2'. reflexivity.
Qed.

End Compatibility.

Lemma current_version_agrees_with_the_first_witness :
  v1_syntax (runes_of_string (lit "^[^abc]\d x$")) = true /\
  (List.length (runes_of_string (lit "^[^abc]\d x$")) < 13)%nat /\
  exists p1 p,
    V1.ParsePattern (lit "^[^abc]\d x$") = Ok p1 /\
    ParsePattern (lit "^[^abc]\d x$") = Ok p /\
    elements p = map of_V1 (V1.elements p1) /\
    startAnchor p = V1.startAnchor p1 /\ endAnchor p = V1.endAnchor p1 /\
    Match asciiIsDigit asciiIsLetter 13 p (runes "z7 x")
    = V1.Match asciiIsDigit asciiIsLetter p1 (runes "z7 x").
Proof.
  split; [vm_compute; reflexivity|]. split; [vm_compute; lia|].
  apply (current_version_agrees_with_the_first asciiIsDigit asciiIsLetter
           (lit "^[^abc]\d x$") (runes "z7 x") 13).
  - vm_compute; reflexivity.
  - vm_compute; lia.
Defined.


(* ------------------------------------------------------------------ *)
(** ** ParseGroups *)

Lemma ParseGroups_loop_acc rs : forall positive negative add neg,
  ParseGroups_loop rs positive negative add neg =
  (positive ++ fst (ParseGroups_loop rs [] [] add neg),
   negative ++ snd (ParseGroups_loop rs [] [] add neg)).
Proof.
  induction rs as [|r rs IH]; intros positive negative add neg;
    cbn [ParseGroups_loop].
  - cbn [fst snd]. rewrite !app_nil_r. reflexivity.
  - destruct (r =? LBRACKET); [apply IH|].
    destruct (r =? RBRACKET); [apply IH|].
    destruct (r =? CARET); [apply IH|].
    destruct add; [|apply IH]. destruct neg.
    + rewrite (IH positive (negative ++ [r])), (IH [] ([] ++ [r])).
      cbn [fst snd app]. rewrite <- app_assoc. reflexivity.
    + rewrite (IH (positive ++ [r]) negative), (IH ([] ++ [r]) []).
      cbn [fst snd app]. rewrite <- app_assoc. reflexivity.
Qed.

Lemma ParseGroups_loop_closing a : forall b positive negative add neg,
  ParseGroups_loop (a ++ RBRACKET :: b) positive negative add neg =
  ParseGroups_loop b (fst (ParseGroups_loop a positive negative add neg))
    (snd (ParseGroups_loop a positive negative add neg)) false false.
Proof.
  induction a as [|r a IH]; intros b positive negative add neg.
  - reflexivity.
  - cbn [app ParseGroups_loop].
    destruct (r =? LBRACKET); [apply IH|].
    destruct (r =? RBRACKET); [apply IH|].
    destruct (r =? CARET); [apply IH|].
    destruct add; [|apply IH]. destruct neg; apply IH.
Qed.

(** Before the first bracket nothing is recorded; a caret is remembered. *)
Lemma ParseGroups_loop_outside pre : forall rest positive negative neg,
  ~ In LBRACKET pre -> ~ In RBRACKET pre ->
  ParseGroups_loop (pre ++ rest) positive negative false neg =
  ParseGroups_loop rest positive negative false
    (neg || existsb (Z.eqb CARET) pre).
Proof.
  induction pre as [|r pre IH]; intros rest positive negative neg H1 H2.
  - cbn [app existsb]. rewrite orb_false_r. reflexivity.
  - assert (E1 : (r =? LBRACKET) = false).
    { apply Z.eqb_neq. intros ->. apply H1. left; reflexivity. }
    assert (E2 : (r =? RBRACKET) = false).
    { apply Z.eqb_neq. intros ->. apply H2. left; reflexivity. }
    assert (H1' : ~ In LBRACKET pre) by (intros H; apply H1; right; assumption).
    assert (H2' : ~ In RBRACKET pre) by (intros H; apply H2; right; assumption).
    cbn [app ParseGroups_loop existsb]. rewrite E1, E2.
    rewrite (Z.eqb_sym CARET r).
    destruct (r =? CARET); cbn [orb].
    + rewrite IH by assumption. rewrite orb_true_r. reflexivity.
    + apply IH; assumption.
Qed.

(** Between the brackets every rune is recorded, on the side the caret
    chose. *)
Lemma ParseGroups_loop_members s : forall rest positive negative neg,
  forallb (fun r => negb (is_bracket_or_caret r)) s = true ->
  ParseGroups_loop (s ++ rest) positive negative true neg =
  ParseGroups_loop rest (if neg then positive else positive ++ s)
    (if neg then negative ++ s else negative) true neg.
Proof.
  induction s as [|r s IH]; intros rest positive negative neg Hs.
  - cbn [app]. rewrite !app_nil_r. destruct neg; reflexivity.
  - cbn [forallb] in Hs. apply andb_true_iff in Hs. destruct Hs as [Hr Hs].
    apply negb_true_iff in Hr. unfold is_bracket_or_caret in Hr.
    apply orb_false_iff in Hr. destruct Hr as [Hr E3].
    apply orb_false_iff in Hr. destruct Hr as [E1 E2].
    cbn [app ParseGroups_loop]. rewrite E1, E2, E3.
    destruct neg; rewrite IH by assumption; rewrite <- app_assoc; reflexivity.
Qed.

Lemma ParseGroups_loop_set negated s positive negative neg :
  forallb (fun r => negb (is_bracket_or_caret r)) s = true ->
  ParseGroups_loop (set_text negated s) positive negative false neg =
  if neg || negated then (positive, negative ++ s)
  else (positive ++ s, negative).
Proof.
  intros Hs. unfold set_text. cbn [app ParseGroups_loop].
  change (LBRACKET =? LBRACKET) with true. cbv iota.
  destruct negated; cbn [app ParseGroups_loop].
  - change (CARET =? LBRACKET) with false.
    change (CARET =? RBRACKET) with false.
    change (CARET =? CARET) with true. cbv iota.
    rewrite ParseGroups_loop_members by assumption.
    rewrite orb_true_r. reflexivity.
  - rewrite ParseGroups_loop_members by assumption.
    rewrite orb_false_r. destruct neg; reflexivity.
Qed.

Lemma clean_members s :
  forallb (fun r => negb (is_bracket_or_caret r)) s = true ->
  ~ In RBRACKET s /\ hd_error s <> Some CARET.
Proof.
  intros Hs. rewrite forallb_forall in Hs. split.
  - intros H. apply Hs in H. discriminate.
  - destruct s as [|c s]; [discriminate|].
    intros E. inversion E; subst.
    specialize (Hs CARET (or_introl eq_refl)). discriminate.
Qed.

(** X6.  ParseGroups starts afresh after a closing bracket: the sets of a
    text are those of the part before the bracket followed by those of the
    part after it. *)
Theorem ParseGroups_starts_afresh_after_a_closing_bracket (a b : gostring) :
  ParseGroups (a ++ lit "]" ++ b) =
  (fst (ParseGroups a) ++ fst (ParseGroups b),
   snd (ParseGroups a) ++ snd (ParseGroups b)).
Proof.
  unfold ParseGroups.
  change (a ++ lit "]" ++ b) with (a ++ RBRACKET :: b).
  rewrite runes_of_string_app_ascii by lia.
  rewrite ParseGroups_loop_closing, ParseGroups_loop_acc. reflexivity.
Qed.

(** X7.  ParseGroups on a text that ends in one character set with members
    that are no brackets and no carets: the members are returned as negative
    if a caret stands anywhere before them, inside the brackets or before
    the opening one, and as positive otherwise. *)
Theorem ParseGroups_negates_after_any_caret
    (pattern : gostring) (pre s : list rune) (negated : bool) :
  runes_of_string pattern = pre ++ set_text negated s ->
  ~ In LBRACKET pre -> ~ In RBRACKET pre ->
  forallb (fun r => negb (is_bracket_or_caret r)) s = true ->
  ParseGroups pattern =
  if negated || existsb (Z.eqb CARET) pre then ([], s) else (s, []).
Proof.
  intros Htext H1 H2 Hs. unfold ParseGroups. rewrite Htext.
  rewrite ParseGroups_loop_outside by assumption.
  rewrite ParseGroups_loop_set by assumption. cbn [orb app].
  rewrite orb_comm. reflexivity.
Qed.

Lemma ParseGroups_negates_after_any_caret_witness :
  runes_of_string (lit "^x[ab]") = runes "^x" ++ set_text false (runes "ab") /\
  ~ In LBRACKET (runes "^x") /\ ~ In RBRACKET (runes "^x") /\
  forallb (fun r => negb (is_bracket_or_caret r)) (runes "ab") = true /\
  ParseGroups (lit "^x[ab]") =
  if false || existsb (Z.eqb CARET) (runes "^x")
  then ([], runes "ab") else (runes "ab", []).
Proof.
  assert (H1 : ~ In LBRACKET (runes "^x")) by (vm_compute; intuition discriminate).
  assert (H2 : ~ In RBRACKET (runes "^x")) by (vm_compute; intuition discriminate).
  split; [reflexivity|]. split; [exact H1|]. split; [exact H2|].
  split; [reflexivity|].
  apply (ParseGroups_negates_after_any_caret (lit "^x[ab]") (runes "^x")
           (runes "ab") false);
    [reflexivity|exact H1|exact H2|reflexivity].
Defined.

Lemma parseElements_set negated s fuel cnt :
  ~ In RBRACKET s ->
  (negated = false -> hd_error s <> Some CARET) ->
  parseElements (S (S fuel)) (set_text negated s) cnt =
  Ok ([CharacterSetMatcher s negated], cnt).
Proof.
  intros Hin Hneg. unfold set_text. cbn [app].
  rewrite parseElements_atom by reflexivity.
  assert (Sc : scanAtom LBRACKET ((if negated then [CARET] else []) ++ s ++ [RBRACKET])
               = (Some (CharacterSetMatcher s negated), [])).
  { unfold scanAtom. change (LBRACKET =? DOT) with false.
    change (LBRACKET =? BACKSLASH) with false.
    change (LBRACKET =? LBRACKET) with true. cbv iota.
    destruct negated; cbn [app].
    - change (CARET =? CARET) with true. cbv iota.
      rewrite (setChars_members s [] Hin). reflexivity.
    - assert (M : match s ++ [RBRACKET] with
                  | [] => (false, s ++ [RBRACKET])
                  | c :: rest' =>
                    if c =? CARET then (true, rest') else (false, s ++ [RBRACKET])
                  end = (false, s ++ [RBRACKET])).
      { destruct s as [|c s']; [reflexivity|]. cbn [app].
        destruct (c =? CARET) eqn:E; [|reflexivity].
        apply Z.eqb_eq in E. subst. exfalso.
        apply (Hneg eq_refl). reflexivity. }
      rewrite M, (setChars_members s [] Hin). reflexivity. }
  rewrite Sc. reflexivity.
Qed.

Lemma ParseRunes_anchored_set sa ea negated s :
  ~ In RBRACKET s ->
  (negated = false -> hd_error s <> Some CARET) ->
  ParseRunes (anchored sa (set_text negated s) ea) =
  Ok (mkPattern [CharacterSetMatcher s negated] sa ea 0).
Proof.
  intros Hin Hneg.
  destruct (strip_anchored sa (set_text negated s) ea) as [S1 S2].
  { intros _. discriminate. }
  { intros _. unfold set_text. rewrite !app_assoc, last_last. discriminate. }
  unfold ParseRunes, parsePatternInternal.
  rewrite parsePatternInternal_with_eq. unfold body_of.
  rewrite S1. cbn [fst snd]. rewrite S2. cbn [fst snd].
  assert (Hlen : exists n, List.length (anchored sa (set_text negated s) ea) = S n).
  { unfold anchored, set_text. rewrite !length_app. cbn [List.length].
    eexists. rewrite Nat.add_comm. cbn [Nat.add].
    rewrite <- plus_n_Sm. reflexivity. }
  destruct Hlen as (n & Hlen). rewrite Hlen.
  rewrite parseElements_set by assumption. reflexivity.
Qed.

(** X8.  On the text of one character set whose members are no brackets and
    no carets, ParseGroups returns the members the compiler puts in the
    CharacterSetMatcher, as negative exactly when the compiler sets
    [negated]. On the same text after the start anchor the two part: the
    compiler keeps the set positive, ParseGroups returns its members as
    negative. *)
Theorem ParseGroups_and_the_compiler_on_one_set
    (pattern anchoredPattern : gostring) (negated : bool) (s : list rune) :
  runes_of_string pattern = set_text negated s ->
  runes_of_string anchoredPattern = CARET :: set_text false s ->
  forallb (fun r => negb (is_bracket_or_caret r)) s = true ->
  (ParsePattern pattern =
     Ok (mkPattern [CharacterSetMatcher s negated] false false 0) /\
   ParseGroups pattern = if negated then ([], s) else (s, [])) /\
  (ParsePattern anchoredPattern =
     Ok (mkPattern [CharacterSetMatcher s false] true false 0) /\
   ParseGroups anchoredPattern = ([], s)).
Proof.
  intros Htext Hanch Hs. destruct (clean_members s Hs) as [Hin Hhd].
  split; split.
  - unfold ParsePattern. rewrite Htext.
    exact (ParseRunes_set negated s Hin (fun _ => Hhd)).
  - unfold ParseGroups. rewrite Htext.
    rewrite ParseGroups_loop_set by assumption. reflexivity.
  - unfold ParsePattern. rewrite Hanch.
    pose proof (ParseRunes_anchored_set true false false s Hin (fun _ => Hhd)) as P.
    unfold anchored in P. rewrite app_nil_r in P. exact P.
  - unfold ParseGroups. rewrite Hanch.
    change (CARET :: set_text false s) with ([CARET] ++ set_text false s).
    rewrite ParseGroups_loop_outside by (intros [H|[]]; discriminate).
    rewrite ParseGroups_loop_set by assumption. reflexivity.
Qed.

Lemma ParseGroups_and_the_compiler_on_one_set_witness :
  runes_of_string (lit "[^abc]") = set_text true (runes "abc") /\
  runes_of_string (lit "^[abc]") = CARET :: set_text false (runes "abc") /\
  forallb (fun r => negb (is_bracket_or_caret r)) (runes "abc") = true /\
  (ParsePattern (lit "[^abc]") =
     Ok (mkPattern [CharacterSetMatcher (runes "abc") true] false false 0) /\
   ParseGroups (lit "[^abc]") = if true then ([], runes "abc") else (runes "abc", [])) /\
  (ParsePattern (lit "^[abc]") =
     Ok (mkPattern [CharacterSetMatcher (runes "abc") false] true false 0) /\
   ParseGroups (lit "^[abc]") = ([], runes "abc")).
Proof.
  split; [reflexivity|]. split; [reflexivity|]. split; [reflexivity|].
  apply (ParseGroups_and_the_compiler_on_one_set (lit "[^abc]") (lit "^[abc]")
           true (runes "abc")); reflexivity.
Defined.

Lemma ParseGroups_loop_In rs : forall positive negative add neg r,
  In r (fst (ParseGroups_loop rs positive negative add neg)) \/
  In r (snd (ParseGroups_loop rs positive negative add neg)) ->
  In r positive \/ In r negative \/
  (In r rs /\ is_bracket_or_caret r = false /\ (add = true \/ In LBRACKET rs)).
Proof.
  induction rs as [|x rs IH]; intros positive negative add neg r H.
  - cbn [ParseGroups_loop fst snd] in H. tauto.
  - cbn [ParseGroups_loop] in H.
    destruct (x =? LBRACKET) eqn:E1.
    { apply IH in H. apply Z.eqb_eq in E1. subst x.
      destruct H as [H|[H|(H1 & H2 & H3)]]; auto.
      right; right. repeat split; auto; [right; assumption|].
      right. left. reflexivity. }
    destruct (x =? RBRACKET) eqn:E2.
    { apply IH in H.
      destruct H as [H|[H|(H1 & H2 & H3)]]; auto.
      right; right. repeat split; auto; [right; assumption|].
      destruct H3 as [H3|H3]; [discriminate|]. right. right. assumption. }
    destruct (x =? CARET) eqn:E3.
    { apply IH in H.
      destruct H as [H|[H|(H1 & H2 & H3)]]; auto.
      right; right. repeat split; auto; [right; assumption|].
      destruct H3 as [H3|H3]; [left; assumption|right; right; assumption]. }
    assert (Hx : is_bracket_or_caret x = false).
    { unfold is_bracket_or_caret. rewrite E1, E2, E3. reflexivity. }
    assert (Keep : In r positive \/ In r negative \/
                   In r rs /\ is_bracket_or_caret r = false /\
                   (add = true \/ In LBRACKET rs) ->
                   In r positive \/ In r negative \/
                   In r (x :: rs) /\ is_bracket_or_caret r = false /\
                   (add = true \/ In LBRACKET (x :: rs))).
    { intros [K|[K|(K1 & K2 & K3)]]; auto.
      right; right. repeat split; auto; [right; assumption|].
      destruct K3; [left; assumption|right; right; assumption]. }
    assert (New : In r [x] ->
                  In r (x :: rs) /\ is_bracket_or_caret r = false /\
                  (true = true \/ In LBRACKET (x :: rs))).
    { intros [K|[]]. subst r. repeat split; auto. left; reflexivity. }
    destruct add.
    + destruct neg; apply IH in H.
      * destruct H as [H|[H|H]].
        -- left; assumption.
        -- apply in_app_or in H. destruct H as [H|H].
           ++ right; left; assumption.
           ++ right; right. apply New. assumption.
        -- apply Keep. right; right; assumption.
      * destruct H as [H|[H|H]].
        -- apply in_app_or in H. destruct H as [H|H].
           ++ left; assumption.
           ++ right; right. apply New. assumption.
        -- right; left; assumption.
        -- apply Keep. right; right; assumption.
    + apply IH in H. apply Keep. assumption.
Qed.

(** X9.  ParseGroups returns runes of the pattern only, none of them a
    bracket or a caret, and none at all when the pattern has no opening
    bracket. *)
Theorem ParseGroups_returns_members_only (pattern : gostring) (r : rune) :
  In r (fst (ParseGroups pattern)) \/ In r (snd (ParseGroups pattern)) ->
  In r (runes_of_string pattern) /\ is_bracket_or_caret r = false /\
  In LBRACKET (runes_of_string pattern).
Proof.
  unfold ParseGroups. intros H. apply ParseGroups_loop_In in H.
  destruct H as [[]|[[]|(H1 & H2 & [H3|H3])]]; [discriminate|auto].
Qed.

Lemma ParseGroups_returns_members_only_witness :
  (In 98 (fst (ParseGroups (lit "x[ab]"))) \/
   In 98 (snd (ParseGroups (lit "x[ab]")))) /\
  In 98 (runes_of_string (lit "x[ab]")) /\ is_bracket_or_caret 98 = false /\
  In LBRACKET (runes_of_string (lit "x[ab]")).
Proof.
  assert (H : In 98 (fst (ParseGroups (lit "x[ab]"))) \/
              In 98 (snd (ParseGroups (lit "x[ab]")))).
  { left. vm_compute. right. left. reflexivity. }
  split; [exact H|].
  apply (ParseGroups_returns_members_only (lit "x[ab]") 98 H).
Defined.


(* ------------------------------------------------------------------ *)
(** ** ContainsDigit and ContainsAlphanumeric *)

Lemma scalarb_spec r : scalarb r = true <-> scalar r.
Proof.
  unfold scalarb, scalar.
  rewrite orb_true_iff, !andb_true_iff, !Z.leb_le. tauto.
Qed.

Lemma encodeRune_invalid r :
  scalarb r = false -> encodeRune r = encodeRune RuneError.
Proof.
  intros H. change (encodeRune RuneError) with [239; 191; 189].
  unfold scalarb in H. apply orb_false_iff in H. destruct H as [H1 H2].
  unfold encodeRune.
  destruct (r <? 0) eqn:E0; [reflexivity|]. apply Z.ltb_ge in E0.
  apply andb_false_iff in H1. apply andb_false_iff in H2.
  assert (Hr : 55296 <= r /\ (r <= 57343 \/ 1114111 < r)).
  { destruct H1 as [H1|H1]; [apply Z.leb_gt in H1; lia|]. apply Z.leb_gt in H1.
    destruct H2 as [H2|H2]; apply Z.leb_gt in H2; lia. }
  destruct (r <=? 127) eqn:E1; [apply Z.leb_le in E1; lia|].
  destruct (r <=? 2047) eqn:E2; [apply Z.leb_le in E2; lia|].
  assert (E3 : (r >? 1114111) || (55296 <=? r) && (r <=? 57343) = true).
  { destruct Hr as [Ha [Hb|Hb]].
    - apply orb_true_iff. right. apply andb_true_iff.
      split; apply Z.leb_le; lia.
    - apply orb_true_iff. left. rewrite Z.gtb_ltb. apply Z.ltb_lt. lia. }
  rewrite E3. reflexivity.
Qed.

(** [[]rune(string(rs))] for any runes: the invalid ones come back as
    U+FFFD. *)
Lemma runes_of_string_of_any_runes rs :
  runes_of_string (string_of_runes rs) = map valid_rune rs.
Proof.
  unfold runes_of_string, string_of_runes.
  induction rs as [|r rs IH]; [reflexivity|].
  cbn [flat_map map]. unfold valid_rune at 1.
  destruct (scalarb r) eqn:E.
  - apply scalarb_spec in E. rewrite (runes_from_encodeRune r _ E).
    f_equal. exact IH.
  - rewrite (encodeRune_invalid r E).
    rewrite (runes_from_encodeRune RuneError _ RuneError_scalar).
    f_equal. exact IH.
Qed.

Lemma map_valid_scalar rs : Forall scalar rs -> map valid_rune rs = rs.
Proof.
  induction 1 as [|r rs Hr _ IH]; [reflexivity|].
  cbn [map]. unfold valid_rune at 1.
  apply scalarb_spec in Hr. rewrite Hr, IH. reflexivity.
Qed.

Section Classes.

Variable IsDigit : rune -> bool.
Variable IsLetter : rune -> bool.

Lemma ContainsDigit_loop_existsb rs :
  ContainsDigit_loop IsDigit rs = existsb IsDigit rs.
Proof.
  induction rs as [|r rs IH]; [reflexivity|].
  cbn [ContainsDigit_loop existsb]. rewrite IH.
  destruct (IsDigit r); reflexivity.
Qed.

Lemma ContainsAlphanumeric_loop_existsb rs :
  ContainsAlphanumeric_loop IsDigit IsLetter rs =
  existsb (ElementMatch IsDigit IsLetter AlphanumericMatcher) rs.
Proof.
  induction rs as [|r rs IH]; [reflexivity|].
  cbn [ContainsAlphanumeric_loop existsb ElementMatch]. rewrite IH.
  destruct (IsLetter r || IsDigit r || (r =? 95)); reflexivity.
Qed.

(** Match on a pattern of one single-rune element: some rune of the input
    is accepted. *)
Lemma Match_one_atom m fuel input :
  is_atom m = true -> (1 < fuel)%nat ->
  Match IsDigit IsLetter fuel (mkPattern [m] false false 0) input =
  Done (existsb (ElementMatch IsDigit IsLetter m) input).
Proof.
  intros Hm Hfuel.
  destruct (Match_flat_found IsDigit IsLetter [m] false false 0 fuel input)
    as (b & Hb & Hiff); [|simpl; lia|lia|].
  { cbn [forallb]. rewrite andb_true_r. destruct m; try discriminate; reflexivity. }
  rewrite Hb. f_equal.
  assert (Occ : found IsDigit IsLetter [m] false false input <->
                exists r, In r input /\ ElementMatch IsDigit IsLetter m r = true).
  { unfold found. split.
    - intros (pre & mid & post & Hi & Ho & _).
      assert (A : exists r tail, mid = r :: tail /\
                  ElementMatch IsDigit IsLetter m r = true /\ tail = []).
      { destruct m; try discriminate; exact Ho. }
      destruct A as (r & tail & -> & Hr & ->). exists r. split; [|assumption].
      subst input. apply in_or_app. right. left. reflexivity.
    - intros (r & Hr & Hmr). apply in_split in Hr.
      destruct Hr as (pre & post & ->).
      exists pre, [r], post. repeat split; try discriminate.
      assert (A : exists r0 tail, [r] = r0 :: tail /\
                  ElementMatch IsDigit IsLetter m r0 = true /\ tail = [])
        by (exists r, []; auto).
      destruct m; try discriminate; exact A. }
  destruct (existsb (ElementMatch IsDigit IsLetter m) input) eqn:E.
  - apply Hiff, Occ. apply existsb_exists in E. exact E.
  - destruct b; [|reflexivity].
    destruct Hiff as [Hiff _]. specialize (Hiff eq_refl).
    apply Occ, existsb_exists in Hiff. congruence.
Qed.

(** X10.  ContainsDigit(input) is what the pattern [\d] finds in the input
    once the conversion to a string has replaced its invalid runes by
    U+FFFD; on an input of valid runes the two agree. *)
Theorem ContainsDigit_is_the_digit_class_pattern
    (input : list rune) (fuel : nat) :
  (1 < fuel)%nat ->
  exists p, ParsePattern DigitClass = Ok p /\
    Match IsDigit IsLetter fuel p (map valid_rune input)
    = Done (ContainsDigit IsDigit input) /\
    (Forall scalar input ->
     Match IsDigit IsLetter fuel p input = Done (ContainsDigit IsDigit input)).
Proof.
  intros Hfuel. exists (mkPattern [DigitMatcher] false false 0).
  split; [reflexivity|].
  assert (M : Match IsDigit IsLetter fuel (mkPattern [DigitMatcher] false false 0)
                (map valid_rune input) = Done (ContainsDigit IsDigit input)).
  { rewrite (Match_one_atom DigitMatcher fuel _ eq_refl Hfuel).
    unfold ContainsDigit.
    rewrite runes_of_string_of_any_runes, ContainsDigit_loop_existsb.
    reflexivity. }
  split; [exact M|].
  intros Hs. rewrite (map_valid_scalar input Hs) in M. exact M.
Qed.

(** X11.  ContainsAlphanumeric(input) is what the pattern [\w] finds in the
    input once the conversion to a string has replaced its invalid runes by
    U+FFFD; on an input of valid runes the two agree. *)
Theorem ContainsAlphanumeric_is_the_word_class_pattern
    (input : list rune) (fuel : nat) :
  (1 < fuel)%nat ->
  exists p, ParsePattern AlphanumericClass = Ok p /\
    Match IsDigit IsLetter fuel p (map valid_rune input)
    = Done (ContainsAlphanumeric IsDigit IsLetter input) /\
    (Forall scalar input ->
     Match IsDigit IsLetter fuel p input
     = Done (ContainsAlphanumeric IsDigit IsLetter input)).
Proof.
  intros Hfuel. exists (mkPattern [AlphanumericMatcher] false false 0).
  split; [reflexivity|].
  assert (M : Match IsDigit IsLetter fuel
                (mkPattern [AlphanumericMatcher] false false 0)
                (map valid_rune input)
              = Done (ContainsAlphanumeric IsDigit IsLetter input)).
  { rewrite (Match_one_atom AlphanumericMatcher fuel _ eq_refl Hfuel).
    unfold ContainsAlphanumeric.
    rewrite runes_of_string_of_any_runes, ContainsAlphanumeric_loop_existsb.
    reflexivity. }
  split; [exact M|].
  intros Hs. rewrite (map_valid_scalar input Hs) in M. exact M.
Qed.

End Classes.

Lemma ContainsDigit_is_the_digit_class_pattern_witness :
  (1 < 2)%nat /\
  exists p, ParsePattern DigitClass = Ok p /\
    Match asciiIsDigit asciiIsLetter 2 p (map valid_rune [120; 55296; 55])
    = Done (ContainsDigit asciiIsDigit [120; 55296; 55]) /\
    (Forall scalar [120; 55296; 55] ->
     Match asciiIsDigit asciiIsLetter 2 p [120; 55296; 55]
     = Done (ContainsDigit asciiIsDigit [120; 55296; 55])).
Proof.
  split; [lia|].
  apply (ContainsDigit_is_the_digit_class_pattern asciiIsDigit asciiIsLetter
           [120; 55296; 55] 2).
  lia.
Defined.

Lemma ContainsAlphanumeric_is_the_word_class_pattern_witness :
  (1 < 2)%nat /\
  exists p, ParsePattern AlphanumericClass = Ok p /\
    Match asciiIsDigit asciiIsLetter 2 p (map valid_rune [45; 95])
    = Done (ContainsAlphanumeric asciiIsDigit asciiIsLetter [45; 95]) /\
    (Forall scalar [45; 95] ->
     Match asciiIsDigit asciiIsLetter 2 p [45; 95]
     = Done (ContainsAlphanumeric asciiIsDigit asciiIsLetter [45; 95])).
Proof.
  split; [lia|].
  apply (ContainsAlphanumeric_is_the_word_class_pattern asciiIsDigit
           asciiIsLetter [45; 95] 2).
  lia.
Defined.


(* ------------------------------------------------------------------ *)
(** ** The numbering of groups *)

Lemma groups_of_eq els sa ea gc :
  groups_of (mkPattern els sa ea gc) = flat_map groups_of_element els.
Proof.
  cbn [groups_of]. induction els as [|e els IH]; [reflexivity|].
  cbn [flat_map]. rewrite IH. reflexivity.
Qed.

Lemma groups_of_alternation alts :
  groups_of_element (AlternationMatcher alts) = flat_map groups_of alts.
Proof.
  cbn [groups_of_element]. induction alts as [|p alts IH]; [reflexivity|].
  cbn [flat_map]. rewrite IH. reflexivity.
Qed.

Lemma groups_of_set_groupCount p n : groups_of (set_groupCount p n) = groups_of p.
Proof. destruct p as [els sa ea gc]. reflexivity. Qed.

Lemma groups_of_groupInner alts cnt :
  groups_of (groupInner alts cnt) = flat_map groups_of alts.
Proof.
  unfold groupInner. rewrite groups_of_set_groupCount.
  destruct alts as [|a [|b alts]].
  - reflexivity.
  - cbn [flat_map]. rewrite app_nil_r. reflexivity.
  - rewrite groups_of_eq. cbn [flat_map]. rewrite app_nil_r.
    apply groups_of_alternation.
Qed.

Lemma groups_of_quantifier e rest :
  groups_of_element (fst (quantifier e rest)) = groups_of_element e.
Proof.
  destruct (quantifier_fst e rest) as [-> | [-> | ->]]; reflexivity.
Qed.

Lemma groups_of_flat e : is_flat e = true -> groups_of_element e = [].
Proof.
  destruct e; try discriminate; try reflexivity;
    simpl; destruct e; try discriminate; reflexivity.
Qed.

Lemma count_from_app c n m :
  count_from c (n + m) = count_from c n ++ count_from (c + Z.of_nat n) m.
Proof.
  revert c. induction n as [|n IH]; intros c.
  - cbn [Nat.add count_from app]. rewrite Z.add_0_r. reflexivity.
  - cbn [Nat.add count_from app]. rewrite IH. do 3 f_equal. lia.
Qed.

Lemma count_up_refl c : count_up c c = [].
Proof. unfold count_up. rewrite Z.sub_diag. reflexivity. Qed.

Lemma count_up_app a b c :
  a <= b -> b <= c -> count_up a b ++ count_up b c = count_up a c.
Proof.
  intros Hab Hbc. unfold count_up.
  replace (Z.to_nat (c - a)) with (Z.to_nat (b - a) + Z.to_nat (c - b))%nat by lia.
  rewrite count_from_app. do 2 f_equal. lia.
Qed.

Lemma count_up_cons a c : a < c -> count_up a c = (a + 1) :: count_up (a + 1) c.
Proof.
  intros H. unfold count_up.
  replace (Z.to_nat (c - a)) with (S (Z.to_nat (c - (a + 1)))) by lia.
  reflexivity.
Qed.

Lemma count_from_In c n k : In k (count_from c n) <-> c < k <= c + Z.of_nat n.
Proof.
  revert c. induction n as [|n IH]; intros c; cbn [count_from In].
  - lia.
  - rewrite IH. lia.
Qed.

Lemma count_up_In a c k : In k (count_up a c) -> a < k <= c.
Proof. unfold count_up. rewrite count_from_In. lia. Qed.

Lemma parse_each_groups parse ps :
  (forall piece c alt c', parse piece c = Ok (alt, c') ->
     c <= c' /\ groups_of alt = count_up c c') ->
  forall alts0 c alts c',
  parse_each parse ps alts0 c = Ok (alts, c') ->
  c <= c' /\ exists new, alts = alts0 ++ new /\
    flat_map groups_of new = count_up c c'.
Proof.
  intros Hp. induction ps as [|piece ps IH]; intros alts0 c alts c'; cbn [parse_each].
  - intros E; inversion E; subst. split; [lia|]. exists [].
    rewrite app_nil_r, count_up_refl. auto.
  - destruct (parse piece c) as [[alt c1]| |] eqn:P; try discriminate.
    cbn [rbind]. intros E. apply IH in E.
    destruct E as (Hle & new & -> & Hnew).
    destruct (Hp piece c alt c1 P) as [Hle1 Halt].
    split; [lia|]. exists (alt :: new). split.
    + rewrite <- app_assoc. reflexivity.
    + cbn [flat_map]. rewrite Halt, Hnew. apply count_up_app; assumption.
Qed.

Lemma parseElements_groups : forall fuel rs cnt els cnt',
  parseElements fuel rs cnt = Ok (els, cnt') ->
  cnt <= cnt' /\ flat_map groups_of_element els = count_up cnt cnt'.
Proof.
  induction fuel as [|fuel IH]; intros rs cnt els cnt'; [discriminate|].
  destruct rs as [|r rest].
  { intros E; inversion E; subst. rewrite count_up_refl. split; [lia|reflexivity]. }
  destruct (r =? LPAREN) eqn:E.
  - apply Z.eqb_eq in E; subst r. rewrite parseElements_group.
    destruct (findClose 1 rest) as [[inner after]|] eqn:F; [|discriminate].
    destruct (parseAlternatives (parsePatternInternal_with (parseElements fuel))
                inner (cnt + 1)) as [[alts cnt1]| |] eqn:A; try discriminate.
    cbn [rbind].
    destruct (quantifier (GroupMatcher (cnt + 1) (groupInner alts cnt1)) after)
      as [element after'] eqn:Q.
    intros Em. apply (emit_inv (Some element)) in Em.
    destruct Em as (els' & Hp & ->).
    apply IH in Hp. destruct Hp as [Hle' Hels'].
    unfold parseAlternatives in A. rewrite parseAlternatives_loop_pieces in A.
    apply parse_each_groups in A.
    2:{ intros piece c alt c'. rewrite parsePatternInternal_with_eq.
        destruct (parseElements fuel (body_of piece) c) as [[pels pcnt]| |] eqn:P;
          try discriminate.
        cbn [rbind]. intros Ep; inversion Ep; subst.
        rewrite groups_of_eq. eapply IH; eauto. }
    destruct A as (Hle1 & new & Hnew & Hg). cbn [app] in Hnew. subst new.
    split; [lia|]. cbn [flat_map].
    assert (He : element = fst (quantifier (GroupMatcher (cnt + 1) (groupInner alts cnt1)) after))
      by (rewrite Q; reflexivity).
    rewrite He, groups_of_quantifier. cbn [groups_of_element].
    rewrite groups_of_groupInner, Hg, Hels'.
    rewrite (count_up_cons cnt cnt') by lia. cbn [app]. f_equal.
    apply count_up_app; lia.
  - rewrite parseElements_atom by assumption.
    intros Em. apply emit_inv in Em. destruct Em as (els' & Hp & ->).
    apply IH in Hp. destruct Hp as [Hle Hels'].
    split; [assumption|].
    destruct (fst (scanAtom r rest)) as [e|] eqn:Fe; [|assumption].
    cbn [flat_map]. rewrite (groups_of_flat e (scanAtom_flat r rest e Fe)).
    assumption.
Qed.

Lemma ParseRunes_groups rs p :
  ParseRunes rs = Ok p ->
  0 <= groupCount p /\ groups_of p = count_up 0 (groupCount p).
Proof.
  unfold ParseRunes, parsePatternInternal.
  rewrite parsePatternInternal_with_eq.
  destruct (parseElements (S (List.length rs)) (body_of rs) 0)
    as [[els cnt]| |] eqn:P; try discriminate.
  cbn [rbind]. intros E; inversion E; subst.
  rewrite groups_of_set_groupCount, groups_of_eq.
  cbn [set_groupCount groupCount]. eapply parseElements_groups; eauto.
Qed.

(** X12.  The groups of a compiled pattern are numbered 1, 2, ... up to its
    groupCount, in the order of their opening parentheses: a group before
    the groups inside it, and those before the groups after it. *)
Theorem groups_are_numbered_in_order (pattern : gostring) (p : Pattern) :
  ParsePattern pattern = Ok p ->
  0 <= groupCount p /\ groups_of p = count_up 0 (groupCount p).
Proof. apply ParseRunes_groups. Qed.

Lemma groups_are_numbered_in_order_witness :
  exists p, ParsePattern (lit "(a(b|c))+(d)\3") = Ok p /\
    0 <= groupCount p /\ groups_of p = count_up 0 (groupCount p) /\
    groups_of p = [1; 2; 3].
Proof.
  destruct (ParsePattern (lit "(a(b|c))+(d)\3")) as [p| |] eqn:E;
    [|vm_compute in E; discriminate|vm_compute in E; discriminate].
  exists p. split; [reflexivity|].
  destruct (groups_are_numbered_in_order (lit "(a(b|c))+(d)\3") p E) as [H1 H2].
  split; [exact H1|]. split; [exact H2|].
  vm_compute in E. inversion E. reflexivity.
Defined.


(* ------------------------------------------------------------------ *)
(** ** The empty group *)

Lemma parseElements_literal_prefix x : forall rest fuel cnt,
  literal_text x = true ->
  quantifier WildcardMatcher rest = (WildcardMatcher, rest) ->
  parseElements (List.length x + fuel) (x ++ rest) cnt =
  rbind (parseElements fuel rest cnt) (fun '(els, cnt') =>
  Ok (map LiteralMatcher x ++ els, cnt')).
Proof.
  induction x as [|r x IH]; intros rest fuel cnt Hlit Hq.
  - cbn [List.length Nat.add app map].
    destruct (parseElements fuel rest cnt) as [[els c]| |]; reflexivity.
  - cbn [literal_text forallb] in Hlit. apply andb_true_iff in Hlit.
    destruct Hlit as [Hr Hx].
    apply negb_true_iff, is_meta_false in Hr.
    destruct Hr as (H1 & H2 & H3 & H4 & _).
    cbn [List.length Nat.add app].
    rewrite parseElements_atom by assumption.
    unfold scanAtom. rewrite H2, H3, H4.
    assert (Q : quantifier (LiteralMatcher r) (x ++ rest)
                = (LiteralMatcher r, x ++ rest)).
    { destruct x as [|r' x'].
      - cbn [app]. unfold quantifier in *. destruct rest as [|q rest']; [reflexivity|].
        destruct (q =? PLUS); [discriminate|].
        destruct (q =? QUESTION); [discriminate|reflexivity].
      - cbn [forallb] in Hx.
        apply andb_true_iff in Hx. destruct Hx as [Hr' _].
        apply negb_true_iff, is_meta_false in Hr'.
        destruct Hr' as (_ & _ & _ & _ & H5 & H6).
        cbn [app]. unfold quantifier. rewrite H5, H6. reflexivity. }
    rewrite Q. cbn [fst snd emit].
    rewrite (IH rest fuel cnt Hx Hq).
    destruct (parseElements fuel rest cnt) as [[els c]| |]; reflexivity.
Qed.

Lemma literal_no_quantifier y :
  literal_text y = true -> forall e, quantifier e y = (e, y).
Proof.
  intros Hy e. destruct y as [|r y]; [reflexivity|].
  cbn [literal_text forallb] in Hy. apply andb_true_iff in Hy. destruct Hy as [Hr _].
  apply negb_true_iff, is_meta_false in Hr.
  destruct Hr as (_ & _ & _ & _ & H5 & H6).
  unfold quantifier. rewrite H5, H6. reflexivity.
Qed.

Lemma ParseRunes_empty_group x y :
  literal_text x = true -> literal_text y = true ->
  hd_error x <> Some CARET -> last y 0 <> DOLLAR ->
  ParseRunes (x ++ LPAREN :: RPAREN :: y) =
  Ok (mkPattern (map LiteralMatcher x ++ empty_group 1 1 :: map LiteralMatcher y)
        false false 1).
Proof.
  intros Hx Hy Hhd Hlast.
  assert (S1 : stripStart (x ++ LPAREN :: RPAREN :: y)
               = (false, x ++ LPAREN :: RPAREN :: y)).
  { apply stripStart_no_caret. destruct x; [discriminate|exact Hhd]. }
  assert (S2 : stripEnd (x ++ LPAREN :: RPAREN :: y)
               = (false, x ++ LPAREN :: RPAREN :: y)).
  { apply stripEnd_no_dollar. rewrite last_app_cons.
    destruct y as [|c y]; [discriminate|].
    change (LPAREN :: RPAREN :: c :: y) with ([LPAREN; RPAREN] ++ c :: y).
    rewrite last_app_cons. exact Hlast. }
  unfold ParseRunes, parsePatternInternal.
  rewrite parsePatternInternal_with_eq. unfold body_of.
  rewrite S1. cbn [fst snd]. rewrite S2. cbn [fst snd].
  replace (S (List.length (x ++ LPAREN :: RPAREN :: y)))
    with (List.length x + S (S (S (List.length y))))%nat
    by (rewrite length_app; cbn [List.length]; lia).
  rewrite parseElements_literal_prefix by (auto; reflexivity).
  rewrite parseElements_group.
  change (findClose 1 (RPAREN :: y)) with (Some (@nil Z, y)). cbv iota.
  change (parseAlternatives
            (parsePatternInternal_with (parseElements (S (S (List.length y)))))
            [] (0 + 1)) with (@Ok (list Pattern * Z) ([], 0 + 1)).
  cbn [rbind]. rewrite (literal_no_quantifier y Hy).
  rewrite parseElements_literal by (auto; lia).
  reflexivity.
Qed.

Section EmptyGroup.

Variable IsDigit : rune -> bool.
Variable IsLetter : rune -> bool.

Lemma state_fails_at_empty_group x : forall fuel index cnt els sa ea gc input pos c h,
  (List.length x + 2 <= fuel)%nat -> 0 <= pos ->
  exists pos',
    matchHereWithState IsDigit IsLetter fuel
      (mkPattern (map LiteralMatcher x ++ empty_group index cnt :: els) sa ea gc)
      input pos c h = Done (false, pos', c, h).
Proof.
  induction x as [|r x IH]; intros fuel index cnt els sa ea gc input pos c h Hfuel Hpos.
  - destruct fuel as [|[|fuel]]; cbn [List.length Nat.add] in Hfuel; try lia.
    exists pos. rewrite matchHereWithState_S.
    unfold matchHereWithState_body. cbn [map app elements empty_group].
    rewrite matchHereWithState_S.
    unfold matchHereWithState_body. cbn [elements alternatives_loop bind].
    reflexivity.
  - destruct fuel as [|fuel]; cbn [List.length Nat.add] in Hfuel; try lia.
    rewrite matchHereWithState_S.
    unfold matchHereWithState_body. cbn [map app elements endAnchor groupCount].
    destruct fuel as [|fuel]; [lia|].
    rewrite (once_atom IsDigit IsLetter fuel (LiteralMatcher r) input pos c h eq_refl Hpos).
    destruct (accepts IsDigit IsLetter (LiteralMatcher r) input pos).
    + cbn [bind].
      destruct (IH (S fuel) index cnt els false ea gc input (pos + 1) c h)
        as (pos' & E); [lia|lia|].
      rewrite E. eauto.
    + cbn [bind]. eauto.
Qed.

Lemma Match_loop_fails_at_empty_group x fuel index cnt els ea gc input :
  (List.length x + 2 <= fuel)%nat -> 0 <= gc ->
  forall k start h, 0 <= start ->
  Match_loop IsDigit IsLetter fuel
    (mkPattern (map LiteralMatcher x ++ empty_group index cnt :: els) false ea gc)
    input k start h = Done false.
Proof.
  intros Hfuel Hgc. induction k as [|k IH]; intros start h Hstart; [reflexivity|].
  rewrite Match_loop_S. cbn [groupCount].
  destruct (start <=? len input); [|reflexivity].
  rewrite make_eq by assumption. cbn [bind].
  destruct (state_fails_at_empty_group x fuel index cnt els false ea gc input
              start (Slice (List.length h)) (h ++ [repeat [] (Z.to_nat gc)])
              Hfuel Hstart) as (pos' & E).
  rewrite E. cbn [bind]. apply IH. lia.
Qed.

(** X13.  An empty group matches nothing, not even the empty text: a pattern
    of literal runes with [()] among them compiles, and Match returns false
    on every input. *)
Theorem empty_group_never_matches
    (pattern : gostring) (x y input : list rune) (fuel : nat) :
  runes_of_string pattern = x ++ LPAREN :: RPAREN :: y ->
  literal_text x = true -> literal_text y = true ->
  hd_error x <> Some CARET -> last y 0 <> DOLLAR ->
  (List.length x + 2 <= fuel)%nat ->
  exists p, ParsePattern pattern = Ok p /\
    Match IsDigit IsLetter fuel p input = Done false.
Proof.
  intros Htext Hx Hy Hhd Hlast Hfuel.
  unfold ParsePattern. rewrite Htext, (ParseRunes_empty_group x y Hx Hy Hhd Hlast).
  eexists. split; [reflexivity|].
  unfold Match. cbn [startAnchor].
  apply Match_loop_fails_at_empty_group; [assumption|lia|lia].
Qed.

End EmptyGroup.

Lemma empty_group_never_matches_witness :
  runes_of_string (lit "ab()c") = runes "ab" ++ LPAREN :: RPAREN :: runes "c" /\
  literal_text (runes "ab") = true /\ literal_text (runes "c") = true /\
  hd_error (runes "ab") <> Some CARET /\ last (runes "c") 0 <> DOLLAR /\
  (List.length (runes "ab") + 2 <= 4)%nat /\
  exists p, ParsePattern (lit "ab()c") = Ok p /\
    Match asciiIsDigit asciiIsLetter 4 p (runes "abc") = Done false.
Proof.
  assert (H1 : hd_error (runes "ab") <> Some CARET) by (vm_compute; discriminate).
  assert (H2 : last (runes "c") 0 <> DOLLAR) by (vm_compute; discriminate).
  split; [reflexivity|]. split; [reflexivity|]. split; [reflexivity|].
  split; [exact H1|]. split; [exact H2|]. split; [vm_compute; lia|].
  apply (empty_group_never_matches asciiIsDigit asciiIsLetter (lit "ab()c")
           (runes "ab") (runes "c") (runes "abc") 4);
    [reflexivity|reflexivity|reflexivity|exact H1|exact H2|vm_compute; lia].
Defined.


(* ------------------------------------------------------------------ *)
(** ** Empty alternatives *)

Lemma findClose_no_paren x after :
  (forall r, In r x -> r <> LPAREN /\ r <> RPAREN) ->
  findClose 1 (x ++ RPAREN :: after) = Some (x, after).
Proof.
  induction x as [|r x IH]; intros Hx.
  - reflexivity.
  - change ((r :: x) ++ RPAREN :: after) with (r :: (x ++ RPAREN :: after)).
    rewrite findClose_step.
    destruct (Hx r (or_introl eq_refl)) as (H1 & H2).
    assert (Hd : delta r = 0).
    { unfold delta. apply Z.eqb_neq in H1. apply Z.eqb_neq in H2.
      rewrite H1, H2. reflexivity. }
    rewrite Hd. change (1 + 0 >? 0) with true. cbv iota.
    change (1 + 0) with 1.
    rewrite IH; [reflexivity|]. intros r' Hr'. apply Hx. right. assumption.
Qed.

(** A pattern that is one group whose body has no parentheses: the
    alternatives are the pieces of the body, each compiled by
    parsePatternInternal. *)
Lemma ParseRunes_one_group inner :
  (forall r, In r inner -> r <> LPAREN /\ r <> RPAREN) ->
  ParseRunes (LPAREN :: inner ++ [RPAREN]) =
  rbind (parse_each
           (parsePatternInternal_with (parseElements (S (S (List.length inner)))))
           (pieces 0 [] inner) [] 1) (fun '(alts, cnt) =>
  Ok (mkPattern [GroupMatcher 1 (groupInner alts cnt)] false false cnt)).
Proof.
  intros Hin.
  assert (S2 : stripEnd (LPAREN :: inner ++ [RPAREN])
               = (false, LPAREN :: inner ++ [RPAREN])).
  { apply stripEnd_no_dollar.
    change (LPAREN :: inner ++ [RPAREN]) with ((LPAREN :: inner) ++ [RPAREN]).
    rewrite last_last. discriminate. }
  unfold ParseRunes, parsePatternInternal.
  rewrite parsePatternInternal_with_eq. unfold body_of.
  change (stripStart (LPAREN :: inner ++ [RPAREN]))
    with (false, LPAREN :: inner ++ [RPAREN]).
  cbn [fst snd]. rewrite S2. cbn [fst snd].
  replace (List.length (LPAREN :: inner ++ [RPAREN]))
    with (S (S (List.length inner)))
    by (cbn [List.length]; rewrite length_app; cbn [List.length]; lia).
  rewrite parseElements_group, (findClose_no_paren inner [] Hin).
  unfold parseAlternatives. rewrite parseAlternatives_loop_pieces.
  change (0 + 1) with 1.
  destruct (parse_each _ (pieces 0 [] inner) [] 1) as [[alts cnt]| |];
    reflexivity.
Qed.

Lemma parse_plain_piece s es fuel cnt :
  hd_error s <> Some CARET -> last s 0 <> DOLLAR ->
  (forall fuel cnt, (List.length s < fuel)%nat ->
     parseElements fuel s cnt = Ok (es, cnt)) ->
  (List.length s < fuel)%nat ->
  parsePatternInternal_with (parseElements fuel) s cnt =
  Ok (mkPattern es false false cnt, cnt).
Proof.
  intros Hh Hl Hp Hf. rewrite parsePatternInternal_with_eq.
  rewrite (body_of_plain s Hh Hl), (stripStart_no_caret s Hh).
  cbn [fst snd]. rewrite (stripEnd_no_dollar s Hl). cbn [fst snd].
  rewrite Hp by assumption. reflexivity.
Qed.

Lemma plain_pieces s :
  (forall r, In r s -> r <> LPAREN /\ r <> RPAREN /\ r <> BAR) -> s <> [] ->
  pieces 0 [] s = [s] /\ pieces 0 [] (s ++ [BAR]) = [s] /\
  pieces 0 [] (BAR :: s) = [[]; s].
Proof.
  intros Hs Hne.
  assert (P : pieces 0 [] s = [s]).
  { rewrite <- (app_nil_r s) at 1. rewrite (pieces_plain s [] [] Hs).
    cbn [app pieces]. destruct s; [contradiction|reflexivity]. }
  repeat split.
  - exact P.
  - rewrite (pieces_plain s [] [BAR] Hs). reflexivity.
  - cbn [pieces]. change (BAR =? LPAREN) with false.
    change (BAR =? RPAREN) with false. change (BAR =? BAR) with true.
    cbn [andb Z.eqb]. rewrite P. reflexivity.
Qed.

(** X14.  In a group body, an empty alternative after the last bar is
    dropped, one before the first bar is kept: for a text [s] without
    parentheses, bars and outer anchors, [(s|)] compiles to the pattern of
    [(s)], a group of the one alternative [s], and [(|s)] to a group of the
    empty alternative and [s]. *)
Theorem trailing_empty_alternative_is_dropped (s : gostring) :
  plain_text (runes_of_string s) = true -> s <> [] ->
  exists es,
    ParseRunes (runes_of_string s) = Ok (mkPattern es false false 0) /\
    ParsePattern (lit "(" ++ s ++ lit ")") =
      Ok (mkPattern [GroupMatcher 1 (mkPattern es false false 1)] false false 1) /\
    ParsePattern (lit "(" ++ s ++ lit "|)") =
      Ok (mkPattern [GroupMatcher 1 (mkPattern es false false 1)] false false 1) /\
    ParsePattern (lit "(|" ++ s ++ lit ")") =
      Ok (mkPattern
            [GroupMatcher 1
               (mkPattern
                  [AlternationMatcher
                     [mkPattern [] false false 1; mkPattern es false false 1]]
                  false false 1)] false false 1).
Proof.
  intros Hplain Hne.
  destruct (plain_text_spec _ Hplain) as (Hs & Hh & Hl).
  assert (Hrne : runes_of_string s <> [])
    by (apply runes_of_string_nonempty; assumption).
  set (rs := runes_of_string s) in *.
  destruct (parseElements_flat (S (List.length rs)) rs) as (es & _ & _ & Hp);
    [lia| |].
  { intros H. destruct (Hs _ H) as (H1 & _). congruence. }
  destruct (plain_pieces rs Hs Hrne) as (P1 & P2 & P3).
  assert (Hs' : forall r, In r rs -> r <> LPAREN /\ r <> RPAREN).
  { intros r Hr. destruct (Hs r Hr) as (? & ? & ?). auto. }
  exists es. split; [apply ParseRunes_plain; assumption|].
  unfold ParsePattern. repeat split.
  - change (lit "(" ++ s ++ lit ")") with ([] ++ LPAREN :: (s ++ RPAREN :: [])).
    rewrite !runes_of_string_app_ascii by lia. fold rs.
    change (runes_of_string [] ++ LPAREN :: rs ++ RPAREN :: runes_of_string [])
      with (LPAREN :: rs ++ [RPAREN]).
    rewrite (ParseRunes_one_group rs Hs'), P1. cbn [parse_each].
    rewrite (parse_plain_piece rs es _ 1 Hh Hl Hp) by lia. reflexivity.
  - change (lit "(" ++ s ++ lit "|)")
      with ([] ++ LPAREN :: (s ++ BAR :: ([] ++ RPAREN :: []))).
    rewrite !runes_of_string_app_ascii by lia. fold rs.
    change (runes_of_string [] ++ LPAREN :: rs ++
            BAR :: runes_of_string [] ++ RPAREN :: runes_of_string [])
      with (LPAREN :: rs ++ [BAR; RPAREN]).
    change (rs ++ [BAR; RPAREN]) with (rs ++ [BAR] ++ [RPAREN]).
    rewrite app_assoc.
    rewrite (ParseRunes_one_group (rs ++ [BAR])), P2.
    2:{ intros r Hr. apply in_app_or in Hr. destruct Hr as [Hr|[<-|[]]];
          [auto|split; discriminate]. }
    cbn [parse_each].
    rewrite (parse_plain_piece rs es _ 1 Hh Hl Hp)
      by (rewrite length_app; cbn [List.length]; lia).
    reflexivity.
  - change (lit "(|" ++ s ++ lit ")")
      with ([] ++ LPAREN :: ([] ++ BAR :: (s ++ RPAREN :: []))).
    rewrite !runes_of_string_app_ascii by lia. fold rs.
    change (runes_of_string [] ++ LPAREN :: runes_of_string [] ++
            BAR :: rs ++ RPAREN :: runes_of_string [])
      with (LPAREN :: (BAR :: rs) ++ [RPAREN]).
    rewrite (ParseRunes_one_group (BAR :: rs)), P3.
    2:{ intros r [<-|Hr]; [split; discriminate|auto]. }
    cbn [parse_each].
    change (parsePatternInternal_with
              (parseElements (S (S (List.length (BAR :: rs))))) [] 1)
      with (@Ok (Pattern * Z) (mkPattern [] false false 1, 1)).
    cbn [rbind app].
    rewrite (parse_plain_piece rs es _ 1 Hh Hl Hp)
      by (cbn [List.length]; lia).
    reflexivity.
Qed.

Lemma trailing_empty_alternative_is_dropped_witness :
  plain_text (runes_of_string (lit "ab+")) = true /\ lit "ab+" <> [] /\
  exists es,
    ParseRunes (runes_of_string (lit "ab+")) = Ok (mkPattern es false false 0) /\
    ParsePattern (lit "(" ++ lit "ab+" ++ lit ")") =
      Ok (mkPattern [GroupMatcher 1 (mkPattern es false false 1)] false false 1) /\
    ParsePattern (lit "(" ++ lit "ab+" ++ lit "|)") =
      Ok (mkPattern [GroupMatcher 1 (mkPattern es false false 1)] false false 1) /\
    ParsePattern (lit "(|" ++ lit "ab+" ++ lit ")") =
      Ok (mkPattern
            [GroupMatcher 1
               (mkPattern
                  [AlternationMatcher
                     [mkPattern [] false false 1; mkPattern es false false 1]]
                  false false 1)] false false 1).
Proof.
  split; [vm_compute; reflexivity|]. split; [discriminate|].
  apply (trailing_empty_alternative_is_dropped (lit "ab+"));
    [vm_compute; reflexivity|discriminate].
Defined.


(* ------------------------------------------------------------------ *)
(** ** What a run of the matcher keeps *)

Lemma safe_bind {A B : Type} (Q : A -> Prop) (R : B -> Prop)
    (m : outcome A) (k : A -> outcome B) :
  safe Q m -> (forall a, Q a -> safe R (k a)) -> safe R (bind m k).
Proof. destruct m; simpl; auto. Qed.

Lemma safe_impl {A : Type} (Q R : A -> Prop) (r : outcome A) :
  (forall a, Q a -> R a) -> safe Q r -> safe R r.
Proof. destruct r; simpl; auto. Qed.

Lemma groups_within_cons n e rest sa ea gc sa' ea' gc' :
  groups_within n (mkPattern (e :: rest) sa ea gc) ->
  groups_within_element n e /\ groups_within n (mkPattern rest sa' ea' gc').
Proof.
  unfold groups_within, groups_within_element.
  rewrite !groups_of_eq. cbn [flat_map]. apply Forall_app.
Qed.

Lemma groups_within_elements n els sa ea gc :
  groups_within n (mkPattern els sa ea gc) ->
  Forall (groups_within_element n) els.
Proof.
  induction els as [|e els IH]; intros H; constructor.
  - apply (groups_within_cons n e els sa ea gc sa ea gc H).
  - apply IH. apply (groups_within_cons n e els sa ea gc sa ea gc H).
Qed.

Lemma groups_within_rest n els sa ea gc :
  Forall (groups_within_element n) els ->
  groups_within n (mkPattern els sa ea gc).
Proof.
  intros H. unfold groups_within. rewrite groups_of_eq.
  induction H as [|e els He _ IH]; [constructor|].
  cbn [flat_map]. apply Forall_app. split; assumption.
Qed.

Lemma groups_within_group n index p :
  groups_within_element n (GroupMatcher index p) ->
  1 <= index <= Z.of_nat n /\ groups_within n p.
Proof.
  unfold groups_within_element, groups_within. cbn [groups_of_element].
  intros H. inversion H; subst. auto.
Qed.

Lemma groups_within_alternation n alts :
  groups_within_element n (AlternationMatcher alts) ->
  Forall (groups_within n) alts.
Proof.
  unfold groups_within_element, groups_within.
  rewrite groups_of_alternation.
  induction alts as [|p alts IH]; intros H; [constructor|].
  cbn [flat_map] in H. apply Forall_app in H. destruct H as [H1 H2].
  constructor; auto.
Qed.

Lemma contents_update_other h s v s' :
  s' <> s -> contents (update h s v) s' = contents h s'.
Proof.
  intros Hne. destruct s as [|a]; [reflexivity|].
  destruct s' as [|b]; [reflexivity|]. simpl.
  apply nth_list_set_other. congruence.
Qed.

Lemma copy_other dst src h s :
  s <> dst -> contents (copy dst src h) s = contents h s.
Proof. intros H. unfold copy. apply contents_update_other. assumption. Qed.

Lemma assign_other h s i v h' s' :
  assign h s i v = Done h' -> s' <> s -> contents h' s' = contents h s'.
Proof.
  unfold assign. destruct ((0 <=? i) && (i <? len (contents h s))); [|discriminate].
  intros E Hne. inversion E; subst. apply contents_update_other. assumption.
Qed.

Lemma fresh_not_live h : ~ live h (Slice (List.length h)).
Proof. simpl. lia. Qed.

Lemma live_ne h s : live h s -> s <> Slice (List.length h).
Proof. intros H ->. exact (fresh_not_live h H). Qed.

Lemma compareRunes_safe input capRunes : forall p,
  0 <= p -> p + len capRunes <= len input ->
  exists b, compareRunes input p capRunes = Done b.
Proof.
  induction capRunes as [|c capRunes IH]; intros p Hp Hlen; cbn [compareRunes].
  - eauto.
  - assert (E : len (c :: capRunes) = 1 + len capRunes)
      by (unfold len; cbn [List.length]; lia).
    rewrite E in Hlen.
    destruct (elem_at_Some input p) as (r & Hr); [unfold len in *; lia|].
    rewrite Hr. cbn [orPanic bind].
    destruct (negb (r =? c)); [eauto|]. apply IH; lia.
Qed.

Lemma len_nonneg {A : Type} (l : list A) : 0 <= len l.
Proof. unfold len. lia. Qed.

Lemma state_post_weaken n input pos0 h0 pos h r :
  pos0 <= pos -> (List.length h0 <= List.length h)%nat ->
  state_post n input pos h r -> state_post n input pos0 h0 r.
Proof.
  intros Hp Hl. destruct r as [[[ok pos'] c'] h']. unfold state_post.
  intros (H1 & H2 & H3 & H4).
  split; [assumption|]. split; [lia|]. split; [assumption|].
  intros Hok. specialize (H4 Hok). lia.
Qed.

Lemma captures_post_weaken n input pos0 c h0 pos h r :
  pos0 <= pos -> (List.length h0 <= List.length h)%nat ->
  (forall s, live h0 s -> s <> c -> contents h s = contents h0 s) ->
  captures_post n input pos c h r -> captures_post n input pos0 c h0 r.
Proof.
  intros Hp Hl Hf. destruct r as [[ok pos'] h']. unfold captures_post.
  intros (H1 & H2 & H3 & H4).
  split; [assumption|]. split; [lia|]. split.
  - intros s Hs Hne. rewrite H3; auto. apply (live_mono h0); assumption.
  - intros Hok. specialize (H4 Hok). lia.
Qed.

Lemma snapshot_keeps n h src :
  well_sized n h -> live h src ->
  exists h', snapshot src h = Done (Slice (List.length h), h') /\
    well_sized n h' /\ List.length h' = S (List.length h) /\
    live h' (Slice (List.length h)) /\
    (forall s, live h s -> contents h' s = contents h s).
Proof.
  intros Hws Hl. exists (h ++ [contents h src]).
  split; [apply snapshot_eq; assumption|]. split; [|split; [|split]].
  - apply Forall_app. split; [exact Hws|].
    constructor; [|constructor]. apply well_sized_contents; assumption.
  - rewrite length_app. cbn [List.length]. lia.
  - simpl. rewrite length_app. cbn [List.length]. lia.
  - intros s Hs. apply contents_app. assumption.
Qed.

Lemma repeat_post_weaken n input pos0 cp c h0 pos h r :
  pos0 <= pos -> (List.length h0 <= List.length h)%nat ->
  (forall s, live h0 s -> s <> cp -> s <> c -> contents h s = contents h0 s) ->
  repeat_post n input pos cp c h r -> repeat_post n input pos0 cp c h0 r.
Proof.
  intros Hp Hl Hf. destruct r as [[ok pos'] h']. unfold repeat_post.
  intros (H1 & H2 & H3 & H4).
  split; [assumption|]. split; [lia|]. split.
  - intros s Hs Hne1 Hne2. rewrite H3; auto. apply (live_mono h0); assumption.
  - intros Hok. specialize (H4 Hok). lia.
Qed.


Section Keeps.

Variable IsDigit : rune -> bool.
Variable IsLetter : rune -> bool.

(** The number of entries of every capture slice of the run. *)
Variable n : nat.

Section KeepsBodies.

Variable callState :
  Pattern -> list rune -> Z -> slice -> store -> outcome stateResult.
Variable callCaptures :
  Pattern -> list rune -> Z -> slice -> store -> outcome capturesResult.
Variable callOnce :
  PatternElement -> list rune -> Z -> slice -> store -> outcome stateResult.
Variable callRepeat :
  PatternElement -> Pattern -> list rune -> Z -> slice -> slice -> store ->
  outcome capturesResult.

Hypothesis HState : forall p input pos c h,
  groups_within n p -> well_sized n h -> live h c -> 0 <= pos <= len input ->
  safe (state_post n input pos h) (callState p input pos c h).
Hypothesis HCaptures : forall p input pos c h,
  groups_within n p -> well_sized n h -> live h c -> 0 <= pos <= len input ->
  safe (captures_post n input pos c h) (callCaptures p input pos c h).
Hypothesis HOnce : forall e input pos c h,
  groups_within_element n e -> well_sized n h -> live h c ->
  0 <= pos <= len input ->
  safe (once_post n input pos c h) (callOnce e input pos c h).
Hypothesis HRepeat : forall m rem input pos cp c h,
  groups_within_element n m -> groups_within n rem ->
  well_sized n h -> live h cp -> live h c -> 0 <= pos <= len input ->
  safe (repeat_post n input pos cp c h) (callRepeat m rem input pos cp c h).

(** The simple rune-based case of matchElementOnce. *)
Lemma once_rune_keeps element input pos c h :
  well_sized n h -> live h c -> 0 <= pos <= len input ->
  safe (once_post n input pos c h)
    (if pos >=? len input then Done (false, 0, nilslice, h)
     else
       r <- orPanic (elem_at input pos) ;;
       if negb (ElementMatch IsDigit IsLetter element r)
       then Done (false, 0, nilslice, h)
       else Done (true, pos + 1, c, h)).
Proof.
  intros Hws Hl Hpos.
  assert (Fail : safe (once_post n input pos c h) (Done (false, 0, nilslice, h))).
  { cbn [safe once_post]. split; [assumption|]. split; [lia|].
    split; [reflexivity|discriminate]. }
  destruct (pos >=? len input) eqn:E; [exact Fail|].
  rewrite Z.geb_leb in E. apply Z.leb_gt in E.
  destruct (elem_at_Some input pos) as (r & Hr); [lia|].
  rewrite Hr. cbn [orPanic bind].
  destruct (negb (ElementMatch IsDigit IsLetter element r)); [exact Fail|].
  cbn [safe once_post]. split; [assumption|]. split; [lia|].
  split; [reflexivity|]. intros _. split; [assumption|].
  split; [left; reflexivity|lia].
Qed.

Lemma matchElementOnce_body_keeps element input pos c h :
  groups_within_element n element -> well_sized n h -> live h c ->
  0 <= pos <= len input ->
  safe (once_post n input pos c h)
    (matchElementOnce_body IsDigit IsLetter callCaptures element input pos c h).
Proof.
  intros Hg Hws Hl Hpos.
  assert (Fail : forall h', well_sized n h' ->
            (List.length h <= List.length h')%nat ->
            (forall s, live h s -> contents h' s = contents h s) ->
            safe (once_post n input pos c h) (Done (false, 0, nilslice, h'))).
  { intros h' H1 H2 H3. cbn [safe once_post]. split; [assumption|].
    split; [assumption|]. split; [assumption|discriminate]. }
  destruct element; try (apply once_rune_keeps; assumption);
    cbn [matchElementOnce_body].
  - (* GroupMatcher *)
    apply groups_within_group in Hg. destruct Hg as [Hi Hp].
    destruct (snapshot_keeps n h c Hws Hl) as (h1 & Hs & Hws1 & Hlen1 & Hl1 & Hold).
    rewrite Hs. cbn [bind].
    eapply safe_bind; [apply (HCaptures pattern input pos _ h1); assumption|].
    intros [[ok newPos] h2] (Hws2 & Hlen2 & Hf2 & Hb2). cbv beta iota.
    assert (Hold2 : forall s, live h s -> contents h2 s = contents h s).
    { intros s Hs'. rewrite Hf2.
      - apply Hold. assumption.
      - apply (live_mono h); [assumption|lia].
      - apply live_ne. assumption. }
    destruct ok; [|apply Fail; auto; lia].
    specialize (Hb2 eq_refl).
    destruct (subslice_Some input pos newPos) as (matched & Hm); [lia|lia|].
    rewrite Hm. cbn [orPanic bind].
    destruct (assign_spec n h2 (Slice (List.length h)) (index - 1)
                (string_of_runes matched) Hws2) as (h3 & Ha & Hws3 & Hlen3);
      [apply (live_mono h1); [assumption|lia]|lia|].
    rewrite Ha. cbn [bind safe once_post].
    split; [assumption|]. split; [lia|]. split.
    + intros s Hs'. rewrite (assign_other _ _ _ _ _ _ Ha) by (apply live_ne; assumption).
      apply Hold2. assumption.
    + intros _. split; [simpl; lia|]. split; [|lia].
      right. apply fresh_not_live.
  - (* BackReferenceMatcher *)
    destruct ((index - 1 <? 0) || (index - 1 >=? len (contents h c))) eqn:G;
      [apply Fail; auto|].
    apply orb_false_iff in G. destruct G as [G1 G2].
    apply Z.ltb_ge in G1. rewrite Z.geb_leb in G2. apply Z.leb_gt in G2.
    unfold load. destruct (elem_at_Some (contents h c) (index - 1)) as (capStr & Hc);
      [lia|].
    rewrite Hc. cbn [orPanic bind].
    destruct capStr as [|b capStr]; [apply Fail; auto|].
    destruct (pos + len (runes_of_string (b :: capStr)) >? len input) eqn:L;
      [apply Fail; auto|].
    rewrite Z.gtb_ltb in L. apply Z.ltb_ge in L.
    destruct (compareRunes_safe input (runes_of_string (b :: capStr)) pos)
      as (matched & Hm); [lia|lia|].
    rewrite Hm. cbn [bind].
    destruct matched; [|apply Fail; auto].
    cbn [safe once_post]. split; [assumption|]. split; [lia|].
    split; [reflexivity|]. intros _. split; [assumption|].
    split; [left; reflexivity|].
    pose proof (len_nonneg (runes_of_string (b :: capStr))). lia.
Qed.

Lemma state_post_done input pos h ok pos' c' h' :
  well_sized n h' -> (List.length h <= List.length h')%nat -> live h' c' ->
  (ok = true -> pos <= pos' <= len input) ->
  safe (state_post n input pos h) (Done (ok, pos', c', h')).
Proof. intros. cbn [safe state_post]. auto. Qed.

Lemma state_post_fail input pos h pos' c' h' :
  well_sized n h' -> (List.length h <= List.length h')%nat -> live h' c' ->
  safe (state_post n input pos h) (Done (false, pos', c', h')).
Proof. intros. apply state_post_done; auto. discriminate. Qed.

Lemma oneOrMore_loop_keeps remaining matcher input :
  groups_within n remaining ->
  forall k currentPos pos c h,
  well_sized n h -> live h c -> 0 <= currentPos ->
  safe (state_post n input currentPos h)
    (oneOrMore_loop IsDigit IsLetter callState remaining matcher input k
       currentPos pos c h).
Proof.
  intros Hg. induction k as [|k IH]; intros currentPos pos c h Hws Hl Hpos;
    cbn [oneOrMore_loop].
  - apply state_post_fail; auto.
  - destruct (currentPos <=? len input) eqn:E; [|apply state_post_fail; auto].
    apply Z.leb_le in E.
    eapply safe_bind; [apply (HState remaining input currentPos c h); auto|].
    intros [[[ok finalPos] finalCaptures] h'] (Hws' & Hlen' & Hl' & Hb').
    cbv beta iota.
    destruct ok; [apply state_post_done; auto|].
    assert (Hlc : live h' c) by (apply (live_mono h); assumption).
    destruct (currentPos <? len input) eqn:E2; [|apply state_post_fail; auto].
    apply Z.ltb_lt in E2.
    destruct (elem_at_Some input currentPos) as (r & Hr); [lia|].
    rewrite Hr. cbn [orPanic bind].
    destruct (ElementMatch IsDigit IsLetter matcher r);
      [|apply state_post_fail; auto].
    eapply safe_impl; [|apply (IH (currentPos + 1) (currentPos + 1) c h'); auto; lia].
    intros a. apply state_post_weaken; lia.
Qed.

Lemma alternatives_loop_keeps remaining input pos :
  groups_within n remaining -> 0 <= pos <= len input ->
  forall alternatives c h,
  Forall (groups_within n) alternatives -> well_sized n h -> live h c ->
  safe (state_post n input pos h)
    (alternatives_loop callState remaining alternatives input pos c h).
Proof.
  intros Hg Hpos. induction alternatives as [|alt alts IH]; intros c h Halts Hws Hl;
    cbn [alternatives_loop].
  - apply state_post_fail; auto.
  - inversion Halts as [|? ? Halt Halts']; subst.
    eapply safe_bind; [apply (HState alt input pos c h); auto|].
    intros [[[ok newPos] newCaptures] h'] (Hws' & Hlen' & Hl' & Hb').
    cbv beta iota. destruct ok.
    + specialize (Hb' eq_refl).
      eapply safe_impl;
        [|apply (HState remaining input newPos newCaptures h'); auto; lia].
      intros a. apply state_post_weaken; lia.
    + eapply safe_impl; [|apply (IH c h'); auto].
      * intros a. apply state_post_weaken; lia.
      * apply (live_mono h); assumption.
Qed.

Lemma matchHereWithState_body_keeps p input pos c h :
  groups_within n p -> well_sized n h -> live h c -> 0 <= pos <= len input ->
  safe (state_post n input pos h)
    (matchHereWithState_body IsDigit IsLetter callState callOnce p input pos c h).
Proof.
  intros Hg Hws Hl Hpos. unfold matchHereWithState_body.
  destruct p as [els sa ea gc]. cbn [elements endAnchor groupCount].
  destruct els as [|element rest].
  { destruct (negb ea || (pos =? len input));
      apply state_post_done; auto; lia. }
  destruct (groups_within_cons n element rest sa ea gc false ea gc Hg)
    as [He Hrest].
  set (remaining := mkPattern rest false ea gc) in *.
  assert (Atom : safe (state_post n input pos h)
            ('(ok, newPos, newCaptures, h) <- callOnce element input pos c h ;;
             if ok then callState remaining input newPos newCaptures h
             else Done (false, pos, c, h))).
  { eapply safe_bind; [apply (HOnce element input pos c h); auto|].
    intros [[[ok newPos] newCaptures] h'] (Hws' & Hlen' & Hf' & Hb').
    cbv beta iota. destruct ok.
    - destruct (Hb' eq_refl) as (Hl' & _ & Hp').
      eapply safe_impl;
        [|apply (HState remaining input newPos newCaptures h'); auto; lia].
      intros a. apply state_post_weaken; lia.
    - apply state_post_fail; auto. apply (live_mono h); assumption. }
  destruct element; try exact Atom.
  - (* OneOrMoreMatcher *)
    eapply safe_bind; [apply (HOnce element input pos c h); auto|].
    intros [[[ok newPos] newCaptures] h'] (Hws' & Hlen' & Hf' & Hb').
    cbv beta iota. destruct ok; cbn [negb].
    + destruct (Hb' eq_refl) as (Hl' & _ & Hp').
      eapply safe_impl;
        [|apply (oneOrMore_loop_keeps remaining element input Hrest
                   _ newPos newPos newCaptures h'); auto; lia].
      intros a. apply state_post_weaken; lia.
    + apply state_post_fail; auto. apply (live_mono h); assumption.
  - (* ZeroOrOneMatcher *)
    eapply safe_bind; [apply (HState remaining input pos c h); auto|].
    intros [[[ok newPos] newCaptures] h'] (Hws' & Hlen' & Hl' & Hb').
    cbv beta iota. destruct ok; [apply state_post_done; auto|].
    assert (Hlc : live h' c) by (apply (live_mono h); assumption).
    eapply safe_bind; [apply (HOnce element input pos c h'); auto|].
    intros [[[ok2 newPos2] newCaptures2] h2] (Hws2 & Hlen2 & Hf2 & Hb2).
    cbv beta iota. destruct ok2.
    + destruct (Hb2 eq_refl) as (Hl2 & _ & Hp2).
      eapply safe_impl;
        [|apply (HState remaining input newPos2 newCaptures2 h2); auto; lia].
      intros a. apply state_post_weaken; lia.
    + apply state_post_fail; auto; [lia|].
      apply (live_mono h); [assumption|lia].
  - (* AlternationMatcher *)
    apply alternatives_loop_keeps; auto.
    apply groups_within_alternation. assumption.
  - (* GroupMatcher *)
    apply groups_within_group in He. destruct He as [Hi Hp].
    eapply safe_bind; [apply (HState pattern input pos c h); auto|].
    intros [[[ok newPos] c1] h1] (Hws1 & Hlen1 & Hl1 & Hb1).
    cbv beta iota.
    assert (Hlc : live h1 c) by (apply (live_mono h); assumption).
    destruct ok; [|apply state_post_fail; auto].
    specialize (Hb1 eq_refl).
    destruct (subslice_Some input pos newPos) as (matched & Hm); [lia|lia|].
    rewrite Hm. cbn [orPanic bind].
    destruct (assign_spec n h1 c (index - 1) (string_of_runes matched) Hws1 Hlc)
      as (h2 & Ha & Hws2 & Hlen2); [lia|].
    rewrite Ha. cbn [bind].
    assert (Hlc2 : live h2 c) by (apply (live_mono h); [assumption|lia]).
    eapply safe_bind; [apply (HState remaining input newPos c h2); auto; lia|].
    intros [[[ok2 finalPos] finalCaptures] h3] (Hws3 & Hlen3 & Hl3 & Hb3).
    cbv beta iota. destruct ok2.
    + apply state_post_done; auto; [lia|]. intros _.
      specialize (Hb3 eq_refl). lia.
    + apply state_post_fail; auto; [lia|].
      apply (live_mono h); [assumption|lia].
  - (* BackReferenceMatcher *)
    destruct ((index <? 1) || (index >? len (contents h c))) eqn:G;
      [apply state_post_fail; auto|].
    apply orb_false_iff in G. destruct G as [G1 G2].
    apply Z.ltb_ge in G1. rewrite Z.gtb_ltb in G2. apply Z.ltb_ge in G2.
    unfold load.
    destruct (elem_at_Some (contents h c) (index - 1)) as (captured & Hc); [lia|].
    rewrite Hc. cbn [orPanic bind].
    destruct captured as [|b captured]; [apply state_post_fail; auto|].
    destruct (pos + len (b :: captured) >? len input) eqn:L;
      [apply state_post_fail; auto|].
    rewrite Z.gtb_ltb in L. apply Z.ltb_ge in L.
    pose proof (len_nonneg (b :: captured)) as Hnn.
    destruct (subslice_Some input pos (pos + len (b :: captured)))
      as (s & Hsub); [lia|lia|].
    rewrite Hsub. cbn [orPanic bind].
    destruct (negb (list_eqb (string_of_runes s) (b :: captured)));
      [apply state_post_fail; auto|].
    eapply safe_impl;
      [|apply (HState remaining input (pos + len (b :: captured)) c h); auto; lia].
    intros a. apply state_post_weaken; lia.
Qed.

Lemma captures_post_done input pos c h ok pos' h' :
  well_sized n h' -> (List.length h <= List.length h')%nat ->
  (forall s, live h s -> s <> c -> contents h' s = contents h s) ->
  (ok = true -> pos <= pos' <= len input) ->
  safe (captures_post n input pos c h) (Done (ok, pos', h')).
Proof. intros. cbn [safe captures_post]. auto. Qed.

Lemma captures_post_fail input pos c h pos' h' :
  well_sized n h' -> (List.length h <= List.length h')%nat ->
  (forall s, live h s -> s <> c -> contents h' s = contents h s) ->
  safe (captures_post n input pos c h) (Done (false, pos', h')).
Proof. intros. apply captures_post_done; auto. discriminate. Qed.

Lemma alternatives_loop_captures_keeps remainingPattern input inputPos captures :
  groups_within n remainingPattern -> 0 <= inputPos <= len input ->
  forall alternatives h,
  Forall (groups_within n) alternatives -> well_sized n h -> live h captures ->
  safe (captures_post n input inputPos captures h)
    (alternatives_loop_captures callCaptures remainingPattern alternatives
       input inputPos captures h).
Proof.
  intros Hg Hpos. induction alternatives as [|alt alts IH]; intros h Halts Hws Hl;
    cbn [alternatives_loop_captures].
  - apply captures_post_fail; [assumption|lia|reflexivity].
  - inversion Halts as [|? ? Halt Halts']; subst.
    destruct (snapshot_keeps n h captures Hws Hl)
      as (h1 & Hs & Hws1 & Hlen1 & Hl1 & Hold1).
    rewrite Hs. cbn [bind].
    eapply safe_bind;
      [apply (HCaptures alt input inputPos _ h1); assumption|].
    intros [[ok altPos] h2] (Hws2 & Hlen2 & Hf2 & Hb2). cbv beta iota.
    assert (Hold2 : forall s, live h s -> contents h2 s = contents h s).
    { intros s Hs'. rewrite Hf2; [apply Hold1; assumption| |apply live_ne; assumption].
      apply (live_mono h); [assumption|lia]. }
    assert (Next2 : safe (captures_post n input inputPos captures h)
              (alternatives_loop_captures callCaptures remainingPattern alts
                 input inputPos captures h2)).
    { eapply safe_impl; [|apply (IH h2); auto].
      - intros a. apply captures_post_weaken; [lia|lia|].
        intros s Hs' _. apply Hold2. assumption.
      - apply (live_mono h); [assumption|lia]. }
    destruct ok; [|exact Next2].
    specialize (Hb2 eq_refl).
    assert (Hl2 : live h2 (Slice (List.length h)))
      by (apply (live_mono h1); [assumption|lia]).
    eapply safe_bind;
      [apply (HCaptures remainingPattern input altPos _ h2); auto; lia|].
    intros [[ok2 finalPos] h3] (Hws3 & Hlen3 & Hf3 & Hb3). cbv beta iota.
    assert (Hold3 : forall s, live h s -> contents h3 s = contents h s).
    { intros s Hs'. rewrite Hf3; [apply Hold2; assumption| |apply live_ne; assumption].
      apply (live_mono h); [assumption|lia]. }
    destruct ok2.
    + specialize (Hb3 eq_refl). apply captures_post_done.
      * apply copy_well_sized; [assumption| |].
        -- apply (live_mono h); [assumption|lia].
        -- apply (live_mono h2); [assumption|lia].
      * rewrite copy_length. lia.
      * intros s Hs' Hne. rewrite copy_other by assumption.
        apply Hold3. assumption.
      * intros _. lia.
    + eapply safe_impl; [|apply (IH h3); auto].
      * intros a. apply captures_post_weaken; [lia|lia|].
        intros s Hs' _. apply Hold3. assumption.
      * apply (live_mono h); [assumption|lia].
Qed.

Lemma repeat_post_done input pos cp c h ok pos' h' :
  well_sized n h' -> (List.length h <= List.length h')%nat ->
  (forall s, live h s -> s <> cp -> s <> c -> contents h' s = contents h s) ->
  (ok = true -> pos <= pos' <= len input) ->
  safe (repeat_post n input pos cp c h) (Done (ok, pos', h')).
Proof. intros. cbn [safe repeat_post]. auto. Qed.

Lemma repeat_body_keeps matcher remainingPattern input inputPos cp captures h :
  groups_within_element n matcher -> groups_within n remainingPattern ->
  well_sized n h -> live h cp -> live h captures ->
  0 <= inputPos <= len input ->
  safe (repeat_post n input inputPos cp captures h)
    (repeat_body callCaptures callOnce callRepeat matcher remainingPattern
       input inputPos cp captures h).
Proof.
  intros Hm Hg Hws Hlcp Hlc Hpos. unfold repeat_body.
  destruct (snapshot_keeps n h cp Hws Hlcp)
    as (h1 & Hs & Hws1 & Hlen1 & Hl1 & Hold1).
  rewrite Hs. cbn [bind].
  eapply safe_bind;
    [apply (HCaptures remainingPattern input inputPos _ h1); assumption|].
  intros [[ok newPosRem] h2] (Hws2 & Hlen2 & Hf2 & Hb2). cbv beta iota.
  assert (Hold2 : forall s, live h s -> contents h2 s = contents h s).
  { intros s Hs'. rewrite Hf2; [apply Hold1; assumption| |apply live_ne; assumption].
    apply (live_mono h); [assumption|lia]. }
  destruct ok.
  { apply repeat_post_done.
    - apply copy_well_sized; [assumption| |].
      + apply (live_mono h); [assumption|lia].
      + apply (live_mono h1); [assumption|lia].
    - rewrite copy_length. lia.
    - intros s Hs' _ Hne. rewrite copy_other by assumption.
      apply Hold2. assumption.
    - assumption. }
  assert (Hlcp2 : live h2 cp) by (apply (live_mono h); [assumption|lia]).
  eapply safe_bind; [apply (HOnce matcher input inputPos cp h2); auto|].
  intros [[[ok2 nextPos] nextCp] h3] (Hws3 & Hlen3 & Hf3 & Hb3). cbv beta iota.
  assert (Hold3 : forall s, live h s -> contents h3 s = contents h s).
  { intros s Hs'. rewrite Hf3; [apply Hold2; assumption|].
    apply (live_mono h); [assumption|lia]. }
  destruct ok2; cbn [negb].
  - destruct (Hb3 eq_refl) as (Hl3 & _ & Hp3).
    assert (Hlcp3 : live h3 cp) by (apply (live_mono h); [assumption|lia]).
    eapply safe_impl;
      [|apply (HRepeat matcher remainingPattern input nextPos cp captures
                 (copy cp nextCp h3)); auto].
    + intros a. apply repeat_post_weaken; [lia|rewrite copy_length; lia|].
      intros s Hs' Hne _. rewrite copy_other by assumption.
      apply Hold3. assumption.
    + apply copy_well_sized; assumption.
    + apply live_copy. assumption.
    + apply live_copy. apply (live_mono h); [assumption|lia].
    + lia.
  - apply repeat_post_done; [assumption|lia| |discriminate].
    intros s Hs' _ _. apply Hold3. assumption.
Qed.

Lemma matchHereWithCaptures_loop_keeps p input :
  forall els inputPos captures h,
  Forall (groups_within_element n) els ->
  well_sized n h -> live h captures -> 0 <= inputPos <= len input ->
  safe (captures_post n input inputPos captures h)
    (matchHereWithCaptures_loop callCaptures callOnce callRepeat p els input
       inputPos captures h).
Proof.
  induction els as [|element rest IH]; intros inputPos captures h Hels Hws Hl Hpos;
    cbn [matchHereWithCaptures_loop].
  { destruct (endAnchor p);
      (apply captures_post_done; [assumption|lia|reflexivity|intros; lia]). }
  inversion Hels as [|? ? He Hrest]; subst.
  assert (Hrem : groups_within n
                   (mkPattern rest false (endAnchor p) (groupCount p))).
  { apply groups_within_rest. assumption. }
  set (remainingPattern := mkPattern rest false (endAnchor p) (groupCount p)) in *.
  assert (Single : safe (captures_post n input inputPos captures h)
            ('(ok, newPos, newCp, h) <- callOnce element input inputPos captures h ;;
             if negb ok then Done (false, 0, h)
             else matchHereWithCaptures_loop callCaptures callOnce callRepeat
                    p rest input newPos captures (copy captures newCp h))).
  { eapply safe_bind; [apply (HOnce element input inputPos captures h); auto|].
    intros [[[ok newPos] newCp] h1] (Hws1 & Hlen1 & Hf1 & Hb1). cbv beta iota.
    destruct ok; cbn [negb].
    - destruct (Hb1 eq_refl) as (Hl1 & _ & Hp1).
      assert (Hlc1 : live h1 captures) by (apply (live_mono h); assumption).
      eapply safe_impl;
        [|apply (IH newPos captures (copy captures newCp h1)); auto].
      + intros a. apply captures_post_weaken; [lia|rewrite copy_length; lia|].
        intros s Hs' Hne. rewrite copy_other by assumption. apply Hf1. assumption.
      + apply copy_well_sized; assumption.
      + apply live_copy. assumption.
      + lia.
    - apply captures_post_fail; [assumption|assumption|].
      intros s Hs' _. apply Hf1. assumption. }
  destruct element; try exact Single.
  - (* OneOrMoreMatcher *)
    destruct (snapshot_keeps n h captures Hws Hl)
      as (h1 & Hs & Hws1 & Hlen1 & Hl1 & Hold1).
    rewrite Hs. cbn [bind].
    eapply safe_bind;
      [apply (HOnce element input inputPos _ h1); assumption|].
    intros [[[ok newPos] newCp] h2] (Hws2 & Hlen2 & Hf2 & Hb2). cbv beta iota.
    assert (Hold2 : forall s, live h s -> contents h2 s = contents h s).
    { intros s Hs'. rewrite Hf2; [apply Hold1; assumption|].
      apply (live_mono h); [assumption|lia]. }
    destruct ok; cbn [negb].
    + destruct (Hb2 eq_refl) as (Hl2 & _ & Hp2).
      assert (Hlcp2 : live h2 (Slice (List.length h)))
        by (apply (live_mono h1); [assumption|lia]).
      eapply safe_impl;
        [|apply (HRepeat element remainingPattern input newPos
                   (Slice (List.length h)) captures
                   (copy (Slice (List.length h)) newCp h2)); auto].
      * intros [[ok' pos'] h'] (H1 & H2 & H3 & H4).
        rewrite copy_length in H2.
        apply captures_post_done;
          [assumption|lia| |intros Hok; specialize (H4 Hok); lia].
        intros s Hs' Hne. rewrite H3; auto.
        -- rewrite copy_other by (apply live_ne; assumption).
           apply Hold2. assumption.
        -- apply live_copy. apply (live_mono h); [assumption|lia].
        -- apply live_ne. assumption.
      * apply copy_well_sized; assumption.
      * apply live_copy. assumption.
      * apply live_copy. apply (live_mono h); [assumption|lia].
      * lia.
    + apply captures_post_fail; [assumption|lia|].
      intros s Hs' _. apply Hold2. assumption.
  - (* ZeroOrOneMatcher *)
    destruct (snapshot_keeps n h captures Hws Hl)
      as (h1 & Hs & Hws1 & Hlen1 & Hl1 & Hold1).
    rewrite Hs. cbn [bind].
    eapply safe_bind;
      [apply (HCaptures remainingPattern input inputPos _ h1); assumption|].
    intros [[ok newPos] h2] (Hws2 & Hlen2 & Hf2 & Hb2). cbv beta iota.
    assert (Hold2 : forall s, live h s -> contents h2 s = contents h s).
    { intros s Hs'. rewrite Hf2; [apply Hold1; assumption| |apply live_ne; assumption].
      apply (live_mono h); [assumption|lia]. }
    assert (Hlc2 : live h2 captures) by (apply (live_mono h); [assumption|lia]).
    destruct ok.
    { apply captures_post_done; [| | |assumption].
      - apply copy_well_sized; [assumption|assumption|].
        apply (live_mono h1); [assumption|lia].
      - rewrite copy_length. lia.
      - intros s Hs' Hne. rewrite copy_other by assumption.
        apply Hold2. assumption. }
    destruct (snapshot_keeps n h2 captures Hws2 Hlc2)
      as (h3 & Hs3 & Hws3 & Hlen3 & Hl3 & Hold3).
    rewrite Hs3. cbn [bind].
    eapply safe_bind;
      [apply (HOnce element input inputPos _ h3); assumption|].
    intros [[[ok1 newPos1] newCp] h4] (Hws4 & Hlen4 & Hf4 & Hb4). cbv beta iota.
    assert (Hold4 : forall s, live h s -> contents h4 s = contents h s).
    { intros s Hs'. rewrite Hf4; [rewrite Hold3; [apply Hold2; assumption|]|].
      - apply (live_mono h); [assumption|lia].
      - apply (live_mono h); [assumption|lia]. }
    destruct ok1; [|apply captures_post_fail; [assumption|lia|];
                    intros s Hs' _; apply Hold4; assumption].
    destruct (Hb4 eq_refl) as (Hl4 & Hfresh & Hp4).
    assert (Hne4 : forall s, live h s -> s <> newCp).
    { intros s Hs'. destruct Hfresh as [->| Hnl].
      - apply live_ne. apply (live_mono h); [assumption|lia].
      - intros ->. apply Hnl. apply (live_mono h); [assumption|lia]. }
    eapply safe_bind;
      [apply (HCaptures remainingPattern input newPos1 newCp h4); auto; lia|].
    intros [[ok2 newPos2] h5] (Hws5 & Hlen5 & Hf5 & Hb5). cbv beta iota.
    assert (Hold5 : forall s, live h s -> contents h5 s = contents h s).
    { intros s Hs'. rewrite Hf5; [apply Hold4; assumption| |apply Hne4; assumption].
      apply (live_mono h); [assumption|lia]. }
    destruct ok2.
    + apply captures_post_done.
      * apply copy_well_sized; [assumption| |].
        -- apply (live_mono h); [assumption|lia].
        -- apply (live_mono h4); [assumption|lia].
      * rewrite copy_length. lia.
      * intros s Hs' Hne. rewrite copy_other by assumption.
        apply Hold5. assumption.
      * intros _. specialize (Hb5 eq_refl). lia.
    + apply captures_post_fail; [assumption|lia|].
      intros s Hs' _. apply Hold5. assumption.
  - (* AlternationMatcher *)
    apply alternatives_loop_captures_keeps; auto.
    apply groups_within_alternation. assumption.
Qed.

End KeepsBodies.

Lemma captures_keeps fuel :
  (forall p input pos c h,
     groups_within n p -> well_sized n h -> live h c -> 0 <= pos <= len input ->
     safe (captures_post n input pos c h)
       (matchHereWithCaptures IsDigit IsLetter fuel p input pos c h)) /\
  (forall e input pos c h,
     groups_within_element n e -> well_sized n h -> live h c ->
     0 <= pos <= len input ->
     safe (once_post n input pos c h)
       (matchElementOnce IsDigit IsLetter fuel e input pos c h)) /\
  (forall m rem input pos cp c h,
     groups_within_element n m -> groups_within n rem ->
     well_sized n h -> live h cp -> live h c -> 0 <= pos <= len input ->
     safe (repeat_post n input pos cp c h)
       (repeat_loop IsDigit IsLetter fuel m rem input pos cp c h)).
Proof.
  induction fuel as [|fuel (IHc & IHo & IHr)].
  - repeat split; intros; exact I.
  - split; [|split].
    + intros p input pos c h Hg Hws Hl Hpos.
      rewrite matchHereWithCaptures_S. unfold matchHereWithCaptures_body.
      apply matchHereWithCaptures_loop_keeps; auto.
      destruct p as [els sa ea gc]. cbn [elements].
      apply (groups_within_elements n els sa ea gc). assumption.
    + intros e input pos c h Hg Hws Hl Hpos.
      rewrite matchElementOnce_S.
      apply matchElementOnce_body_keeps; auto.
    + intros m rem input pos cp c h Hm Hg Hws Hlcp Hl Hpos.
      rewrite repeat_loop_S.
      apply repeat_body_keeps; auto.
Qed.

Lemma state_keeps fuel : forall p input pos c h,
  groups_within n p -> well_sized n h -> live h c -> 0 <= pos <= len input ->
  safe (state_post n input pos h)
    (matchHereWithState IsDigit IsLetter fuel p input pos c h).
Proof.
  induction fuel as [|fuel IH]; intros p input pos c h Hg Hws Hl Hpos.
  - exact I.
  - rewrite matchHereWithState_S.
    apply matchHereWithState_body_keeps; auto.
    apply (captures_keeps fuel).
Qed.

Lemma make_keeps gc h :
  0 <= gc -> n = Z.to_nat gc -> well_sized n h ->
  exists h', make gc h = Done (Slice (List.length h), h') /\
    well_sized n h' /\ live h' (Slice (List.length h)).
Proof.
  intros Hgc Hn Hws. rewrite make_eq by assumption.
  eexists. split; [reflexivity|]. split.
  - apply Forall_app. split; [assumption|].
    constructor; [|constructor]. rewrite repeat_length. auto.
  - simpl. rewrite length_app. cbn [List.length]. lia.
Qed.

Lemma Match_loop_keeps fuel p input :
  0 <= groupCount p -> n = Z.to_nat (groupCount p) -> groups_within n p ->
  forall k startPos h, 0 <= startPos -> well_sized n h ->
  Match_loop IsDigit IsLetter fuel p input k startPos h <> Panic.
Proof.
  intros Hgc Hn Hg. induction k as [|k IH]; intros startPos h Hpos Hws;
    [discriminate|].
  rewrite Match_loop_S.
  destruct (startPos <=? len input) eqn:E; [|discriminate].
  apply Z.leb_le in E.
  destruct (make_keeps (groupCount p) h Hgc Hn Hws) as (h1 & Hm & Hws1 & Hl1).
  rewrite Hm. cbn [bind].
  pose proof (state_keeps fuel p input startPos (Slice (List.length h)) h1
                Hg Hws1 Hl1 (conj Hpos E)) as S.
  destruct (matchHereWithState IsDigit IsLetter fuel p input startPos
              (Slice (List.length h)) h1) as [[[[ok pos'] c'] h2]| |];
    [|contradiction|discriminate].
  cbn [bind]. destruct ok; [discriminate|].
  destruct S as (Hws2 & _). apply IH; [lia|assumption].
Qed.

Lemma Match_keeps fuel p input :
  0 <= groupCount p -> n = Z.to_nat (groupCount p) -> groups_within n p ->
  Match IsDigit IsLetter fuel p input <> Panic.
Proof.
  intros Hgc Hn Hg. unfold Match. destruct (startAnchor p).
  - destruct (make_keeps (groupCount p) [] Hgc Hn) as (h1 & Hm & Hws1 & Hl1);
      [constructor|].
    rewrite Hm. cbn [bind].
    pose proof (state_keeps fuel p input 0 (Slice (List.length (@nil (list gostring)))) h1
                  Hg Hws1 Hl1 (conj (Z.le_refl 0) (len_nonneg input))) as S.
    destruct (matchHereWithState IsDigit IsLetter fuel p input 0
                (Slice (List.length (@nil (list gostring)))) h1)
      as [[[[ok pos'] c'] h2]| |]; [discriminate|contradiction|discriminate].
  - apply Match_loop_keeps; auto; [lia|constructor].
Qed.

End Keeps.

Lemma ParsePattern_groups_within pattern p :
  ParsePattern pattern = Ok p ->
  0 <= groupCount p /\ groups_within (Z.to_nat (groupCount p)) p.
Proof.
  intros H. destruct (ParseRunes_groups _ _ H) as [Hgc Hg].
  split; [assumption|]. unfold groups_within. rewrite Hg.
  apply Forall_forall. intros i Hi. apply count_up_In in Hi. lia.
Qed.

Section KeepsTheorems.

Variable IsDigit : rune -> bool.
Variable IsLetter : rune -> bool.

(** X15.  Match never panics on a compiled pattern: no index into the input
    or into a capture slice is out of range, whatever the input. *)
Theorem Match_never_panics
    (pattern : gostring) (p : Pattern) (input : list rune) (fuel : nat) :
  ParsePattern pattern = Ok p ->
  Match IsDigit IsLetter fuel p input <> Panic.
Proof.
  intros H. destruct (ParsePattern_groups_within pattern p H) as [Hgc Hg].
  apply (Match_keeps IsDigit IsLetter (Z.to_nat (groupCount p))); auto.
Qed.

(** X16.  matchHereWithState, on a pattern whose groups have an entry in the
    capture slices, never panics; when it returns, no capture array has been
    dropped or resized, and a match ends between the position it started at
    and the end of the input. *)
Theorem matchHereWithState_stays_within_the_input
    (n : nat) (p : Pattern) (input : list rune) (pos : Z) (c : slice)
    (h : store) (fuel : nat) :
  groups_within n p -> well_sized n h -> live h c -> 0 <= pos <= len input ->
  safe (state_post n input pos h)
    (matchHereWithState IsDigit IsLetter fuel p input pos c h).
Proof. apply state_keeps. Qed.

(** X17.  matchElementOnce never panics and never writes to a capture array
    it was given: it works on a copy, so that every array of the store is as
    it was before the call, and the slice it returns with a match is the one
    it was given or a new one. *)
Theorem matchElementOnce_keeps_the_captures
    (n : nat) (e : PatternElement) (input : list rune) (pos : Z) (c : slice)
    (h : store) (fuel : nat) :
  groups_within_element n e -> well_sized n h -> live h c ->
  0 <= pos <= len input ->
  safe (once_post n input pos c h)
    (matchElementOnce IsDigit IsLetter fuel e input pos c h).
Proof. apply (captures_keeps IsDigit IsLetter n fuel). Qed.

(** X18.  matchHereWithCaptures never panics and writes to no capture array
    of its caller other than the one it is given. *)
Theorem matchHereWithCaptures_writes_its_captures_only
    (n : nat) (p : Pattern) (input : list rune) (pos : Z) (c : slice)
    (h : store) (fuel : nat) :
  groups_within n p -> well_sized n h -> live h c -> 0 <= pos <= len input ->
  safe (captures_post n input pos c h)
    (matchHereWithCaptures IsDigit IsLetter fuel p input pos c h).
Proof. apply (captures_keeps IsDigit IsLetter n fuel). Qed.

End KeepsTheorems.

Lemma Match_never_panics_witness :
  exists p, ParsePattern (lit "((a)|b)+\2") = Ok p /\
    Match asciiIsDigit asciiIsLetter 9 p (runes "aba") <> Panic.
Proof.
  destruct (ParsePattern (lit "((a)|b)+\2")) as [p| |] eqn:E;
    [|vm_compute in E; discriminate|vm_compute in E; discriminate].
  exists p. split; [reflexivity|].
  apply (Match_never_panics asciiIsDigit asciiIsLetter (lit "((a)|b)+\2") p
           (runes "aba") 9 E).
Defined.

Lemma matchHereWithState_stays_within_the_input_witness :
  groups_within 1 (mkPattern [GroupMatcher 1 (mkPattern [LiteralMatcher 97] false false 1)]
                     false false 1) /\
  well_sized 1 [[[]]] /\ live [[[]]] (Slice 0) /\ 0 <= 0 <= len [97; 98] /\
  safe (state_post 1 [97; 98] 0 [[[]]])
    (matchHereWithState asciiIsDigit asciiIsLetter 3
       (mkPattern [GroupMatcher 1 (mkPattern [LiteralMatcher 97] false false 1)]
          false false 1) [97; 98] 0 (Slice 0) [[[]]]).
Proof.
  assert (H1 : groups_within 1
                 (mkPattern [GroupMatcher 1 (mkPattern [LiteralMatcher 97] false false 1)]
                    false false 1)).
  { constructor; [lia|constructor]. }
  assert (H2 : well_sized 1 [[[]]]) by (constructor; [reflexivity|constructor]).
  assert (H3 : live [[[]]] (Slice 0)) by (simpl; lia).
  assert (H4 : 0 <= 0 <= len [97; 98]) by (vm_compute; split; discriminate).
  split; [exact H1|]. split; [exact H2|]. split; [exact H3|]. split; [exact H4|].
  apply (matchHereWithState_stays_within_the_input asciiIsDigit asciiIsLetter 1
           _ [97; 98] 0 (Slice 0) [[[]]] 3 H1 H2 H3 H4).
Defined.

Lemma matchElementOnce_keeps_the_captures_witness :
  groups_within_element 1 (GroupMatcher 1 (mkPattern [LiteralMatcher 97] false false 1)) /\
  well_sized 1 [[[]]] /\ live [[[]]] (Slice 0) /\ 0 <= 0 <= len [97; 98] /\
  safe (once_post 1 [97; 98] 0 (Slice 0) [[[]]])
    (matchElementOnce asciiIsDigit asciiIsLetter 3
       (GroupMatcher 1 (mkPattern [LiteralMatcher 97] false false 1))
       [97; 98] 0 (Slice 0) [[[]]]).
Proof.
  assert (H1 : groups_within_element 1
                 (GroupMatcher 1 (mkPattern [LiteralMatcher 97] false false 1))).
  { constructor; [lia|constructor]. }
  assert (H2 : well_sized 1 [[[]]]) by (constructor; [reflexivity|constructor]).
  assert (H3 : live [[[]]] (Slice 0)) by (simpl; lia).
  assert (H4 : 0 <= 0 <= len [97; 98]) by (vm_compute; split; discriminate).
  split; [exact H1|]. split; [exact H2|]. split; [exact H3|]. split; [exact H4|].
  apply (matchElementOnce_keeps_the_captures asciiIsDigit asciiIsLetter 1
           _ [97; 98] 0 (Slice 0) [[[]]] 3 H1 H2 H3 H4).
Defined.

Lemma matchHereWithCaptures_writes_its_captures_only_witness :
  groups_within 1 (mkPattern [GroupMatcher 1 (mkPattern [LiteralMatcher 97] false false 1)]
                     false false 1) /\
  well_sized 1 [[[]]] /\ live [[[]]] (Slice 0) /\ 0 <= 0 <= len [97; 98] /\
  safe (captures_post 1 [97; 98] 0 (Slice 0) [[[]]])
    (matchHereWithCaptures asciiIsDigit asciiIsLetter 4
       (mkPattern [GroupMatcher 1 (mkPattern [LiteralMatcher 97] false false 1)]
          false false 1) [97; 98] 0 (Slice 0) [[[]]]).
Proof.
  assert (H1 : groups_within 1
                 (mkPattern [GroupMatcher 1 (mkPattern [LiteralMatcher 97] false false 1)]
                    false false 1)).
  { constructor; [lia|constructor]. }
  assert (H2 : well_sized 1 [[[]]]) by (constructor; [reflexivity|constructor]).
  assert (H3 : live [[[]]] (Slice 0)) by (simpl; lia).
  assert (H4 : 0 <= 0 <= len [97; 98]) by (vm_compute; split; discriminate).
  split; [exact H1|]. split; [exact H2|]. split; [exact H3|]. split; [exact H4|].
  apply (matchHereWithCaptures_writes_its_captures_only asciiIsDigit asciiIsLetter 1
           _ [97; 98] 0 (Slice 0) [[[]]] 4 H1 H2 H3 H4).
Defined.


(* ------------------------------------------------------------------ *)
(** ** Runs that end *)

Lemma settled_pure {A : Type} (r : outcome A) :
  r <> OutOfFuel -> settled (fun _ => r).
Proof. intros H. exists 0%nat, r. auto. Qed.

Lemma settled_done {A : Type} (a : A) : settled (fun _ => Done a).
Proof. apply settled_pure. discriminate. Qed.

Lemma settled_bind {A B : Type} (m : nat -> outcome A)
    (k : nat -> A -> outcome B) :
  settled m ->
  (forall a, (exists F, m F = Done a) -> settled (fun fuel => k fuel a)) ->
  settled (fun fuel => bind (m fuel) (k fuel)).
Proof.
  intros (F1 & r1 & Hr1 & H1) Hk. destruct r1 as [a| |]; [| |congruence].
  - destruct (Hk a) as (F2 & r2 & Hr2 & H2).
    { exists F1. apply H1. lia. }
    exists (Nat.max F1 F2), r2. split; [assumption|].
    intros fuel Hf. rewrite H1 by lia. cbn [bind]. apply H2. lia.
  - exists F1, Panic. split; [discriminate|].
    intros fuel Hf. rewrite H1 by lia. reflexivity.
Qed.

Lemma settled_ext {A : Type} (f g : nat -> outcome A) :
  (forall fuel, f fuel = g fuel) -> settled f -> settled g.
Proof.
  intros E (F & r & Hr & H). exists F, r. split; [assumption|].
  intros fuel Hf. rewrite <- E. apply H. assumption.
Qed.

Lemma settled_succ {A : Type} (f g : nat -> outcome A) :
  (forall fuel, g (S fuel) = f fuel) -> settled f -> settled g.
Proof.
  intros E (F & r & Hr & H). exists (S F), r. split; [assumption|].
  intros fuel Hf. destruct fuel as [|fuel]; [lia|].
  rewrite E. apply H. lia.
Qed.

Lemma orPanic_ends {A : Type} (o : option A) : orPanic o <> OutOfFuel.
Proof. destruct o; discriminate. Qed.

Lemma make_ends k h : make k h <> OutOfFuel.
Proof. unfold make. destruct (k <? 0); discriminate. Qed.

Lemma snapshot_ends c h : snapshot c h <> OutOfFuel.
Proof.
  unfold snapshot, make. destruct (len (contents h c) <? 0); discriminate.
Qed.

Lemma assign_ends h s i v : assign h s i v <> OutOfFuel.
Proof.
  unfold assign. destruct ((0 <=? i) && (i <? len (contents h s))); discriminate.
Qed.

Lemma load_ends h s i : load h s i <> OutOfFuel.
Proof. apply orPanic_ends. Qed.

Lemma compareRunes_ends input capRunes : forall p,
  compareRunes input p capRunes <> OutOfFuel.
Proof.
  induction capRunes as [|c capRunes IH]; intros p; cbn [compareRunes].
  - discriminate.
  - destruct (elem_at input p) as [r|]; cbn [orPanic bind]; [|discriminate].
    destruct (negb (r =? c)); [discriminate|apply IH].
Qed.


Lemma list_sum_cons x l : list_sum (x :: l) = (x + list_sum l)%nat.
Proof. reflexivity. Qed.

Lemma size_of_eq els sa ea gc :
  size_of (mkPattern els sa ea gc) = S (list_sum (map size_of_element els)).
Proof.
  cbn [size_of]. f_equal. induction els as [|e els IH]; [reflexivity|].
  cbn [map]. rewrite list_sum_cons, IH. reflexivity.
Qed.

Lemma size_of_alternation alts :
  size_of_element (AlternationMatcher alts) = S (list_sum (map size_of alts)).
Proof.
  cbn [size_of_element]. f_equal. induction alts as [|p alts IH]; [reflexivity|].
  cbn [map]. rewrite list_sum_cons, IH. reflexivity.
Qed.

Lemma size_of_element_pos e : (1 <= size_of_element e)%nat.
Proof. destruct e; cbn [size_of_element]; lia. Qed.

Lemma plus_on_runes_eq els sa ea gc :
  plus_on_runes (mkPattern els sa ea gc) <-> Forall plus_on_runes_element els.
Proof.
  cbn [plus_on_runes]. induction els as [|e els IH].
  - split; [constructor|trivial].
  - rewrite IH. split.
    + intros [H1 H2]. constructor; assumption.
    + intros H. inversion H; subst. auto.
Qed.

Lemma plus_on_runes_alternation alts :
  plus_on_runes_element (AlternationMatcher alts) <-> Forall plus_on_runes alts.
Proof.
  cbn [plus_on_runes_element]. induction alts as [|p alts IH].
  - split; [constructor|trivial].
  - rewrite IH. split.
    + intros [H1 H2]. constructor; assumption.
    + intros H. inversion H; subst. auto.
Qed.

Lemma plus_on_runes_atom m : is_atom m = true -> plus_on_runes_element m.
Proof. destruct m; try discriminate; intros _; exact I. Qed.

Section Settles.

Variable IsDigit : rune -> bool.
Variable IsLetter : rune -> bool.

Abbreviation mHWC := (matchHereWithCaptures IsDigit IsLetter).
Abbreviation mEO := (matchElementOnce IsDigit IsLetter).
Abbreviation rloop := (repeat_loop IsDigit IsLetter).
Abbreviation mHWS := (matchHereWithState IsDigit IsLetter).

(** A single occurrence of a single-rune element takes one rune. *)
Lemma once_rune_result m fuel input pos c h nextPos c' h' :
  is_atom m = true ->
  mEO fuel m input pos c h = Done (true, nextPos, c', h') ->
  nextPos = pos + 1 /\ pos < len input.
Proof.
  intros Hm. destruct fuel as [|fuel]; [discriminate|].
  rewrite matchElementOnce_S.
  assert (A : (if pos >=? len input then Done (false, 0, nilslice, h)
               else r <- orPanic (elem_at input pos) ;;
                    if negb (ElementMatch IsDigit IsLetter m r)
                    then Done (false, 0, nilslice, h)
                    else Done (true, pos + 1, c, h))
              = Done (true, nextPos, c', h') ->
              nextPos = pos + 1 /\ pos < len input).
  { destruct (pos >=? len input) eqn:E; [discriminate|].
    rewrite Z.geb_leb in E. apply Z.leb_gt in E.
    destruct (elem_at input pos) as [r|]; cbn [orPanic bind]; [|discriminate].
    destruct (negb (ElementMatch IsDigit IsLetter m r)); [discriminate|].
    intros H. inversion H; subst. auto. }
  destruct m; try discriminate; exact A.
Qed.

Section Step.

Variable N : nat.

Hypothesis IHp : forall p, (size_of p < N)%nat -> plus_on_runes p ->
  forall input pos c h, settled (fun fuel => mHWC fuel p input pos c h).

Lemma once_settles e input pos c h :
  (size_of_element e <= N)%nat -> plus_on_runes_element e ->
  settled (fun fuel => mEO fuel e input pos c h).
Proof.
  intros Hsize Hplus.
  apply (settled_succ
           (fun fuel => matchElementOnce_body IsDigit IsLetter (mHWC fuel)
                          e input pos c h));
    [intros fuel; apply matchElementOnce_S|].
  assert (Rune : settled (fun _ : nat =>
            if pos >=? len input then Done (false, 0, nilslice, h)
            else r <- orPanic (elem_at input pos) ;;
                 if negb (ElementMatch IsDigit IsLetter e r)
                 then Done (false, 0, nilslice, h)
                 else Done (true, pos + 1, c, h))).
  { apply settled_pure. destruct (pos >=? len input); [discriminate|].
    destruct (elem_at input pos) as [r|]; cbn [orPanic bind]; [|discriminate].
    destruct (negb (ElementMatch IsDigit IsLetter e r)); discriminate. }
  destruct e; try exact Rune; cbn [matchElementOnce_body].
  - (* GroupMatcher *)
    cbn [size_of_element plus_on_runes_element] in Hsize, Hplus.
    apply (settled_bind (fun _ => snapshot c h)); [apply settled_pure, snapshot_ends|].
    intros [cp h1] _.
    apply (settled_bind (fun fuel => mHWC fuel pattern input pos cp h1));
      [apply IHp; [lia|assumption]|].
    intros [[ok newPos] h2] _. destruct ok; [|apply settled_done].
    apply settled_pure.
    destruct (subslice input pos newPos) as [matched|]; cbn [orPanic bind];
      [|discriminate].
    destruct (assign h2 cp (index - 1) (string_of_runes matched)) eqn:A;
      cbn [bind]; try discriminate.
    exfalso. exact (assign_ends _ _ _ _ A).
  - (* BackReferenceMatcher *)
    apply settled_pure.
    destruct ((index - 1 <? 0) || (index - 1 >=? len (contents h c)));
      [discriminate|].
    destruct (load h c (index - 1)) as [capStr| |] eqn:L; cbn [bind];
      [|discriminate|exfalso; exact (load_ends _ _ _ L)].
    destruct capStr as [|b capStr]; [discriminate|].
    destruct (pos + len (runes_of_string (b :: capStr)) >? len input);
      [discriminate|].
    destruct (compareRunes input pos (runes_of_string (b :: capStr)))
      as [matched| |] eqn:C; cbn [bind];
      [|discriminate|exfalso; exact (compareRunes_ends _ _ _ C)].
    destruct matched; discriminate.
Qed.

Lemma repeat_settles m rem input :
  is_atom m = true -> (size_of rem < N)%nat -> plus_on_runes rem ->
  forall d pos cp c h, (Z.to_nat (len input - pos) < d)%nat ->
  settled (fun fuel => rloop fuel m rem input pos cp c h).
Proof.
  intros Hm Hsize Hplus.
  assert (HN : (size_of_element m <= N)%nat).
  { destruct m; try discriminate; cbn [size_of_element];
      destruct rem; cbn [size_of] in Hsize; lia. }
  induction d as [|d IH]; intros pos cp c h Hd; [lia|].
  apply (settled_succ
           (fun fuel => repeat_body (mHWC fuel) (mEO fuel) (rloop fuel)
                          m rem input pos cp c h));
    [intros fuel; apply repeat_loop_S|].
  unfold repeat_body.
  apply (settled_bind (fun _ => snapshot cp h)); [apply settled_pure, snapshot_ends|].
  intros [tryCp h1] _.
  apply (settled_bind (fun fuel => mHWC fuel rem input pos tryCp h1));
    [apply IHp; assumption|].
  intros [[ok newPosRem] h2] _. destruct ok; [apply settled_done|].
  apply (settled_bind (fun fuel => mEO fuel m input pos cp h2));
    [apply once_settles; [assumption|apply plus_on_runes_atom; assumption]|].
  intros [[[ok2 nextPos] nextCp] h3] (F & HF).
  destruct ok2; cbn [negb]; [|apply settled_done].
  destruct (once_rune_result m F input pos cp h2 nextPos nextCp h3 Hm HF)
    as [-> Hlt].
  apply IH. lia.
Qed.

Lemma alternatives_loop_captures_settles rem input pos c :
  (size_of rem < N)%nat -> plus_on_runes rem ->
  forall alts h,
  Forall (fun alt => (size_of alt < N)%nat /\ plus_on_runes alt) alts ->
  settled (fun fuel =>
    alternatives_loop_captures (mHWC fuel) rem alts input pos c h).
Proof.
  intros Hsize Hplus. induction alts as [|alt alts IH]; intros h Halts;
    cbn [alternatives_loop_captures].
  - apply settled_done.
  - inversion Halts as [|? ? [Ha1 Ha2] Halts']; subst.
    apply (settled_bind (fun _ => snapshot c h)); [apply settled_pure, snapshot_ends|].
    intros [cp h1] _.
    apply (settled_bind (fun fuel => mHWC fuel alt input pos cp h1));
      [apply IHp; assumption|].
    intros [[ok altPos] h2] _. destruct ok; [|apply IH; assumption].
    apply (settled_bind (fun fuel => mHWC fuel rem input altPos cp h2));
      [apply IHp; assumption|].
    intros [[ok2 finalPos] h3] _. destruct ok2; [apply settled_done|].
    apply IH; assumption.
Qed.

Lemma sizes_of_alternatives alts :
  Forall plus_on_runes alts ->
  (S (list_sum (map size_of alts)) <= N)%nat ->
  Forall (fun alt => (size_of alt < N)%nat /\ plus_on_runes alt) alts.
Proof.
  induction 1 as [|alt alts Ha _ IH]; intros Hs; [constructor|].
  cbn [map] in Hs. rewrite list_sum_cons in Hs. constructor; [split; [lia|assumption]|].
  apply IH. lia.
Qed.

Lemma loop_settles p input :
  forall els pos c h,
  (list_sum (map size_of_element els) < N)%nat ->
  Forall plus_on_runes_element els ->
  settled (fun fuel =>
    matchHereWithCaptures_loop (mHWC fuel) (mEO fuel) (rloop fuel)
      p els input pos c h).
Proof.
  induction els as [|element rest IH]; intros pos c h Hsize Hplus;
    cbn [matchHereWithCaptures_loop].
  { destruct (endAnchor p); apply settled_done. }
  inversion Hplus as [|? ? He Hrest]; subst.
  cbn [map] in Hsize. rewrite list_sum_cons in Hsize.
  pose proof (size_of_element_pos element) as Hpos1.
  set (remainingPattern := mkPattern rest false (endAnchor p) (groupCount p)).
  assert (Hrs : (size_of remainingPattern < N)%nat).
  { unfold remainingPattern. rewrite size_of_eq. lia. }
  assert (Hrp : plus_on_runes remainingPattern).
  { unfold remainingPattern. apply plus_on_runes_eq. assumption. }
  assert (Single : settled (fun fuel =>
            '(ok, newPos, newCp, h) <- mEO fuel element input pos c h ;;
            if negb ok then Done (false, 0, h)
            else matchHereWithCaptures_loop (mHWC fuel) (mEO fuel) (rloop fuel)
                   p rest input newPos c (copy c newCp h))).
  { apply (settled_bind (fun fuel => mEO fuel element input pos c h));
      [apply once_settles; [lia|assumption]|].
    intros [[[ok newPos] newCp] h1] _. destruct ok; cbn [negb];
      [|apply settled_done].
    apply IH; [lia|assumption]. }
  destruct element; try exact Single.
  - (* OneOrMoreMatcher *)
    cbn [plus_on_runes_element size_of_element] in He, Hsize.
    apply (settled_bind (fun _ => snapshot c h)); [apply settled_pure, snapshot_ends|].
    intros [cp h1] _.
    apply (settled_bind (fun fuel => mEO fuel element input pos cp h1));
      [apply once_settles; [lia|apply plus_on_runes_atom; assumption]|].
    intros [[[ok newPos] newCp] h2] _. destruct ok; cbn [negb];
      [|apply settled_done].
    apply (repeat_settles element remainingPattern input He Hrs Hrp
             (S (Z.to_nat (len input - newPos)))). lia.
  - (* ZeroOrOneMatcher *)
    cbn [plus_on_runes_element size_of_element] in He, Hsize.
    apply (settled_bind (fun _ => snapshot c h)); [apply settled_pure, snapshot_ends|].
    intros [cpZero h1] _.
    apply (settled_bind (fun fuel => mHWC fuel remainingPattern input pos cpZero h1));
      [apply IHp; assumption|].
    intros [[ok newPos] h2] _. destruct ok; [apply settled_done|].
    apply (settled_bind (fun _ => snapshot c h2)); [apply settled_pure, snapshot_ends|].
    intros [cp h3] _.
    apply (settled_bind (fun fuel => mEO fuel element input pos cp h3));
      [apply once_settles; [lia|assumption]|].
    intros [[[ok1 newPos1] newCp] h4] _. destruct ok1; [|apply settled_done].
    apply (settled_bind (fun fuel => mHWC fuel remainingPattern input newPos1 newCp h4));
      [apply IHp; assumption|].
    intros [[ok2 newPos2] h5] _. destruct ok2; apply settled_done.
  - (* AlternationMatcher *)
    apply alternatives_loop_captures_settles; try assumption.
    apply sizes_of_alternatives.
    + apply plus_on_runes_alternation. assumption.
    + rewrite size_of_alternation in Hsize. lia.
Qed.

End Step.

Lemma captures_settles : forall N p,
  (size_of p < N)%nat -> plus_on_runes p ->
  forall input pos c h, settled (fun fuel => mHWC fuel p input pos c h).
Proof.
  induction N as [|N IH]; intros p Hsize Hplus input pos c h; [lia|].
  apply (settled_succ
           (fun fuel => matchHereWithCaptures_body (mHWC fuel) (mEO fuel)
                          (rloop fuel) p input pos c h));
    [intros fuel; apply matchHereWithCaptures_S|].
  unfold matchHereWithCaptures_body.
  destruct p as [els sa ea gc]. rewrite size_of_eq in Hsize.
  apply (loop_settles N IH); [cbn [elements]; lia|].
  apply plus_on_runes_eq in Hplus. exact Hplus.
Qed.

Lemma once_always_settles e input pos c h :
  plus_on_runes_element e ->
  settled (fun fuel => mEO fuel e input pos c h).
Proof.
  intros Hplus. apply (once_settles (size_of_element e)); [|lia|assumption].
  intros p Hs Hp. apply (captures_settles (size_of_element e)); assumption.
Qed.

Section StateStep.

Variable N : nat.

Hypothesis IHs : forall p, (size_of p < N)%nat -> plus_on_runes p ->
  forall input pos c h, settled (fun fuel => mHWS fuel p input pos c h).

Lemma oneOrMore_loop_settles rem m input :
  (size_of rem < N)%nat -> plus_on_runes rem ->
  forall k currentPos pos c h,
  settled (fun fuel =>
    oneOrMore_loop IsDigit IsLetter (mHWS fuel) rem m input k currentPos pos c h).
Proof.
  intros Hsize Hplus. induction k as [|k IH]; intros currentPos pos c h;
    cbn [oneOrMore_loop].
  - apply settled_done.
  - destruct (currentPos <=? len input); [|apply settled_done].
    apply (settled_bind (fun fuel => mHWS fuel rem input currentPos c h));
      [apply IHs; assumption|].
    intros [[[ok finalPos] finalCaptures] h1] _. destruct ok; [apply settled_done|].
    destruct (currentPos <? len input); [|apply settled_done].
    destruct (elem_at input currentPos) as [r|]; cbn [orPanic bind];
      [|apply settled_pure; discriminate].
    destruct (ElementMatch IsDigit IsLetter m r); [apply IH|apply settled_done].
Qed.

Lemma alternatives_loop_settles rem input pos :
  (size_of rem < N)%nat -> plus_on_runes rem ->
  forall alts c h,
  Forall (fun alt => (size_of alt < N)%nat /\ plus_on_runes alt) alts ->
  settled (fun fuel => alternatives_loop (mHWS fuel) rem alts input pos c h).
Proof.
  intros Hsize Hplus. induction alts as [|alt alts IH]; intros c h Halts;
    cbn [alternatives_loop].
  - apply settled_done.
  - inversion Halts as [|? ? [Ha1 Ha2] Halts']; subst.
    apply (settled_bind (fun fuel => mHWS fuel alt input pos c h));
      [apply IHs; assumption|].
    intros [[[ok newPos] newCaptures] h1] _. destruct ok.
    + apply IHs; assumption.
    + apply IH; assumption.
Qed.

Lemma state_body_settles p input pos c h :
  (size_of p <= N)%nat -> plus_on_runes p ->
  settled (fun fuel =>
    matchHereWithState_body IsDigit IsLetter (mHWS fuel) (mEO fuel)
      p input pos c h).
Proof.
  intros Hsize Hplus. unfold matchHereWithState_body.
  destruct p as [els sa ea gc]. cbn [elements endAnchor groupCount].
  rewrite size_of_eq in Hsize. apply plus_on_runes_eq in Hplus.
  destruct els as [|element rest].
  { destruct (negb ea || (pos =? len input)); apply settled_done. }
  inversion Hplus as [|? ? He Hrest]; subst.
  cbn [map] in Hsize. rewrite list_sum_cons in Hsize.
  pose proof (size_of_element_pos element) as Hpos1.
  set (remaining := mkPattern rest false ea gc).
  assert (Hrs : (size_of remaining < N)%nat).
  { unfold remaining. rewrite size_of_eq. lia. }
  assert (Hrp : plus_on_runes remaining).
  { unfold remaining. apply plus_on_runes_eq. assumption. }
  assert (Single : settled (fun fuel =>
            '(ok, newPos, newCaptures, h) <- mEO fuel element input pos c h ;;
            if ok then mHWS fuel remaining input newPos newCaptures h
            else Done (false, pos, c, h))).
  { apply (settled_bind (fun fuel => mEO fuel element input pos c h));
      [apply once_always_settles; assumption|].
    intros [[[ok newPos] newCaptures] h1] _.
    destruct ok; [apply IHs; assumption|apply settled_done]. }
  destruct element; try exact Single.
  - (* OneOrMoreMatcher *)
    cbn [plus_on_runes_element] in He.
    apply (settled_bind (fun fuel => mEO fuel element input pos c h));
      [apply once_always_settles; apply plus_on_runes_atom; assumption|].
    intros [[[ok newPos] newCaptures] h1] _. destruct ok; cbn [negb];
      [|apply settled_done].
    apply oneOrMore_loop_settles; assumption.
  - (* ZeroOrOneMatcher *)
    cbn [plus_on_runes_element] in He.
    apply (settled_bind (fun fuel => mHWS fuel remaining input pos c h));
      [apply IHs; assumption|].
    intros [[[ok newPos] newCaptures] h1] _. destruct ok; [apply settled_done|].
    apply (settled_bind (fun fuel => mEO fuel element input pos c h1));
      [apply once_always_settles; assumption|].
    intros [[[ok1 newPos1] newCaptures1] h2] _.
    destruct ok1; [apply IHs; assumption|apply settled_done].
  - (* AlternationMatcher *)
    apply alternatives_loop_settles; try assumption.
    apply sizes_of_alternatives.
    + apply plus_on_runes_alternation. assumption.
    + rewrite size_of_alternation in Hsize. lia.
  - (* GroupMatcher *)
    cbn [plus_on_runes_element size_of_element] in He, Hsize.
    apply (settled_bind (fun fuel => mHWS fuel pattern input pos c h));
      [apply IHs; [lia|assumption]|].
    intros [[[ok newPos] c1] h1] _. destruct ok; [|apply settled_done].
    destruct (subslice input pos newPos) as [matched|]; cbn [orPanic bind];
      [|apply settled_pure; discriminate].
    destruct (assign h1 c (index - 1) (string_of_runes matched)) as [h2| |] eqn:A;
      cbn [bind];
      [|apply settled_pure; discriminate|exfalso; exact (assign_ends _ _ _ _ A)].
    apply (settled_bind (fun fuel => mHWS fuel remaining input newPos c h2));
      [apply IHs; assumption|].
    intros [[[ok2 finalPos] finalCaptures] h3] _. destruct ok2; apply settled_done.
  - (* BackReferenceMatcher *)
    destruct ((index <? 1) || (index >? len (contents h c)));
      [apply settled_done|].
    destruct (load h c (index - 1)) as [captured| |] eqn:L; cbn [bind];
      [|apply settled_pure; discriminate|exfalso; exact (load_ends _ _ _ L)].
    destruct captured as [|b captured]; [apply settled_done|].
    destruct (pos + len (b :: captured) >? len input); [apply settled_done|].
    destruct (subslice input pos (pos + len (b :: captured))) as [s|];
      cbn [orPanic bind]; [|apply settled_pure; discriminate].
    destruct (negb (list_eqb (string_of_runes s) (b :: captured)));
      [apply settled_done|].
    apply IHs; assumption.
Qed.

End StateStep.

Lemma state_settles : forall N p,
  (size_of p < N)%nat -> plus_on_runes p ->
  forall input pos c h, settled (fun fuel => mHWS fuel p input pos c h).
Proof.
  induction N as [|N IH]; intros p Hsize Hplus input pos c h; [lia|].
  apply (settled_succ
           (fun fuel => matchHereWithState_body IsDigit IsLetter (mHWS fuel)
                          (mEO fuel) p input pos c h));
    [intros fuel; apply matchHereWithState_S|].
  apply (state_body_settles N IH); [lia|assumption].
Qed.

Lemma Match_loop_settles p input :
  plus_on_runes p ->
  forall k startPos h,
  settled (fun fuel => Match_loop IsDigit IsLetter fuel p input k startPos h).
Proof.
  intros Hplus. induction k as [|k IH]; intros startPos h.
  - apply settled_done.
  - apply (settled_ext
             (fun fuel =>
                if startPos <=? len input then
                  '(captures, h) <- make (groupCount p) h ;;
                  '(ok, _, _, h) <- mHWS fuel p input startPos captures h ;;
                  if ok then Done true
                  else Match_loop IsDigit IsLetter fuel p input k (startPos + 1) h
                else Done false));
      [intros fuel; symmetry; apply Match_loop_S|].
    destruct (startPos <=? len input); [|apply settled_done].
    apply (settled_bind (fun _ => make (groupCount p) h));
      [apply settled_pure, make_ends|].
    intros [captures h1] _.
    apply (settled_bind (fun fuel => mHWS fuel p input startPos captures h1));
      [apply (state_settles (S (size_of p))); [lia|assumption]|].
    intros [[[ok pos'] c'] h2] _. destruct ok; [apply settled_done|apply IH].
Qed.

Lemma Match_settles p input :
  plus_on_runes p ->
  settled (fun fuel => Match IsDigit IsLetter fuel p input).
Proof.
  intros Hplus. unfold Match. destruct (startAnchor p).
  - apply (settled_bind (fun _ => make (groupCount p) []));
      [apply settled_pure, make_ends|].
    intros [captures h1] _.
    apply (settled_bind (fun fuel => mHWS fuel p input 0 captures h1));
      [apply (state_settles (S (size_of p))); [lia|assumption]|].
    intros [[[ok pos'] c'] h2] _. apply settled_done.
  - apply Match_loop_settles. assumption.
Qed.

End Settles.


(* ------------------------------------------------------------------ *)
(** ** Patterns whose groups are not under a plus *)

Lemma no_plus_after_paren_suffix pre : forall s,
  no_plus_after_paren (pre ++ s) = true -> no_plus_after_paren s = true.
Proof.
  induction pre as [|a pre IH]; intros s H; [assumption|].
  apply IH. cbn [app no_plus_after_paren] in H.
  destruct (pre ++ s) as [|b t]; [reflexivity|].
  apply andb_true_iff in H. apply H.
Qed.

Lemma no_plus_after_paren_prefix s : forall post,
  no_plus_after_paren (s ++ post) = true -> no_plus_after_paren s = true.
Proof.
  induction s as [|a s IH]; intros post H; [reflexivity|].
  cbn [app no_plus_after_paren] in *.
  destruct s as [|b s']; [reflexivity|].
  cbn [app] in H. apply andb_true_iff in H. destruct H as [H1 H2].
  rewrite H1. cbn [andb]. apply (IH post). exact H2.
Qed.

Lemma no_plus_after_paren_infix x y z :
  no_plus_after_paren (x ++ y ++ z) = true -> no_plus_after_paren y = true.
Proof.
  intros H. apply no_plus_after_paren_suffix in H.
  apply no_plus_after_paren_prefix in H. assumption.
Qed.

Lemma no_plus_after_paren_close x after e :
  no_plus_after_paren (x ++ RPAREN :: after) = true ->
  fst (quantifier e after) = e \/ fst (quantifier e after) = ZeroOrOneMatcher e.
Proof.
  intros H. apply no_plus_after_paren_suffix in H.
  destruct after as [|r after']; [left; reflexivity|].
  cbn [no_plus_after_paren] in H. apply andb_true_iff in H. destruct H as [H _].
  change (RPAREN =? RPAREN) with true in H. cbn [andb negb] in H.
  apply negb_true_iff in H. unfold quantifier. rewrite H.
  destruct (r =? QUESTION); [right|left]; reflexivity.
Qed.

Lemma pieces_infix rs : forall depth cur,
  Forall (fun piece => exists pre post, cur ++ rs = pre ++ piece ++ post)
    (pieces depth cur rs).
Proof.
  induction rs as [|r rs IH]; intros depth cur.
  - cbn [pieces]. destruct cur as [|x cur]; constructor; [|constructor].
    exists [], []. rewrite !app_nil_r. reflexivity.
  - assert (Hstep : forall d,
              Forall (fun piece => exists pre post,
                        cur ++ r :: rs = pre ++ piece ++ post)
                (pieces d (cur ++ [r]) rs)).
    { intros d. specialize (IH d (cur ++ [r])).
      rewrite <- app_assoc in IH. exact IH. }
    cbn [pieces].
    destruct (r =? LPAREN); [apply Hstep|].
    destruct (r =? RPAREN); [apply Hstep|].
    destruct ((r =? BAR) && (depth =? 0)); [|apply Hstep].
    constructor.
    + exists [], (r :: rs). reflexivity.
    + eapply Forall_impl; [|apply (IH depth [])].
      intros piece (pre & post & E). cbn [app] in E.
      exists (cur ++ r :: pre), post. rewrite E, <- app_assoc. reflexivity.
Qed.

Lemma plus_on_runes_groupInner alts cnt :
  Forall plus_on_runes alts -> plus_on_runes (groupInner alts cnt).
Proof.
  intros H. unfold groupInner.
  assert (S : forall p n, plus_on_runes p -> plus_on_runes (set_groupCount p n)).
  { intros [els sa ea gc] n Hp. exact Hp. }
  apply S. destruct alts as [|a [|b alts]].
  - exact (conj I I).
  - inversion H; assumption.
  - apply plus_on_runes_eq. constructor; [|constructor].
    apply plus_on_runes_alternation. assumption.
Qed.

Lemma plus_on_runes_flat e : is_flat e = true -> plus_on_runes_element e.
Proof.
  destruct e; try discriminate; cbn [is_flat plus_on_runes_element]; auto.
  intros H. apply plus_on_runes_atom. assumption.
Qed.

Lemma parseElements_plus_on_runes : forall fuel rs cnt els cnt',
  no_plus_after_paren rs = true ->
  parseElements fuel rs cnt = Ok (els, cnt') ->
  Forall plus_on_runes_element els.
Proof.
  induction fuel as [|fuel IH]; intros rs cnt els cnt' Hn; [discriminate|].
  destruct rs as [|r rest]; [intros E; inversion E; constructor|].
  destruct (r =? LPAREN) eqn:E.
  - apply Z.eqb_eq in E; subst r. rewrite parseElements_group.
    destruct (findClose 1 rest) as [[inner after]|] eqn:F; [|discriminate].
    destruct (findClose_inv rest 1 inner after (Z.le_refl 1) F) as (Hrest & _ & _).
    subst rest.
    destruct (parseAlternatives (parsePatternInternal_with (parseElements fuel))
                inner (cnt + 1)) as [[alts cnt1]| |] eqn:A; try discriminate.
    cbn [rbind].
    destruct (quantifier (GroupMatcher (cnt + 1) (groupInner alts cnt1)) after)
      as [element after'] eqn:Q.
    intros Em. apply (emit_inv (Some element)) in Em.
    destruct Em as (els' & Hp & ->).
    assert (Ha : after' = skip_quantifier after)
      by (rewrite <- (quantifier_snd (GroupMatcher (cnt + 1) (groupInner alts cnt1)) after), Q;
          reflexivity).
    destruct (skip_quantifier_suffix after) as (pre & Hpre). rewrite <- Ha in Hpre.
    assert (Hinner : no_plus_after_paren inner = true).
    { apply (no_plus_after_paren_infix [LPAREN] inner (RPAREN :: after)). exact Hn. }
    assert (Hg : plus_on_runes (groupInner alts cnt1)).
    { apply plus_on_runes_groupInner.
      unfold parseAlternatives in A. rewrite parseAlternatives_loop_pieces in A.
      apply (parse_each_Forall plus_on_runes
               (parsePatternInternal_with (parseElements fuel))
               (pieces 0 [] inner)) with (alts0 := []) (cnt := cnt + 1) (cnt' := cnt1);
        [|constructor|exact A].
      eapply Forall_impl; [|apply (pieces_infix inner 0 [])].
      intros piece (x & z & Hpiece) cnt0 p cnt0'. cbn [app] in Hpiece.
      rewrite parsePatternInternal_with_eq.
      destruct (parseElements fuel (body_of piece) cnt0) as [[pels pcnt]| |] eqn:P;
        try discriminate.
      cbn [rbind]. intros Ep; inversion Ep; subst.
      apply plus_on_runes_eq. eapply IH; [|exact P].
      unfold body_of.
      destruct (stripStart_suffix piece) as (s1 & Hs1).
      destruct (stripEnd_prefix (snd (stripStart piece))) as (s2 & Hs2).
      apply (no_plus_after_paren_infix (x ++ s1) _ (s2 ++ z)).
      rewrite <- app_assoc, (app_assoc _ s2 z), <- Hs2, (app_assoc s1), <- Hs1.
      exact Hinner. }
    constructor.
    + assert (He : element = fst (quantifier (GroupMatcher (cnt + 1) (groupInner alts cnt1)) after))
        by (rewrite Q; reflexivity).
      change (LPAREN :: inner ++ RPAREN :: after)
        with ((LPAREN :: inner) ++ RPAREN :: after) in Hn.
      destruct (no_plus_after_paren_close _ after
                  (GroupMatcher (cnt + 1) (groupInner alts cnt1)) Hn) as [Hq|Hq];
        rewrite He, Hq; exact Hg.
    + eapply IH; [|exact Hp].
      apply (no_plus_after_paren_suffix (LPAREN :: inner ++ RPAREN :: pre)).
      cbn [app]. rewrite <- app_assoc. cbn [app]. rewrite <- Hpre. exact Hn.
  - rewrite parseElements_atom by assumption.
    intros Em. apply emit_inv in Em. destruct Em as (els' & Hp & ->).
    destruct (scanAtom_suffix r rest) as (pre & Hpre & _).
    assert (Hels' : Forall plus_on_runes_element els').
    { eapply IH; [|exact Hp]. apply (no_plus_after_paren_suffix pre).
      rewrite <- Hpre. exact Hn. }
    destruct (fst (scanAtom r rest)) as [e|] eqn:Fe; [|assumption].
    constructor; [|assumption].
    apply plus_on_runes_flat. eapply scanAtom_flat; eauto.
Qed.

Lemma ParseRunes_plus_on_runes rs p :
  no_plus_after_paren rs = true -> ParseRunes rs = Ok p -> plus_on_runes p.
Proof.
  intros Hn. unfold ParseRunes, parsePatternInternal.
  rewrite parsePatternInternal_with_eq.
  destruct (parseElements (S (List.length rs)) (body_of rs) 0)
    as [[els cnt]| |] eqn:P; try discriminate.
  cbn [rbind]. intros E; inversion E; subst.
  apply plus_on_runes_eq. eapply parseElements_plus_on_runes; [|exact P].
  unfold body_of.
  destruct (stripStart_suffix rs) as (s1 & Hs1).
  destruct (stripEnd_prefix (snd (stripStart rs))) as (s2 & Hs2).
  apply (no_plus_after_paren_infix s1 _ s2).
  rewrite <- Hs2, <- Hs1. exact Hn.
Qed.

Section Returns.

Variable IsDigit : rune -> bool.
Variable IsLetter : rune -> bool.

(** X19.  Match returns on every input when no closing parenthesis of the
    pattern is followed by a plus, that is when no group is repeated by [+]:
    given enough fuel it ends, without a panic, and more fuel does not
    change its result. *)
Theorem Match_returns_when_no_group_is_under_plus
    (pattern : gostring) (p : Pattern) (input : list rune) :
  ParsePattern pattern = Ok p ->
  no_plus_after_paren (runes_of_string pattern) = true ->
  exists fuel b, forall fuel', (fuel <= fuel')%nat ->
    Match IsDigit IsLetter fuel' p input = Done b.
Proof.
  intros Hp Hn.
  pose proof (ParseRunes_plus_on_runes _ p Hn Hp) as Hplus.
  destruct (Match_settles IsDigit IsLetter p input Hplus) as (F & r & Hr & HF).
  destruct r as [b| |]; [|exfalso|congruence].
  - exists F, b. exact HF.
  - destruct (ParsePattern_groups_within pattern p Hp) as [Hgc Hg].
    apply (Match_keeps IsDigit IsLetter (Z.to_nat (groupCount p)) F p input);
      auto.
Qed.

End Returns.

Lemma Match_returns_when_no_group_is_under_plus_witness :
  exists p, ParsePattern (lit "((a|b)?c+)?\1") = Ok p /\
    no_plus_after_paren (runes_of_string (lit "((a|b)?c+)?\1")) = true /\
    exists fuel b, forall fuel', (fuel <= fuel')%nat ->
      Match asciiIsDigit asciiIsLetter fuel' p (runes "accacc") = Done b.
Proof.
  destruct (ParsePattern (lit "((a|b)?c+)?\1")) as [p| |] eqn:E;
    [|vm_compute in E; discriminate|vm_compute in E; discriminate].
  exists p. split; [reflexivity|].
  assert (H : no_plus_after_paren (runes_of_string (lit "((a|b)?c+)?\1")) = true)
    by (vm_compute; reflexivity).
  split; [exact H|].
  apply (Match_returns_when_no_group_is_under_plus asciiIsDigit asciiIsLetter
           (lit "((a|b)?c+)?\1") p (runes "accacc") E H).
Defined.


(* ------------------------------------------------------------------ *)
(** ** The two matchers on patterns without groups *)

Lemma yields_done {A : Type} (a : A) : yields (fun _ => Done a) a.
Proof. exists 0%nat. reflexivity. Qed.

Lemma yields_bind {A B : Type} (m : nat -> outcome A)
    (k : nat -> A -> outcome B) (a : A) (b : B) :
  yields m a -> yields (fun fuel => k fuel a) b ->
  yields (fun fuel => bind (m fuel) (k fuel)) b.
Proof.
  intros (F1 & H1) (F2 & H2). exists (Nat.max F1 F2).
  intros fuel Hf. rewrite H1 by lia. cbn [bind]. apply H2. lia.
Qed.

Lemma yields_succ {A : Type} (f g : nat -> outcome A) (a : A) :
  (forall fuel, g (S fuel) = f fuel) -> yields f a -> yields g a.
Proof.
  intros E (F & H). exists (S F). intros fuel Hf.
  destruct fuel as [|fuel]; [lia|]. rewrite E. apply H. lia.
Qed.

Lemma snapshot_done c h :
  snapshot c h = Done (Slice (List.length h), copy (Slice (List.length h)) c
                         (h ++ [repeat [] (Z.to_nat (len (contents h c)))])).
Proof.
  unfold snapshot. rewrite make_eq by apply len_nonneg. reflexivity.
Qed.

Section TwoMatchers.

Variable IsDigit : rune -> bool.
Variable IsLetter : rune -> bool.

Abbreviation mHWC := (matchHereWithCaptures IsDigit IsLetter).
Abbreviation mEO := (matchElementOnce IsDigit IsLetter).
Abbreviation rloop := (repeat_loop IsDigit IsLetter).
Abbreviation mHWS := (matchHereWithState IsDigit IsLetter).
Abbreviation here := (flat_here IsDigit IsLetter).
Abbreviation acc := (accepts IsDigit IsLetter).

Lemma once_atom_yields m input pos c h :
  is_atom m = true -> 0 <= pos ->
  yields (fun fuel => mEO fuel m input pos c h)
    (if acc m input pos then (true, pos + 1, c, h) else (false, 0, nilslice, h)).
Proof.
  intros Hm Hpos. exists 1%nat. intros fuel Hf.
  destruct fuel as [|fuel]; [lia|].
  rewrite (once_atom IsDigit IsLetter fuel m input pos c h Hm Hpos).
  destruct (acc m input pos); reflexivity.
Qed.

Section Rest.

Variables (rest : list PatternElement) (ea : bool) (gc : Z) (input : list rune).

Hypothesis IHrest : forall pos c h, 0 <= pos ->
  exists r,
    yields (fun fuel => mHWC fuel (mkPattern rest false ea gc) input pos c h) r /\
    tells r (here rest ea input pos).

Lemma repeat_flat m :
  is_atom m = true ->
  forall k cur cp c h,
  0 <= cur <= len input -> (Z.to_nat (len input + 1 - cur) <= k)%nat ->
  exists r,
    yields (fun fuel =>
      rloop fuel m (mkPattern rest false ea gc) input cur cp c h) r /\
    tells r (flat_loop IsDigit IsLetter (here rest ea input) m input k cur).
Proof.
  intros Hm. induction k as [|k IH]; intros cur cp c h Hcur Hk; [lia|].
  cbn [flat_loop].
  destruct (cur <=? len input) eqn:E; [|apply Z.leb_gt in E; lia].
  assert (Step : forall r,
            yields (fun fuel =>
              repeat_body (mHWC fuel) (mEO fuel) (rloop fuel) m
                (mkPattern rest false ea gc) input cur cp c h) r ->
            yields (fun fuel =>
              rloop fuel m (mkPattern rest false ea gc) input cur cp c h) r).
  { intros r. apply yields_succ. intros fuel. apply repeat_loop_S. }
  unfold repeat_body in Step. rewrite snapshot_done in Step. cbn [bind] in Step.
  destruct (IHrest cur (Slice (List.length h))
              (copy (Slice (List.length h)) cp
                 (h ++ [repeat [] (Z.to_nat (len (contents h cp)))])))
    as ([[ok1 e1] h2] & Y1 & T1); [lia|].
  destruct (here rest ea input cur) as [e|] eqn:He; cbn [tells fst snd] in T1.
  - destruct T1 as [-> ->].
    eexists. split.
    + apply Step. eapply yields_bind; [exact Y1|]. apply yields_done.
    + split; reflexivity.
  - subst ok1.
    pose proof (once_atom_yields m input cur cp h2 Hm (proj1 Hcur)) as Y2.
    destruct (acc m input cur) eqn:Ha.
    + apply accepts_lt in Ha.
      destruct (IH (cur + 1) cp c (copy cp cp h2)) as (r & Y3 & T3); [lia|lia|].
      exists r. split; [|exact T3].
      apply Step. eapply yields_bind; [exact Y1|].
      eapply yields_bind; [exact Y2|]. exact Y3.
    + eexists. split.
      * apply Step. eapply yields_bind; [exact Y1|].
        eapply yields_bind; [exact Y2|]. apply yields_done.
      * reflexivity.
Qed.

End Rest.

Lemma captures_loop_flat : forall els,
  forallb is_plain els = true ->
  forall p input pos c h, 0 <= pos ->
  exists r,
    yields (fun fuel =>
      matchHereWithCaptures_loop (mHWC fuel) (mEO fuel) (rloop fuel)
        p els input pos c h) r /\
    tells r (here els (endAnchor p) input pos).
Proof.
  induction els as [|element rest IH]; intros Hplain p input pos c h Hpos;
    cbn [matchHereWithCaptures_loop flat_here].
  { destruct (endAnchor p); cbn [negb orb].
    - eexists. split; [apply yields_done|].
      destruct (pos =? len input); [split|]; reflexivity.
    - eexists. split; [apply yields_done|]. split; reflexivity. }
  cbn [forallb] in Hplain. apply andb_true_iff in Hplain.
  destruct Hplain as [He Hrest].
  assert (IHrem : forall pos c h, 0 <= pos ->
            exists r,
              yields (fun fuel =>
                mHWC fuel (mkPattern rest false (endAnchor p) (groupCount p))
                  input pos c h) r /\
              tells r (here rest (endAnchor p) input pos)).
  { intros pos0 c0 h0 Hpos0.
    destruct (IH Hrest (mkPattern rest false (endAnchor p) (groupCount p))
                input pos0 c0 h0 Hpos0) as (r & Y & T).
    exists r. split; [|exact T].
    eapply yields_succ; [|exact Y]. intros fuel.
    apply matchHereWithCaptures_S. }
  assert (Single : is_atom element = true ->
            exists r,
              yields (fun fuel =>
                '(ok, newPos, newCp, h) <- mEO fuel element input pos c h ;;
                if negb ok then Done (false, 0, h)
                else matchHereWithCaptures_loop (mHWC fuel) (mEO fuel)
                       (rloop fuel) p rest input newPos c (copy c newCp h)) r /\
              tells r (if acc element input pos
                       then here rest (endAnchor p) input (pos + 1) else None)).
  { intros Ha.
    pose proof (once_atom_yields element input pos c h Ha Hpos) as Y1.
    destruct (acc element input pos).
    - destruct (IH Hrest p input (pos + 1) c (copy c c h)) as (r & Y2 & T2);
        [lia|].
      exists r. split; [|exact T2].
      eapply yields_bind; [exact Y1|]. exact Y2.
    - eexists. split; [eapply yields_bind; [exact Y1|]; apply yields_done|].
      reflexivity. }
  destruct element; try discriminate; try (apply Single; reflexivity).
  - (* OneOrMoreMatcher *)
    cbn [is_plain] in He. rewrite snapshot_done. cbn [bind].
    pose proof (once_atom_yields element input pos (Slice (List.length h))
                  (copy (Slice (List.length h)) c
                     (h ++ [repeat [] (Z.to_nat (len (contents h c)))]))
                  He Hpos) as Y1.
    destruct (acc element input pos) eqn:Ha.
    + apply accepts_lt in Ha.
      destruct (repeat_flat rest (endAnchor p) (groupCount p) input IHrem
                  element He (Z.to_nat (len input + 1 - (pos + 1))) (pos + 1)
                  (Slice (List.length h)) c
                  (copy (Slice (List.length h)) (Slice (List.length h))
                     (copy (Slice (List.length h)) c
                        (h ++ [repeat [] (Z.to_nat (len (contents h c)))]))))
        as (r & Y2 & T2); [lia|lia|].
      exists r. split; [|exact T2].
      eapply yields_bind; [exact Y1|]. exact Y2.
    + eexists. split; [eapply yields_bind; [exact Y1|]; apply yields_done|].
      reflexivity.
  - (* ZeroOrOneMatcher *)
    cbn [is_plain] in He. rewrite snapshot_done. cbn [bind].
    destruct (IHrem pos (Slice (List.length h))
                (copy (Slice (List.length h)) c
                   (h ++ [repeat [] (Z.to_nat (len (contents h c)))])) Hpos)
      as ([[ok1 e1] h2] & Y1 & T1).
    destruct (here rest (endAnchor p) input pos) as [e|] eqn:He0;
      cbn [tells fst snd] in T1.
    + destruct T1 as [-> ->]. eexists. split.
      * eapply yields_bind; [exact Y1|]. apply yields_done.
      * split; reflexivity.
    + subst ok1.
      pose proof (once_atom_yields element input pos (Slice (List.length h2))
                    (copy (Slice (List.length h2)) c
                       (h2 ++ [repeat [] (Z.to_nat (len (contents h2 c)))]))
                    He Hpos) as Y2.
      destruct (acc element input pos) eqn:Ha.
      * destruct (IHrem (pos + 1) (Slice (List.length h2))
                    (copy (Slice (List.length h2)) c
                       (h2 ++ [repeat [] (Z.to_nat (len (contents h2 c)))])))
          as ([[ok3 e3] h4] & Y3 & T3); [lia|].
        destruct (here rest (endAnchor p) input (pos + 1)) as [e|] eqn:He1;
          cbn [tells fst snd] in T3.
        -- destruct T3 as [-> ->]. eexists. split.
           ++ eapply yields_bind; [exact Y1|]. cbv beta iota.
              rewrite snapshot_done. cbn [bind].
              eapply yields_bind; [exact Y2|].
              eapply yields_bind; [exact Y3|]. apply yields_done.
           ++ split; reflexivity.
        -- subst ok3. eexists. split.
           ++ eapply yields_bind; [exact Y1|]. cbv beta iota.
              rewrite snapshot_done. cbn [bind].
              eapply yields_bind; [exact Y2|].
              eapply yields_bind; [exact Y3|]. apply yields_done.
           ++ reflexivity.
      * eexists. split.
        -- eapply yields_bind; [exact Y1|]. cbv beta iota.
           rewrite snapshot_done. cbn [bind].
           eapply yields_bind; [exact Y2|]. apply yields_done.
        -- reflexivity.
Qed.

(** X20.  On a pattern without groups and backreferences the two matchers
    agree: matchHereWithCaptures, as run on the body of a group under a
    quantifier, finds a match exactly when matchHereWithState does, and the
    two matches end at the same position; matchHereWithState moreover leaves
    the captures and the store as they were. *)
Theorem the_two_matchers_agree_without_groups
    (els : list PatternElement) (sa ea : bool) (gc : Z)
    (input : list rune) (pos : Z) (c : slice) (h : store) :
  forallb is_plain els = true -> 0 <= pos ->
  exists fuel ok e h1, forall fuel', (fuel <= fuel')%nat ->
    mHWC fuel' (mkPattern els sa ea gc) input pos c h = Done (ok, e, h1) /\
    exists e',
      mHWS fuel' (mkPattern els sa ea gc) input pos c h = Done (ok, e', c, h) /\
      (ok = true -> e' = e).
Proof.
  intros Hplain Hpos.
  assert (Hflat : forallb is_flat els = true).
  { clear - Hplain. induction els as [|x els IH]; [reflexivity|].
    cbn [forallb] in *. apply andb_true_iff in Hplain. destruct Hplain as [H1 H2].
    rewrite (IH H2), andb_true_r. destruct x; try discriminate; exact H1. }
  destruct (captures_loop_flat els Hplain (mkPattern els sa ea gc) input pos c h Hpos)
    as ([[ok e] h1] & (F & Y) & T).
  cbn [endAnchor] in T.
  pose proof (fun fuel Hf =>
                state_flat IsDigit IsLetter els Hflat fuel sa ea gc input pos c h
                  Hf Hpos (or_intror Hplain)) as St.
  exists (Nat.max (S F) (S (List.length els))), ok, e, h1.
  intros fuel' Hf. destruct fuel' as [|fuel']; [lia|].
  rewrite matchHereWithCaptures_S. unfold matchHereWithCaptures_body.
  cbn [elements]. rewrite Y by lia. split; [reflexivity|].
  specialize (St (S fuel') ltac:(lia)).
  destruct (here els ea input pos) as [e0|] eqn:He; cbn [tells fst snd] in T.
  - destruct T as [-> ->]. exists e0. split; [exact St|reflexivity].
  - subst ok. destruct St as (pos' & Hs). exists pos'.
    split; [exact Hs|discriminate].
Qed.

End TwoMatchers.

Lemma the_two_matchers_agree_without_groups_witness :
  forallb is_plain [OneOrMoreMatcher (LiteralMatcher 97); LiteralMatcher 98] = true /\
  0 <= 0 /\
  exists fuel ok e h1, forall fuel', (fuel <= fuel')%nat ->
    matchHereWithCaptures asciiIsDigit asciiIsLetter fuel'
      (mkPattern [OneOrMoreMatcher (LiteralMatcher 97); LiteralMatcher 98]
         false false 0) [97; 97; 98] 0 nilslice [] = Done (ok, e, h1) /\
    exists e',
      matchHereWithState asciiIsDigit asciiIsLetter fuel'
        (mkPattern [OneOrMoreMatcher (LiteralMatcher 97); LiteralMatcher 98]
           false false 0) [97; 97; 98] 0 nilslice [] = Done (ok, e', nilslice, []) /\
      (ok = true -> e' = e).
Proof.
  assert (H1 : forallb is_plain
                 [OneOrMoreMatcher (LiteralMatcher 97); LiteralMatcher 98] = true)
    by reflexivity.
  assert (H2 : 0 <= 0) by lia.
  split; [exact H1|]. split; [exact H2|].
  apply (the_two_matchers_agree_without_groups asciiIsDigit asciiIsLetter
           [OneOrMoreMatcher (LiteralMatcher 97); LiteralMatcher 98]
           false false 0 [97; 97; 98] 0 nilslice [] H1 H2).
Defined.


(* ------------------------------------------------------------------ *)
(** ** The second version *)

Lemma V2_quantifier_suffix e rest :
  exists pre, rest = pre ++ snd (V2.quantifier e rest).
Proof.
  destruct rest as [|r rest]; [exists []; reflexivity|].
  unfold V2.quantifier. destruct (r =? PLUS); [exists [r]|exists []]; reflexivity.
Qed.

Lemma V2_parseElements_total : forall n rs,
  (List.length rs < n)%nat ->
  exists els, forall fuel, (List.length rs < fuel)%nat ->
    V2.parseElements fuel rs = Ok els.
Proof.
  induction n as [|n IH]; intros rs Hlen; [lia|].
  destruct rs as [|r rest].
  { exists []. intros fuel Hf. destruct fuel; [simpl in Hf; lia|reflexivity]. }
  simpl in Hlen.
  assert (Step : forall (e : V2.PatternElement) rest',
            (exists pre, rest = pre ++ rest') ->
            exists els, forall fuel, (List.length rest' < fuel)%nat ->
              (let (element, after) := V2.quantifier e rest' in
               rbind (V2.parseElements fuel after) (fun els => Ok (element :: els)))
              = Ok els).
  { intros e rest' (pre & Hpre).
    destruct (V2_quantifier_suffix e rest') as (pre' & Hpre').
    assert (Hl : (List.length (snd (V2.quantifier e rest')) <= List.length rest)%nat).
    { apply (f_equal (@List.length rune)) in Hpre, Hpre'.
      rewrite length_app in Hpre, Hpre'. lia. }
    destruct (IH (snd (V2.quantifier e rest'))) as (els & H1); [lia|].
    exists (fst (V2.quantifier e rest') :: els). intros fuel Hf.
    destruct (V2.quantifier e rest') as [element after]. cbn [fst snd] in *.
    rewrite H1; [reflexivity|].
    apply (f_equal (@List.length rune)) in Hpre'. rewrite length_app in Hpre'. lia. }
  destruct (r =? BACKSLASH) eqn:E1.
  { destruct rest as [|c rest'].
    - exists []. intros fuel Hf. destruct fuel as [|[|fuel]]; simpl in Hf; try lia.
      cbn [V2.parseElements]. rewrite E1. reflexivity.
    - destruct (Step (if c =? 100 then V2.DigitMatcher
                      else if c =? 119 then V2.AlphanumericMatcher
                      else V2.LiteralMatcher c) rest') as (els & H1).
      { exists [c]. reflexivity. }
      exists els. intros fuel Hf. destruct fuel as [|fuel]; [simpl in Hf; lia|].
      cbn [V2.parseElements]. rewrite E1. apply H1. simpl in Hf. lia. }
  destruct (r =? LBRACKET) eqn:E2.
  { set (nr := match rest with
               | c :: rest' => if c =? CARET then (true, rest') else (false, rest)
               | [] => (false, rest)
               end).
    assert (Hnr : exists pre, rest = pre ++ snd nr).
    { subst nr. destruct rest as [|c rest']; [exists []; reflexivity|].
      destruct (c =? CARET); [exists [c]|exists []]; reflexivity. }
    destruct Hnr as (pre1 & Hpre1).
    pose proof (setChars_app (snd nr)) as Happ.
    destruct (tl_suffix (snd (setChars (snd nr)))) as (pre3 & Hpre3).
    assert (Hsuf : exists pre, rest = pre ++ tl (snd (setChars (snd nr)))).
    { exists (pre1 ++ fst (setChars (snd nr)) ++ pre3).
      rewrite <- !app_assoc, <- Hpre3, <- Happ. assumption. }
    destruct (Step (V2.CharacterSetMatcher (fst (setChars (snd nr))) (fst nr))
                _ Hsuf) as (els & H1).
    assert (Hl : (List.length (tl (snd (setChars (snd nr)))) <= List.length rest)%nat).
    { destruct Hsuf as (pre & Hpre).
      apply (f_equal (@List.length rune)) in Hpre.
      rewrite length_app in Hpre. lia. }
    exists els. intros fuel Hf. destruct fuel as [|fuel]; [simpl in Hf; lia|].
    cbn [V2.parseElements]. rewrite E1, E2. fold nr.
    destruct nr as [negated rest1]. cbn [fst snd] in *.
    destruct (setChars rest1) as [chars rest2]. cbn [fst snd] in *.
    apply H1. simpl in Hf. lia. }
  destruct (Step (V2.LiteralMatcher r) rest) as (els & H1);
    [exists []; reflexivity|].
  exists els. intros fuel Hf. destruct fuel as [|fuel]; [simpl in Hf; lia|].
  cbn [V2.parseElements]. rewrite E1, E2. apply H1. simpl in Hf. lia.
Qed.

Lemma V2_ParsePattern_eq pattern :
  V2.ParsePattern pattern =
  rbind (V2.parseElements (S (List.length (body_of (runes_of_string pattern))))
           (body_of (runes_of_string pattern))) (fun els =>
  Ok (V2.mkPattern els (fst (stripStart (runes_of_string pattern)))
        (fst (stripEnd (snd (stripStart (runes_of_string pattern))))))).
Proof.
  unfold V2.ParsePattern, body_of.
  destruct (stripStart (runes_of_string pattern)) as [sa r1]. cbn [fst snd].
  destruct (stripEnd r1) as [ea r2]. reflexivity.
Qed.

Section SecondVersion.

Variable IsDigit : rune -> bool.
Variable IsLetter : rune -> bool.

Abbreviation EM2 := (V2.ElementMatch IsDigit IsLetter).
Abbreviation here2 := (flat_here IsDigit IsLetter).

Lemma of_V2_match e r : ElementMatch IsDigit IsLetter (of_V2 e) r = EM2 e r.
Proof. induction e; cbn [of_V2 ElementMatch V2.ElementMatch]; auto. Qed.

Lemma accepts_of_V2 e input pos r :
  elem_at input pos = Some r ->
  accepts IsDigit IsLetter (of_V2 e) input pos = EM2 e r.
Proof. intros H. unfold accepts. rewrite H. apply of_V2_match. Qed.

(** The run of a repeated element ends at the first rune it does not
    accept, or at the end of the input. *)
Lemma V2_run_loop e input : forall k pos,
  0 <= pos <= len input -> (Z.to_nat (len input - pos) < k)%nat ->
  exists q, V2.run_loop IsDigit IsLetter e input k pos = Done q /\
    pos <= q <= len input /\
    run_of IsDigit IsLetter (of_V2 e) input pos q /\
    accepts IsDigit IsLetter (of_V2 e) input q = false.
Proof.
  induction k as [|k IH]; intros pos Hpos Hk; [lia|].
  cbn [V2.run_loop]. destruct (pos <? len input) eqn:E.
  - apply Z.ltb_lt in E.
    destruct (elem_at_Some input pos ltac:(lia)) as (r & Hr). rewrite Hr.
    cbn [orPanic bind]. destruct (EM2 e r) eqn:Em.
    + destruct (IH (pos + 1)) as (q & H1 & H2 & H3 & H4); [lia|lia|].
      exists q. split; [exact H1|]. split; [lia|]. split; [|exact H4].
      intros i Hi. destruct (Z.eq_dec i pos) as [->|Hne].
      * rewrite (accepts_of_V2 e input pos r Hr). exact Em.
      * apply H3. lia.
    + exists pos. split; [reflexivity|]. split; [lia|]. split.
      * intros i Hi. lia.
      * rewrite (accepts_of_V2 e input pos r Hr). exact Em.
  - apply Z.ltb_ge in E. exists pos. split; [reflexivity|]. split; [lia|]. split.
    + intros i Hi. lia.
    + unfold accepts. rewrite elem_at_None by lia. reflexivity.
Qed.

(** One step of matchHere on a repeated element, and on any other. *)
Lemma V2_step_plus p m rest input pos :
  0 <= pos ->
  exists q,
    (accepts IsDigit IsLetter (of_V2 m) input pos = true ->
     pos + 1 <= q <= len input /\
     run_of IsDigit IsLetter (of_V2 m) input (pos + 1) q /\
     accepts IsDigit IsLetter (of_V2 m) input q = false /\
     V2.matchHere_loop IsDigit IsLetter p (V2.OneOrMoreMatcher m :: rest) input pos
     = V2.matchHere_loop IsDigit IsLetter p rest input q) /\
    (accepts IsDigit IsLetter (of_V2 m) input pos = false ->
     V2.matchHere_loop IsDigit IsLetter p (V2.OneOrMoreMatcher m :: rest) input pos
     = Done false).
Proof.
  intros Hpos. cbn [V2.matchHere_loop].
  destruct (pos >=? len input) eqn:E.
  { exists 0. unfold accepts. rewrite elem_at_None by (apply Z.geb_le in E; lia).
    split; [discriminate|reflexivity]. }
  assert (Hlt : 0 <= pos < len input).
  { rewrite Z.geb_leb in E. apply Z.leb_gt in E. lia. }
  destruct (elem_at_Some input pos Hlt) as (r & Hr). rewrite Hr.
  cbn [orPanic bind]. rewrite (accepts_of_V2 m input pos r Hr).
  cbn [V2.ElementMatch].
  destruct (V2_run_loop (V2.OneOrMoreMatcher m) input (S (List.length input))
              (pos + 1)) as (q & H1 & H2 & H3 & H4); [lia|unfold len in *; lia|].
  exists q. destruct (EM2 m r); cbn [negb].
  - split; [|discriminate]. intros _. rewrite H1. cbn [bind].
    split; [lia|]. split; [exact H3|]. split; [exact H4|reflexivity].
  - split; [discriminate|reflexivity].
Qed.

Lemma V2_step_one p e rest input pos :
  0 <= pos ->
  match e with V2.OneOrMoreMatcher _ => False | _ => True end ->
  V2.matchHere_loop IsDigit IsLetter p (e :: rest) input pos =
  if accepts IsDigit IsLetter (of_V2 e) input pos
  then V2.matchHere_loop IsDigit IsLetter p rest input (pos + 1)
  else Done false.
Proof.
  intros Hpos He.
  assert (A : (if pos >=? len input then Done false
               else r <- orPanic (elem_at input pos) ;;
                    if negb (EM2 e r) then Done false
                    else V2.matchHere_loop IsDigit IsLetter p rest input (pos + 1))
              = if accepts IsDigit IsLetter (of_V2 e) input pos
                then V2.matchHere_loop IsDigit IsLetter p rest input (pos + 1)
                else Done false).
  { destruct (pos >=? len input) eqn:E.
    - unfold accepts. rewrite elem_at_None by (apply Z.geb_le in E; lia).
      reflexivity.
    - assert (Hlt : 0 <= pos < len input).
      { rewrite Z.geb_leb in E. apply Z.leb_gt in E. lia. }
      destruct (elem_at_Some input pos Hlt) as (r & Hr).
      rewrite (accepts_of_V2 e input pos r Hr), Hr. cbn [orPanic bind].
      destruct (EM2 e r); reflexivity. }
  destruct e; try exact A. contradiction.
Qed.

(** matchHere returns, and a match it reports is an occurrence of the
    elements. *)
Lemma V2_matchHere_sound p input : forall els pos,
  0 <= pos ->
  exists b, V2.matchHere_loop IsDigit IsLetter p els input pos = Done b /\
    (b = true ->
     is_some (here2 (map of_V2 els) (V2.endAnchor p) input pos) = true).
Proof.
  induction els as [|e rest IH]; intros pos Hpos.
  { cbn [V2.matchHere_loop map flat_here].
    destruct (V2.endAnchor p); cbn [negb orb].
    - eexists. split; [reflexivity|]. intros ->. reflexivity.
    - eexists. split; [reflexivity|]. reflexivity. }
  assert (One : match e with V2.OneOrMoreMatcher _ => False | _ => True end ->
            exists b, V2.matchHere_loop IsDigit IsLetter p (e :: rest) input pos
                      = Done b /\
              (b = true ->
               is_some (if accepts IsDigit IsLetter (of_V2 e) input pos
                        then here2 (map of_V2 rest) (V2.endAnchor p) input (pos + 1)
                        else None) = true)).
  { intros He. rewrite (V2_step_one p e rest input pos Hpos He).
    destruct (accepts IsDigit IsLetter (of_V2 e) input pos).
    - apply IH. lia.
    - exists false. split; [reflexivity|discriminate]. }
  destruct e as [c| | |chars negated|m]; try (apply One; exact I).
  cbn [map of_V2 flat_here].
  destruct (V2_step_plus p m rest input pos Hpos) as (q & Hyes & Hno).
  destruct (accepts IsDigit IsLetter (of_V2 m) input pos) eqn:Ha.
  - destruct (Hyes eq_refl) as (Hq & Hrun & _ & Heq). rewrite Heq.
    destruct (IH q ltac:(lia)) as (b & Hb & Hfound).
    exists b. split; [exact Hb|]. intros Htrue.
    specialize (Hfound Htrue).
    destruct (here2 (map of_V2 rest) (V2.endAnchor p) input q) as [e|] eqn:He;
      [|discriminate].
    destruct (flat_loop_reaches IsDigit IsLetter
                (here2 (map of_V2 rest) (V2.endAnchor p) input)
                (of_V2 m) input q e He ltac:(lia)
                (Z.to_nat (len input + 1 - (pos + 1))) (pos + 1))
      as (e' & He'); [lia|lia|exact Hrun|].
    rewrite He'. reflexivity.
  - rewrite (Hno eq_refl). exists false. split; [reflexivity|discriminate].
Qed.

(** A repeated element gives nothing back: when the element after it
    accepts only runes that the repeated element accepts too, matchHere
    fails wherever it starts. *)
Lemma V2_matchHere_possessive p m next rest input : forall pre pos,
  (forall r, EM2 next r = true -> EM2 m r = true) ->
  0 <= pos ->
  V2.matchHere_loop IsDigit IsLetter p
    (pre ++ V2.OneOrMoreMatcher m :: next :: rest) input pos = Done false.
Proof.
  intros pre pos Hsub. revert pos.
  assert (Next : forall q, 0 <= q ->
            accepts IsDigit IsLetter (of_V2 m) input q = false ->
            V2.matchHere_loop IsDigit IsLetter p (next :: rest) input q
            = Done false).
  { intros q Hq Hrej.
    assert (Hn : accepts IsDigit IsLetter (of_V2 next) input q = false).
    { unfold accepts in *. destruct (elem_at input q) as [r|]; [|reflexivity].
      rewrite of_V2_match in *.
      destruct (EM2 next r) eqn:En; [|reflexivity].
      rewrite (Hsub r En) in Hrej. discriminate. }
    destruct next as [c| | |chars negated|m'];
      try (rewrite V2_step_one by (auto; exact I); rewrite Hn; reflexivity).
    destruct (V2_step_plus p m' rest input q Hq) as (q' & _ & Hno).
    apply Hno. exact Hn. }
  induction pre as [|e pre IH]; intros pos Hpos; cbn [app].
  - destruct (V2_step_plus p m (next :: rest) input pos Hpos) as (q & Hyes & Hno).
    destruct (accepts IsDigit IsLetter (of_V2 m) input pos) eqn:Ha.
    + destruct (Hyes eq_refl) as (Hq & _ & Hrej & Heq). rewrite Heq.
      apply Next; [lia|exact Hrej].
    + apply Hno. reflexivity.
  - destruct e as [c| | |chars negated|m0];
      try (rewrite V2_step_one by (auto; exact I);
           destruct (accepts _ _ _ input pos); [apply IH; lia|reflexivity]).
    destruct (V2_step_plus p m0 (pre ++ V2.OneOrMoreMatcher m :: next :: rest)
                input pos Hpos) as (q & Hyes & Hno).
    destruct (accepts IsDigit IsLetter (of_V2 m0) input pos) eqn:Ha.
    + destruct (Hyes eq_refl) as (Hq & _ & _ & Heq). rewrite Heq.
      apply IH. lia.
    + apply Hno. reflexivity.
Qed.

(** The first rune of an occurrence of [e :: rest] is accepted by [e]. *)
Lemma here2_head e rest ea input pos x :
  here2 (map of_V2 (e :: rest)) ea input pos = Some x ->
  accepts IsDigit IsLetter (of_V2 e) input pos = true.
Proof.
  cbn [map flat_here]. intros H.
  assert (A : forall o : option Z,
            (if accepts IsDigit IsLetter (of_V2 e) input pos then o else None)
            = Some x -> accepts IsDigit IsLetter (of_V2 e) input pos = true).
  { intros o Ho. destruct (accepts _ _ (of_V2 e) input pos); [reflexivity|discriminate]. }
  destruct e as [c| | |chars negated|m]; eapply A; exact H.
Qed.

(** When every repeated element is followed by an element that accepts none
    of its runes, matchHere finds every occurrence. *)
Lemma V2_matchHere_complete p input : forall els pos,
  separated IsDigit IsLetter els -> 0 <= pos ->
  is_some (here2 (map of_V2 els) (V2.endAnchor p) input pos) = true ->
  V2.matchHere_loop IsDigit IsLetter p els input pos = Done true.
Proof.
  induction els as [|e rest IH]; intros pos Hsep Hpos Hfound.
  { cbn [V2.matchHere_loop map flat_here] in *.
    destruct (V2.endAnchor p); cbn [negb orb] in *; [|reflexivity].
    destruct (pos =? len input); [reflexivity|discriminate]. }
  cbn [separated] in Hsep. destruct Hsep as [Hnext Hsep].
  assert (One : match e with V2.OneOrMoreMatcher _ => False | _ => True end ->
            is_some (if accepts IsDigit IsLetter (of_V2 e) input pos
                     then here2 (map of_V2 rest) (V2.endAnchor p) input (pos + 1)
                     else None) = true ->
            V2.matchHere_loop IsDigit IsLetter p (e :: rest) input pos = Done true).
  { intros He H. rewrite (V2_step_one p e rest input pos Hpos He).
    destruct (accepts IsDigit IsLetter (of_V2 e) input pos); [|discriminate].
    apply IH; [exact Hsep|lia|exact H]. }
  destruct e as [c| | |chars negated|m]; try (apply One; [exact I|exact Hfound]).
  cbn [map of_V2 flat_here] in Hfound.
  destruct (V2_step_plus p m rest input pos Hpos) as (q & Hyes & _).
  destruct (accepts IsDigit IsLetter (of_V2 m) input pos) eqn:Ha; [|discriminate].
  destruct (Hyes eq_refl) as (Hq & Hrun & Hrej & Heq). rewrite Heq.
  destruct (flat_loop _ _ _ _ _ _ _) as [x|] eqn:Hl; [|discriminate].
  apply flat_loop_Some in Hl.
  destruct Hl as (q' & Hq' & Hrun' & Hx).
  assert (Hle : q' <= q).
  { destruct (Z.le_gt_cases q' q) as [|Hgt]; [assumption|].
    rewrite (Hrun' q) in Hrej by lia. discriminate. }
  apply IH; [exact Hsep|lia|].
  destruct (Z.eq_dec q' q) as [->|Hne]; [rewrite Hx; reflexivity|].
  assert (Hlt : q' < q) by lia.
  destruct rest as [|next rest'].
  - cbn [map flat_here] in *.
    destruct (V2.endAnchor p); cbn [negb orb] in *; [|reflexivity].
    destruct (q' =? len input) eqn:E; [|discriminate].
    apply Z.eqb_eq in E. lia.
  - exfalso. apply here2_head in Hx.
    specialize (Hrun q' ltac:(lia)).
    unfold accepts in Hx, Hrun.
    destruct (elem_at input q') as [r|]; [|discriminate].
    rewrite of_V2_match in *.
    rewrite (Hnext r) in Hx; [discriminate|]. cbn [V2.ElementMatch]. exact Hrun.
Qed.

Lemma V2_Match_loop p input (f : Z -> bool) :
  (forall pos, 0 <= pos ->
     V2.matchHere IsDigit IsLetter p input pos = Done (f pos)) ->
  forall k start, 0 <= start ->
  V2.Match_loop IsDigit IsLetter p input k start
  = Done (any_start f input k start).
Proof.
  intros Hf. induction k as [|k IH]; intros start Hstart; [reflexivity|].
  cbn [V2.Match_loop any_start].
  destruct (start <=? len input); [|reflexivity].
  rewrite Hf by assumption. cbn [bind].
  destruct (f start); [reflexivity|]. cbn [orb]. apply IH. lia.
Qed.

Lemma V2_matchHere_total p input :
  exists f, forall pos, 0 <= pos ->
    V2.matchHere IsDigit IsLetter p input pos = Done (f pos) /\
    (f pos = true ->
     is_some (here2 (map of_V2 (V2.elements p)) (V2.endAnchor p) input pos) = true).
Proof.
  exists (fun pos =>
            match V2.matchHere IsDigit IsLetter p input pos with
            | Done b => b
            | _ => false
            end).
  intros pos Hpos. unfold V2.matchHere.
  destruct (V2_matchHere_sound p input (V2.elements p) pos Hpos) as (b & Hb & H).
  rewrite Hb. split; [reflexivity|exact H].
Qed.

(** X22.  The second version compiles every pattern, and its Match never
    panics; when it returns true, the input holds an occurrence of the
    elements between the anchors of the pattern. *)
Theorem second_version_reports_occurrences_only
    (pattern : gostring) (input : list rune) :
  exists p, V2.ParsePattern pattern = Ok p /\
  exists b, V2.Match IsDigit IsLetter p input = Done b /\
    (b = true ->
     found IsDigit IsLetter (map of_V2 (V2.elements p)) (V2.startAnchor p)
       (V2.endAnchor p) input).
Proof.
  rewrite V2_ParsePattern_eq.
  destruct (V2_parseElements_total
              (S (List.length (body_of (runes_of_string pattern))))
              (body_of (runes_of_string pattern))) as (els & Hels); [lia|].
  rewrite Hels by lia. eexists. split; [reflexivity|].
  set (p := V2.mkPattern els _ _).
  destruct (V2_matchHere_total p input) as (f & Hf).
  unfold V2.Match. destruct (V2.startAnchor p) eqn:Esa.
  - destruct (Hf 0 ltac:(lia)) as [H1 H2]. rewrite H1.
    eexists. split; [reflexivity|]. intros Hb.
    apply found_at. exists 0. split; [unfold len; lia|]. split; [reflexivity|].
    apply H2. exact Hb.
  - rewrite (V2_Match_loop p input f) by (try lia; intros; apply Hf; assumption).
    eexists. split; [reflexivity|]. intros Hb.
    apply any_start_true in Hb. destruct Hb as (pos & H1 & _ & H3).
    apply found_at. exists pos. split; [lia|]. split; [discriminate|].
    apply (Hf pos); [lia|exact H3].
Qed.

(** X23.  A repeated element gives nothing back: a pattern in which a
    repeated element is followed by an element that accepts only runes the
    repeated element accepts as well matches no input at all. *)
Theorem second_version_plus_gives_nothing_back
    (pre rest : list V2.PatternElement) (m next : V2.PatternElement)
    (sa ea : bool) (input : list rune) :
  (forall r, EM2 next r = true -> EM2 m r = true) ->
  V2.Match IsDigit IsLetter
    (V2.mkPattern (pre ++ V2.OneOrMoreMatcher m :: next :: rest) sa ea) input
  = Done false.
Proof.
  intros Hsub.
  set (p := V2.mkPattern _ sa ea).
  assert (Hf : forall pos, 0 <= pos ->
            V2.matchHere IsDigit IsLetter p input pos = Done ((fun _ => false) pos)).
  { intros pos Hpos. unfold V2.matchHere. subst p. cbn [V2.elements].
    apply V2_matchHere_possessive; assumption. }
  unfold V2.Match. destruct (V2.startAnchor p).
  - apply Hf. lia.
  - rewrite (V2_Match_loop p input _ Hf) by lia. f_equal.
    destruct (any_start (fun _ => false) input (S (List.length input)) 0) eqn:E;
      [|reflexivity].
    apply any_start_true in E. destruct E as (pos & _ & _ & E). discriminate.
Qed.

Lemma V2_Match_found_separated p input :
  separated IsDigit IsLetter (V2.elements p) ->
  exists b, V2.Match IsDigit IsLetter p input = Done b /\
    (b = true <->
     found IsDigit IsLetter (map of_V2 (V2.elements p)) (V2.startAnchor p)
       (V2.endAnchor p) input).
Proof.
  intros Hsep.
  destruct (V2_matchHere_total p input) as (f & Hf).
  assert (Hc : forall pos, 0 <= pos ->
            is_some (here2 (map of_V2 (V2.elements p)) (V2.endAnchor p) input pos)
            = true -> f pos = true).
  { intros pos Hpos H. destruct (Hf pos Hpos) as [H1 _].
    unfold V2.matchHere in H1.
    rewrite (V2_matchHere_complete p input _ pos Hsep Hpos H) in H1.
    inversion H1. reflexivity. }
  unfold V2.Match. destruct (V2.startAnchor p) eqn:Esa.
  - destruct (Hf 0 ltac:(lia)) as [H1 H2]. rewrite H1.
    eexists. split; [reflexivity|]. rewrite found_at. split.
    + intros Hb. exists 0. split; [unfold len; lia|]. split; [reflexivity|].
      apply H2. exact Hb.
    + intros (pos & _ & Hp & H). rewrite (Hp eq_refl) in H. apply Hc; [lia|exact H].
  - rewrite (V2_Match_loop p input f) by (try lia; intros; apply Hf; assumption).
    eexists. split; [reflexivity|]. rewrite found_at, any_start_true. split.
    + intros (pos & H1 & _ & H3). exists pos. split; [lia|].
      split; [discriminate|]. apply (Hf pos); [lia|exact H3].
    + intros (pos & H1 & _ & H3). exists pos. split; [lia|].
      split; [unfold len in *; lia|]. apply Hc; [lia|exact H3].
Qed.

End SecondVersion.

Lemma v2_syntax_suffix pre : forall s,
  v2_syntax (pre ++ s) = true -> v2_syntax s = true.
Proof.
  induction pre as [|r pre IH]; intros s H; [assumption|].
  cbn [app v2_syntax] in H. apply andb_true_iff in H. destruct H as [_ H].
  apply IH. assumption.
Qed.

Lemma v2_syntax_prefix s : forall post,
  v2_syntax (s ++ post) = true -> v2_syntax s = true.
Proof.
  induction s as [|r s IH]; intros post H; [reflexivity|].
  cbn [app v2_syntax] in *.
  apply andb_true_iff in H. destruct H as [H H3].
  apply andb_true_iff in H. destruct H as [H1 H2].
  rewrite H1, (IH post H3). rewrite andb_true_r. cbn [andb].
  destruct s as [|c s']; [|exact H2].
  destruct (r =? BACKSLASH); reflexivity.
Qed.

Lemma v2_syntax_body rs : v2_syntax rs = true -> v2_syntax (body_of rs) = true.
Proof.
  intros H. unfold body_of.
  destruct (stripStart_suffix rs) as (pre & Hpre).
  destruct (stripEnd_prefix (snd (stripStart rs))) as (post & Hpost).
  rewrite Hpre in H. apply v2_syntax_suffix in H.
  rewrite Hpost in H. apply v2_syntax_prefix in H. assumption.
Qed.

Lemma v2_syntax_head r rest :
  v2_syntax (r :: rest) = true ->
  (r =? LPAREN) = false /\ (r =? DOT) = false /\
  (r =? QUESTION) = false /\ v2_syntax rest = true.
Proof.
  cbn [v2_syntax]. rewrite !andb_true_iff, negb_true_iff, !orb_false_iff.
  tauto.
Qed.

Lemma quantifier_of_V2 e s :
  v2_syntax s = true ->
  quantifier (of_V2 e) s
  = (of_V2 (fst (V2.quantifier e s)), snd (V2.quantifier e s)).
Proof.
  intros H. destruct s as [|r s]; [reflexivity|].
  apply v2_syntax_head in H. destruct H as (_ & _ & H1 & _).
  unfold quantifier, V2.quantifier. rewrite H1.
  destruct (r =? PLUS); reflexivity.
Qed.

Lemma parseElements_of_V2 : forall n rs,
  (List.length rs < n)%nat -> v2_syntax rs = true ->
  exists els,
    (forall fuel, (List.length rs < fuel)%nat ->
       V2.parseElements fuel rs = Ok els) /\
    (forall fuel cnt, (List.length rs < fuel)%nat ->
       parseElements fuel rs cnt = Ok (map of_V2 els, cnt)).
Proof.
  induction n as [|n IH]; intros rs Hlen Hsyn; [lia|].
  destruct rs as [|r rest].
  - exists []. split; intros fuel; intros;
      (destruct fuel; [simpl in *; lia|reflexivity]).
  - simpl in Hlen.
    destruct (v2_syntax_head r rest Hsyn) as (Hp & Hd & _ & Hrest).
    assert (Step : forall (e : V2.PatternElement) rest',
              (exists pre, rest = pre ++ rest') ->
              exists els,
                (forall fuel, (List.length rest < fuel)%nat ->
                   (let (element, after) := V2.quantifier e rest' in
                    rbind (V2.parseElements fuel after)
                      (fun els => Ok (element :: els))) = Ok els) /\
                (forall fuel cnt, (List.length rest < fuel)%nat ->
                   emit (Some (fst (quantifier (of_V2 e) rest')))
                     (parseElements fuel (snd (quantifier (of_V2 e) rest')) cnt)
                   = Ok (map of_V2 els, cnt))).
    { intros e rest' (pre & Hpre).
      assert (Hrest' : v2_syntax rest' = true).
      { rewrite Hpre in Hrest. apply v2_syntax_suffix in Hrest. assumption. }
      rewrite (quantifier_of_V2 e rest' Hrest'). cbn [fst snd].
      destruct (V2_quantifier_suffix e rest') as (pre' & Hpre').
      assert (Hl : (List.length (snd (V2.quantifier e rest')) <= List.length rest)%nat).
      { apply (f_equal (@List.length rune)) in Hpre, Hpre'.
        rewrite length_app in Hpre, Hpre'. lia. }
      destruct (IH (snd (V2.quantifier e rest'))) as (els & H1 & H2); [lia| |].
      { rewrite Hpre' in Hrest'. apply v2_syntax_suffix in Hrest'. assumption. }
      exists (fst (V2.quantifier e rest') :: els).
      destruct (V2.quantifier e rest') as [element after]. cbn [fst snd] in *.
      split.
      - intros fuel Hf. rewrite H1 by lia. reflexivity.
      - intros fuel cnt Hf. cbn [emit]. rewrite H2 by lia. reflexivity. }
    destruct (r =? BACKSLASH) eqn:E1.
    { destruct rest as [|c rest'].
      - exists []. split.
        + intros fuel Hf. destruct fuel as [|[|fuel]]; simpl in Hf; try lia.
          cbn [V2.parseElements]. rewrite E1. reflexivity.
        + intros fuel cnt Hf. destruct fuel as [|[|fuel]]; simpl in Hf; try lia.
          rewrite parseElements_atom by assumption.
          unfold scanAtom. rewrite Hd, E1. reflexivity.
      - assert (Hc : (49 <=? c) && (c <=? 57) = false).
        { cbn [v2_syntax] in Hsyn. rewrite E1 in Hsyn.
          rewrite !andb_true_iff, !negb_true_iff in Hsyn.
          destruct Hsyn as [[_ Hc] _]. exact Hc. }
        destruct (Step (if c =? 100 then V2.DigitMatcher
                        else if c =? 119 then V2.AlphanumericMatcher
                        else V2.LiteralMatcher c) rest') as (els & H1 & H2).
        { exists [c]. reflexivity. }
        exists els. split.
        + intros fuel Hf. destruct fuel as [|fuel]; [simpl in Hf; lia|].
          cbn [V2.parseElements]. rewrite E1. apply H1. simpl in Hf |- *. lia.
        + intros fuel cnt Hf. destruct fuel as [|fuel]; [simpl in Hf; lia|].
          rewrite parseElements_atom by assumption.
          unfold scanAtom. rewrite Hd, E1, Hc.
          rewrite <- (H2 fuel cnt) by (simpl in Hf |- *; lia).
          destruct (c =? 100); [|destruct (c =? 119)];
            cbn [of_V2]; destruct (quantifier _ rest'); reflexivity. }
    destruct (r =? LBRACKET) eqn:E2.
    { set (nr := match rest with
                 | c :: rest' => if c =? CARET then (true, rest') else (false, rest)
                 | [] => (false, rest)
                 end).
      assert (Hnr : exists pre, rest = pre ++ snd nr).
      { subst nr. destruct rest as [|c rest']; [exists []; reflexivity|].
        destruct (c =? CARET); [exists [c]|exists []]; reflexivity. }
      destruct Hnr as (pre1 & Hpre1).
      pose proof (setChars_app (snd nr)) as Happ.
      destruct (tl_suffix (snd (setChars (snd nr)))) as (pre3 & Hpre3).
      assert (Hsuf : exists pre, rest = pre ++ tl (snd (setChars (snd nr)))).
      { exists (pre1 ++ fst (setChars (snd nr)) ++ pre3).
        rewrite <- !app_assoc, <- Hpre3, <- Happ. assumption. }
      destruct (Step (V2.CharacterSetMatcher (fst (setChars (snd nr))) (fst nr))
                  _ Hsuf) as (els & H1 & H2).
      exists els. split.
      + intros fuel Hf. destruct fuel as [|fuel]; [simpl in Hf; lia|].
        cbn [V2.parseElements]. rewrite E1, E2. fold nr.
        destruct nr as [negated rest1]. cbn [fst snd] in *.
        destruct (setChars rest1) as [chars rest2]. cbn [fst snd] in *.
        apply H1. simpl in Hf |- *. lia.
      + intros fuel cnt Hf. destruct fuel as [|fuel]; [simpl in Hf; lia|].
        rewrite parseElements_atom by assumption.
        unfold scanAtom. rewrite Hd, E1, E2. fold nr.
        destruct nr as [negated rest1]. cbn [fst snd] in *.
        destruct (setChars rest1) as [chars rest2]. cbn [fst snd] in *.
        rewrite <- (H2 fuel cnt) by (simpl in Hf |- *; lia). cbn [of_V2].
        destruct (quantifier _ (tl rest2)); reflexivity. }
    destruct (Step (V2.LiteralMatcher r) rest) as (els & H1 & H2);
      [exists []; reflexivity|].
    exists els. split.
    + intros fuel Hf. destruct fuel as [|fuel]; [simpl in Hf; lia|].
      cbn [V2.parseElements]. rewrite E1, E2. apply H1. simpl in Hf |- *. lia.
    + intros fuel cnt Hf. destruct fuel as [|fuel]; [simpl in Hf; lia|].
      rewrite parseElements_atom by assumption.
      unfold scanAtom. rewrite Hd, E1, E2.
      rewrite <- (H2 fuel cnt) by (simpl in Hf |- *; lia). cbn [of_V2].
      destruct (quantifier _ rest); reflexivity.
Qed.

Section SecondCompatibility.

Variable IsDigit : rune -> bool.
Variable IsLetter : rune -> bool.

(** X24.  On a pattern text in the syntax of the second version, the current
    ParsePattern returns the elements and anchors the second version
    returned. The current Match returns what the second Match returned when
    every repeated element is followed by nothing or by an element that
    accepts none of its runes: there the second version, which gives no rune
    back, finds what the backtracking search finds. *)
Theorem current_version_agrees_with_the_second
    (pattern : gostring) (input : list rune) (fuel : nat) :
  v2_syntax (runes_of_string pattern) = true ->
  (List.length (runes_of_string pattern) < fuel)%nat ->
  exists p2 p,
    V2.ParsePattern pattern = Ok p2 /\ ParsePattern pattern = Ok p /\
    elements p = map of_V2 (V2.elements p2) /\
    startAnchor p = V2.startAnchor p2 /\ endAnchor p = V2.endAnchor p2 /\
    (separated IsDigit IsLetter (V2.elements p2) ->
     Match IsDigit IsLetter fuel p input = V2.Match IsDigit IsLetter p2 input).
Proof.
  intros Hsyn Hfuel.
  pose proof (body_of_length (runes_of_string pattern)) as Hb.
  destruct (parseElements_of_V2
              (S (List.length (body_of (runes_of_string pattern))))
              (body_of (runes_of_string pattern)))
    as (els & H1 & H2); [lia|apply v2_syntax_body; assumption|].
  rewrite V2_ParsePattern_eq, H1 by lia.
  unfold ParsePattern, ParseRunes, parsePatternInternal.
  rewrite parsePatternInternal_with_eq, H2 by lia.
  cbn [rbind set_groupCount elements startAnchor endAnchor].
  do 2 eexists. split; [reflexivity|]. split; [reflexivity|].
  cbn [elements startAnchor endAnchor V2.elements V2.startAnchor V2.endAnchor].
  split; [reflexivity|]. split; [reflexivity|]. split; [reflexivity|].
  intros Hsep.
  set (sa := fst (stripStart (runes_of_string pattern))).
  set (ea := fst (stripEnd (snd (stripStart (runes_of_string pattern))))).
  assert (Hflat : forallb is_flat (map of_V2 els) = true /\
                  (List.length els <= List.length (body_of (runes_of_string pattern)))%nat).
  { specialize (H2 (S (List.length (body_of (runes_of_string pattern)))) 0
                  ltac:(lia)).
    destruct (parseElements_flat
                (S (List.length (body_of (runes_of_string pattern))))
                (body_of (runes_of_string pattern))) as (e2 & Hf2 & Hl2 & He2);
      [lia| |].
    - intros Hin. apply (v2_syntax_body _) in Hsyn.
      apply in_split in Hin. destruct Hin as (l1 & l2 & Hin).
      rewrite Hin in Hsyn. apply v2_syntax_suffix in Hsyn.
      apply v2_syntax_head in Hsyn. destruct Hsyn as (Hp & _). discriminate.
    - rewrite He2 in H2 by lia. inversion H2 as [E].
      split; [rewrite <- E; exact Hf2|].
      rewrite <- (length_map of_V2 els), <- E. assumption. }
  destruct Hflat as [Hflat Hl].
  destruct (Match_flat_found IsDigit IsLetter (map of_V2 els) sa ea 0 fuel input
              Hflat) as (b & Hb1 & Hb2); [rewrite length_map; lia|lia|].
  destruct (V2_Match_found_separated IsDigit IsLetter (V2.mkPattern els sa ea)
              input Hsep) as (b' & Hb1' & Hb2').
  cbn [V2.elements V2.startAnchor V2.endAnchor] in Hb2'.
  change (set_groupCount (mkPattern (map of_V2 els) sa ea 0) 0)
    with (mkPattern (map of_V2 els) sa ea 0).
  rewrite Hb1, Hb1'. f_equal.
  destruct b, b'; try reflexivity.
  - symmetry. apply Hb2', Hb2. reflexivity.
  - apply Hb2, Hb2'. reflexivity.
Qed.

End SecondCompatibility.

Lemma second_version_plus_gives_nothing_back_witness :
  (forall r,
     V2.ElementMatch asciiIsDigit asciiIsLetter (V2.LiteralMatcher 97) r = true ->
     V2.ElementMatch asciiIsDigit asciiIsLetter (V2.LiteralMatcher 97) r = true) /\
  V2.ParsePattern (lit "a+a") =
    Ok (V2.mkPattern [V2.OneOrMoreMatcher (V2.LiteralMatcher 97);
                      V2.LiteralMatcher 97] false false) /\
  V2.Match asciiIsDigit asciiIsLetter
    (V2.mkPattern ([] ++ [V2.OneOrMoreMatcher (V2.LiteralMatcher 97);
                          V2.LiteralMatcher 97]) false false) (runes "aaa")
  = Done false /\
  (exists p, ParsePattern (lit "a+a") = Ok p /\
     Match asciiIsDigit asciiIsLetter 4 p (runes "aaa") = Done true).
Proof.
  assert (H : forall r,
            V2.ElementMatch asciiIsDigit asciiIsLetter (V2.LiteralMatcher 97) r = true ->
            V2.ElementMatch asciiIsDigit asciiIsLetter (V2.LiteralMatcher 97) r = true)
    by (intros r Hr; exact Hr).
  split; [exact H|]. split; [vm_compute; reflexivity|]. split.
  - apply (second_version_plus_gives_nothing_back asciiIsDigit asciiIsLetter
             [] [] (V2.LiteralMatcher 97) (V2.LiteralMatcher 97) false false
             (runes "aaa") H).
  - exists (mkPattern [OneOrMoreMatcher (LiteralMatcher 97); LiteralMatcher 97]
              false false 0).
    split; vm_compute; reflexivity.
Defined.

Lemma current_version_agrees_with_the_second_witness :
  v2_syntax (runes_of_string (lit "^a+b\d+$")) = true /\
  (List.length (runes_of_string (lit "^a+b\d+$")) < 12)%nat /\
  exists p2 p,
    V2.ParsePattern (lit "^a+b\d+$") = Ok p2 /\
    ParsePattern (lit "^a+b\d+$") = Ok p /\
    separated asciiIsDigit asciiIsLetter (V2.elements p2) /\
    Match asciiIsDigit asciiIsLetter 12 p (runes "aab42")
    = V2.Match asciiIsDigit asciiIsLetter p2 (runes "aab42").
Proof.
  split; [vm_compute; reflexivity|]. split; [vm_compute; lia|].
  destruct (current_version_agrees_with_the_second asciiIsDigit asciiIsLetter
              (lit "^a+b\d+$") (runes "aab42") 12)
    as (p2 & p & H1 & H2 & _ & _ & _ & H6).
  - vm_compute; reflexivity.
  - vm_compute; lia.
  - exists p2, p. split; [exact H1|]. split; [exact H2|].
    assert (Hsep : separated asciiIsDigit asciiIsLetter (V2.elements p2)).
    { assert (E : V2.ParsePattern (lit "^a+b\d+$") =
                  Ok (V2.mkPattern [V2.OneOrMoreMatcher (V2.LiteralMatcher 97);
                                    V2.LiteralMatcher 98;
                                    V2.OneOrMoreMatcher V2.DigitMatcher] true true))
        by (vm_compute; reflexivity).
      rewrite E in H1. inversion H1. cbn [V2.elements separated V2.ElementMatch].
      split; [|split; [exact I|split; [exact I|exact I]]].
      intros r Hr. apply Z.eqb_eq in Hr. subst r. reflexivity. }
    split; [exact Hsep|exact (H6 Hsep)].
Defined.


(* ------------------------------------------------------------------ *)
(** ** The third version *)

Section ThirdVersion.

Variable IsDigit : rune -> bool.
Variable IsLetter : rune -> bool.

Abbreviation EM3 := (V3.ElementMatch IsDigit IsLetter).
Abbreviation here3 := (flat_here IsDigit IsLetter).
Abbreviation loop3 := (V3.matchHere_loop IsDigit IsLetter).
Abbreviation acc3 := (accepts IsDigit IsLetter).

Lemma of_V3_match e r : ElementMatch IsDigit IsLetter (of_V3 e) r = EM3 e r.
Proof. induction e; cbn [of_V3 ElementMatch V3.ElementMatch]; auto. Qed.

Lemma accepts_of_V3 e input pos r :
  elem_at input pos = Some r -> acc3 (of_V3 e) input pos = EM3 e r.
Proof. intros H. unfold accepts. rewrite H. apply of_V3_match. Qed.

Lemma V3_run_loop e input : forall k pos,
  0 <= pos <= len input -> (Z.to_nat (len input - pos) < k)%nat ->
  exists q, V3.run_loop IsDigit IsLetter e input k pos = Done q /\
    pos <= q <= len input /\
    run_of IsDigit IsLetter (of_V3 e) input pos q /\
    acc3 (of_V3 e) input q = false.
Proof.
  induction k as [|k IH]; intros pos Hpos Hk; [lia|].
  cbn [V3.run_loop]. destruct (pos <? len input) eqn:E.
  - apply Z.ltb_lt in E.
    destruct (elem_at_Some input pos ltac:(lia)) as (r & Hr). rewrite Hr.
    cbn [orPanic bind]. destruct (EM3 e r) eqn:Em.
    + destruct (IH (pos + 1)) as (q & H1 & H2 & H3 & H4); [lia|lia|].
      exists q. split; [exact H1|]. split; [lia|]. split; [|exact H4].
      intros i Hi. destruct (Z.eq_dec i pos) as [->|Hne].
      * rewrite (accepts_of_V3 e input pos r Hr). exact Em.
      * apply H3. lia.
    + exists pos. split; [reflexivity|]. split; [lia|]. split.
      * intros i Hi. lia.
      * rewrite (accepts_of_V3 e input pos r Hr). exact Em.
  - apply Z.ltb_ge in E. exists pos. split; [reflexivity|]. split; [lia|]. split.
    + intros i Hi. lia.
    + unfold accepts. rewrite elem_at_None by lia. reflexivity.
Qed.

(** The loop over [tryPos] returns true when the rest of the pattern
    matches at one of the positions from [pos+1] to [tryPos]. *)
Lemma V3_try_loop (call : V3.Pattern -> list rune -> Z -> outcome bool)
    rem input pos (g : Z -> bool) :
  (forall t, pos + 1 <= t -> call rem input t = Done (g t)) ->
  forall k tryPos, (Z.to_nat (tryPos - pos) < k)%nat ->
  exists b, V3.try_loop call rem input pos k tryPos = Done b /\
    (b = true <-> exists t, pos + 1 <= t <= tryPos /\ g t = true).
Proof.
  intros Hg. induction k as [|k IH]; intros tryPos Hk; [lia|].
  cbn [V3.try_loop]. destruct (tryPos >=? pos + 1) eqn:E.
  - rewrite Z.geb_leb in E. apply Z.leb_le in E.
    rewrite Hg by lia. cbn [bind]. destruct (g tryPos) eqn:Eg.
    + exists true. split; [reflexivity|]. split; [|reflexivity].
      intros _. exists tryPos. split; [lia|exact Eg].
    + destruct (IH (tryPos - 1)) as (b & Hb & Hiff); [lia|].
      exists b. split; [exact Hb|]. rewrite Hiff. split.
      * intros (t & Ht & Hgt). exists t. split; [lia|exact Hgt].
      * intros (t & Ht & Hgt). exists t. split; [|exact Hgt].
        destruct (Z.eq_dec t tryPos) as [->|Hne]; [|lia].
        rewrite Eg in Hgt. discriminate.
  - rewrite Z.geb_leb in E. apply Z.leb_gt in E.
    exists false. split; [reflexivity|]. split; [discriminate|].
    intros (t & Ht & _). lia.
Qed.

Lemma plain_V3_cases e :
  plain_V3 e = true ->
  match e with
  | V3.OneOrMoreMatcher m | V3.ZeroOrOneMatcher m => is_atom (of_V3 m) = true
  | V3.AlternationMatcher _ => False
  | _ => True
  end.
Proof. unfold plain_V3. destruct e; cbn; auto. discriminate. Qed.

(** One step of matchHere on a single-rune element. *)
Lemma V3_step_one call p e rest input pos inputPos :
  0 <= inputPos ->
  match e with
  | V3.OneOrMoreMatcher _ | V3.ZeroOrOneMatcher _ | V3.AlternationMatcher _ => False
  | _ => True
  end ->
  loop3 call p (e :: rest) input pos inputPos =
  if acc3 (of_V3 e) input inputPos
  then loop3 call p rest input pos (inputPos + 1)
  else Done false.
Proof.
  intros Hpos He.
  assert (A : (if inputPos >=? len input then Done false
               else r <- orPanic (elem_at input inputPos) ;;
                    if negb (EM3 e r) then Done false
                    else loop3 call p rest input pos (inputPos + 1))
              = if acc3 (of_V3 e) input inputPos
                then loop3 call p rest input pos (inputPos + 1)
                else Done false).
  { destruct (inputPos >=? len input) eqn:E.
    - unfold accepts. rewrite elem_at_None by (apply Z.geb_le in E; lia).
      reflexivity.
    - assert (Hlt : 0 <= inputPos < len input).
      { rewrite Z.geb_leb in E. apply Z.leb_gt in E. lia. }
      destruct (elem_at_Some input inputPos Hlt) as (r & Hr).
      rewrite (accepts_of_V3 e input inputPos r Hr), Hr. cbn [orPanic bind].
      destruct (EM3 e r); reflexivity. }
  destruct e; try exact A; contradiction.
Qed.

(** One step of matchHere on a repeated element. *)
Lemma V3_step_plus call p m rest input pos inputPos (g : Z -> bool) :
  0 <= pos <= inputPos ->
  (forall t, pos + 1 <= t ->
     call (V3.mkPattern rest false (V3.endAnchor p)) input t = Done (g t)) ->
  exists b,
    loop3 call p (V3.OneOrMoreMatcher m :: rest) input pos inputPos = Done b /\
    (b = true <->
     acc3 (of_V3 m) input inputPos = true /\
     exists q t, run_of IsDigit IsLetter (of_V3 m) input (inputPos + 1) q /\
       inputPos + 1 <= q <= len input /\ pos + 1 <= t <= q /\ g t = true).
Proof.
  intros Hpos Hg. cbn [V3.matchHere_loop].
  destruct (inputPos >=? len input) eqn:E.
  { exists false. split; [reflexivity|]. split; [discriminate|].
    intros [Ha _]. unfold accepts in Ha.
    rewrite elem_at_None in Ha by (apply Z.geb_le in E; lia). discriminate. }
  assert (Hlt : 0 <= inputPos < len input).
  { rewrite Z.geb_leb in E. apply Z.leb_gt in E. lia. }
  destruct (elem_at_Some input inputPos Hlt) as (r & Hr). rewrite Hr.
  cbn [orPanic bind]. rewrite (accepts_of_V3 m input inputPos r Hr).
  cbn [V3.ElementMatch]. destruct (EM3 m r); cbn [negb].
  2:{ exists false. split; [reflexivity|]. split; [discriminate|].
      intros [Ha _]. discriminate. }
  destruct (V3_run_loop (V3.OneOrMoreMatcher m) input (S (List.length input))
              (inputPos + 1)) as (q & H1 & H2 & H3 & H4);
    [lia|unfold len in *; lia|].
  rewrite H1. cbn [bind].
  destruct (V3_try_loop call (V3.mkPattern rest false (V3.endAnchor p)) input pos g
              Hg (S (List.length input)) q) as (b & Hb & Hiff);
    [unfold len in *; lia|].
  exists b. split; [exact Hb|]. rewrite Hiff. split.
  - intros (t & Ht & Hgt). split; [reflexivity|].
    exists q, t. split; [exact H3|]. split; [lia|]. split; [lia|exact Hgt].
  - intros (_ & q' & t & Hrun & Hq' & Ht & Hgt). exists t. split; [|exact Hgt].
    assert (Hle : q' <= q).
    { destruct (Z.le_gt_cases q' q) as [|Hgt']; [assumption|].
      cbn [of_V3] in H4. unfold accepts in H4. cbn [ElementMatch] in H4.
      specialize (Hrun q ltac:(lia)). unfold accepts in Hrun.
      rewrite Hrun in H4. discriminate. }
    lia.
Qed.

(** One step of matchHere on an optional element. *)
Lemma V3_step_option call p m rest input pos inputPos (g : Z -> bool) :
  0 <= inputPos ->
  (forall t, inputPos <= t ->
     call (V3.mkPattern rest false (V3.endAnchor p)) input t = Done (g t)) ->
  loop3 call p (V3.ZeroOrOneMatcher m :: rest) input pos inputPos =
  Done (g inputPos || (acc3 (of_V3 m) input inputPos && g (inputPos + 1))).
Proof.
  intros Hpos Hg. cbn [V3.matchHere_loop].
  rewrite Hg by lia. cbn [bind]. destruct (g inputPos); [reflexivity|].
  cbn [orb]. destruct (inputPos <? len input) eqn:E.
  - apply Z.ltb_lt in E.
    destruct (elem_at_Some input inputPos ltac:(lia)) as (r & Hr). rewrite Hr.
    cbn [orPanic bind]. rewrite (accepts_of_V3 m input inputPos r Hr).
    cbn [V3.ElementMatch]. destruct (EM3 m r); [|reflexivity].
    rewrite Hg by lia. cbn [bind andb]. destruct (g (inputPos + 1)); reflexivity.
  - apply Z.ltb_ge in E. unfold accepts. rewrite elem_at_None by lia. reflexivity.
Qed.

(** matchHere on a pattern of single-rune elements, quantified or not:
    it returns, it finds every occurrence, and what it finds is an
    occurrence when no repeated element follows a single-rune element. *)
Lemma V3_here ea input : forall els,
  forallb plain_V3 els = true ->
  forall f p pos inputPos,
  (List.length els <= f)%nat -> V3.endAnchor p = ea -> 0 <= pos <= inputPos ->
  exists b,
    loop3 (V3.matchHere IsDigit IsLetter f) p els input pos inputPos = Done b /\
    (is_some (here3 (map of_V3 els) ea input inputPos) = true -> b = true) /\
    (no_plus_after_atom els = true ->
     pos = inputPos \/
     match els with V3.OneOrMoreMatcher _ :: _ => False | _ => True end ->
     b = true -> is_some (here3 (map of_V3 els) ea input inputPos) = true).
Proof.
  induction els as [|e rest IH]; intros Hplain f p pos inputPos Hf Hea Hpos.
  { cbn [V3.matchHere_loop map flat_here]. rewrite Hea.
    destruct ea; cbn [negb orb].
    - eexists. split; [reflexivity|].
      destruct (inputPos =? len input); cbn [is_some]; auto.
    - eexists. split; [reflexivity|]. cbn [is_some]. auto. }
  cbn [forallb] in Hplain. apply andb_true_iff in Hplain.
  destruct Hplain as [He Hrest]. cbn [List.length] in Hf.
  assert (Call : exists g : Z -> bool, forall t, 0 <= t ->
            V3.matchHere IsDigit IsLetter f
              (V3.mkPattern rest false (V3.endAnchor p)) input t = Done (g t) /\
            (is_some (here3 (map of_V3 rest) ea input t) = true -> g t = true) /\
            (no_plus_after_atom rest = true -> g t = true ->
             is_some (here3 (map of_V3 rest) ea input t) = true)).
  { exists (fun t => match V3.matchHere IsDigit IsLetter f
                            (V3.mkPattern rest false (V3.endAnchor p)) input t with
                     | Done b => b
                     | _ => false
                     end).
    intros t Ht. destruct f as [|f']; [lia|]. cbn [V3.matchHere V3.elements].
    destruct (IH Hrest f' (V3.mkPattern rest false (V3.endAnchor p)) t t)
      as (b & Hb & H1 & H2); [lia|exact Hea|lia|].
    rewrite Hb. split; [reflexivity|]. split; [exact H1|].
    intros Hn. apply H2; [exact Hn|left; reflexivity]. }
  destruct Call as (g & Hg).
  pose proof (plain_V3_cases e He) as Hcase.
  assert (One : match e with
                | V3.OneOrMoreMatcher _ | V3.ZeroOrOneMatcher _
                | V3.AlternationMatcher _ => False
                | _ => True
                end ->
                (no_plus_after_atom (e :: rest) = true ->
                 no_plus_after_atom rest = true /\
                 match rest with V3.OneOrMoreMatcher _ :: _ => False | _ => True end) ->
                exists b,
                  loop3 (V3.matchHere IsDigit IsLetter f) p (e :: rest) input pos
                    inputPos = Done b /\
                  (is_some (if acc3 (of_V3 e) input inputPos
                            then here3 (map of_V3 rest) ea input (inputPos + 1)
                            else None) = true -> b = true) /\
                  (no_plus_after_atom (e :: rest) = true ->
                   pos = inputPos \/ True ->
                   b = true ->
                   is_some (if acc3 (of_V3 e) input inputPos
                            then here3 (map of_V3 rest) ea input (inputPos + 1)
                            else None) = true)).
  { intros Hone Hn.
    rewrite (V3_step_one _ p e rest input pos inputPos ltac:(lia) Hone).
    destruct (acc3 (of_V3 e) input inputPos).
    - destruct (IH Hrest f p pos (inputPos + 1)) as (b & Hb & H1 & H2);
        [lia|exact Hea|lia|].
      exists b. split; [exact Hb|]. split; [exact H1|].
      intros Hn' _. destruct (Hn Hn') as [Hn1 Hn2]. apply H2; [exact Hn1|].
      right. exact Hn2.
    - exists false. split; [reflexivity|]. split; [discriminate|].
      intros _ _ H. discriminate. }
  assert (Split : forall x : bool,
            (x && no_plus_after_atom rest = true) ->
            x = true /\ no_plus_after_atom rest = true).
  { intros x H. apply andb_true_iff in H. exact H. }
  destruct e as [c| | |chars negated|m|m| |alts].
  - destruct One as (b & Hb & H1 & H2); [exact I| |].
    + cbn [no_plus_after_atom]. intros H. apply Split in H. destruct H as [H Hn].
      split; [exact Hn|]. destruct rest as [|[] ?]; try exact I. discriminate.
    + exists b. split; [exact Hb|]. split; [exact H1|].
      intros Hn _. apply H2; [exact Hn|right; exact I].
  - destruct One as (b & Hb & H1 & H2); [exact I| |].
    + cbn [no_plus_after_atom]. intros H. apply Split in H. destruct H as [H Hn].
      split; [exact Hn|]. destruct rest as [|[] ?]; try exact I. discriminate.
    + exists b. split; [exact Hb|]. split; [exact H1|].
      intros Hn _. apply H2; [exact Hn|right; exact I].
  - destruct One as (b & Hb & H1 & H2); [exact I| |].
    + cbn [no_plus_after_atom]. intros H. apply Split in H. destruct H as [H Hn].
      split; [exact Hn|]. destruct rest as [|[] ?]; try exact I. discriminate.
    + exists b. split; [exact Hb|]. split; [exact H1|].
      intros Hn _. apply H2; [exact Hn|right; exact I].
  - destruct One as (b & Hb & H1 & H2); [exact I| |].
    + cbn [no_plus_after_atom]. intros H. apply Split in H. destruct H as [H Hn].
      split; [exact Hn|]. destruct rest as [|[] ?]; try exact I. discriminate.
    + exists b. split; [exact Hb|]. split; [exact H1|].
      intros Hn _. apply H2; [exact Hn|right; exact I].
  - (* OneOrMoreMatcher *)
    clear One. cbn [map of_V3 flat_here].
    destruct (V3_step_plus (V3.matchHere IsDigit IsLetter f) p m rest input pos
                inputPos g Hpos) as (b & Hb & Hiff).
    { intros t Ht. apply Hg. lia. }
    exists b. split; [exact Hb|]. split.
    + intros Hfound. apply Hiff.
      destruct (acc3 (of_V3 m) input inputPos) eqn:Ha; [|discriminate].
      split; [reflexivity|].
      destruct (flat_loop _ _ _ _ _ _ _) as [x|] eqn:Hl; [|discriminate].
      apply flat_loop_Some in Hl. destruct Hl as (q & Hq & Hrun & Hx).
      exists q, q. split; [exact Hrun|]. split; [lia|]. split; [lia|].
      apply (Hg q); [lia|]. rewrite Hx. reflexivity.
    + intros Hn Hhead Htrue. cbn [no_plus_after_atom] in Hn. cbn [andb] in Hn.
      assert (Hp : pos = inputPos) by (destruct Hhead; [assumption|contradiction]).
      apply Hiff in Htrue. destruct Htrue as (Ha & q & t & Hrun & Hq & Ht & Hgt).
      rewrite Ha.
      apply (Hg t) in Hgt; [|lia|exact Hn].
      destruct (here3 (map of_V3 rest) ea input t) as [x|] eqn:Hx; [|discriminate].
      destruct (flat_loop_reaches IsDigit IsLetter
                  (here3 (map of_V3 rest) ea input) (of_V3 m) input t x Hx
                  ltac:(lia) (Z.to_nat (len input + 1 - (inputPos + 1)))
                  (inputPos + 1)) as (x' & Hx'); [lia|lia| |].
      * intros i Hi. apply Hrun. lia.
      * rewrite Hx'. reflexivity.
  - (* ZeroOrOneMatcher *)
    clear One. cbn [map of_V3 flat_here].
    rewrite (V3_step_option (V3.matchHere IsDigit IsLetter f) p m rest input pos
               inputPos g ltac:(lia)) by (intros t Ht; apply Hg; lia).
    eexists. split; [reflexivity|].
    destruct (Hg inputPos ltac:(lia)) as (_ & G1 & G2).
    destruct (Hg (inputPos + 1) ltac:(lia)) as (_ & G3 & G4).
    split.
    + intros Hfound.
      destruct (here3 (map of_V3 rest) ea input inputPos) as [x|] eqn:Hx.
      * rewrite G1 by reflexivity. reflexivity.
      * destruct (acc3 (of_V3 m) input inputPos); [|discriminate].
        rewrite (G3 Hfound). apply orb_true_r.
    + intros Hn _ Htrue. cbn [no_plus_after_atom] in Hn. cbn [andb] in Hn.
      apply orb_true_iff in Htrue. destruct Htrue as [Htrue|Htrue].
      * specialize (G2 Hn Htrue).
        destruct (here3 (map of_V3 rest) ea input inputPos); [reflexivity|discriminate].
      * apply andb_true_iff in Htrue. destruct Htrue as [Ha Htrue].
        destruct (here3 (map of_V3 rest) ea input inputPos); [reflexivity|].
        rewrite Ha. apply G4; assumption.
  - destruct One as (b & Hb & H1 & H2); [exact I| |].
    + cbn [no_plus_after_atom]. intros H. apply Split in H. destruct H as [H Hn].
      split; [exact Hn|]. destruct rest as [|[] ?]; try exact I. discriminate.
    + exists b. split; [exact Hb|]. split; [exact H1|].
      intros Hn _. apply H2; [exact Hn|right; exact I].
  - contradiction.
Qed.

Lemma V3_Match_loop fuel p input (g : Z -> bool) :
  (forall pos, 0 <= pos ->
     V3.matchHere IsDigit IsLetter fuel p input pos = Done (g pos)) ->
  forall k start, 0 <= start ->
  V3.Match_loop IsDigit IsLetter fuel p input k start
  = Done (any_start g input k start).
Proof.
  intros Hg. induction k as [|k IH]; intros start Hstart; [reflexivity|].
  cbn [V3.Match_loop any_start].
  destruct (start <=? len input); [|reflexivity].
  rewrite Hg by assumption. cbn [bind].
  destruct (g start); [reflexivity|]. cbn [orb]. apply IH. lia.
Qed.

Lemma V3_Match_plain els sa ea fuel input :
  forallb plain_V3 els = true -> (List.length els < fuel)%nat ->
  exists b, V3.Match IsDigit IsLetter fuel (V3.mkPattern els sa ea) input = Done b /\
    (found IsDigit IsLetter (map of_V3 els) sa ea input -> b = true) /\
    (no_plus_after_atom els = true -> b = true ->
     found IsDigit IsLetter (map of_V3 els) sa ea input).
Proof.
  intros Hplain Hfuel. destruct fuel as [|f]; [lia|].
  set (p := V3.mkPattern els sa ea).
  assert (Hg : exists g : Z -> bool, forall t, 0 <= t ->
            V3.matchHere IsDigit IsLetter (S f) p input t = Done (g t) /\
            (is_some (here3 (map of_V3 els) ea input t) = true -> g t = true) /\
            (no_plus_after_atom els = true -> g t = true ->
             is_some (here3 (map of_V3 els) ea input t) = true)).
  { exists (fun t => match V3.matchHere IsDigit IsLetter (S f) p input t with
                     | Done b => b
                     | _ => false
                     end).
    intros t Ht. cbn [V3.matchHere]. subst p. cbn [V3.elements].
    destruct (V3_here ea input els Hplain f (V3.mkPattern els sa ea) t t)
      as (b & Hb & H1 & H2); [lia|reflexivity|lia|].
    rewrite Hb. split; [reflexivity|]. split; [exact H1|].
    intros Hn. apply H2; [exact Hn|left; reflexivity]. }
  destruct Hg as (g & Hg).
  unfold V3.Match. cbn [V3.startAnchor p]. subst p. cbn [V3.startAnchor].
  destruct sa.
  - destruct (Hg 0 ltac:(lia)) as (H0 & H1 & H2). rewrite H0.
    eexists. split; [reflexivity|]. split.
    + intros Hfound. apply found_at in Hfound.
      destruct Hfound as (pos & _ & Hp & H). rewrite (Hp eq_refl) in H.
      apply H1. exact H.
    + intros Hn Hb. apply found_at. exists 0. split; [unfold len; lia|].
      split; [reflexivity|]. apply H2; assumption.
  - rewrite (V3_Match_loop (S f) _ input g) by (try lia; intros; apply Hg; assumption).
    eexists. split; [reflexivity|]. split.
    + intros Hfound. apply found_at in Hfound.
      destruct Hfound as (pos & Hpos & _ & H).
      apply any_start_true. exists pos. split; [lia|].
      split; [unfold len in *; lia|]. apply (Hg pos); [lia|exact H].
    + intros Hn Hb. apply any_start_true in Hb. destruct Hb as (pos & H1 & _ & H3).
      apply found_at. exists pos. split; [lia|]. split; [discriminate|].
      apply (Hg pos); [lia|exact Hn|exact H3].
Qed.

Lemma V3_atom_cases a :
  is_atom (of_V3 a) = true ->
  match a with
  | V3.OneOrMoreMatcher _ | V3.ZeroOrOneMatcher _ | V3.AlternationMatcher _ => False
  | _ => True
  end.
Proof. destruct a; cbn; auto; discriminate. Qed.

(** The nested calls on a pattern of single-rune elements, quantified or
    not, return. *)
Lemma V3_matchHere_returns els ea fuel input :
  forallb plain_V3 els = true -> (List.length els < fuel)%nat ->
  exists g : Z -> bool, forall t, 0 <= t ->
    V3.matchHere IsDigit IsLetter fuel (V3.mkPattern els false ea) input t
    = Done (g t).
Proof.
  intros Hplain Hfuel. destruct fuel as [|f]; [lia|].
  exists (fun t => match V3.matchHere IsDigit IsLetter (S f)
                          (V3.mkPattern els false ea) input t with
                   | Done b => b
                   | _ => false
                   end).
  intros t Ht. cbn [V3.matchHere V3.elements].
  destruct (V3_here ea input els Hplain f (V3.mkPattern els false ea) t t)
    as (b & Hb & _); [lia|reflexivity|lia|].
  rewrite Hb. reflexivity.
Qed.

(** X25.  After a single-rune element, the rest of the pattern is tried from
    the end of the run of a repeated element down to the position of its
    first repetition: where the rest matches there, matchHere reports a
    match in which the repeated element has taken no rune. *)
Theorem third_version_plus_steps_back_too_far
    (a m : V3.PatternElement) (rest : list V3.PatternElement) (sa ea : bool)
    (input : list rune) (pos : Z) (fuel : nat) :
  is_atom (of_V3 a) = true -> forallb plain_V3 rest = true ->
  (List.length rest < fuel)%nat -> 0 <= pos ->
  acc3 (of_V3 a) input pos = true ->
  acc3 (of_V3 m) input (pos + 1) = true ->
  V3.matchHere IsDigit IsLetter fuel (V3.mkPattern rest false ea) input (pos + 1)
  = Done true ->
  V3.matchHere IsDigit IsLetter (S fuel)
    (V3.mkPattern (a :: V3.OneOrMoreMatcher m :: rest) sa ea) input pos
  = Done true.
Proof.
  intros Ha Hplain Hfuel Hpos Hacc Hm Hrest.
  cbn [V3.matchHere V3.elements].
  rewrite (V3_step_one _ _ a _ input pos pos Hpos (V3_atom_cases a Ha)), Hacc.
  destruct (V3_matchHere_returns rest ea fuel input Hplain Hfuel) as (g & Hg).
  destruct (V3_step_plus (V3.matchHere IsDigit IsLetter fuel)
              (V3.mkPattern (a :: V3.OneOrMoreMatcher m :: rest) sa ea)
              m rest input pos (pos + 1) g) as (b & Hb & Hiff); [lia| |].
  { intros t Ht. cbn [V3.endAnchor]. apply Hg. lia. }
  rewrite Hb. f_equal. apply Hiff. split; [exact Hm|].
  apply accepts_lt in Hm.
  exists (pos + 1 + 1), (pos + 1). split; [intros i Hi; lia|].
  split; [lia|]. split; [lia|].
  rewrite Hg in Hrest by lia. inversion Hrest. reflexivity.
Qed.

(** A repeated group stops every match. *)
Lemma V3_dead_group alts rest input : forall pre,
  forallb plain_V3 pre = true ->
  forall f p pos inputPos,
  (List.length pre <= f)%nat -> 0 <= pos <= inputPos ->
  loop3 (V3.matchHere IsDigit IsLetter f) p
    (pre ++ V3.OneOrMoreMatcher (V3.AlternationMatcher alts) :: rest)
    input pos inputPos = Done false.
Proof.
  induction pre as [|e pre IH]; intros Hplain f p pos inputPos Hf Hpos.
  { cbn [app V3.matchHere_loop].
    destruct (inputPos >=? len input) eqn:E; [reflexivity|].
    assert (Hlt : 0 <= inputPos < len input).
    { rewrite Z.geb_leb in E. apply Z.leb_gt in E. lia. }
    destruct (elem_at_Some input inputPos Hlt) as (r & Hr). rewrite Hr.
    reflexivity. }
  cbn [forallb] in Hplain. apply andb_true_iff in Hplain.
  destruct Hplain as [He Hpre]. cbn [List.length] in Hf. cbn [app].
  assert (Call : forall t, 0 <= t ->
            V3.matchHere IsDigit IsLetter f
              (V3.mkPattern
                 (pre ++ V3.OneOrMoreMatcher (V3.AlternationMatcher alts) :: rest)
                 false (V3.endAnchor p)) input t = Done ((fun _ => false) t)).
  { intros t Ht. destruct f as [|f']; [lia|]. cbn [V3.matchHere V3.elements].
    apply IH; [exact Hpre|lia|lia]. }
  pose proof (plain_V3_cases e He) as Hcase.
  assert (One : match e with
                | V3.OneOrMoreMatcher _ | V3.ZeroOrOneMatcher _
                | V3.AlternationMatcher _ => False
                | _ => True
                end ->
                loop3 (V3.matchHere IsDigit IsLetter f) p
                  (e :: pre ++ V3.OneOrMoreMatcher (V3.AlternationMatcher alts) :: rest)
                  input pos inputPos = Done false).
  { intros Hone. rewrite (V3_step_one _ p e _ input pos inputPos ltac:(lia) Hone).
    destruct (acc3 (of_V3 e) input inputPos); [|reflexivity].
    apply IH; [exact Hpre|lia|lia]. }
  destruct e as [c| | |chars negated|m|m| |alts']; try (apply One; exact I).
  - destruct (V3_step_plus (V3.matchHere IsDigit IsLetter f) p m
                (pre ++ V3.OneOrMoreMatcher (V3.AlternationMatcher alts) :: rest)
                input pos inputPos (fun _ => false) Hpos) as (b & Hb & Hiff).
    { intros t Ht. apply Call. lia. }
    rewrite Hb. f_equal. destruct b; [|reflexivity].
    destruct (proj1 Hiff eq_refl) as (_ & q & t & _ & _ & _ & H). discriminate.
  - rewrite (V3_step_option (V3.matchHere IsDigit IsLetter f) p m _ input pos
               inputPos (fun _ => false) ltac:(lia))
      by (intros t Ht; apply Call; lia).
    rewrite andb_false_r. reflexivity.
  - contradiction.
Qed.

(** An optional group is never entered. *)
Lemma V3_skipped_group alts rest sa ea fuel input t :
  0 <= t ->
  V3.matchHere IsDigit IsLetter (S fuel)
    (V3.mkPattern (V3.ZeroOrOneMatcher (V3.AlternationMatcher alts) :: rest) sa ea)
    input t
  = V3.matchHere IsDigit IsLetter fuel (V3.mkPattern rest false ea) input t.
Proof.
  intros Ht. cbn [V3.matchHere V3.elements V3.matchHere_loop V3.endAnchor].
  destruct (V3.matchHere IsDigit IsLetter fuel (V3.mkPattern rest false ea) input t)
    as [[|]| |]; cbn [bind]; try reflexivity.
  destruct (t <? len input) eqn:E; [|reflexivity].
  apply Z.ltb_lt in E.
  destruct (elem_at_Some input t ltac:(lia)) as (r & Hr). rewrite Hr.
  reflexivity.
Qed.

(** matchHere does not look at the start anchor. *)
Lemma V3_alternatives_anchor call p p' remaining input inputPos :
  V3.endAnchor p = V3.endAnchor p' ->
  forall alts,
  V3.alternatives_loop call p remaining alts input inputPos
  = V3.alternatives_loop call p' remaining alts input inputPos.
Proof.
  intros H. induction alts as [|alt alts IH]; [reflexivity|].
  cbn [V3.alternatives_loop]. rewrite H, IH. reflexivity.
Qed.

Lemma V3_loop_anchor call p p' input :
  V3.endAnchor p = V3.endAnchor p' ->
  forall els pos inputPos,
  loop3 call p els input pos inputPos = loop3 call p' els input pos inputPos.
Proof.
  intros H. induction els as [|e els IH]; intros pos inputPos;
    cbn [V3.matchHere_loop].
  - rewrite H. reflexivity.
  - destruct e; rewrite ?IH, ?H; try reflexivity.
    apply V3_alternatives_anchor. exact H.
Qed.

Lemma V3_matchHere_anchor fuel els sa ea input t :
  V3.matchHere IsDigit IsLetter fuel (V3.mkPattern els sa ea) input t
  = V3.matchHere IsDigit IsLetter fuel (V3.mkPattern els false ea) input t.
Proof.
  destruct fuel as [|f]; [reflexivity|]. cbn [V3.matchHere V3.elements].
  apply V3_loop_anchor. reflexivity.
Qed.

Lemma V3_Match_loop_skipped alts rest ea fuel input : forall k start,
  0 <= start ->
  V3.Match_loop IsDigit IsLetter (S fuel)
    (V3.mkPattern (V3.ZeroOrOneMatcher (V3.AlternationMatcher alts) :: rest)
       false ea) input k start
  = V3.Match_loop IsDigit IsLetter fuel (V3.mkPattern rest false ea) input k start.
Proof.
  induction k as [|k IH]; intros start Hstart; [reflexivity|].
  cbn [V3.Match_loop]. destruct (start <=? len input); [|reflexivity].
  rewrite V3_skipped_group by lia.
  destruct (V3.matchHere IsDigit IsLetter fuel (V3.mkPattern rest false ea)
              input start) as [[|]| |]; cbn [bind]; try reflexivity.
  apply IH. lia.
Qed.

(** X26.  A group under a quantifier is dead: a pattern with a repeated
    group after single-rune elements, quantified or not, matches no input,
    and a pattern that begins with an optional group matches as the pattern
    without the group does. *)
Theorem third_version_never_enters_a_quantified_group
    (pre rest : list V3.PatternElement) (alts : list V3.Pattern)
    (sa ea : bool) (input : list rune) (fuel : nat) :
  forallb plain_V3 pre = true -> (List.length pre < fuel)%nat ->
  V3.Match IsDigit IsLetter fuel
    (V3.mkPattern
       (pre ++ V3.OneOrMoreMatcher (V3.AlternationMatcher alts) :: rest) sa ea)
    input = Done false /\
  V3.Match IsDigit IsLetter (S fuel)
    (V3.mkPattern (V3.ZeroOrOneMatcher (V3.AlternationMatcher alts) :: rest) sa ea)
    input
  = V3.Match IsDigit IsLetter fuel (V3.mkPattern rest sa ea) input.
Proof.
  intros Hplain Hfuel. split.
  - set (p := V3.mkPattern _ sa ea).
    assert (Hg : forall t, 0 <= t ->
              V3.matchHere IsDigit IsLetter fuel p input t
              = Done ((fun _ => false) t)).
    { intros t Ht. destruct fuel as [|f]; [lia|]. subst p.
      cbn [V3.matchHere V3.elements]. apply V3_dead_group; [exact Hplain|lia|lia]. }
    unfold V3.Match. destruct (V3.startAnchor p).
    + apply Hg. lia.
    + rewrite (V3_Match_loop fuel p input _ Hg) by lia. f_equal.
      destruct (any_start (fun _ => false) input (S (List.length input)) 0) eqn:E;
        [|reflexivity].
      apply any_start_true in E. destruct E as (t & _ & _ & E). discriminate.
  - unfold V3.Match. cbn [V3.startAnchor]. destruct sa.
    + rewrite V3_skipped_group by lia. symmetry. apply V3_matchHere_anchor.
    + apply V3_Match_loop_skipped. lia.
Qed.

End ThirdVersion.

Lemma no_group_syntax_suffix pre : forall s,
  no_group_syntax (pre ++ s) = true -> no_group_syntax s = true.
Proof.
  induction pre as [|r pre IH]; intros s H; [assumption|].
  cbn [app no_group_syntax] in H. apply andb_true_iff in H. destruct H as [_ H].
  apply IH. assumption.
Qed.

Lemma no_group_syntax_prefix s : forall post,
  no_group_syntax (s ++ post) = true -> no_group_syntax s = true.
Proof.
  induction s as [|r s IH]; intros post H; [reflexivity|].
  cbn [app no_group_syntax] in *.
  apply andb_true_iff in H. destruct H as [H H3].
  apply andb_true_iff in H. destruct H as [H1 H2].
  rewrite H1, (IH post H3). rewrite andb_true_r. cbn [andb].
  destruct s as [|c s']; [|exact H2].
  destruct (r =? BACKSLASH); reflexivity.
Qed.

Lemma no_group_syntax_body rs :
  no_group_syntax rs = true -> no_group_syntax (body_of rs) = true.
Proof.
  intros H. unfold body_of.
  destruct (stripStart_suffix rs) as (pre & Hpre).
  destruct (stripEnd_prefix (snd (stripStart rs))) as (post & Hpost).
  rewrite Hpre in H. apply no_group_syntax_suffix in H.
  rewrite Hpost in H. apply no_group_syntax_prefix in H. assumption.
Qed.

Lemma no_group_syntax_head r rest :
  no_group_syntax (r :: rest) = true ->
  (r =? LPAREN) = false /\ no_group_syntax rest = true.
Proof.
  cbn [no_group_syntax]. rewrite !andb_true_iff, negb_true_iff. tauto.
Qed.

Lemma no_group_syntax_no_paren rs : no_group_syntax rs = true -> ~ In LPAREN rs.
Proof.
  intros Hsyn Hin. apply in_split in Hin. destruct Hin as (l1 & l2 & Hin).
  rewrite Hin in Hsyn. apply no_group_syntax_suffix in Hsyn.
  apply no_group_syntax_head in Hsyn. destruct Hsyn as (Hp & _). discriminate.
Qed.

Lemma quantifier_of_V3 e s :
  quantifier (of_V3 e) s
  = (of_V3 (fst (V3.quantifier e s)), snd (V3.quantifier e s)).
Proof.
  destruct s as [|r s]; [reflexivity|].
  unfold quantifier, V3.quantifier.
  destruct (r =? PLUS); [reflexivity|]. destruct (r =? QUESTION); reflexivity.
Qed.

Lemma V3_quantifier_suffix e rest :
  exists pre, rest = pre ++ snd (V3.quantifier e rest).
Proof.
  destruct rest as [|r rest]; [exists []; reflexivity|].
  unfold V3.quantifier. destruct (r =? PLUS); [exists [r]; reflexivity|].
  destruct (r =? QUESTION); [exists [r]|exists []]; reflexivity.
Qed.

Lemma parseElements_of_V3 : forall n rs,
  (List.length rs < n)%nat -> no_group_syntax rs = true ->
  exists els,
    (forall fuel, (List.length rs < fuel)%nat ->
       V3.parseElements fuel rs = Ok els) /\
    (forall fuel cnt, (List.length rs < fuel)%nat ->
       parseElements fuel rs cnt = Ok (map of_V3 els, cnt)).
Proof.
  induction n as [|n IH]; intros rs Hlen Hsyn; [lia|].
  destruct rs as [|r rest].
  - exists []. split; intros fuel; intros;
      (destruct fuel; [simpl in *; lia|reflexivity]).
  - simpl in Hlen.
    destruct (no_group_syntax_head r rest Hsyn) as (Hp & Hrest).
    assert (Step : forall (e : V3.PatternElement) rest',
              (exists pre, rest = pre ++ rest') ->
              exists els,
                (forall fuel, (List.length rest < fuel)%nat ->
                   (let (element, after) := V3.quantifier e rest' in
                    rbind (V3.parseElements fuel after)
                      (fun els => Ok (element :: els))) = Ok els) /\
                (forall fuel cnt, (List.length rest < fuel)%nat ->
                   emit (Some (fst (quantifier (of_V3 e) rest')))
                     (parseElements fuel (snd (quantifier (of_V3 e) rest')) cnt)
                   = Ok (map of_V3 els, cnt))).
    { intros e rest' (pre & Hpre).
      assert (Hrest' : no_group_syntax rest' = true).
      { rewrite Hpre in Hrest. apply no_group_syntax_suffix in Hrest. assumption. }
      rewrite (quantifier_of_V3 e rest'). cbn [fst snd].
      destruct (V3_quantifier_suffix e rest') as (pre' & Hpre').
      assert (Hl : (List.length (snd (V3.quantifier e rest')) <= List.length rest)%nat).
      { apply (f_equal (@List.length rune)) in Hpre, Hpre'.
        rewrite length_app in Hpre, Hpre'. lia. }
      destruct (IH (snd (V3.quantifier e rest'))) as (els & H1 & H2); [lia| |].
      { rewrite Hpre' in Hrest'. apply no_group_syntax_suffix in Hrest'. assumption. }
      exists (fst (V3.quantifier e rest') :: els).
      destruct (V3.quantifier e rest') as [element after]. cbn [fst snd] in *.
      split.
      - intros fuel Hf. rewrite H1 by lia. reflexivity.
      - intros fuel cnt Hf. cbn [emit]. rewrite H2 by lia. reflexivity. }
    destruct (r =? DOT) eqn:E0.
    { destruct (Step V3.WildcardMatcher rest) as (els & H1 & H2);
        [exists []; reflexivity|].
      exists els. split.
      + intros fuel Hf. destruct fuel as [|fuel]; [simpl in Hf; lia|].
        cbn [V3.parseElements]. rewrite Hp, E0. apply H1. simpl in Hf. lia.
      + intros fuel cnt Hf. destruct fuel as [|fuel]; [simpl in Hf; lia|].
        rewrite parseElements_atom by assumption.
        unfold scanAtom. rewrite E0.
        rewrite <- (H2 fuel cnt) by (simpl in Hf |- *; lia). cbn [of_V3].
        destruct (quantifier _ rest); reflexivity. }
    destruct (r =? BACKSLASH) eqn:E1.
    { destruct rest as [|c rest'].
      - exists []. split.
        + intros fuel Hf. destruct fuel as [|[|fuel]]; simpl in Hf; try lia.
          cbn [V3.parseElements]. rewrite Hp, E0, E1. reflexivity.
        + intros fuel cnt Hf. destruct fuel as [|[|fuel]]; simpl in Hf; try lia.
          rewrite parseElements_atom by assumption.
          unfold scanAtom. rewrite E0, E1. reflexivity.
      - assert (Hc : (49 <=? c) && (c <=? 57) = false).
        { cbn [no_group_syntax] in Hsyn. rewrite E1 in Hsyn.
          rewrite !andb_true_iff, !negb_true_iff in Hsyn.
          destruct Hsyn as [[_ Hc] _]. exact Hc. }
        destruct (Step (if c =? 100 then V3.DigitMatcher
                        else if c =? 119 then V3.AlphanumericMatcher
                        else V3.LiteralMatcher c) rest') as (els & H1 & H2).
        { exists [c]. reflexivity. }
        exists els. split.
        + intros fuel Hf. destruct fuel as [|fuel]; [simpl in Hf; lia|].
          cbn [V3.parseElements]. rewrite Hp, E0, E1. apply H1.
          simpl in Hf |- *. lia.
        + intros fuel cnt Hf. destruct fuel as [|fuel]; [simpl in Hf; lia|].
          rewrite parseElements_atom by assumption.
          unfold scanAtom. rewrite E0, E1, Hc.
          rewrite <- (H2 fuel cnt) by (simpl in Hf |- *; lia).
          destruct (c =? 100); [|destruct (c =? 119)];
            cbn [of_V3]; destruct (quantifier _ rest'); reflexivity. }
    destruct (r =? LBRACKET) eqn:E2.
    { set (nr := match rest with
                 | c :: rest' => if c =? CARET then (true, rest') else (false, rest)
                 | [] => (false, rest)
                 end).
      assert (Hnr : exists pre, rest = pre ++ snd nr).
      { subst nr. destruct rest as [|c rest']; [exists []; reflexivity|].
        destruct (c =? CARET); [exists [c]|exists []]; reflexivity. }
      destruct Hnr as (pre1 & Hpre1).
      pose proof (setChars_app (snd nr)) as Happ.
      destruct (tl_suffix (snd (setChars (snd nr)))) as (pre3 & Hpre3).
      assert (Hsuf : exists pre, rest = pre ++ tl (snd (setChars (snd nr)))).
      { exists (pre1 ++ fst (setChars (snd nr)) ++ pre3).
        rewrite <- !app_assoc, <- Hpre3, <- Happ. assumption. }
      destruct (Step (V3.CharacterSetMatcher (fst (setChars (snd nr))) (fst nr))
                  _ Hsuf) as (els & H1 & H2).
      exists els. split.
      + intros fuel Hf. destruct fuel as [|fuel]; [simpl in Hf; lia|].
        cbn [V3.parseElements]. rewrite Hp, E0, E1, E2. fold nr.
        destruct nr as [negated rest1]. cbn [fst snd] in *.
        destruct (setChars rest1) as [chars rest2]. cbn [fst snd] in *.
        apply H1. simpl in Hf |- *. lia.
      + intros fuel cnt Hf. destruct fuel as [|fuel]; [simpl in Hf; lia|].
        rewrite parseElements_atom by assumption.
        unfold scanAtom. rewrite E0, E1, E2. fold nr.
        destruct nr as [negated rest1]. cbn [fst snd] in *.
        destruct (setChars rest1) as [chars rest2]. cbn [fst snd] in *.
        rewrite <- (H2 fuel cnt) by (simpl in Hf |- *; lia). cbn [of_V3].
        destruct (quantifier _ (tl rest2)); reflexivity. }
    destruct (Step (V3.LiteralMatcher r) rest) as (els & H1 & H2);
      [exists []; reflexivity|].
    exists els. split.
    + intros fuel Hf. destruct fuel as [|fuel]; [simpl in Hf; lia|].
      cbn [V3.parseElements]. rewrite Hp, E0, E1, E2. apply H1.
      simpl in Hf |- *. lia.
    + intros fuel cnt Hf. destruct fuel as [|fuel]; [simpl in Hf; lia|].
      rewrite parseElements_atom by assumption.
      unfold scanAtom. rewrite E0, E1, E2.
      rewrite <- (H2 fuel cnt) by (simpl in Hf |- *; lia). cbn [of_V3].
      destruct (quantifier _ rest); reflexivity.
Qed.

Lemma plain_of_flat_V3 els :
  forallb is_flat (map of_V3 els) = true -> forallb plain_V3 els = true.
Proof.
  induction els as [|e els IH]; [reflexivity|].
  cbn [map forallb]. intros H. apply andb_true_iff in H. destruct H as [H1 H2].
  rewrite (IH H2), andb_true_r. unfold plain_V3.
  destruct e; cbn in H1 |- *; auto.
Qed.

Section ThirdCompatibility.

Variable IsDigit : rune -> bool.
Variable IsLetter : rune -> bool.

(** X27.  On a pattern text without groups and backreferences, the current
    ParsePattern returns the elements and anchors the third version
    returned, and the third Match returns true whenever the current one
    does. The two return the same when no repeated element of the pattern
    comes directly after a single-rune element. *)
Theorem current_version_agrees_with_the_third
    (pattern : gostring) (input : list rune) (fuel : nat) :
  no_group_syntax (runes_of_string pattern) = true ->
  (List.length (runes_of_string pattern) < fuel)%nat ->
  exists p3 p,
    V3.ParsePattern pattern = Ok p3 /\ ParsePattern pattern = Ok p /\
    elements p = map of_V3 (V3.elements p3) /\
    startAnchor p = V3.startAnchor p3 /\ endAnchor p = V3.endAnchor p3 /\
    exists b3 b,
      V3.Match IsDigit IsLetter fuel p3 input = Done b3 /\
      Match IsDigit IsLetter fuel p input = Done b /\
      (b = true -> b3 = true) /\
      (no_plus_after_atom (V3.elements p3) = true -> b3 = b).
Proof.
  intros Hsyn Hfuel.
  pose proof (body_of_length (runes_of_string pattern)) as Hb.
  destruct (parseElements_of_V3
              (S (List.length (body_of (runes_of_string pattern))))
              (body_of (runes_of_string pattern)))
    as (els & H1 & H2); [lia|apply no_group_syntax_body; assumption|].
  unfold V3.ParsePattern, V3.ParsePattern_with.
  unfold ParsePattern, ParseRunes, parsePatternInternal.
  rewrite parsePatternInternal_with_eq, H2 by lia.
  unfold body_of in H1.
  destruct (stripStart (runes_of_string pattern)) as [sa r1] eqn:Es.
  cbn [fst snd] in *.
  destruct (stripEnd r1) as [ea r2] eqn:Ee. cbn [fst snd] in *.
  rewrite H1 by (unfold body_of in Hb; rewrite Es in Hb; cbn [snd] in Hb;
                 rewrite Ee in Hb; cbn [snd] in Hb; lia).
  cbn [rbind set_groupCount elements startAnchor endAnchor].
  do 2 eexists. split; [reflexivity|]. split; [reflexivity|].
  cbn [elements startAnchor endAnchor V3.elements V3.startAnchor V3.endAnchor].
  split; [reflexivity|]. split; [reflexivity|]. split; [reflexivity|].
  assert (Hflat : forallb is_flat (map of_V3 els) = true /\
                  (List.length els <= List.length r2)%nat).
  { specialize (H2 (S (List.length r2)) 0).
    unfold body_of in H2. rewrite Es in H2. cbn [snd] in H2. rewrite Ee in H2.
    cbn [snd] in H2. specialize (H2 ltac:(lia)).
    destruct (parseElements_flat (S (List.length r2)) r2) as (e2 & Hf2 & Hl2 & He2);
      [lia| |].
    - apply no_group_syntax_no_paren.
      apply no_group_syntax_body in Hsyn. unfold body_of in Hsyn.
      rewrite Es in Hsyn. cbn [snd] in Hsyn. rewrite Ee in Hsyn. exact Hsyn.
    - rewrite He2 in H2 by lia. inversion H2 as [E].
      split; [rewrite <- E; exact Hf2|].
      rewrite <- (length_map of_V3 els), <- E. assumption. }
  destruct Hflat as [Hflat Hl].
  assert (Hr2 : (List.length r2 <= List.length (runes_of_string pattern))%nat).
  { unfold body_of in Hb. rewrite Es in Hb. cbn [snd] in Hb. rewrite Ee in Hb.
    exact Hb. }
  destruct (Match_flat_found IsDigit IsLetter (map of_V3 els) sa ea 0 fuel input
              Hflat) as (b & Hb1 & Hb2); [rewrite length_map; lia|lia|].
  destruct (V3_Match_plain IsDigit IsLetter els sa ea fuel input
              (plain_of_flat_V3 els Hflat)) as (b3 & Hb3 & Hc & Hs); [lia|].
  exists b3, b. split; [exact Hb3|]. split; [exact Hb1|]. split.
  - intros Hbt. apply Hc, Hb2, Hbt.
  - intros Hn. destruct b3, b; try reflexivity.
    + symmetry. apply Hb2, Hs; [exact Hn|reflexivity].
    + apply Hc, Hb2. reflexivity.
Qed.

End ThirdCompatibility.

Lemma current_version_agrees_with_the_third_witness :
  no_group_syntax (runes_of_string (lit "^a+b?\d+.$")) = true /\
  (List.length (runes_of_string (lit "^a+b?\d+.$")) < 12)%nat /\
  exists p3 p,
    V3.ParsePattern (lit "^a+b?\d+.$") = Ok p3 /\
    ParsePattern (lit "^a+b?\d+.$") = Ok p /\
    no_plus_after_atom (V3.elements p3) = true /\
    exists b3 b,
      V3.Match asciiIsDigit asciiIsLetter 12 p3 (runes "aa42x") = Done b3 /\
      Match asciiIsDigit asciiIsLetter 12 p (runes "aa42x") = Done b /\
      (b = true -> b3 = true) /\ b3 = b.
Proof.
  split; [vm_compute; reflexivity|]. split; [vm_compute; lia|].
  destruct (current_version_agrees_with_the_third asciiIsDigit asciiIsLetter
              (lit "^a+b?\d+.$") (runes "aa42x") 12)
    as (p3 & p & H1 & H2 & _ & _ & _ & b3 & b & H3 & H4 & H5 & H6).
  - vm_compute; reflexivity.
  - vm_compute; lia.
  - exists p3, p. split; [exact H1|]. split; [exact H2|].
    assert (Hn : no_plus_after_atom (V3.elements p3) = true).
    { assert (E : V3.ParsePattern (lit "^a+b?\d+.$") =
                  Ok (V3.mkPattern [V3.OneOrMoreMatcher (V3.LiteralMatcher 97);
                                    V3.ZeroOrOneMatcher (V3.LiteralMatcher 98);
                                    V3.OneOrMoreMatcher V3.DigitMatcher;
                                    V3.WildcardMatcher] true true))
        by (vm_compute; reflexivity).
      rewrite E in H1. inversion H1. reflexivity. }
    split; [exact Hn|]. exists b3, b.
    split; [exact H3|]. split; [exact H4|]. split; [exact H5|exact (H6 Hn)].
Defined.

Lemma third_version_plus_steps_back_too_far_witness :
  is_atom (of_V3 (V3.LiteralMatcher 97)) = true /\
  forallb plain_V3 [V3.LiteralMatcher 98] = true /\
  (List.length [V3.LiteralMatcher 98] < 2)%nat /\ 0 <= 0 /\
  accepts asciiIsDigit asciiIsLetter (of_V3 (V3.LiteralMatcher 97)) (runes "ab") 0
  = true /\
  accepts asciiIsDigit asciiIsLetter (of_V3 (V3.LiteralMatcher 98)) (runes "ab")
    (0 + 1) = true /\
  V3.matchHere asciiIsDigit asciiIsLetter 2
    (V3.mkPattern [V3.LiteralMatcher 98] false false) (runes "ab") (0 + 1)
  = Done true /\
  V3.ParsePattern (lit "ab+b") =
    Ok (V3.mkPattern [V3.LiteralMatcher 97;
                      V3.OneOrMoreMatcher (V3.LiteralMatcher 98);
                      V3.LiteralMatcher 98] false false) /\
  V3.matchHere asciiIsDigit asciiIsLetter 3
    (V3.mkPattern [V3.LiteralMatcher 97;
                   V3.OneOrMoreMatcher (V3.LiteralMatcher 98);
                   V3.LiteralMatcher 98] false false) (runes "ab") 0
  = Done true /\
  Match asciiIsDigit asciiIsLetter 5
    (mkPattern [LiteralMatcher 97; OneOrMoreMatcher (LiteralMatcher 98);
                LiteralMatcher 98] false false 0) (runes "ab")
  = Done false.
Proof.
  assert (H1 : is_atom (of_V3 (V3.LiteralMatcher 97)) = true) by reflexivity.
  assert (H2 : forallb plain_V3 [V3.LiteralMatcher 98] = true) by reflexivity.
  assert (H3 : (List.length [V3.LiteralMatcher 98] < 2)%nat) by (simpl; lia).
  assert (H4 : 0 <= 0) by lia.
  assert (H5 : accepts asciiIsDigit asciiIsLetter (of_V3 (V3.LiteralMatcher 97))
                 (runes "ab") 0 = true) by (vm_compute; reflexivity).
  assert (H6 : accepts asciiIsDigit asciiIsLetter (of_V3 (V3.LiteralMatcher 98))
                 (runes "ab") (0 + 1) = true) by (vm_compute; reflexivity).
  assert (H7 : V3.matchHere asciiIsDigit asciiIsLetter 2
                 (V3.mkPattern [V3.LiteralMatcher 98] false false) (runes "ab")
                 (0 + 1) = Done true) by (vm_compute; reflexivity).
  split; [exact H1|]. split; [exact H2|]. split; [exact H3|]. split; [exact H4|].
  split; [exact H5|]. split; [exact H6|]. split; [exact H7|].
  split; [vm_compute; reflexivity|]. split.
  - apply (third_version_plus_steps_back_too_far asciiIsDigit asciiIsLetter
             (V3.LiteralMatcher 97) (V3.LiteralMatcher 98) [V3.LiteralMatcher 98]
             false false (runes "ab") 0 2 H1 H2 H3 H4 H5 H6 H7).
  - vm_compute; reflexivity.
Defined.

Lemma third_version_never_enters_a_quantified_group_witness :
  forallb plain_V3 [V3.LiteralMatcher 97] = true /\
  (List.length [V3.LiteralMatcher 97] < 5)%nat /\
  V3.ParsePattern (lit "a(b|c)+d") =
    Ok (V3.mkPattern
          ([V3.LiteralMatcher 97] ++
           V3.OneOrMoreMatcher
             (V3.AlternationMatcher
                [V3.mkPattern [V3.LiteralMatcher 98] false false;
                 V3.mkPattern [V3.LiteralMatcher 99] false false])
           :: [V3.LiteralMatcher 100]) false false) /\
  V3.Match asciiIsDigit asciiIsLetter 5
    (V3.mkPattern
       ([V3.LiteralMatcher 97] ++
        V3.OneOrMoreMatcher
          (V3.AlternationMatcher
             [V3.mkPattern [V3.LiteralMatcher 98] false false;
              V3.mkPattern [V3.LiteralMatcher 99] false false])
        :: [V3.LiteralMatcher 100]) false false) (runes "abcbd")
  = Done false /\
  V3.Match asciiIsDigit asciiIsLetter 6
    (V3.mkPattern
       (V3.ZeroOrOneMatcher
          (V3.AlternationMatcher
             [V3.mkPattern [V3.LiteralMatcher 98] false false;
              V3.mkPattern [V3.LiteralMatcher 99] false false])
        :: [V3.LiteralMatcher 100]) false false) (runes "abcbd")
  = V3.Match asciiIsDigit asciiIsLetter 5
      (V3.mkPattern [V3.LiteralMatcher 100] false false) (runes "abcbd").
Proof.
  assert (H1 : forallb plain_V3 [V3.LiteralMatcher 97] = true) by reflexivity.
  assert (H2 : (List.length [V3.LiteralMatcher 97] < 5)%nat) by (simpl; lia).
  split; [exact H1|]. split; [exact H2|]. split; [vm_compute; reflexivity|].
  apply (third_version_never_enters_a_quantified_group asciiIsDigit asciiIsLetter
           [V3.LiteralMatcher 97] [V3.LiteralMatcher 100]
           [V3.mkPattern [V3.LiteralMatcher 98] false false;
            V3.mkPattern [V3.LiteralMatcher 99] false false]
           false false (runes "abcbd") 5 H1 H2).
Defined.


Lemma nested_pattern_text_roundtrip_witness :
  Forall byte [40; 195; 169; 124; 255; 41] /\
  incl [233; 124; 65533] (runes_of_string [40; 195; 169; 124; 255; 41]) /\
  runes_of_string (string_of_runes [233; 124; 65533]) = [233; 124; 65533].
Proof.
  assert (H1 : Forall byte [40; 195; 169; 124; 255; 41])
    by (repeat constructor; unfold byte; lia).
  assert (H2 : incl [233; 124; 65533]
                 (runes_of_string [40; 195; 169; 124; 255; 41])).
  { intros r [H|[H|[H|[]]]]; subst r; vm_compute; auto 10. }
  split; [exact H1|]. split; [exact H2|].
  apply (nested_pattern_text_roundtrip [40; 195; 169; 124; 255; 41]
           [233; 124; 65533] H1 H2).
Defined.


(* ------------------------------------------------------------------ *)
(** ** The compile error and lenient parsing *)

Lemma ParseRunes_anchored sa body ea els :
  (sa = false -> hd_error body <> Some CARET) ->
  (ea = false -> last body 0 <> DOLLAR) ->
  (forall fuel cnt, (List.length body < fuel)%nat ->
     parseElements fuel body cnt = Ok (els, cnt)) ->
  ParseRunes (anchored sa body ea) = Ok (mkPattern els sa ea 0).
Proof.
  intros Hsa Hea Hp.
  destruct (strip_anchored sa body ea Hsa Hea) as [S1 S2].
  unfold ParseRunes, parsePatternInternal.
  rewrite parsePatternInternal_with_eq. unfold body_of.
  rewrite S1. cbn [fst snd]. rewrite S2. cbn [fst snd].
  rewrite Hp; [reflexivity|].
  unfold anchored. rewrite !length_app. lia.
Qed.

Lemma parseElements_after_literals x rest els :
  literal_text x = true ->
  quantifier WildcardMatcher rest = (WildcardMatcher, rest) ->
  (forall fuel cnt, (List.length rest < fuel)%nat ->
     parseElements fuel rest cnt = Ok (els, cnt)) ->
  forall fuel cnt, (List.length (x ++ rest) < fuel)%nat ->
    parseElements fuel (x ++ rest) cnt = Ok (map LiteralMatcher x ++ els, cnt).
Proof.
  intros Hx Hq Hp fuel cnt Hf. rewrite length_app in Hf.
  replace fuel with (List.length x + (fuel - List.length x))%nat by lia.
  rewrite (parseElements_literal_prefix x rest _ cnt Hx Hq).
  rewrite Hp by lia. reflexivity.
Qed.

Lemma hd_after_literals (x : list rune) r rest :
  hd_error x <> Some CARET -> r <> CARET ->
  hd_error (x ++ r :: rest) <> Some CARET.
Proof.
  intros Hx Hr. destruct x as [|a x]; cbn [app hd_error].
  - intros H. inversion H. contradiction.
  - exact Hx.
Qed.

(** The scan for the closing parenthesis counts every parenthesis: a group
    body that holds an opening parenthesis and no closing one is not closed
    by the parenthesis after it. *)
Lemma findClose_counts_all s : forall d,
  1 <= d -> ~ In RPAREN s -> In LPAREN s \/ 2 <= d ->
  findClose d (s ++ [RPAREN]) = None.
Proof.
  induction s as [|r s IH]; intros d Hd Hno Hin.
  - destruct Hin as [[]|Hd2]. cbn [app findClose].
    change (RPAREN =? LPAREN) with false. change (RPAREN =? RPAREN) with true.
    cbv iota. destruct (d - 1 >? 0) eqn:E; [reflexivity|].
    rewrite Z.gtb_ltb in E. apply Z.ltb_ge in E. lia.
  - cbn [app findClose].
    assert (Hs : ~ In RPAREN s) by (intros H; apply Hno; right; exact H).
    destruct (r =? LPAREN) eqn:E1.
    + destruct (d + 1 >? 0) eqn:E; [|rewrite Z.gtb_ltb in E; apply Z.ltb_ge in E; lia].
      rewrite IH; [reflexivity|lia|exact Hs|right; lia].
    + destruct (r =? RPAREN) eqn:E2.
      * apply Z.eqb_eq in E2. subst r. exfalso. apply Hno. left; reflexivity.
      * destruct (d >? 0) eqn:E; [|rewrite Z.gtb_ltb in E; apply Z.ltb_ge in E; lia].
        rewrite IH; [reflexivity|lia|exact Hs|].
        destruct Hin as [[H|H]|H]; [|left; exact H|right; exact H].
        subst r. discriminate.
Qed.





(* ------------------------------------------------------------------ *)
(** ** The anchors of group bodies and branches *)

Lemma stripStart_spec t :
  (fst (stripStart t) = true <-> hd_error t = Some CARET) /\
  t = (if fst (stripStart t) then [CARET] else []) ++ snd (stripStart t).
Proof.
  destruct t as [|r t]; [split; [split; discriminate|reflexivity]|].
  cbn [stripStart hd_error]. destruct (r =? CARET) eqn:E; cbn [fst snd].
  - apply Z.eqb_eq in E. subst r. split; [split; reflexivity|reflexivity].
  - apply Z.eqb_neq in E. split; [|reflexivity].
    split; [discriminate|]. intros H. inversion H. contradiction.
Qed.

Lemma stripEnd_spec t :
  (fst (stripEnd t) = true <-> exists u, t = u ++ [DOLLAR]) /\
  t = snd (stripEnd t) ++ (if fst (stripEnd t) then [DOLLAR] else []).
Proof.
  destruct (snoc_cases t) as [->|(u & x & ->)].
  { split; [split; [discriminate|]|reflexivity].
    intros (u & H). destruct u; discriminate. }
  destruct (Z.eq_dec x DOLLAR) as [->|Hx].
  - rewrite stripEnd_dollar. cbn [fst snd]. split; [|reflexivity].
    split; [intros _; exists u; reflexivity|reflexivity].
  - rewrite stripEnd_no_dollar by (rewrite last_last; exact Hx).
    cbn [fst snd]. rewrite app_nil_r. split; [|reflexivity].
    split; [discriminate|]. intros (u' & H).
    apply app_inj_tail in H. destruct H as [_ H]. contradiction.
Qed.

Lemma parse_anchored_piece sa s ea es fuel cnt :
  (sa = false -> hd_error s <> Some CARET) ->
  (ea = false -> last s 0 <> DOLLAR) ->
  (forall fuel cnt, (List.length s < fuel)%nat ->
     parseElements fuel s cnt = Ok (es, cnt)) ->
  (List.length s < fuel)%nat ->
  parsePatternInternal_with (parseElements fuel) (anchored sa s ea) cnt =
  Ok (mkPattern es sa ea cnt, cnt).
Proof.
  intros Hsa Hea Hp Hf. rewrite parsePatternInternal_with_eq. unfold body_of.
  destruct (strip_anchored sa s ea Hsa Hea) as [S1 S2].
  rewrite S1. cbn [fst snd]. rewrite S2. cbn [fst snd].
  rewrite Hp by assumption. reflexivity.
Qed.

Lemma anchored_plain sa a ea :
  (forall r, In r a -> r <> LPAREN /\ r <> RPAREN /\ r <> BAR) ->
  forall r, In r (anchored sa a ea) -> r <> LPAREN /\ r <> RPAREN /\ r <> BAR.
Proof.
  intros Ha r Hr. unfold anchored in Hr.
  apply in_app_or in Hr. destruct Hr as [Hr|Hr].
  - destruct sa; [|contradiction]. destruct Hr as [<-|[]].
    repeat split; discriminate.
  - apply in_app_or in Hr. destruct Hr as [Hr|Hr]; [auto|].
    destruct ea; [|contradiction]. destruct Hr as [<-|[]].
    repeat split; discriminate.
Qed.

Lemma anchored_nonempty sa a ea : a <> [] -> anchored sa a ea <> [].
Proof.
  intros Ha H. unfold anchored in H.
  apply app_eq_nil in H. destruct H as [_ H].
  apply app_eq_nil in H. destruct H as [H _]. contradiction.
Qed.

(** C7, as the code has it.  parsePatternInternal applies one anchor rule to
    every text it is given, the outer pattern as well as each alternative of
    a group body: startAnchor is set exactly when the text begins with a
    caret, endAnchor exactly when it ends with a dollar, and the elements
    are those of the text between the two, so that neither becomes a
    literal.  The alternatives of a group body are its runs between bars at
    depth zero, each compiled by parsePatternInternal.  Hence a group body
    [^a$] compiles to a sub-pattern with both flags set and the elements of
    [a], and so does each branch of [(^a$|^b$)]; and the anchor flags of all
    sub-patterns are unset when the pattern has no caret right after an
    opening parenthesis or a bar and no dollar right before a closing
    parenthesis or a bar. *)
Theorem subpattern_anchors_follow_their_text :
  (forall fuel t cnt p cnt',
     parsePatternInternal fuel t cnt = Ok (p, cnt') ->
     (startAnchor p = true <-> hd_error t = Some CARET) /\
     (endAnchor p = true <-> exists u, t = u ++ [DOLLAR]) /\
     exists body,
       t = anchored (startAnchor p) body (endAnchor p) /\
       parseElements fuel body cnt = Ok (elements p, cnt')) /\
  (forall fuel inner cnt,
     parseAlternatives (parsePatternInternal fuel) inner cnt =
     parse_each (parsePatternInternal fuel) (pieces 0 [] inner) [] cnt) /\
  (forall pattern a sa ea,
     runes_of_string pattern = LPAREN :: anchored sa a ea ++ [RPAREN] ->
     plain_text a = true -> a <> [] ->
     exists es,
       ParseRunes a = Ok (mkPattern es false false 0) /\
       ParsePattern pattern =
         Ok (mkPattern [GroupMatcher 1 (mkPattern es sa ea 1)] false false 1)) /\
  (forall pattern a b sa1 ea1 sa2 ea2,
     runes_of_string pattern =
       LPAREN :: anchored sa1 a ea1 ++ BAR :: anchored sa2 b ea2 ++ [RPAREN] ->
     plain_text a = true -> plain_text b = true -> a <> [] -> b <> [] ->
     exists esa esb,
       ParseRunes a = Ok (mkPattern esa false false 0) /\
       ParseRunes b = Ok (mkPattern esb false false 0) /\
       ParsePattern pattern =
         Ok (mkPattern
               [GroupMatcher 1
                  (mkPattern
                     [AlternationMatcher
                        [mkPattern esa sa1 ea1 1; mkPattern esb sa2 ea2 1]]
                     false false 1)] false false 1)) /\
  (forall pattern p,
     adj_free (runes_of_string pattern) = true ->
     ParsePattern pattern = Ok p -> Forall elem_unanchored (elements p)).
Proof.
  split; [|split; [|split; [|split]]].
  - intros fuel t cnt p cnt'. unfold parsePatternInternal.
    rewrite parsePatternInternal_with_eq.
    destruct (parseElements fuel (body_of t) cnt) as [[els c]| |] eqn:P;
      try discriminate.
    cbn [rbind]. intros E; inversion E; subst. clear E.
    cbn [startAnchor endAnchor elements].
    destruct (stripStart_spec t) as [A1 A2].
    destruct (stripEnd_spec (snd (stripStart t))) as [B1 B2].
    split; [exact A1|]. split.
    + rewrite B1. split.
      * intros (u & Hu). rewrite A2, Hu.
        exists ((if fst (stripStart t) then [CARET] else []) ++ u).
        rewrite app_assoc. reflexivity.
      * intros (u & Hu). rewrite A2 in Hu.
        destruct (fst (stripStart t)); [|exists u; exact Hu].
        destruct u as [|x u]; cbn [app] in Hu.
        -- destruct (snd (stripStart t)); discriminate.
        -- inversion Hu. exists u. assumption.
    + exists (body_of t). split; [|exact P].
      unfold anchored, body_of. rewrite <- B2. exact A2.
  - intros fuel inner cnt. apply parseAlternatives_loop_pieces.
  - intros pattern a sa ea Hr Hplain Hne.
    apply plain_text_spec in Hplain. destruct Hplain as (Ha & Hh & Hl).
    destruct (parseElements_flat (S (List.length a)) a) as (es & _ & _ & Hp);
      [lia| |].
    { intros H. destruct (Ha _ H) as (H1 & _). congruence. }
    exists es. split; [apply ParseRunes_plain; assumption|].
    unfold ParsePattern. rewrite Hr.
    pose proof (anchored_plain sa a ea Ha) as Hin.
    rewrite (ParseRunes_one_group (anchored sa a ea)).
    2:{ intros r H. destruct (Hin r H) as (? & ? & ?). auto. }
    destruct (plain_pieces (anchored sa a ea) Hin (anchored_nonempty sa a ea Hne))
      as (P1 & _ & _).
    rewrite P1. cbn [parse_each].
    rewrite (parse_anchored_piece sa a ea es _ 1 (fun _ => Hh) (fun _ => Hl) Hp).
    2:{ unfold anchored. rewrite !length_app. lia. }
    reflexivity.
  - intros pattern a b sa1 ea1 sa2 ea2 Hr Hpa Hpb Hna Hnb.
    apply plain_text_spec in Hpa. destruct Hpa as (Ha & Hha & Hla).
    apply plain_text_spec in Hpb. destruct Hpb as (Hb & Hhb & Hlb).
    destruct (parseElements_flat (S (List.length a)) a) as (esa & _ & _ & Hp1);
      [lia| |].
    { intros H. destruct (Ha _ H) as (H1 & _). congruence. }
    destruct (parseElements_flat (S (List.length b)) b) as (esb & _ & _ & Hp2);
      [lia| |].
    { intros H. destruct (Hb _ H) as (H1 & _). congruence. }
    exists esa, esb. split; [apply ParseRunes_plain; assumption|].
    split; [apply ParseRunes_plain; assumption|].
    unfold ParsePattern. rewrite Hr.
    pose proof (anchored_plain sa1 a ea1 Ha) as HinA.
    pose proof (anchored_plain sa2 b ea2 Hb) as HinB.
    set (A := anchored sa1 a ea1) in *. set (B := anchored sa2 b ea2) in *.
    change (LPAREN :: A ++ BAR :: B ++ [RPAREN])
      with (LPAREN :: A ++ (BAR :: B) ++ [RPAREN]).
    rewrite app_assoc.
    rewrite (ParseRunes_one_group (A ++ BAR :: B)).
    2:{ intros r H. apply in_app_or in H. destruct H as [H|[<-|H]].
        - destruct (HinA r H) as (? & ? & ?). auto.
        - split; discriminate.
        - destruct (HinB r H) as (? & ? & ?). auto. }
    rewrite (pieces_plain A [] (BAR :: B) HinA). cbn [app pieces].
    change (BAR =? LPAREN) with false. change (BAR =? RPAREN) with false.
    change ((BAR =? BAR) && (0 =? 0)) with true. cbv iota.
    destruct (plain_pieces B HinB (anchored_nonempty sa2 b ea2 Hnb)) as (P1 & _ & _).
    rewrite P1. cbn [parse_each]. subst A B.
    rewrite (parse_anchored_piece sa1 a ea1 esa _ 1 (fun _ => Hha) (fun _ => Hla) Hp1).
    2:{ unfold anchored. rewrite !length_app. cbn [List.length].
        rewrite !length_app. lia. }
    cbn [rbind app].
    rewrite (parse_anchored_piece sa2 b ea2 esb _ 1 (fun _ => Hhb) (fun _ => Hlb) Hp2).
    2:{ unfold anchored. rewrite !length_app. cbn [List.length].
        rewrite !length_app. lia. }
    reflexivity.
  - intros pattern p Hadj. unfold ParsePattern, ParseRunes, parsePatternInternal.
    rewrite parsePatternInternal_with_eq.
    destruct (parseElements (S (List.length (runes_of_string pattern)))
                (body_of (runes_of_string pattern)) 0) as [[els c]| |] eqn:P;
      try discriminate.
    simpl. intros E; inversion E; subst. simpl.
    eapply parseElements_unanchored; [|exact P].
    apply adj_free_spec in Hadj. unfold body_of.
    destruct (stripStart_suffix (runes_of_string pattern)) as (pre & Hpre).
    destruct (stripEnd_prefix (snd (stripStart (runes_of_string pattern))))
      as (post & Hpost).
    apply (no_inner_anchor_infix pre _ post).
    rewrite <- Hpost, <- Hpre. exact Hadj.
Qed.

Lemma subpattern_anchors_follow_their_text_witness :
  (runes_of_string (lit "(^a$)") = LPAREN :: anchored true [97] true ++ [RPAREN] /\
   plain_text [97] = true /\ [97] <> [] /\
   compile "(^a$)"
   = Ok (mkPattern [GroupMatcher 1 (mkPattern [LiteralMatcher 97] true true 1)]
           false false 1)) /\
  (runes_of_string (lit "(^a|b$)")
   = LPAREN :: anchored true [97] false ++ BAR :: anchored false [98] true
       ++ [RPAREN] /\
   plain_text [97] = true /\ plain_text [98] = true /\ [97] <> [] /\ [98] <> [] /\
   compile "(^a|b$)"
   = Ok (mkPattern
           [GroupMatcher 1
              (mkPattern
                 [AlternationMatcher
                    [mkPattern [LiteralMatcher 97] true false 1;
                     mkPattern [LiteralMatcher 98] false true 1]]
                 false false 1)] false false 1)) /\
  (adj_free (runes "a(b^|$c)d") = true /\
   compile "a(b^|$c)d"
   = Ok (mkPattern
           [LiteralMatcher 97;
            GroupMatcher 1
              (mkPattern
                 [AlternationMatcher
                    [mkPattern [LiteralMatcher 98; LiteralMatcher 94] false false 1;
                     mkPattern [LiteralMatcher 36; LiteralMatcher 99] false false 1]]
                 false false 1);
            LiteralMatcher 100] false false 1) /\
   Forall elem_unanchored
     [LiteralMatcher 97;
      GroupMatcher 1
        (mkPattern
           [AlternationMatcher
              [mkPattern [LiteralMatcher 98; LiteralMatcher 94] false false 1;
               mkPattern [LiteralMatcher 36; LiteralMatcher 99] false false 1]]
           false false 1);
      LiteralMatcher 100]).
Proof.
  pose proof subpattern_anchors_follow_their_text as (_ & _ & T3 & T4 & T5).
  split; [|split].
  - assert (H1 : runes_of_string (lit "(^a$)")
                 = LPAREN :: anchored true [97] true ++ [RPAREN])
      by (vm_compute; reflexivity).
    assert (H2 : plain_text [97] = true) by reflexivity.
    assert (H3 : [97] <> []) by discriminate.
    split; [exact H1|]. split; [exact H2|]. split; [exact H3|].
    destruct (T3 (lit "(^a$)") [97] true true H1 H2 H3) as (es & E1 & E2).
    vm_compute in E1. inversion E1; subst es. exact E2.
  - assert (H1 : runes_of_string (lit "(^a|b$)")
                 = LPAREN :: anchored true [97] false ++
                   BAR :: anchored false [98] true ++ [RPAREN])
      by (vm_compute; reflexivity).
    assert (H2 : plain_text [97] = true) by reflexivity.
    assert (H3 : plain_text [98] = true) by reflexivity.
    assert (H4 : [97] <> []) by discriminate.
    assert (H5 : [98] <> []) by discriminate.
    split; [exact H1|]. split; [exact H2|]. split; [exact H3|].
    split; [exact H4|]. split; [exact H5|].
    destruct (T4 (lit "(^a|b$)") [97] [98] true false false true H1 H2 H3 H4 H5)
      as (esa & esb & E1 & E2 & E3).
    vm_compute in E1. inversion E1; subst esa.
    vm_compute in E2. inversion E2; subst esb. exact E3.
  - split; [vm_compute; reflexivity|]. split; [vm_compute; reflexivity|].
    apply (T5 (lit "a(b^|$c)d")
             (mkPattern
                [LiteralMatcher 97;
                 GroupMatcher 1
                   (mkPattern
                      [AlternationMatcher
                         [mkPattern [LiteralMatcher 98; LiteralMatcher 94] false false 1;
                          mkPattern [LiteralMatcher 36; LiteralMatcher 99] false false 1]]
                      false false 1);
                 LiteralMatcher 100] false false 1)).
    + vm_compute; reflexivity.
    + vm_compute; reflexivity.
Defined.


(* ------------------------------------------------------------------ *)
(** ** The quantifier ? against the occurrences of the rest *)

Lemma plain_is_flat els : forallb is_plain els = true -> forallb is_flat els = true.
Proof.
  induction els as [|x els IH]; [reflexivity|].
  cbn [forallb]. intros H. apply andb_true_iff in H. destruct H as [H1 H2].
  rewrite (IH H2), andb_true_r. destruct x; try discriminate; exact H1.
Qed.

Section ZeroFirst.

Variable IsDigit : rune -> bool.
Variable IsLetter : rune -> bool.

Abbreviation mHWS := (matchHereWithState IsDigit IsLetter).
Abbreviation mHWC := (matchHereWithCaptures IsDigit IsLetter).
Abbreviation mEO := (matchElementOnce IsDigit IsLetter).
Abbreviation here := (flat_here IsDigit IsLetter).
Abbreviation at_ := (occurs_at IsDigit IsLetter).

Lemma here_occurs els ea input pos e :
  0 <= pos -> here els ea input pos = Some e -> at_ els ea input pos e.
Proof. intros Hpos H. exact (flat_here_sound IsDigit IsLetter els ea input pos e Hpos H). Qed.

Lemma occurs_here els ea input pos e :
  0 <= pos <= len input -> at_ els ea input pos e ->
  exists e', here els ea input pos = Some e'.
Proof.
  intros Hpos (mid & post & H1 & H2 & _ & H4).
  exact (flat_here_complete IsDigit IsLetter els ea input pos mid post Hpos H1 H2 H4).
Qed.

(** matchHereWithCaptures on a pattern of single-rune elements, quantified
    or not, from some fuel on. *)
Lemma captures_flat els sa ea gc input pos c h :
  forallb is_plain els = true -> 0 <= pos ->
  exists F ok e h1,
    (forall fuel, (F <= fuel)%nat ->
       mHWC fuel (mkPattern els sa ea gc) input pos c h = Done (ok, e, h1)) /\
    match here els ea input pos with
    | Some e0 => ok = true /\ e = e0
    | None => ok = false
    end.
Proof.
  intros Hplain Hpos.
  destruct (captures_loop_flat IsDigit IsLetter els Hplain (mkPattern els sa ea gc)
              input pos c h Hpos) as ([[ok e] h1] & (F & Y) & T).
  exists (S F), ok, e, h1. split.
  - intros fuel Hf. destruct fuel as [|fuel]; [lia|].
    rewrite matchHereWithCaptures_S. cbn [elements]. apply Y. lia.
  - cbn [endAnchor] in T. destruct (here els ea input pos); exact T.
Qed.


End ZeroFirst.

